(** * ipcbuf: a shallow embedding of [ipcbuf.c] and the properties of its
    capacity probe, drain loop and argument handling.

    The C program talks to the kernel through system calls whose answers are
    not determined by the program.  The embedding therefore takes the kernel
    as an oracle: a state type [K] and a transition function that answers
    every call.  Program state is the set of C globals; every call and every
    line of output is appended to a trace, so that statements about the order
    of calls can be made on the trace. *)

From Stdlib Require Import ZArith List String Ascii Bool Lia Sorted.
Import ListNotations.
Local Open Scope string_scope.
Local Open Scope list_scope.
Local Open Scope Z_scope.

(** ** C [int] arithmetic *)

Definition INT_MAX : Z := 2147483647.
Definition INT_MIN : Z := -2147483648.

(** The value an [int] holds after a computation whose mathematical result
    is [z] (two's complement wrap-around). *)
Definition wrap32 (z : Z) : Z := (z + 2147483648) mod 4294967296 - 2147483648.

Definition in_int (z : Z) : Prop := INT_MIN <= z <= INT_MAX.

Definition EXIT_SUCCESS : Z := 0.
Definition EXIT_FAILURE : Z := 1.

(** ** Enumerations of the source *)

Inductive mode := LOOP | CHUNK.
Inductive ipc_type := IPC_PIPE | IPC_FIFO | IPC_SOCKETPAIR | IPC_SOCKET.
Inductive sock_type := SOCK_DGRAM | SOCK_STREAM.
Inductive sock_domain := PF_LOCAL | PF_INET | PF_INET6.

Definition mode_eqb (a b : mode) : bool :=
  match a, b with LOOP, LOOP | CHUNK, CHUNK => true | _, _ => false end.

Definition ipc_eqb (a b : ipc_type) : bool :=
  match a, b with
  | IPC_PIPE, IPC_PIPE | IPC_FIFO, IPC_FIFO
  | IPC_SOCKETPAIR, IPC_SOCKETPAIR | IPC_SOCKET, IPC_SOCKET => true
  | _, _ => false
  end.

(** ** The C globals *)

Record globals := mkGlobals {
  IPC_TYPE : ipc_type;
  MODE : mode;
  CHUNK1 : Z;
  CHUNK2 : Z;
  TOTAL : Z;
  NUM_CHUNKS : Z;
  LARGEST_CHUNK : Z;
  QUIET : bool;
  SET_RCVBUF : Z;
  SET_SNDBUF : Z;
  SET_PIPEBUF : Z;
  SET_SOCKTYPE : string;
  SOCK_TYPE : sock_type;
  SET_SOCKDOMAIN : string;
  SOCK_DOMAIN : sock_domain
}.

(** The initialisers of the globals (lines 81-97). *)
Definition initial_globals : globals :=
  {| IPC_TYPE := IPC_PIPE; MODE := LOOP; CHUNK1 := 1; CHUNK2 := -1;
     TOTAL := 0; NUM_CHUNKS := 1; LARGEST_CHUNK := 0; QUIET := false;
     SET_RCVBUF := -1; SET_SNDBUF := -1; SET_PIPEBUF := -1;
     SET_SOCKTYPE := "DGRAM"; SOCK_TYPE := SOCK_DGRAM;
     SET_SOCKDOMAIN := "PF_LOCAL"; SOCK_DOMAIN := PF_LOCAL |}.

Definition set_IPC_TYPE (v : ipc_type) (g : globals) : globals :=
  mkGlobals v (MODE g) (CHUNK1 g) (CHUNK2 g) (TOTAL g) (NUM_CHUNKS g)
    (LARGEST_CHUNK g) (QUIET g) (SET_RCVBUF g) (SET_SNDBUF g) (SET_PIPEBUF g)
    (SET_SOCKTYPE g) (SOCK_TYPE g) (SET_SOCKDOMAIN g) (SOCK_DOMAIN g).
Definition set_MODE (v : mode) (g : globals) : globals :=
  mkGlobals (IPC_TYPE g) v (CHUNK1 g) (CHUNK2 g) (TOTAL g) (NUM_CHUNKS g)
    (LARGEST_CHUNK g) (QUIET g) (SET_RCVBUF g) (SET_SNDBUF g) (SET_PIPEBUF g)
    (SET_SOCKTYPE g) (SOCK_TYPE g) (SET_SOCKDOMAIN g) (SOCK_DOMAIN g).
Definition set_CHUNK1 (v : Z) (g : globals) : globals :=
  mkGlobals (IPC_TYPE g) (MODE g) v (CHUNK2 g) (TOTAL g) (NUM_CHUNKS g)
    (LARGEST_CHUNK g) (QUIET g) (SET_RCVBUF g) (SET_SNDBUF g) (SET_PIPEBUF g)
    (SET_SOCKTYPE g) (SOCK_TYPE g) (SET_SOCKDOMAIN g) (SOCK_DOMAIN g).
Definition set_CHUNK2 (v : Z) (g : globals) : globals :=
  mkGlobals (IPC_TYPE g) (MODE g) (CHUNK1 g) v (TOTAL g) (NUM_CHUNKS g)
    (LARGEST_CHUNK g) (QUIET g) (SET_RCVBUF g) (SET_SNDBUF g) (SET_PIPEBUF g)
    (SET_SOCKTYPE g) (SOCK_TYPE g) (SET_SOCKDOMAIN g) (SOCK_DOMAIN g).
Definition set_TOTAL (v : Z) (g : globals) : globals :=
  mkGlobals (IPC_TYPE g) (MODE g) (CHUNK1 g) (CHUNK2 g) v (NUM_CHUNKS g)
    (LARGEST_CHUNK g) (QUIET g) (SET_RCVBUF g) (SET_SNDBUF g) (SET_PIPEBUF g)
    (SET_SOCKTYPE g) (SOCK_TYPE g) (SET_SOCKDOMAIN g) (SOCK_DOMAIN g).
Definition set_NUM_CHUNKS (v : Z) (g : globals) : globals :=
  mkGlobals (IPC_TYPE g) (MODE g) (CHUNK1 g) (CHUNK2 g) (TOTAL g) v
    (LARGEST_CHUNK g) (QUIET g) (SET_RCVBUF g) (SET_SNDBUF g) (SET_PIPEBUF g)
    (SET_SOCKTYPE g) (SOCK_TYPE g) (SET_SOCKDOMAIN g) (SOCK_DOMAIN g).
Definition set_LARGEST_CHUNK (v : Z) (g : globals) : globals :=
  mkGlobals (IPC_TYPE g) (MODE g) (CHUNK1 g) (CHUNK2 g) (TOTAL g) (NUM_CHUNKS g)
    v (QUIET g) (SET_RCVBUF g) (SET_SNDBUF g) (SET_PIPEBUF g)
    (SET_SOCKTYPE g) (SOCK_TYPE g) (SET_SOCKDOMAIN g) (SOCK_DOMAIN g).
Definition set_QUIET (v : bool) (g : globals) : globals :=
  mkGlobals (IPC_TYPE g) (MODE g) (CHUNK1 g) (CHUNK2 g) (TOTAL g) (NUM_CHUNKS g)
    (LARGEST_CHUNK g) v (SET_RCVBUF g) (SET_SNDBUF g) (SET_PIPEBUF g)
    (SET_SOCKTYPE g) (SOCK_TYPE g) (SET_SOCKDOMAIN g) (SOCK_DOMAIN g).
Definition set_SET_RCVBUF (v : Z) (g : globals) : globals :=
  mkGlobals (IPC_TYPE g) (MODE g) (CHUNK1 g) (CHUNK2 g) (TOTAL g) (NUM_CHUNKS g)
    (LARGEST_CHUNK g) (QUIET g) v (SET_SNDBUF g) (SET_PIPEBUF g)
    (SET_SOCKTYPE g) (SOCK_TYPE g) (SET_SOCKDOMAIN g) (SOCK_DOMAIN g).
Definition set_SET_SNDBUF (v : Z) (g : globals) : globals :=
  mkGlobals (IPC_TYPE g) (MODE g) (CHUNK1 g) (CHUNK2 g) (TOTAL g) (NUM_CHUNKS g)
    (LARGEST_CHUNK g) (QUIET g) (SET_RCVBUF g) v (SET_PIPEBUF g)
    (SET_SOCKTYPE g) (SOCK_TYPE g) (SET_SOCKDOMAIN g) (SOCK_DOMAIN g).
Definition set_SET_PIPEBUF (v : Z) (g : globals) : globals :=
  mkGlobals (IPC_TYPE g) (MODE g) (CHUNK1 g) (CHUNK2 g) (TOTAL g) (NUM_CHUNKS g)
    (LARGEST_CHUNK g) (QUIET g) (SET_RCVBUF g) (SET_SNDBUF g) v
    (SET_SOCKTYPE g) (SOCK_TYPE g) (SET_SOCKDOMAIN g) (SOCK_DOMAIN g).
Definition set_SET_SOCKTYPE (v : string) (g : globals) : globals :=
  mkGlobals (IPC_TYPE g) (MODE g) (CHUNK1 g) (CHUNK2 g) (TOTAL g) (NUM_CHUNKS g)
    (LARGEST_CHUNK g) (QUIET g) (SET_RCVBUF g) (SET_SNDBUF g) (SET_PIPEBUF g)
    v (SOCK_TYPE g) (SET_SOCKDOMAIN g) (SOCK_DOMAIN g).
Definition set_SOCK_TYPE (v : sock_type) (g : globals) : globals :=
  mkGlobals (IPC_TYPE g) (MODE g) (CHUNK1 g) (CHUNK2 g) (TOTAL g) (NUM_CHUNKS g)
    (LARGEST_CHUNK g) (QUIET g) (SET_RCVBUF g) (SET_SNDBUF g) (SET_PIPEBUF g)
    (SET_SOCKTYPE g) v (SET_SOCKDOMAIN g) (SOCK_DOMAIN g).
Definition set_SOCK_DOMAIN (name : string) (v : sock_domain) (g : globals)
  : globals :=
  mkGlobals (IPC_TYPE g) (MODE g) (CHUNK1 g) (CHUNK2 g) (TOTAL g) (NUM_CHUNKS g)
    (LARGEST_CHUNK g) (QUIET g) (SET_RCVBUF g) (SET_SNDBUF g) (SET_PIPEBUF g)
    (SET_SOCKTYPE g) (SOCK_TYPE g) name v.

(** ** The platform: what the preprocessor decides (lines 48-56, 111-157,
    299, 594-614, 631, 658, 723, 752, 821-873) *)

Record platform := mkPlatform {
  is_linux : bool;             (* __linux *)
  is_freebsd : bool;           (* __FreeBSD__ *)
  is_netbsd : bool;            (* __NetBSD__ *)
  is_sun : bool;               (* __sun *)
  has_FIONSPACE : bool;
  has_FIONWRITE : bool;
  has_SIOCOUTQ : bool;
  has_FIONREAD : bool;
  has_SIOCINQ : bool;
  has_F_SETPIPE_SZ : bool;
  has_F_GETPIPE_SZ : bool;
  PIPE_BUF : option Z;         (* the macro, when <limits.h> defines it *)
  PIPE_MAX : option Z;
  BUFSIZ : Z                   (* <stdio.h> *)
}.

(** ** errno values the program can meet *)

Inductive errno :=
| EAGAIN | EMSGSIZE | ENOBUFS
| EINTR | EPIPE | EBADF | EIO | EINVAL | ENOMEM | EFAULT | ENOSPC
| ECONNREFUSED | ECONNRESET | ENOTCONN | EDESTADDRREQ | EEXIST | ENOENT
| EADDRINUSE | EACCES | ENOTTY.

Definition errno_eqb (a b : errno) : bool :=
  match a, b with
  | EAGAIN, EAGAIN | EMSGSIZE, EMSGSIZE | ENOBUFS, ENOBUFS | EINTR, EINTR
  | EPIPE, EPIPE | EBADF, EBADF | EIO, EIO | EINVAL, EINVAL | ENOMEM, ENOMEM
  | EFAULT, EFAULT | ENOSPC, ENOSPC | ECONNREFUSED, ECONNREFUSED
  | ECONNRESET, ECONNRESET | ENOTCONN, ENOTCONN
  | EDESTADDRREQ, EDESTADDRREQ | EEXIST, EEXIST | ENOENT, ENOENT
  | EADDRINUSE, EADDRINUSE | EACCES, EACCES | ENOTTY, ENOTTY => true
  | _, _ => false
  end.

(** ** System and library calls the program makes *)

Inductive ioctl_req := FIONSPACE | FIONWRITE | SIOCOUTQ | FIONREAD | SIOCINQ.
Inductive sockopt := SO_SNDBUF | SO_SNDLOWAT | SO_RCVBUF | SO_OTHER.

Inductive syscall :=
| c_write (fd count : Z)                    (* write(fd, buf, count) *)
| c_read (fd bufsiz : Z)                    (* read(fd, buf, bufsiz) *)
| c_fcntl_nonblock (fd : Z)                 (* fcntl(fd, F_SETFL, O_NONBLOCK) *)
| c_fcntl_setpipe_sz (fd size : Z)          (* fcntl(fd, F_SETPIPE_SZ, size) *)
| c_fcntl_getpipe_sz (fd : Z)               (* fcntl(fd, F_GETPIPE_SZ, 0) *)
| c_fpathconf_pipe_buf (fd : Z)             (* fpathconf(fd, _PC_PIPE_BUF) *)
| c_ioctl (fd : Z) (req : ioctl_req)        (* ioctl(fd, req, &n) *)
| c_getsockopt (fd : Z) (opt : sockopt)
| c_setsockopt (fd : Z) (opt : sockopt) (v : Z)
| c_pipe                                    (* pipe(fd) *)
| c_mkfifo (path : string)
| c_open_rdonly_nonblock (path : string)
| c_open_wronly_nonblock (path : string)
| c_socketpair (t : sock_type)
| c_socket (d : sock_domain) (t : sock_type)
| c_inet_pton (d : sock_domain)
| c_bind (fd : Z) (d : sock_domain)
| c_listen (fd : Z)
| c_accept (fd : Z)
| c_connect (fd : Z) (d : sock_domain)
| c_fflush_stdout
| c_fork
| c_waitpid (pid : Z)
| c_usleep (usec : Z)
| c_open_proc_sys (name : string)           (* open of the /proc/sys entry *)
| c_read_text (fd : Z)                      (* read(fd, sval, BUFSIZ); [out0]
                                               is strtol of the text read *)
| c_sysctlbyname (name : string) (fetch : bool)
                                            (* [fetch = false] asks for the
                                               length only, left in [out0] *)
| c_atexit_cleanup
| c_close (fd : Z)
| c_unlink (path : string)
| c_strdup (s : string).                    (* strdup(s); [retval] 0 is NULL *)

(** What a call hands back: its return value, the value of [errno] after it
    (meaningful when the call failed), and up to two values stored through
    pointer arguments ([n] of ioctl and getsockopt, [fd[0]] and [fd[1]] of
    pipe and socketpair, the value of a sysctl). *)
Record sysret := mkRet {
  retval : Z;
  err : errno;
  out0 : Z;
  out1 : Z
}.

(** ** Output *)

Inductive stream := stdout | stderr.

Inductive parg :=
| I (z : Z)                  (* a %d or %ld argument *)
| S_ (s : string)            (* a %s argument *)
| Strerror (e : errno).      (* strerror(errno) as a %s argument *)

Inductive event :=
| Sys (c : syscall) (r : sysret)             (* a call and its answer *)
| Malloc (size : Z) (ok : bool)              (* malloc(size) *)
| Free                                       (* free(buf) *)
| Printf (s : stream) (fmt : string) (args : list parg)
| Err (label : string) (e : errno).          (* err(EXIT_FAILURE, label) *)

Definition is_stdout (e : event) : bool :=
  match e with Printf stdout _ _ => true | _ => false end.

Definition stdout_of (tr : list event) : list event := filter is_stdout tr.

(** ** The C library's string functions the program uses *)

Definition is_space (c : ascii) : bool :=
  let n := N_of_ascii c in ((n =? 32) || ((9 <=? n) && (n <=? 13)))%N.

Definition is_digit (c : ascii) : bool :=
  let n := N_of_ascii c in ((48 <=? n) && (n <=? 57))%N.

Definition digit_value (c : ascii) : Z := Z.of_N (N_of_ascii c) - 48.

Fixpoint skip_spaces (s : string) : string :=
  match s with
  | String c s' => if is_space c then skip_spaces s' else s
  | EmptyString => s
  end.

Fixpoint digits_value (s : string) (acc : Z) : Z :=
  match s with
  | String c s' =>
      if is_digit c then digits_value s' (acc * 10 + digit_value c) else acc
  | EmptyString => acc
  end.

Definition LONG_MAX : Z := 9223372036854775807.
Definition LONG_MIN : Z := -9223372036854775808.

(** [strtol(in, NULL, 10)] with a 64-bit [long]: leading white space, an
    optional sign, then the longest run of decimal digits; no digits give 0,
    and a value out of range is clamped to [LONG_MIN] or [LONG_MAX]. *)
Definition strtol (s : string) : Z :=
  match skip_spaces s with
  | String "-"%char s' => Z.max LONG_MIN (- digits_value s' 0)
  | String "+"%char s' => Z.min LONG_MAX (digits_value s' 0)
  | s' => Z.min LONG_MAX (digits_value s' 0)
  end.

Definition lower (c : ascii) : ascii :=
  let n := N_of_ascii c in
  if ((65 <=? n) && (n <=? 90))%N then ascii_of_N (n + 32) else c.

Fixpoint lower_string (s : string) : string :=
  match s with
  | String c s' => String (lower c) (lower_string s')
  | EmptyString => EmptyString
  end.

(** [strcasecmp(a, b) == 0] *)
Definition strcasecmp_eq (a b : string) : bool :=
  String.eqb (lower_string a) (lower_string b).

(** [strncmp(s, p, strlen(p)) == 0] *)
Definition has_prefix (p s : string) : bool := String.prefix p s.

(** [s + n] for a pointer into a string at least [n] long. *)
Fixpoint drop (n : nat) (s : string) : string :=
  match n, s with
  | S n', String _ s' => drop n' s'
  | _, _ => s
  end.

(** The part of [s] after its last ['.'], or [s] itself when there is no
    dot or nothing follows it ([strrchr] and the test on line 650). *)
Fixpoint after_last_dot (s : string) : option string :=
  match s with
  | EmptyString => None
  | String c s' =>
      match after_last_dot s' with
      | Some t => Some t
      | None => if Ascii.eqb c "."%char then Some s' else None
      end
  end.

Definition sysctl_short_name (s : string) : string :=
  match after_last_dot s with
  | Some (String c t) => String c t
  | _ => s
  end.

(** ** Worlds and the monad of the program *)

Section Program.

Context {K : Type}.
Variable kernel : K -> syscall -> sysret * K.
Variable pf : platform.

(** [kst] and [trace] are shared by all processes of a run; [glob] and
    [hooks] (whether [atexit(cleanup)] has registered the handler) belong to
    one process and are copied by [fork]. *)
Record world := mkWorld {
  kst : K;
  glob : globals;
  hooks : bool;
  trace : list event
}.

(** A function either returns to its caller or ends the process through
    [exit] (directly or through [err]). *)
Inductive result (A : Type) :=
| Ret (a : A) (w : world)
| Exit (status : Z) (w : world).
Arguments Ret {A} a w.
Arguments Exit {A} status w.

(** [None] stands for a loop that did not finish within its fuel. *)
Definition M (A : Type) : Type := world -> option (result A).

Definition ret {A} (a : A) : M A := fun w => Some (Ret a w).

Definition bind {A B} (m : M A) (f : A -> M B) : M B :=
  fun w =>
    match m w with
    | None => None
    | Some (Exit s w') => Some (Exit s w')
    | Some (Ret a w') => f a w'
    end.

Notation "x <- m ;; k" := (bind m (fun x => k))
  (at level 61, m at next level, right associativity).
Notation "m ;;; k" := (bind m (fun _ => k))
  (at level 61, right associativity).

Definition emit (e : event) : M unit :=
  fun w => Some (Ret tt (mkWorld (kst w) (glob w) (hooks w) (trace w ++ [e]))).

Definition do_call (c : syscall) (w : world) : sysret * world :=
  let (r, k') := kernel (kst w) c in
  (r, mkWorld k' (glob w) (hooks w) (trace w ++ [Sys c r])).

Definition call (c : syscall) : M sysret :=
  fun w => let (r, w') := do_call c w in Some (Ret r w').

(** cleanup (lines 764-768), the handler main registers with [atexit]. *)
Definition run_cleanup (w : world) : world :=
  snd (do_call (c_unlink "fifo") (snd (do_call (c_unlink "socket") w))).

Definition cleanup : M unit := fun w => Some (Ret tt (run_cleanup w)).

(** [exit(status)]: the registered handler runs, then the process ends. *)
Definition exit_ {A} (status : Z) : M A :=
  fun w => Some (Exit status (if hooks w then run_cleanup w else w)).

(** [err(EXIT_FAILURE, label)]: a diagnostic naming the failed operation,
    then exit. *)
Definition err_ {A} (label : string) (e : errno) : M A :=
  emit (Err label e) ;;; exit_ EXIT_FAILURE.

Definition printf (fmt : string) (args : list parg) : M unit :=
  emit (Printf stdout fmt args).

Definition fprintf_stderr (fmt : string) (args : list parg) : M unit :=
  emit (Printf stderr fmt args).

Definition get {A} (f : globals -> A) : M A := fun w => Some (Ret (f (glob w)) w).

Definition modify (f : globals -> globals) : M unit :=
  fun w => Some (Ret tt (mkWorld (kst w) (f (glob w)) (hooks w) (trace w))).

Definition when (b : bool) (m : M unit) : M unit := if b then m else ret tt.

(** [malloc(count)] for an [int] count.  The argument is converted to
    [size_t]; a negative [int] becomes a size of at least 2^64 - 2^31 bytes on
    an LP64 platform, which no allocator serves, so the call returns NULL.
    Requests of a non-negative [int] size are taken to succeed. *)
Definition malloc (count : Z) : M bool :=
  let ok := 0 <=? count in
  emit (Malloc count ok) ;;; ret ok.

(** ** writeChunk (lines 193-245) *)

(** The code from the label [again] on.  [count] is the size of the next
    write, [wanted] the size the caller asked for, [failed] whether a
    smaller size was already tried.  Each pass through [goto again] uses one
    unit of fuel. *)
Fixpoint writeChunk_again (fuel : nat) (fd wanted count : Z) (failed : bool)
  : M Z :=
  match fuel with
  | O => fun _ => None
  | S fuel' =>
    r <- call (c_write fd count) ;;
    let n := wrap32 (retval r) in
    if n <? 0 then
      if errno_eqb (err r) EMSGSIZE || errno_eqb (err r) ENOBUFS then
        let count := count - 1 in
        if count <? 1 then
          fprintf_stderr "Unable to write even a single byte: %s\n"
            [Strerror (err r)] ;;;
          emit Free ;;;
          ret (-1)
        else writeChunk_again fuel' fd wanted count true
      else if errno_eqb (err r) EAGAIN then
        q <- get QUIET ;;
        when (failed && negb q)
          (printf "%-15s: %8d\n" [S_ "MSGSIZE"; I count]) ;;;
        emit Free ;;;
        fprintf_stderr "Unable to write %d more byte%s: %s\n"
          [I count; S_ (if count >? 1 then "s" else ""); Strerror (err r)] ;;;
        ret (-1)
      else err_ "write" (err r)
    else
      modify (fun g => set_TOTAL (wrap32 (TOTAL g + n)) g) ;;;
      q <- get QUIET ;;
      total <- get TOTAL ;;
      when (negb q)
        (printf "Wrote %8d out of %8d byte%s. %s(Total: %8d)\n"
           [I n; I wanted; S_ (if wanted >? 1 then "s" else "");
            S_ (if wanted >? 1 then "" else " "); I total]) ;;;
      emit Free ;;;
      largest <- get LARGEST_CHUNK ;;
      when (n >? largest) (modify (set_LARGEST_CHUNK n)) ;;;
      ret n
  end.

(** The retry loop lowers [count] by one per pass and leaves when it would
    drop below 1, so [count] passes are enough; one more covers [count = 0]. *)
Definition writeChunk (fd count : Z) : M Z :=
  ok <- malloc count ;;
  if negb ok then err_ "malloc" ENOMEM
  else writeChunk_again (S (Z.to_nat count)) fd count count false.

(** ** writeLoop (lines 247-271) *)

(** The next size after a full write (lines 261-265). *)
Definition grow (inc count : Z) : Z :=
  if inc =? -1 then wrap32 (count * 2) else wrap32 (count + inc).

(** The [while (1)] loop; the value returned is the local counter [i] at the
    [break].  One unit of fuel per iteration. *)
Fixpoint writeLoop_while (fuel : nat) (fd count inc i : Z) : M Z :=
  match fuel with
  | O => fun _ => None
  | S fuel' =>
    n <- writeChunk fd count ;;
    if negb (n =? count) || (n <? 0) then
      ret (if n >? 0 then wrap32 (i + 1) else i)
    else
      writeLoop_while fuel' fd (grow inc count) inc (wrap32 (i + 1))
  end.

Definition writeLoop (fuel : nat) (fd count inc : Z) : M unit :=
  i <- writeLoop_while fuel fd count inc 0 ;;
  q <- get QUIET ;;
  when (negb q) (printf "%-15s: %8d\n" [S_ "Iterations"; I i]).

(** ** printFdQueueSize (lines 101-159) *)

(** The three strings the callers pass as [which]. *)
Inductive which_queue := q_space | q_write | q_read.

(** The request code and label chosen by the preprocessor, [None] where the
    function returns -1 at once. *)
Definition queue_request (which : which_queue) : option (ioctl_req * string) :=
  match which with
  | q_space =>
      if has_FIONSPACE pf then Some (FIONSPACE, "FIONSPACE") else None
  | q_write =>
      if has_FIONWRITE pf then Some (FIONWRITE, "FIONWRITE")
      else if has_SIOCOUTQ pf then Some (SIOCOUTQ, "SIOCOUTQ")
      else None
  | q_read =>
      if has_FIONREAD pf then Some (FIONREAD, "FIONREAD")
      else if has_SIOCINQ pf then Some (SIOCINQ, "SIOCINQ")
      else None
  end.

Definition printFdQueueSize (fd : Z) (which : which_queue) : M Z :=
  match queue_request which with
  | None => ret (-1)
  | Some (req, label) =>
    t <- get IPC_TYPE ;;
    if negb (is_freebsd pf || is_linux pf)
       || ipc_eqb t IPC_SOCKET || ipc_eqb t IPC_SOCKETPAIR then
      r <- call (c_ioctl fd req) ;;
      if retval r =? -1 then err_ "ioctl" (err r)
      else
        let n := out0 r in
        q <- get QUIET ;;
        when (negb q) (printf "%-15s: %8d\n" [S_ label; I n]) ;;;
        ret n
    else ret (-1)
  end.

(** ** writeData (lines 441-492) *)

(** The [for (; i<NUM_CHUNKS; i++)] loop, by the number of iterations left. *)
Fixpoint writeData_for (left : nat) (fd : Z) : M unit :=
  match left with
  | O => ret tt
  | S left' =>
    c2 <- get CHUNK2 ;;
    writeChunk fd c2 ;;;
    writeData_for left' fd
  end.

(** Lines 461-475: what chunk mode announces.  [i] is the local of line
    456, already set. *)
Definition writeData_announce (i : Z) : M unit :=
  q <- get QUIET ;;
  c1 <- get CHUNK1 ;;
  c2 <- get CHUNK2 ;;
  num <- get NUM_CHUNKS ;;
  when (negb q)
    (printf "Trying to write %d" [I c1] ;;;
     (if i =? 0 then
        printf " + (%d * %d) = %d"
          [I num; I c2; I (wrap32 (c1 + wrap32 (num * c2)))]
      else when ((c1 >? 1) && (num >? 1))
             (printf " * %d = %d" [I num; I (wrap32 (c1 * num))])) ;;;
     let total :=
       if i =? 0 then wrap32 (c1 + wrap32 (num * c2))
       else if (c1 >? 1) && (num >? 1) then wrap32 (c1 * num)
       else c1 in
     printf " byte%s...\n" [S_ (if total >? 1 then "s" else "")]).

(** Lines 456-479: chunk mode. *)
Definition writeData_chunks (fd : Z) : M unit :=
  c2 <- get CHUNK2 ;;
  c1 <- get CHUNK1 ;;
  let i := if c2 <? 1 then 1 else 0 in
  when (c2 <? 1) (modify (set_CHUNK2 c1)) ;;;
  writeData_announce i ;;;
  writeChunk fd c1 ;;;
  num <- get NUM_CHUNKS ;;
  writeData_for (Z.to_nat (num - i)) fd.

(** Lines 482-491: the report after the writes. *)
Definition writeData_report (fd : Z) : M unit :=
  printFdQueueSize fd q_write ;;;
  q <- get QUIET ;;
  total <- get TOTAL ;;
  (if negb q then printf "Observed total : %8d\n\n" [I total]
   else printf "%d\n" [I total]) ;;;
  t <- get IPC_TYPE ;;
  if ipc_eqb t IPC_PIPE || ipc_eqb t IPC_FIFO then
    call (c_close fd) ;;; ret tt
  else ret tt.

(** Lines 448-491: what follows once the descriptor is nonblocking. *)
Definition writeData_run (fuel : nat) (fd : Z) : M unit :=
  printFdQueueSize fd q_space ;;;
  q <- get QUIET ;;
  when (negb q) (printf "\n" []) ;;;
  m <- get MODE ;;
  (if mode_eqb m LOOP then
     c1 <- get CHUNK1 ;;
     c2 <- get CHUNK2 ;;
     writeLoop fuel fd c1 c2
   else writeData_chunks fd) ;;;
  writeData_report fd.

Definition writeData (fuel : nat) (fd : Z) : M unit :=
  r <- call (c_fcntl_nonblock fd) ;;
  if retval r <? 0 then err_ "fcntl set flags" (err r)
  else writeData_run fuel fd.

(** ** readData (lines 494-542) *)

(** The [while (1)] loop; the value returned is the local [total] at the
    [break].  One unit of fuel per iteration. *)
Fixpoint readData_while (fuel : nat) (fd bufsiz total : Z) : M Z :=
  match fuel with
  | O => fun _ => None
  | S fuel' =>
    left <- printFdQueueSize fd q_read ;;
    if left =? 0 then ret total
    else
      r <- call (c_read fd bufsiz) ;;
      let nr := wrap32 (retval r) in
      if nr <? 0 then
        if errno_eqb (err r) EAGAIN then ret total
        else err_ "read" (err r)
      else
        let total := wrap32 (total + nr) in
        if nr =? 0 then ret total
        else readData_while fuel' fd bufsiz total
  end.

(** The size of the buffer [readData] allocates (lines 504-507). *)
Definition drain_bufsiz (g : globals) : Z :=
  if LARGEST_CHUNK g >? BUFSIZ pf then LARGEST_CHUNK g else BUFSIZ pf.

(** [readData] returns nothing in C; the embedding hands back the local
    [total] so that statements can name it when [QUIET] hides the report. *)
Definition readData (fuel : nat) (fd : Z) : M Z :=
  q <- get QUIET ;;
  when (negb q) (printf "Draining...\n" []) ;;;
  bufsiz <- get drain_bufsiz ;;
  ok <- malloc bufsiz ;;
  if negb ok then err_ "malloc" ENOMEM
  else
    r <- call (c_fcntl_nonblock fd) ;;
    if retval r <? 0 then err_ "fcntl set flags" (err r)
    else
      total <- readData_while fuel fd bufsiz 0 ;;
      when (negb q) (printf "%-15s: %8d\n" [S_ "Read"; I total]) ;;;
      ret total.

(** ** printSockOpt (lines 161-191) *)

Definition sockopt_name (opt : sockopt) : option string :=
  match opt with
  | SO_SNDBUF => Some "SO_SNDBUF"
  | SO_SNDLOWAT => Some "SO_SNDLOWAT"
  | SO_RCVBUF => Some "SO_RCVBUF"
  | SO_OTHER => None
  end.

Definition printSockOpt (fd : Z) (opt : sockopt) : M unit :=
  q <- get QUIET ;;
  if q then ret tt
  else
    match sockopt_name opt with
    | None => ret tt
    | Some sopt =>
      r <- call (c_getsockopt fd opt) ;;
      if retval r <? 0 then err_ "getsockopt" (err r)
      else printf "%-15s: %8d\n" [S_ sopt; I (out0 r)]
    end.

(** ** usage (lines 273-290) *)

Definition PROGNAME : string := "ipcbuf".

Definition usage : M unit :=
  printf "Usage: %s [-chlq] [-[PRS] bufsiz] [-n num] [-s type] [-t type] [chunk] [chunk|inc]\n"
    [S_ PROGNAME] ;;;
  printf "-P size      try to set the pipe's size to this many bytes (Linux only)\n" [] ;;;
  printf "-R size      try to set the SO_RCVBUF size to this many bytes (socket/socketpair only)\n" [] ;;;
  printf "-S size      try to set the SO_SNDBUF size to this many bytes (socket/socketpair only)\n" [] ;;;
  printf "-c           write two consecutive chunks\n" [] ;;;
  printf "-h           print this help\n" [] ;;;
  printf "-l           write in a loop\n" [] ;;;
  printf "-n num       write this many additional chunks\n" [] ;;;
  printf "-q           be quiet and only print the final number\n" [] ;;;
  printf "-s type      use this type of sockt ([inet[6]-]dgram or [inet[6]-]stream)\n" [] ;;;
  printf "-t type      use this type of IPC (fifo, pipe, socket, socketpair)\n" [] ;;;
  printf "[chunk]      initial chunk size; 1 if not given\n" [] ;;;
  printf "[chunk|inc]  second chunk size or loop increment\n" [] ;;;
  printf "             if not given, use first chunk size in chunk mode, double first chunk size in loop mode\n" [].

(** ** setPipeSize (lines 292-310) *)

Definition setPipeSize (fd : Z) : M unit :=
  size <- get SET_PIPEBUF ;;
  if size =? -1 then ret tt
  else if negb (has_F_SETPIPE_SZ pf) then
    fprintf_stderr
      "Sorry, setting the pipe size is not supported on this platform.\n" [] ;;;
    exit_ EXIT_FAILURE
  else
    r <- call (c_fcntl_setpipe_sz fd size) ;;
    if retval r <? 0 then err_ "fcntl(F_SETPIPE_SZ)" (err r) else ret tt.

(** ** inputNumber (lines 312-321) *)

Definition inputNumber (input : string) (threshold : Z) : M Z :=
  let n := wrap32 (strtol input) in
  if n <? threshold then
    fprintf_stderr "Please provide a number >= %d.\n" [I threshold] ;;;
    exit_ EXIT_FAILURE
  else ret n.

(** ** parseArgs (lines 323-439) *)

(** What one call of [getopt(argc, argv, "P:R:S:chln:qs:t:")] hands back: the
    option letter, with [optarg] for the letters that take an argument.
    [opt_unknown] is ['?'], an unknown letter or a missing argument. *)
Inductive getopt_opt :=
| opt_P (optarg : string) | opt_R (optarg : string) | opt_S (optarg : string)
| opt_c | opt_h | opt_l
| opt_n (optarg : string)
| opt_q
| opt_s (optarg : string) | opt_t (optarg : string)
| opt_unknown.

(** The [while ((ch = getopt(...)) != -1)] loop; it returns the locals
    [sflag] and [type]. *)
Fixpoint parseArgs_options (opts : list getopt_opt) (sflag : bool)
  (type : option string) : M (bool * option string) :=
  match opts with
  | [] => ret (sflag, type)
  | o :: rest =>
    match o with
    | opt_P a =>
        n <- inputNumber a 1 ;; modify (set_SET_PIPEBUF n) ;;;
        parseArgs_options rest sflag type
    | opt_R a =>
        n <- inputNumber a 1 ;; modify (set_SET_RCVBUF n) ;;;
        parseArgs_options rest sflag type
    | opt_S a =>
        n <- inputNumber a 1 ;; modify (set_SET_SNDBUF n) ;;;
        parseArgs_options rest sflag type
    | opt_c => modify (set_MODE CHUNK) ;;; parseArgs_options rest sflag type
    | opt_h => usage ;;; exit_ EXIT_SUCCESS
    | opt_l => modify (set_MODE LOOP) ;;; parseArgs_options rest sflag type
    | opt_n a =>
        n <- inputNumber a 0 ;; modify (set_NUM_CHUNKS n) ;;;
        parseArgs_options rest sflag type
    | opt_q => modify (set_QUIET true) ;;; parseArgs_options rest sflag type
    | opt_s a =>
        modify (set_SET_SOCKTYPE a) ;;; parseArgs_options rest true type
    | opt_t a => parseArgs_options rest sflag (Some a)
    | opt_unknown => usage ;;; exit_ EXIT_FAILURE
    end
  end.

(** Lines 383-393: the argument of [-t].  A name that is none of the four
    leaves [IPC_TYPE] as it is. *)
Definition parseArgs_type (type : option string) : M unit :=
  match type with
  | None => ret tt
  | Some t =>
    if strcasecmp_eq t "fifo" then modify (set_IPC_TYPE IPC_FIFO)
    else if strcasecmp_eq t "pipe" then modify (set_IPC_TYPE IPC_PIPE)
    else if strcasecmp_eq t "socket" then modify (set_IPC_TYPE IPC_SOCKET)
    else if strcasecmp_eq t "socketpair" then
      modify (set_IPC_TYPE IPC_SOCKETPAIR)
    else ret tt
  end.

(** Lines 432-438: the operands. *)
Definition parseArgs_operands (operands : list string) : M unit :=
  match operands with
  | [] => ret tt
  | a0 :: more =>
    n <- inputNumber a0 0 ;;
    modify (set_CHUNK1 n) ;;;
    match more with
    | [] => ret tt
    | a1 :: _ => n <- inputNumber a1 0 ;; modify (set_CHUNK2 n)
    end
  end.

(** Lines 401-438: the checks on the socket type, then the operands. *)
Definition parseArgs_socket (sflag : bool) (operands : list string) : M unit :=
  t <- get IPC_TYPE ;;
  if sflag && negb (ipc_eqb t IPC_SOCKET)
     && negb (ipc_eqb t IPC_SOCKETPAIR) then
    fprintf_stderr
      "Setting the socket type only makes sense with '-t socket' or '-t socketpair'.\n"
      [] ;;;
    exit_ EXIT_FAILURE
  else
    st <- get SET_SOCKTYPE ;;
    if has_prefix "inet" st && negb (ipc_eqb t IPC_SOCKET) then
      fprintf_stderr
        "'inet/inet6' type sockets can only be specified with '-t socket'.\n"
        [] ;;;
      exit_ EXIT_FAILURE
    else
      (if has_prefix "inet-" st then
         modify (set_SOCK_DOMAIN "PF_INET" PF_INET) ;;;
         modify (set_SET_SOCKTYPE (drop 5 st))
       else if has_prefix "inet6-" st then
         modify (set_SOCK_DOMAIN "PF_INET6" PF_INET6) ;;;
         modify (set_SET_SOCKTYPE (drop 6 st))
       else ret tt) ;;;
      st <- get SET_SOCKTYPE ;;
      (if strcasecmp_eq st "stream" then modify (set_SOCK_TYPE SOCK_STREAM)
       else if negb (strcasecmp_eq st "dgram") then
         fprintf_stderr
           "Invalid socket type. Please use one of [inet[6]-(dgram|stream).\n"
           [] ;;;
         exit_ EXIT_FAILURE
       else ret tt) ;;;
      parseArgs_operands operands.

(** [opts] are the options in the order [getopt] yields them, [operands]
    what is left of [argv] after [optind]. *)
Definition parseArgs (opts : list getopt_opt) (operands : list string)
  : M unit :=
  st <- parseArgs_options opts false None ;;
  if (2 <? Z.of_nat (List.length operands)) then usage ;;; exit_ EXIT_FAILURE
  else
    parseArgs_type (snd st) ;;;
    t <- get IPC_TYPE ;;
    pb <- get SET_PIPEBUF ;;
    if negb (ipc_eqb t IPC_PIPE) && negb (pb =? -1) then
      fprintf_stderr
        "Setting the pipe size only makes sense with '-t pipe'.\n" [] ;;;
      exit_ EXIT_FAILURE
    else parseArgs_socket (fst st) operands.

(** ** reportTest (lines 544-579) *)

Definition plural (b : bool) : string := if b then "s" else "".

Definition reportTest (fmt : string) (args : list parg) : M unit :=
  q <- get QUIET ;;
  if q then ret tt
  else
    m <- get MODE ;;
    c1 <- get CHUNK1 ;;
    c2 <- get CHUNK2 ;;
    num <- get NUM_CHUNKS ;;
    printf "Testing " [] ;;;
    printf fmt args ;;;
    printf " buffer size in %s mode.\n"
      [S_ (if mode_eqb m CHUNK then "chunk" else "loop")] ;;;
    (if mode_eqb m LOOP then
       printf "Loop starting with %d byte%s" [I c1; S_ (plural (c1 >? 1))] ;;;
       if c2 =? -1 then printf " and doubling each iteration.\n" []
       else printf ", increasing by %d byte%s each time.\n"
              [I c2; S_ (plural (negb (c2 =? 1)))]
     else
       printf "First chunk: %d byte%s, " [I c1; S_ (plural (c1 >? 1))] ;;;
       printf "then %d more chunk%s of size %d.\n"
         [I num; S_ (plural (num >? 1)); I (if c2 <? 0 then c1 else c2)]) ;;;
    printf "\n" [].

(** ** doPipe (lines 581-627) *)

Definition doPipe (fuel : nat) : M unit :=
  r <- call c_pipe ;;
  if retval r <? 0 then err_ "pipe" (err r)
  else
    let fd0 := out0 r in
    let fd1 := out1 r in
    setPipeSize fd1 ;;;
    reportTest "pipe" [] ;;;
    q <- get QUIET ;;
    match PIPE_BUF pf with
    | Some v => when (negb q) (printf "%-15s: %8d\n" [S_ "PIPE_BUF"; I v])
    | None => ret tt
    end ;;;
    match PIPE_MAX pf with
    | Some v => when (negb q) (printf "%-15s: %8d\n" [S_ "PIPE_MAX"; I v])
    | None => ret tt
    end ;;;
    (if has_F_GETPIPE_SZ pf then
       r <- call (c_fcntl_getpipe_sz fd1) ;;
       if retval r <? 0 then err_ "fcntl(F_GETPIPE_SZ)" (err r)
       else when (negb q)
              (printf "%-15s: %8d\n" [S_ "F_GETPIPE_SZ"; I (retval r)])
     else ret tt) ;;;
    r <- call (c_fpathconf_pipe_buf fd1) ;;
    if retval r <? 0 then err_ "fpathconf" (err r)
    else
      when (negb q) (printf "%-15s: %8ld\n" [S_ "_PC_PIPE_BUF"; I (retval r)]) ;;;
      writeData fuel fd1 ;;;
      readData fuel fd0 ;;;
      ret tt.

(** ** reportSysctl (lines 629-713) *)

(** The copy made by [strdup] is an answer of the kernel, 0 standing for
    [NULL]; it is freed on the way out (line 711). *)

Definition reportSysctl (s : string) : M unit :=
  if is_sun pf then ret tt
  else
    q <- get QUIET ;;
    if q || String.eqb s "invalid" then ret tt
    else
      c <- call (c_strdup s) ;;
      if retval c =? 0 then err_ "strdup" (err c)
      else
        printf "%-15s: " [S_ (sysctl_short_name s)] ;;;
        if is_linux pf then
          r <- call (c_open_proc_sys s) ;;
          if retval r <? 0 then err_ "open" (err r)
          else
            let fd := retval r in
            r2 <- call (c_read_text fd) ;;
            if retval r2 <? 0 then err_ "read" (err r2)
            else
              call (c_close fd) ;;;
              let n := wrap32 (out0 r2) in
              if n <? 1 then err_ "strtol" (err r2)
              else printf "%8d\n" [I n] ;;; emit Free
        else
          r <- call (c_sysctlbyname s false) ;;
          if retval r <? 0 then err_ "sysctl" (err r)
          else if out0 r >? BUFSIZ pf then
            fprintf_stderr "sysctl value too large for %s\n" [S_ s] ;;;
            exit_ EXIT_FAILURE
          else
            r2 <- call (c_sysctlbyname s true) ;;
            if retval r2 <? 0 then err_ "sysctl" (err r2)
            else printf "%8d\n" [I (out0 r2)] ;;; emit Free.

(** ** setBufferSizes (lines 715-736) *)

Definition setBufferSizes (rfd wfd : Z) : M unit :=
  rcv <- get SET_RCVBUF ;;
  snd_ <- get SET_SNDBUF ;;
  (if (rfd >? 0) && (rcv >=? 0) then
     r <- call (c_setsockopt rfd SO_RCVBUF rcv) ;;
     if (retval r <? 0) && negb (is_sun pf) then err_ "setsockopt" (err r)
     else ret tt
   else ret tt) ;;;
  if (wfd >? 0) && (snd_ >=? 0) then
    r <- call (c_setsockopt wfd SO_SNDBUF snd_) ;;
    if retval r <? 0 then err_ "setsockopt" (err r) else ret tt
  else ret tt.

(** ** doSocketpair (lines 738-762) *)

Definition doSocketpair (fuel : nat) : M unit :=
  st <- get SET_SOCKTYPE ;;
  reportTest "socketpair %s" [S_ st] ;;;
  t <- get SOCK_TYPE ;;
  r <- call (c_socketpair t) ;;
  if retval r <? 0 then err_ "pipe" (err r)
  else
    let fd0 := out0 r in
    let fd1 := out1 r in
    setBufferSizes fd0 fd1 ;;;
    reportSysctl (if is_linux pf then "net.unix.max_dgram_qlen"
                  else "net.local.dgram.recvspace") ;;;
    printSockOpt fd0 SO_RCVBUF ;;;
    printSockOpt fd1 SO_SNDBUF ;;;
    writeData fuel fd1 ;;;
    readData fuel fd0 ;;;
    ret tt.

(** ** doFifo (lines 770-791) *)

Definition doFifo (fuel : nat) : M unit :=
  reportTest "fifo" [] ;;;
  r <- call (c_mkfifo "fifo") ;;
  if retval r <? 0 then err_ "fifo" (err r)
  else
    r <- call (c_open_rdonly_nonblock "fifo") ;;
    if retval r <? 0 then err_ "open" (err r)
    else
      let rfd := retval r in
      r <- call (c_open_wronly_nonblock "fifo") ;;
      if retval r <? 0 then err_ "open" (err r)
      else
        let wfd := retval r in
        writeData fuel wfd ;;;
        readData fuel rfd ;;;
        ret tt.

(** ** doSocket (lines 793-934) *)

(** The name handed to [reportSysctl] (lines 798, 819-828, 842-848,
    867-873). *)
Definition socket_sysctl (d : sock_domain) (t : sock_type) : string :=
  match d, t with
  | PF_LOCAL, SOCK_DGRAM =>
      if is_linux pf then "net.unix.max_dgram_qlen"
      else "net.local.dgram.recvspace"
  | PF_LOCAL, SOCK_STREAM =>
      if is_linux pf then "invalid" else "net.local.stream.recvspace"
  | PF_INET, SOCK_DGRAM =>
      if is_linux pf then "invalid" else "net.inet.udp.recvspace"
  | PF_INET, SOCK_STREAM =>
      if is_linux pf then "invalid" else "net.inet.tcp.recvspace"
  | PF_INET6, SOCK_DGRAM =>
      if is_netbsd pf then "net.inet6.udp6.recvspace" else "invalid"
  | PF_INET6, SOCK_STREAM =>
      if is_netbsd pf then "net.inet6.tcp6.recvspace" else "invalid"
  end.

(** Lines 800-881: the socket is created, its address filled in and bound.
    The descriptor of the bound socket is returned. *)
Definition doSocket_bind : M Z :=
  dn <- get SET_SOCKDOMAIN ;;
  st <- get SET_SOCKTYPE ;;
  reportTest "%s %s socket" [S_ dn; S_ st] ;;;
  d <- get SOCK_DOMAIN ;;
  t <- get SOCK_TYPE ;;
  r <- call (c_socket d t) ;;
  if retval r <? 0 then err_ "socket" (err r)
  else
    let wfd := retval r in
    match d with
    | PF_LOCAL => ret tt
    | PF_INET =>
        r <- call (c_inet_pton PF_INET) ;;
        if negb (retval r =? 1) then err_ "inet_pton" (err r) else ret tt
    | PF_INET6 =>
        if is_freebsd pf then ret tt
        else
          r <- call (c_inet_pton PF_INET6) ;;
          if negb (retval r =? 1) then err_ "inet_pton" (err r) else ret tt
    end ;;;
    r <- call (c_bind wfd d) ;;
    if negb (retval r =? 0) then err_ "bind" (err r)
    else
      reportSysctl (socket_sysctl d t) ;;;
      ret wfd.

(** Lines 920-933: what the writing process does once it holds [wfd]. *)
Definition doSocket_probe (fuel : nat) (rfd wfd : Z) : M unit :=
  d <- get SOCK_DOMAIN ;;
  r <- call (c_connect wfd d) ;;
  if retval r <? 0 then err_ "connect" (err r)
  else
    setBufferSizes rfd wfd ;;;
    printSockOpt wfd SO_SNDBUF ;;;
    printSockOpt rfd SO_RCVBUF ;;;
    writeData fuel wfd ;;;
    t <- get SOCK_TYPE ;;
    match t with
    | SOCK_DGRAM =>
        readData fuel rfd ;;;
        call (c_unlink "socket") ;;;
        ret tt
    | SOCK_STREAM => ret tt
    end.

(** Lines 910-917: the forked child sleeps and opens the socket it will
    connect. *)
Definition doSocket_child (fuel : nat) (rfd : Z) : M unit :=
  call (c_usleep 500) ;;;
  d <- get SOCK_DOMAIN ;;
  t <- get SOCK_TYPE ;;
  r <- call (c_socket d t) ;;
  if retval r <? 0 then err_ "socket" (err r)
  else doSocket_probe fuel rfd (retval r).

(** Lines 893-896. *)
Definition doSocket_listen (wfd : Z) : M unit :=
  r <- call (c_listen wfd) ;;
  if retval r <? 0 then err_ "listen" (err r) else ret tt.

(** Lines 897-908. *)
Definition doSocket_serve (fuel : nat) (pid wfd : Z) : M unit :=
  r <- call (c_accept wfd) ;;
  if retval r <? 0 then err_ "accept" (err r)
  else
    let rfd := retval r in
    setBufferSizes rfd (-1) ;;;
    r <- call (c_waitpid pid) ;;
    if retval r <? 0 then err_ "waitpid" (err r)
    else
      readData fuel rfd ;;;
      exit_ EXIT_SUCCESS.

(** Lines 883-892: flush, then fork.  The value returned is [pid] as the
    parent sees it. *)
Definition doSocket_fork : M Z :=
  r <- call c_fflush_stdout ;;
  if retval r <? 0 then err_ "fflush" (err r)
  else
    r <- call c_fork ;;
    if retval r <? 0 then err_ "fork" (err r) else ret (retval r).

(** A run ends with one process, or with two when a stream socket made
    [doSocket] fork: the original process and the child. *)
Definition run : Type := result unit * option (result unit).

Definition world_of {A} (r : result A) : world :=
  match r with Ret _ w => w | Exit _ w => w end.

(** The process that owns [glob] and [hooks] of [mine] takes over where the
    other process left the kernel and the trace. *)
Definition resume (mine other : world) : world :=
  mkWorld (kst other) (glob mine) (hooks mine) (trace other).

(** [after] is what the process that returns from [doSocket] goes on to do
    (in [main]: return, that is, exit with status 0).

    For a stream socket the two processes are run in this order: the parent
    listens; the child runs to its end (its connection waits in the listen
    queue and what it writes waits in the socket buffer); the parent accepts,
    waits for the child, drains and exits.  [waitpid] forces the drain to
    follow the child's exit; the parent's [accept] may return at any time
    after the child's [connect], and is placed last. *)
Definition doSocket (fuel : nat) (after : M unit) (w : world) : option run :=
  match doSocket_bind w with
  | None => None
  | Some (Exit s w1) => Some (Exit s w1, None)
  | Some (Ret wfd w1) =>
    match SOCK_TYPE (glob w1) with
    | SOCK_DGRAM =>
        match (doSocket_probe fuel wfd wfd ;;; after) w1 with
        | None => None
        | Some r => Some (r, None)
        end
    | SOCK_STREAM =>
        match doSocket_fork w1 with
        | None => None
        | Some (Exit s w2) => Some (Exit s w2, None)
        | Some (Ret pid w2) =>
          match doSocket_listen wfd w2 with
          | None => None
          | Some parent_listening =>
            match (doSocket_child fuel wfd ;;; after)
                    (resume w2 (world_of parent_listening)) with
            | None => None
            | Some child =>
              match parent_listening with
              | Exit s w3 => Some (Exit s w3, Some child)
              | Ret _ w3 =>
                match doSocket_serve fuel pid wfd
                        (resume w3 (world_of child)) with
                | None => None
                | Some parent => Some (parent, Some child)
                end
              end
            end
          end
        end
    end
  end.

(** ** main (lines 936-963) *)

Definition register_cleanup : M unit :=
  r <- call c_atexit_cleanup ;;
  if retval r <? 0 then err_ "atexit" (err r)
  else fun w =>
    Some (Ret tt (mkWorld (kst w) (glob w) (retval r =? 0) (trace w))).

Definition main (fuel : nat) (opts : list getopt_opt) (operands : list string)
  (w : world) : option run :=
  match (parseArgs opts operands ;;; register_cleanup) w with
  | None => None
  | Some (Exit s w1) => Some (Exit s w1, None)
  | Some (Ret _ w1) =>
    let one (m : M unit) :=
      match (m ;;; exit_ EXIT_SUCCESS) w1 with
      | None => None
      | Some r => Some (r, None)
      end in
    match IPC_TYPE (glob w1) with
    | IPC_FIFO => one (doFifo fuel)
    | IPC_PIPE => one (doPipe fuel)
    | IPC_SOCKET => doSocket fuel (exit_ EXIT_SUCCESS) w1
    | IPC_SOCKETPAIR => one (doSocketpair fuel)
    end
  end.

(** The state of a process when the program starts. *)
Definition start (k : K) : world := mkWorld k initial_globals false [].

End Program.

Arguments Ret {K A} a w.
Arguments Exit {K A} status w.

(** ** A sample kernel: one channel that queues bytes

    The channel holds at most [cap] bytes.  A write of zero bytes succeeds
    and changes nothing; a write of more than [maxmsg] bytes is refused with
    EMSGSIZE; a write to a full channel would block; a write that fits is
    taken whole; one that does not fit is cut short on a byte stream and would
    block on a datagram channel.  Reads hand out what is queued. *)

Record chan := mkChan {
  cap : Z;
  maxmsg : Z;
  datagram : bool;
  queued : Z;
  writer_open : bool;
  next_fd : Z
}.

Definition ok (v : Z) : sysret := mkRet v EINVAL 0 0.
Definition ok2 (v a b : Z) : sysret := mkRet v EINVAL a b.
Definition failure (e : errno) : sysret := mkRet (-1) e 0 0.

Definition with_queued (q : Z) (c : chan) : chan :=
  mkChan (cap c) (maxmsg c) (datagram c) q (writer_open c) (next_fd c).

Definition fresh_fd (c : chan) : sysret * chan :=
  (ok (next_fd c),
   mkChan (cap c) (maxmsg c) (datagram c) (queued c) (writer_open c)
     (next_fd c + 1)).

Definition chan_kernel (c : chan) (s : syscall) : sysret * chan :=
  match s with
  | c_write _ count =>
      if count =? 0 then (ok 0, c)
      else if maxmsg c <? count then (failure EMSGSIZE, c)
      else if cap c <=? queued c then (failure EAGAIN, c)
      else if queued c + count <=? cap c then
        (ok count, with_queued (queued c + count) c)
      else if datagram c then (failure EAGAIN, c)
      else (ok (cap c - queued c), with_queued (cap c) c)
  | c_read _ bufsiz =>
      if queued c =? 0 then
        if writer_open c then (failure EAGAIN, c) else (ok 0, c)
      else
        let n := Z.min (queued c) bufsiz in
        (ok n, with_queued (queued c - n) c)
  | c_ioctl _ FIONSPACE => (ok2 0 (cap c - queued c) 0, c)
  | c_ioctl _ _ => (ok2 0 (queued c) 0, c)
  | c_close _ =>
      (ok 0, mkChan (cap c) (maxmsg c) (datagram c) (queued c) false (next_fd c))
  | c_pipe | c_socketpair _ =>
      (ok2 0 (next_fd c) (next_fd c + 1),
       mkChan (cap c) (maxmsg c) (datagram c) (queued c) (writer_open c)
         (next_fd c + 2))
  | c_socket _ _ | c_accept _ | c_open_rdonly_nonblock _
  | c_open_wronly_nonblock _ | c_open_proc_sys _ => fresh_fd c
  | c_inet_pton _ => (ok 1, c)
  | c_fork => (ok 4242, c)
  | c_fpathconf_pipe_buf _ => (ok 4096, c)
  | c_fcntl_getpipe_sz _ => (ok (cap c), c)
  | c_getsockopt _ _ => (ok2 0 (cap c) 0, c)
  | c_read_text _ => (ok2 2 10 0, c)
  | c_sysctlbyname _ _ => (ok2 0 4 0, c)
  | c_strdup _ => (ok 1, c)
  | _ => (ok 0, c)
  end.

(** A byte stream of capacity [n] whose descriptors start at 3. *)
Definition stream_chan (n : Z) : chan := mkChan n INT_MAX false 0 true 3.

(** A datagram channel of capacity [n] that refuses messages above [m]. *)
Definition dgram_chan (n m : Z) : chan := mkChan n m true 0 true 3.

Definition linux : platform :=
  {| is_linux := true; is_freebsd := false; is_netbsd := false;
     is_sun := false; has_FIONSPACE := false; has_FIONWRITE := false;
     has_SIOCOUTQ := true; has_FIONREAD := true; has_SIOCINQ := true;
     has_F_SETPIPE_SZ := true; has_F_GETPIPE_SZ := true;
     PIPE_BUF := Some 4096; PIPE_MAX := None; BUFSIZ := 8192 |}.

Definition netbsd : platform :=
  {| is_linux := false; is_freebsd := false; is_netbsd := true;
     is_sun := false; has_FIONSPACE := true; has_FIONWRITE := true;
     has_SIOCOUTQ := false; has_FIONREAD := true; has_SIOCINQ := false;
     has_F_SETPIPE_SZ := false; has_F_GETPIPE_SZ := false;
     PIPE_BUF := Some 512; PIPE_MAX := None; BUFSIZ := 1024 |}.

(** * Observations on traces *)

(** The write calls of a trace, in order: descriptor, size asked, answer. *)
Fixpoint write_calls (tr : list event) : list (Z * Z * sysret) :=
  match tr with
  | [] => []
  | Sys (c_write fd count) r :: tr' => (fd, count, r) :: write_calls tr'
  | _ :: tr' => write_calls tr'
  end.

(** The read calls of a trace, in order: descriptor, buffer size, answer. *)
Fixpoint read_calls (tr : list event) : list (Z * Z * sysret) :=
  match tr with
  | [] => []
  | Sys (c_read fd bufsiz) r :: tr' => (fd, bufsiz, r) :: read_calls tr'
  | _ :: tr' => read_calls tr'
  end.

(** The sizes handed to [malloc] by [writeChunk], one per chunk. *)
Fixpoint chunks_started (tr : list event) : list Z :=
  match tr with
  | [] => []
  | Malloc size _ :: tr' => size :: chunks_started tr'
  | _ :: tr' => chunks_started tr'
  end.

(** The number of bytes a write or read answer stands for in the program:
    the return value as stored in an [int]. *)
Definition taken (r : sysret) : Z := wrap32 (retval r).

(** An answer that makes [writeChunk] try again with one byte less. *)
Definition is_shrink (r : sysret) : bool :=
  (taken r <? 0) && (errno_eqb (err r) EMSGSIZE || errno_eqb (err r) ENOBUFS).

(** [count], [count - 1], ... : [k] sizes. *)
Definition countdown (count : Z) (k : nat) : list Z :=
  map (fun j => count - Z.of_nat j) (seq 0 k).

(** What a successful write of [n] bytes does to the globals
    (lines 231 and 241-243). *)
Definition bump (n : Z) (g : globals) : globals :=
  let g1 := set_TOTAL (wrap32 (TOTAL g + n)) g in
  if n >? LARGEST_CHUNK g1 then set_LARGEST_CHUNK n g1 else g1.

(** Events [writeChunk] on [fd] may add: no call but writes on [fd] and the
    unlinks of the exit handler. *)
Definition chunk_event (fd : Z) (e : event) : bool :=
  match e with
  | Sys (c_write fd' _) _ => fd' =? fd
  | Sys (c_unlink _) _ => true
  | Sys _ _ => false
  | _ => true
  end.

Definition sum_Z (l : list Z) : Z := fold_right Z.add 0 l.

(** A write answered "would block". *)
Definition would_block (x : Z * Z * sysret) : Prop :=
  taken (snd x) < 0 /\ err (snd x) = EAGAIN.

(** No write is attempted after one that would have blocked. *)
Definition would_block_ends_strategy (tr : list event) : Prop :=
  forall pre x post,
    write_calls tr = pre ++ x :: post -> would_block x -> post = [].

(** The number of writes of a trace that took some bytes or none, that is,
    did not fail. *)
Definition accepted_writes (tr : list event) : nat :=
  List.length (filter (fun x => 0 <=? taken (snd x)) (write_calls tr)).

Definition pow2 (k : nat) : Z := 2 ^ Z.of_nat k.

(** An answer after which the drain loop issues no further read: a queue
    query that succeeded and reported depth zero, or a read that failed or
    returned zero bytes. *)
Definition drain_stop (e : event) : Prop :=
  match e with
  | Sys (c_ioctl _ _) a => retval a <> -1 /\ out0 a = 0
  | Sys (c_read _ _) a => taken a <= 0
  | _ => False
  end.

Fixpoint no_read_after_stop (tr : list event) : Prop :=
  match tr with
  | [] => True
  | e :: tr' => (drain_stop e -> read_calls tr' = []) /\ no_read_after_stop tr'
  end.

(** The bytes the reads of a trace returned (a failed read returns none). *)
Definition bytes_read (calls : list (Z * Z * sysret)) : Z :=
  sum_Z (map (fun x => Z.max 0 (taken (snd x))) calls).

(** Every read of the trace used a buffer at least as large as what any
    write of the trace took. *)
Definition drain_buffer_covers_writes (tr : list event) : Prop :=
  forall x y,
    In x (write_calls tr) -> In y (read_calls tr) ->
    taken (snd x) <= snd (fst y).

(** * Vocabulary of the statements *)

(** Calls of [unlink] only: what the exit handler adds. *)
Definition unlinks (tail : list event) : Prop :=
  Forall (fun e => exists p r, e = Sys (c_unlink p) r) tail.

(** Reflexive and transitive. *)
Definition preorder (R : globals -> globals -> Prop) : Prop :=
  (forall g, R g g) /\ (forall x y z, R x y -> R y z -> R x z).

(** Neither a write, nor a read, nor a malloc. *)
Definition quiet_event (e : event) : Prop :=
  match e with
  | Sys (c_write _ _) _ | Sys (c_read _ _) _ | Malloc _ _ => False
  | _ => True
  end.

(** Not a call to the kernel or the C library. *)
Definition no_call (e : event) : Prop :=
  match e with Sys _ _ => False | _ => True end.

(** Only the two globals the probe keeps have changed. *)
Definition same_config (g g' : globals) : Prop :=
  g' = set_LARGEST_CHUNK (LARGEST_CHUNK g') (set_TOTAL (TOTAL g') g).

(** An event the probe on [fd] may add: never a read, and a write only on
    [fd]. *)
Definition probe_event (fd : Z) (e : event) : Prop :=
  match e with
  | Sys (c_write fd' _) _ => fd' = fd
  | Sys (c_read _ _) _ => False
  | _ => True
  end.

(** An event the drain on [fd] may add: never a write, and a read only on
    [fd]. *)
Definition drain_event (fd : Z) (e : event) : Prop :=
  match e with
  | Sys (c_read fd' _) _ => fd' = fd
  | Sys (c_write _ _) _ => False
  | _ => True
  end.

(** Nothing is asked of the globals. *)
Definition any_change (g g' : globals) : Prop := True.

(** No answer reports more bytes than were asked for. *)
Definition sane (calls : list (Z * Z * sysret)) : Prop :=
  Forall (fun x => taken (snd x) <= snd (fst x)) calls.

(** Every write was taken whole. *)
Definition whole (calls : list (Z * Z * sysret)) : Prop :=
  Forall (fun x => taken (snd x) = snd (fst x)) calls.

(** What chunk mode asks for: the size of the additional chunks and their
    number (lines 456-460 and 477). *)
Definition second_size (g : globals) : Z :=
  if CHUNK2 g <? 1 then CHUNK1 g else CHUNK2 g.

(** The number of additional chunks. *)
Definition additional (g : globals) : nat :=
  Z.to_nat (if CHUNK2 g <? 1 then NUM_CHUNKS g - 1 else NUM_CHUNKS g).

(** No write of [d] took more than [LARGEST_CHUNK] records. *)
Definition covered (g : globals) (d : list event) : Prop :=
  Forall (fun x => taken (snd x) <= LARGEST_CHUNK g) (write_calls d).

(** Output, on either stream. *)
Definition is_printf (e : event) : Prop :=
  match e with Printf _ _ _ => True | _ => False end.

(** Anything but a line on standard output. *)
Definition not_stdout (e : event) : Prop := is_stdout e = false.

(** The number read from [a] is at least [threshold]. *)
Definition accepted_number (a : string) (threshold : Z) : Prop :=
  threshold <= wrap32 (strtol a).

(** An option that lets the option loop go on. *)
Definition option_accepted (o : getopt_opt) : Prop :=
  match o with
  | opt_P a | opt_R a | opt_S a => accepted_number a 1
  | opt_n a => accepted_number a 0
  | opt_h | opt_unknown => False
  | _ => True
  end.

(** The option [-s]. *)
Definition is_opt_s (o : getopt_opt) : bool :=
  match o with opt_s _ => true | _ => false end.

(** The option [-q]. *)
Definition is_opt_q (o : getopt_opt) : bool :=
  match o with opt_q => true | _ => false end.

(** The mode the options leave, [m] being the mode before them: that of the
    last [-c] or [-l]. *)
Definition mode_after (opts : list getopt_opt) (m : mode) : mode :=
  fold_left (fun m o =>
               match o with opt_c => CHUNK | opt_l => LOOP | _ => m end)
    opts m.

(** The argument of the last [-t] among the options, [t] when there is
    none. *)
Definition last_type_option (opts : list getopt_opt) (t : option string)
  : option string :=
  fold_left (fun t o => match o with opt_t a => Some a | _ => t end) opts t.

(** The transport a name stands for (lines 383-393); case is ignored. *)
Definition ipc_named (t : string) : option ipc_type :=
  if strcasecmp_eq t "fifo" then Some IPC_FIFO
  else if strcasecmp_eq t "pipe" then Some IPC_PIPE
  else if strcasecmp_eq t "socket" then Some IPC_SOCKET
  else if strcasecmp_eq t "socketpair" then Some IPC_SOCKETPAIR
  else None.

(** The argument of the last [-s] among the options, [t] when there is
    none: the socket type the checks of lines 401-430 read. *)
Definition last_socket_option (opts : list getopt_opt) (t : string) : string :=
  fold_left (fun t o => match o with opt_s a => a | _ => t end) opts t.

(** A socket type without its ["inet-"] or ["inet6-"] (lines 414-422). *)
Definition bare_socket_type (t : string) : string :=
  if has_prefix "inet-" t then drop 5 t
  else if has_prefix "inet6-" t then drop 6 t
  else t.

(** [IPC_TYPE] is as it was. *)
Definition same_transport (g g' : globals) : Prop :=
  IPC_TYPE g' = IPC_TYPE g.

(** The socket's type and domain are as they were. *)
Definition same_socket (g g' : globals) : Prop :=
  SOCK_TYPE g' = SOCK_TYPE g /\ SOCK_DOMAIN g' = SOCK_DOMAIN g
  /\ SET_SOCKTYPE g' = SET_SOCKTYPE g.

(** [QUIET] and [MODE] are as they were. *)
Definition same_report (g g' : globals) : Prop :=
  QUIET g' = QUIET g /\ MODE g' = MODE g.

(** The exit statuses of [parseArgs]: failure, or success after [-h]. *)
Definition exit_status_ok (opts : list getopt_opt) (s : Z) : Prop :=
  s = EXIT_FAILURE \/ (s = EXIT_SUCCESS /\ In opt_h opts).

(** A string of decimal digits, at least one. *)
Definition all_digits (s : string) : bool :=
  match s with
  | EmptyString => false
  | _ => forallb is_digit (list_ascii_of_string s)
  end.

(** What the option loop does to the two globals the later checks read:
    [IPC_TYPE] is not touched, and [SET_PIPEBUF] is at least 1 once a [-P]
    went through. *)
Definition options_keep (opts : list getopt_opt) (g g' : globals) : Prop :=
  IPC_TYPE g' = IPC_TYPE g
  /\ (SET_PIPEBUF g' = SET_PIPEBUF g \/ 1 <= SET_PIPEBUF g')
  /\ ((exists a, In (opt_P a) opts) -> 1 <= SET_PIPEBUF g')
  /\ ((forall a, ~ In (opt_P a) opts) -> SET_PIPEBUF g' = SET_PIPEBUF g).

(** The checks after the option loop leave [IPC_TYPE] and [SET_PIPEBUF]
    alone. *)
Definition late_keep (g g' : globals) : Prop :=
  IPC_TYPE g' = IPC_TYPE g /\ SET_PIPEBUF g' = SET_PIPEBUF g.

(** The operands [parseArgs] reads, at most two, read as numbers of at
    least 0. *)
Definition operands_accepted (operands : list string) : Prop :=
  Forall (fun a => accepted_number a 0) (firstn 2 operands).

(** The diagnostics a run with an unsupported [-P] can end with. *)
Definition pipe_size_refused (tr : list event) : Prop :=
  In (Printf stderr
        "Sorry, setting the pipe size is not supported on this platform.\n" [])
     tr
  \/ exists e, In (Err "pipe" e) tr \/ In (Err "atexit" e) tr.

(** The iteration counts a trace prints. *)
Definition reported_iterations (tr : list event) : list Z :=
  flat_map (fun e =>
              match e with
              | Printf stdout _ [S_ l; I i] =>
                  if String.eqb l "Iterations" then [i] else []
              | _ => []
              end) tr.

(** The sizes and the total of chunk mode as the initial chunk followed by
    [NUM_CHUNKS] chunks of the second size, the initial size where none was
    given. *)
Definition chunk_sizes_as_stated (g : globals) : list Z :=
  CHUNK1 g
  :: repeat (if CHUNK2 g =? -1 then CHUNK1 g else CHUNK2 g)
       (Z.to_nat (NUM_CHUNKS g)).

(** A line on standard output. *)
Definition stdout_line (e : event) : Prop :=
  match e with Printf stdout _ _ => True | _ => False end.

(** The calls of a trace, in order, without their answers. *)
Definition calls_of (tr : list event) : list syscall :=
  flat_map (fun e => match e with Sys c _ => [c] | _ => [] end) tr.

(** The first call of [tr] satisfies [P]. *)
Definition next_call (P : syscall -> Prop) (tr : list event) : Prop :=
  exists c, hd_error (calls_of tr) = Some c /\ P c.

(** What the drain loop on [fd] issues: a queue query, or a read into its
    buffer. *)
Definition query_or_read (fd bufsiz : Z) (c : syscall) : Prop :=
  c = c_read fd bufsiz \/ exists req, c = c_ioctl fd req.

(** The drain goes on until it is told to stop: a read that returned some
    bytes is followed by another query or read, and a queue query that
    succeeded with a depth other than zero is followed by a read. *)
Fixpoint reads_go_on (fd bufsiz : Z) (tr : list event) : Prop :=
  match tr with
  | [] => True
  | e :: tr' =>
      match e with
      | Sys (c_read _ _) a =>
          0 < taken a -> next_call (query_or_read fd bufsiz) tr'
      | Sys (c_ioctl _ _) a =>
          retval a <> -1 -> out0 a <> 0 ->
          next_call (eq (c_read fd bufsiz)) tr'
      | _ => True
      end
      /\ reads_go_on fd bufsiz tr'
  end.

(** The [setsockopt] calls of a trace, in order: descriptor, option, value,
    answer. *)
Definition setsockopt_calls (tr : list event)
  : list (Z * sockopt * Z * sysret) :=
  flat_map (fun e =>
              match e with
              | Sys (c_setsockopt fd opt v) a => [(fd, opt, v, a)]
              | _ => []
              end) tr.

(** [s] holds no ['.']. *)
Fixpoint no_dot (s : string) : bool :=
  match s with
  | EmptyString => true
  | String c s' => negb (Ascii.eqb c "."%char) && no_dot s'
  end.

(** What the probe on [fd] may do: its calls are [fcntl], [ioctl], [write]
    and [close], all on [fd]; the [unlink]s are those of the exit handler. *)
Definition probe_call (fd : Z) (e : event) : Prop :=
  match e with
  | Sys (c_write fd' _) _ | Sys (c_fcntl_nonblock fd') _
  | Sys (c_ioctl fd' _) _ | Sys (c_close fd') _ => fd' = fd
  | Sys (c_unlink _) _ => True
  | Sys _ _ => False
  | _ => True
  end.

(** What the probe on [fd] does before its last step: as [probe_call], but
    no [close]. *)
Definition before_close (fd : Z) (e : event) : Prop :=
  match e with
  | Sys (c_write fd' _) _ | Sys (c_fcntl_nonblock fd') _
  | Sys (c_ioctl fd' _) _ => fd' = fd
  | Sys (c_unlink _) _ => True
  | Sys _ _ => False
  | _ => True
  end.

(** What the drain on [fd] may do: its calls are [fcntl], [ioctl] and
    [read], all on [fd]; the [unlink]s are those of the exit handler. *)
Definition drain_call (fd : Z) (e : event) : Prop :=
  match e with
  | Sys (c_read fd' _) _ | Sys (c_fcntl_nonblock fd') _
  | Sys (c_ioctl fd' _) _ => fd' = fd
  | Sys (c_unlink _) _ => True
  | Sys _ _ => False
  | _ => True
  end.

(** The globals are as they were, but for the three the probe writes:
    [TOTAL], [LARGEST_CHUNK] and [CHUNK2]. *)
Definition keeps_setup (g g' : globals) : Prop :=
  g' = set_CHUNK2 (CHUNK2 g')
         (set_LARGEST_CHUNK (LARGEST_CHUNK g') (set_TOTAL (TOTAL g') g)).

(** In the events [d] every write is on [wfd] and every read on [rfd], and
    no write follows a read. *)
Definition probe_before_drain (rfd wfd : Z) (d : list event) : Prop :=
  exists before after,
    d = before ++ after
    /\ read_calls before = []
    /\ Forall (fun x => fst (fst x) = wfd) (write_calls before)
    /\ write_calls after = []
    /\ Forall (fun y => fst (fst y) = rfd) (read_calls after).

(** The trace ends with the two calls of the exit handler. *)
Definition ends_with_cleanup (tr : list event) : Prop :=
  exists l a b,
    tr = l ++ [Sys (c_unlink "socket") a; Sys (c_unlink "fifo") b].

(** Nothing, or the total [t] as a bare number: what [-q] leaves of the
    output. *)
Definition at_most_the_total (t : Z) (l : list event) : Prop :=
  l = [] \/ l = [Printf stdout "%d\n" [I t]].

(** What a process that owns the one socket [fd] may do: it creates no
    other socket, neither forks nor listens nor accepts nor waits, and every
    call that takes a socket takes [fd]. *)
Definition on_socket (fd : Z) (e : event) : Prop :=
  match e with
  | Sys (c_write fd' _) _ | Sys (c_read fd' _) _
  | Sys (c_fcntl_nonblock fd') _ | Sys (c_ioctl fd' _) _
  | Sys (c_getsockopt fd' _) _ | Sys (c_setsockopt fd' _ _) _
  | Sys (c_bind fd' _) _ | Sys (c_connect fd' _) _ => fd' = fd
  | Sys (c_socket _ _) _ | Sys (c_socketpair _) _ | Sys c_pipe _
  | Sys c_fork _ | Sys (c_listen _) _ | Sys (c_accept _) _
  | Sys (c_waitpid _) _ => False
  | _ => True
  end.

(** What the process that writes to a stream socket may do, [wfd] being
    its own socket and [rfd] the one it inherited: it never reads, accepts,
    listens, forks or waits; it connects, probes and writes on [wfd] only;
    the receive buffer it sets or queries is that of [rfd], the send buffer
    that of [wfd]. *)
Definition writer_event (rfd wfd : Z) (e : event) : Prop :=
  match e with
  | Sys (c_read _ _) _ | Sys (c_accept _) _ | Sys (c_listen _) _
  | Sys c_fork _ | Sys (c_waitpid _) _ | Sys (c_socket _ _) _ => False
  | Sys (c_write fd _) _ | Sys (c_connect fd _) _
  | Sys (c_fcntl_nonblock fd) _ | Sys (c_ioctl fd _) _ => fd = wfd
  | Sys (c_setsockopt fd opt _) _ | Sys (c_getsockopt fd opt) _ =>
      (opt = SO_RCVBUF /\ fd = rfd) \/ (opt = SO_SNDBUF /\ fd = wfd)
  | _ => True
  end.

(** What the process that reads from the accepted connection [fd] may do:
    it never writes, connects, forks or creates a socket; it reads and
    queries [fd] only, and the one buffer size it may set is the receive
    buffer of [fd]. *)
Definition reader_event (fd : Z) (e : event) : Prop :=
  match e with
  | Sys (c_write _ _) _ | Sys (c_connect _ _) _ | Sys (c_socket _ _) _
  | Sys c_fork _ | Sys (c_accept _) _ | Sys (c_getsockopt _ _) _ => False
  | Sys (c_read fd' _) _ | Sys (c_fcntl_nonblock fd') _
  | Sys (c_ioctl fd' _) _ => fd' = fd
  | Sys (c_setsockopt fd' opt _) _ => fd' = fd /\ opt = SO_RCVBUF
  | _ => True
  end.

(** The one status with which the probe and the drain end the process. *)
Definition failed (s : Z) : Prop := s = EXIT_FAILURE.

(** The exit handler is not registered by this event. *)
Definition no_atexit (e : event) : Prop :=
  match e with Sys c_atexit_cleanup _ => False | _ => True end.

Section Vocabulary.

Context {K : Type}.
Variable kernel : K -> syscall -> sysret * K.

Abbreviation world := (@world K).
Abbreviation result := (@result K).
Abbreviation M := (@M K).

(** The world after the [malloc] that opens [writeChunk]. *)
Definition after_malloc (count : Z) (w : world) : world :=
  mkWorld (kst w) (glob w) (hooks w) (trace w ++ [Malloc count true]).

(** The world [exit] leaves behind. *)
Definition exited (w : world) : world :=
  if hooks w then run_cleanup kernel w else w.

(** How a call of [writeChunk] that started in [w] and added the events
    [delta] ended, read off its last write (of [size] bytes, answered by
    [a]). *)
Inductive chunk_end (w : world) (delta : list event) (size : Z) (a : sysret)
  : result Z -> Prop :=
| end_wrote w' :
    0 <= taken a ->
    glob w' = bump (taken a) (glob w) ->
    chunk_end w delta size a (Ret (taken a) w')
| end_would_block w' :
    taken a < 0 -> err a = EAGAIN ->
    glob w' = glob w ->
    In (Printf stderr "Unable to write %d more byte%s: %s\n"
          [I size; S_ (if size >? 1 then "s" else ""); Strerror (err a)])
       delta ->
    chunk_end w delta size a (Ret (-1) w')
| end_not_a_byte w' :
    taken a < 0 -> err a = EMSGSIZE \/ err a = ENOBUFS ->
    size - 1 < 1 ->
    glob w' = glob w ->
    In (Printf stderr "Unable to write even a single byte: %s\n"
          [Strerror (err a)]) delta ->
    chunk_end w delta size a (Ret (-1) w')
| end_fatal w' :
    taken a < 0 ->
    err a <> EAGAIN -> err a <> EMSGSIZE -> err a <> ENOBUFS ->
    glob w' = glob w ->
    In (Err "write" (err a)) delta ->
    chunk_end w delta size a (Exit EXIT_FAILURE w').

(** What the retry loop does from a world [w] on, with [count] the size of
    its first write. *)
Definition retry_post (fd count : Z) (w : world) (r : result Z) : Prop :=
  exists (delta : list event) (pre : list (Z * Z * sysret)) (a : sysret),
    trace (world_of r) = trace w ++ delta
    /\ hooks (world_of r) = hooks w
    /\ Forall (fun e => chunk_event fd e = true) delta
    /\ chunks_started delta = []
    /\ write_calls delta = pre ++ [(fd, count - Z.of_nat (List.length pre), a)]
    /\ map (fun x => fst x) pre = map (pair fd) (countdown count (List.length pre))
    /\ Forall (fun x => is_shrink (snd x) = true) pre
    /\ Z.of_nat (List.length pre) < Z.max 1 count
    /\ chunk_end w delta (count - Z.of_nat (List.length pre)) a r.

(** [full_writes fd inc c w l c' w']: from world [w] and size [c], the
    calls of [writeChunk] with sizes [l], each grown from the one before,
    were all written in full; [c'] is the size that comes next and [w'] the
    world then. *)
Inductive full_writes (fd inc : Z)
  : Z -> world -> list Z -> Z -> world -> Prop :=
| fw_nil c w : full_writes fd inc c w [] c w
| fw_cons c w w1 l c' w' :
    writeChunk kernel fd c w = Some (Ret c w1) ->
    0 <= c ->
    full_writes fd inc (grow inc c) w1 l c' w' ->
    full_writes fd inc c w (c :: l) c' w'.

(** [emits P R m]: whatever [m] adds to the trace satisfies [P], the
    globals it leaves are related by [R] to those it found, and it leaves the
    exit handler as registered as it was. *)
Definition emits {A} (P : event -> Prop) (R : globals -> globals -> Prop)
  (m : M A) : Prop :=
  forall (w : world) r,
    m w = Some r ->
    exists delta,
      trace (world_of r) = trace w ++ delta
      /\ Forall P delta
      /\ R (glob w) (glob (world_of r))
      /\ hooks (world_of r) = hooks w.

(** [m] comes to an end from every world, whatever the fuel it was given. *)
Definition total {A} (m : M A) : Prop :=
  forall w : world, exists r, m w = Some r.

(** [cli P Q R S m]: started without exit handler, [m] calls nothing: it
    comes to an end, leaves the kernel as it was and registers no handler;
    the events it adds satisfy [P]; when it returns, they satisfy [Q] and the
    globals are related by [R]; when it exits, the status satisfies [S]. *)
Definition cli {A} (P Q : event -> Prop) (R : globals -> globals -> Prop)
  (S : Z -> Prop) (m : M A) : Prop :=
  forall (w : world),
    hooks w = false ->
    exists r d,
      m w = Some r
      /\ hooks (world_of r) = false
      /\ kst (world_of r) = kst w
      /\ trace (world_of r) = trace w ++ d
      /\ Forall P d
      /\ match r with
         | Ret _ w' => Forall Q d /\ R (glob w) (glob w')
         | Exit s _ => S s
         end.

(** What a piece of [parseArgs] does from a world [w] without exit
    handler: it calls nothing, and prints only on its way out. *)
Definition cli_step {A} (w : world) (r : result A) (d : list event) : Prop :=
  hooks (world_of r) = false
  /\ kst (world_of r) = kst w
  /\ trace (world_of r) = trace w ++ d
  /\ Forall is_printf d
  /\ (forall a w', r = Ret a w' -> d = []).

(** What the option loop has established when it ends. *)
Definition options_post (opts : list getopt_opt) (sflag : bool) (w : world)
  (r : result (bool * option string)) : Prop :=
  match r with
  | Ret st w' =>
      Forall option_accepted opts
      /\ fst st = sflag || existsb is_opt_s opts
      /\ options_keep opts (glob w) (glob w')
  | Exit s _ => exit_status_ok opts s /\ ~ Forall option_accepted opts
  end.

(** What [-q] leaves of the output of a piece that ended as [r]: nothing,
    or the total as a bare number; and exactly that number when the piece
    returned. *)
Definition only_the_total {A} (r : result A) (l : list event) : Prop :=
  at_most_the_total (TOTAL (glob (world_of r))) l
  /\ forall a w', r = Ret a w' ->
                  l = [Printf stdout "%d\n" [I (TOTAL (glob w'))]].

(** [hushed L m]: started with [QUIET] set, [m] leaves it set, and what it
    prints on standard output satisfies [L]. *)
Definition hushed {A} (L : result A -> list event -> Prop) (m : M A) : Prop :=
  forall (w : world) r,
    QUIET (glob w) = true ->
    m w = Some r ->
    exists d,
      trace (world_of r) = trace w ++ d
      /\ L r (stdout_of d)
      /\ QUIET (glob (world_of r)) = true.

(** [tidy S m]: [m] leaves the registration of the exit handler as it
    was, and when it ends the process it does so through [exit], with a
    status that satisfies [S]: the world is the one the handler, if
    registered, leaves behind. *)
Definition tidy {A} (S : Z -> Prop) (m : M A) : Prop :=
  forall (w : world) r,
    m w = Some r ->
    match r with
    | Ret _ w' => hooks w' = hooks w
    | Exit s w' =>
        S s /\ exists w0 : world, hooks w0 = hooks w /\ w' = exited w0
    end.

(** [dies_of label e r l]: the piece that ended as [r] ended the process
    with [err(EXIT_FAILURE, label)], [errno] being [e], and [l] is what that
    added: the diagnostic, then the calls of the exit handler. *)
Definition dies_of {A} (label : string) (e : errno) (r : result A)
  (l : list event) : Prop :=
  exists (w' : world) tail,
    r = Exit EXIT_FAILURE w' /\ l = Err label e :: tail /\ unlinks tail.

(** [registered h w]: [h] tells whether the exit handler is registered
    in [w], and it is whenever [atexit] was called and answered 0. *)
Definition registered (h : bool) (w : world) : Prop :=
  hooks w = h
  /\ forall a, In (Sys c_atexit_cleanup a) (trace w) -> retval a = 0 ->
               h = true.

(** [m] never returns to its caller. *)
Definition no_return {A} (m : M A) : Prop :=
  forall (w : world) a w', m w <> Some (Ret a w').

(** [one_way rfd wfd m]: whatever [m] does is a probe on [wfd] followed by
    a drain on [rfd]; the exit handler stays as registered as it was. *)
Definition one_way {A} (rfd wfd : Z) (m : M A) : Prop :=
  forall (w : world) r,
    m w = Some r ->
    exists d,
      trace (world_of r) = trace w ++ d
      /\ probe_before_drain rfd wfd d
      /\ hooks (world_of r) = hooks w.

End Vocabulary.

(** * Facts *)

Lemma wrap32_id z : INT_MIN <= z <= INT_MAX -> wrap32 z = z.
Proof.
  unfold wrap32, INT_MIN, INT_MAX. intros H.
  rewrite Z.mod_small by lia. lia.
Qed.

Lemma wrap32_range z : INT_MIN <= wrap32 z <= INT_MAX.
Proof.
  unfold wrap32, INT_MIN, INT_MAX.
  pose proof (Z.mod_pos_bound (z + 2147483648) 4294967296 ltac:(lia)). lia.
Qed.

Lemma wrap32_add_l a b : wrap32 (wrap32 a + b) = wrap32 (a + b).
Proof.
  unfold wrap32.
  replace ((a + 2147483648) mod 4294967296 - 2147483648 + b + 2147483648)
    with ((a + 2147483648) mod 4294967296 + b) by lia.
  rewrite Zplus_mod_idemp_l. f_equal. f_equal. lia.
Qed.

Lemma write_calls_app a b : write_calls (a ++ b) = write_calls a ++ write_calls b.
Proof.
  induction a as [|e a IH]; simpl; auto.
  destruct e as [c r| | | |]; auto. destruct c; simpl; auto. now rewrite IH.
Qed.

Lemma read_calls_app a b : read_calls (a ++ b) = read_calls a ++ read_calls b.
Proof.
  induction a as [|e a IH]; simpl; auto.
  destruct e as [c r| | | |]; auto. destruct c; simpl; auto. now rewrite IH.
Qed.

Lemma chunks_started_app a b :
  chunks_started (a ++ b) = chunks_started a ++ chunks_started b.
Proof.
  induction a as [|e a IH]; simpl; auto.
  destruct e; simpl; auto. now rewrite IH.
Qed.

Lemma countdown_S count k :
  countdown count (S k) = count :: countdown (count - 1) k.
Proof.
  unfold countdown. simpl. f_equal; [lia|].
  rewrite <- seq_shift, map_map. apply map_ext. intros; lia.
Qed.

Section Facts.

Context {K : Type}.
Variable kernel : K -> syscall -> sysret * K.
Variable pf : platform.

Abbreviation world := (@world K).
Abbreviation result := (@result K).
Abbreviation emits := (emits (K:=K)).

Lemma do_call_spec c (w : world) :
  exists r k',
    do_call kernel c w = (r, mkWorld k' (glob w) (hooks w) (trace w ++ [Sys c r]))
    /\ kernel (kst w) c = (r, k').
Proof.
  unfold do_call. destruct (kernel (kst w) c) as [r k']. eauto.
Qed.

Lemma run_cleanup_spec (w : world) :
  exists r1 r2,
    trace (run_cleanup kernel w)
    = trace w ++ [Sys (c_unlink "socket") r1; Sys (c_unlink "fifo") r2]
    /\ glob (run_cleanup kernel w) = glob w
    /\ hooks (run_cleanup kernel w) = hooks w.
Proof.
  unfold run_cleanup.
  destruct (do_call_spec (c_unlink "socket") w) as (r1 & k1 & E1 & _).
  rewrite E1. simpl.
  match goal with |- context [do_call kernel ?c ?w1] =>
    destruct (do_call_spec c w1) as (r2 & k2 & E2 & _) end.
  rewrite E2. simpl. exists r1, r2. rewrite <- app_assoc. auto.
Qed.

Lemma exited_spec (w : world) :
  exists tail,
    trace (exited kernel w) = trace w ++ tail
    /\ glob (exited kernel w) = glob w /\ hooks (exited kernel w) = hooks w
    /\ Forall (fun e => exists p r, e = Sys (c_unlink p) r) tail.
Proof.
  unfold exited. destruct (hooks w) eqn:H.
  - destruct (run_cleanup_spec w) as (r1 & r2 & E & G & Hk).
    eexists; repeat split; eauto; try congruence.
    repeat constructor; eauto.
  - exists []. rewrite app_nil_r. auto.
Qed.

(** ** One call of writeChunk *)

Lemma errno_eqb_eq a b : errno_eqb a b = true <-> a = b.
Proof. destruct a, b; simpl; split; intro H; try reflexivity; discriminate. Qed.

Lemma chunk_end_same_glob (w w0 : world) delta d0 size a r :
  glob w0 = glob w ->
  (forall e, In e delta -> In e d0) ->
  chunk_end w delta size a r -> chunk_end w0 d0 size a r.
Proof.
  intros G Hin H. destruct H.
  - apply end_wrote; auto. now rewrite G.
  - apply end_would_block; auto. now rewrite G.
  - apply end_not_a_byte; auto. now rewrite G.
  - apply end_fatal; auto. now rewrite G.
Qed.

Ltac split_all := repeat match goal with |- _ /\ _ => split end.

Ltac leaf :=
  split_all; simpl;
  rewrite ?Z.sub_0_r, <- ?app_assoc, ?Z.eqb_refl; simpl;
  try reflexivity; try lia;
  try solve [repeat constructor; simpl; rewrite ?Z.eqb_refl; auto].

Lemma unlinks_inert fd (tail : list event) :
  Forall (fun e => exists p r, e = Sys (c_unlink p) r) tail ->
  write_calls tail = [] /\ read_calls tail = [] /\ chunks_started tail = []
  /\ stdout_of tail = []
  /\ Forall (fun e => chunk_event fd e = true) tail.
Proof.
  induction 1 as [|e l (p & r & ->) _ (I1 & I2 & I3 & I4 & I5)]; simpl; auto.
  repeat split; auto.
Qed.

Lemma writeChunk_again_spec fuel :
  forall fd wanted count failed (w : world),
    (Z.to_nat count < fuel)%nat ->
    exists r,
      writeChunk_again kernel fuel fd wanted count failed w = Some r
      /\ retry_post fd count w r.
Proof.
  induction fuel as [|fuel IH]; intros fd wanted count failed w Hf; [lia|].
  cbn [writeChunk_again]. unfold bind at 1. unfold call.
  destruct (do_call_spec (c_write fd count) w) as (a & k' & E & _).
  rewrite E. clear E. fold (taken a).
  destruct (taken a <? 0) eqn:Hneg.
  - apply Z.ltb_lt in Hneg.
    destruct (errno_eqb (err a) EMSGSIZE || errno_eqb (err a) ENOBUFS) eqn:Hs.
    + assert (Hsh : is_shrink a = true).
      { unfold is_shrink. rewrite Hs. apply Z.ltb_lt in Hneg. now rewrite Hneg. }
      assert (He : err a = EMSGSIZE \/ err a = ENOBUFS).
      { apply orb_true_iff in Hs. rewrite !errno_eqb_eq in Hs. exact Hs. }
      destruct (count - 1 <? 1) eqn:Hc.
      * apply Z.ltb_lt in Hc.
        eexists; split; [reflexivity|].
        exists ([Sys (c_write fd count) a;
                 Printf stderr "Unable to write even a single byte: %s\n"
                   [Strerror (err a)]; Free]), [], a.
        leaf. apply end_not_a_byte; simpl; auto; lia.
      * apply Z.ltb_ge in Hc.
        match goal with |- context [writeChunk_again _ _ _ _ _ _ ?w1] =>
          destruct (IH fd wanted (count - 1) true w1 ltac:(lia))
            as (r & Er & delta & pre & a' & Ht & Hh & Hev & Hch & Hw & Hm
                & Hp & Hl & Hend) end.
        exists r; split; [exact Er|].
        exists (Sys (c_write fd count) a :: delta), ((fd, count, a) :: pre), a'.
        simpl List.length. rewrite countdown_S.
        replace (count - Z.of_nat (S (List.length pre)))
          with (count - 1 - Z.of_nat (List.length pre)) by lia.
        split_all.
        -- rewrite Ht. simpl. now rewrite <- app_assoc.
        -- rewrite Hh. reflexivity.
        -- constructor; [simpl; apply Z.eqb_refl | exact Hev].
        -- simpl. exact Hch.
        -- simpl. now rewrite Hw.
        -- simpl. now rewrite Hm.
        -- constructor; auto.
        -- lia.
        -- eapply chunk_end_same_glob; [| |exact Hend]; [reflexivity|].
           intros e He'. now right.
    + apply orb_false_iff in Hs. destruct Hs as [Hs1 Hs2].
      assert (err a <> EMSGSIZE) by (intro X; apply errno_eqb_eq in X; congruence).
      assert (err a <> ENOBUFS) by (intro X; apply errno_eqb_eq in X; congruence).
      destruct (errno_eqb (err a) EAGAIN) eqn:Ha.
      * apply errno_eqb_eq in Ha.
        unfold bind, get, when, printf, fprintf_stderr, emit, ret. simpl.
        destruct (failed && negb (QUIET (glob w))); simpl;
          (eexists; split; [reflexivity|]);
          eexists; exists [], a; leaf;
          apply end_would_block; simpl; auto 10.
      * assert (err a <> EAGAIN) by (intro X; apply errno_eqb_eq in X; congruence).
        unfold err_, bind, emit, exit_. simpl.
        match goal with |- context [Some (Exit _ ?x)] =>
          match x with
          | if _ then _ else ?y => change x with (exited kernel y);
              remember y as wx eqn:Hwx;
              destruct (exited_spec wx) as (tail & Tt & Tg & Th & Tf)
          end
        end.
        eexists; split; [reflexivity|].
        exists (Sys (c_write fd count) a :: Err "write" (err a) :: tail), [], a.
        destruct (unlinks_inert fd tail Tf) as (N1 & _ & N2 & _ & N3).
        split_all.
        -- simpl. rewrite Tt. subst wx. simpl. now rewrite <- !app_assoc.
        -- simpl. rewrite Th. now subst wx.
        -- constructor; [simpl; apply Z.eqb_refl|]. constructor; auto.
        -- exact N2.
        -- simpl. now rewrite N1, Z.sub_0_r.
        -- reflexivity.
        -- constructor.
        -- simpl. lia.
        -- apply end_fatal; simpl; auto. rewrite Tg. now subst wx.
  - apply Z.ltb_ge in Hneg.
    unfold bind, get, modify, when, printf, emit, ret. simpl.
    destruct (negb (QUIET (glob w))); simpl;
      destruct (taken a >? LARGEST_CHUNK (glob w)) eqn:Hl; simpl;
      (eexists; split; [reflexivity|]);
      eexists; exists [], a; leaf;
      apply end_wrote; simpl; auto;
      unfold bump; simpl; now rewrite Hl.
Qed.

Lemma writeChunk_unfold fd count (w : world) :
  0 <= count ->
  writeChunk kernel fd count w
  = writeChunk_again kernel (S (Z.to_nat count)) fd count count false
      (after_malloc count w).
Proof.
  intros H. unfold writeChunk, malloc, bind, emit, ret. simpl.
  apply Z.leb_le in H. now rewrite H.
Qed.

Lemma writeChunk_spec fd count (w : world) :
  0 <= count ->
  exists r,
    writeChunk kernel fd count w = Some r
    /\ retry_post fd count (after_malloc count w) r.
Proof.
  intros H. rewrite writeChunk_unfold by exact H.
  apply writeChunk_again_spec. lia.
Qed.

Lemma exit_spec {A} status (w : world) :
  @exit_ K kernel A status w = Some (Exit status (exited kernel w)).
Proof. reflexivity. Qed.

Lemma err_spec {A} label e (w : world) :
  exists w' tail,
    @err_ K kernel A label e w = Some (Exit EXIT_FAILURE w')
    /\ glob w' = glob w /\ hooks w' = hooks w /\ kst w' = kst (exited kernel w)
    /\ trace w' = trace w ++ Err label e :: tail
    /\ unlinks tail.
Proof.
  unfold err_, bind, emit. rewrite exit_spec.
  match goal with |- context [exited kernel ?y] =>
    remember y as wx eqn:Hwx;
    destruct (exited_spec wx) as (tail & Tt & Tg & Th & Tf)
  end.
  eexists; exists tail; split; [reflexivity|].
  rewrite Tt, Tg, Th. subst wx. simpl. rewrite <- !app_assoc.
  repeat split; auto.
  unfold exited. simpl. destruct (hooks w); auto.
  unfold run_cleanup, do_call. simpl.
  destruct (kernel (kst w) (c_unlink "socket")) as [r1 k1]. simpl.
  destruct (kernel k1 (c_unlink "fifo")) as [r2 k2]. reflexivity.
Qed.

(** A negative size: [malloc] fails and the process ends. *)
Lemma writeChunk_negative fd count (w : world) :
  count < 0 ->
  exists w' tail,
    writeChunk kernel fd count w = Some (Exit EXIT_FAILURE w')
    /\ glob w' = glob w /\ hooks w' = hooks w
    /\ trace w' = trace w ++ Malloc count false :: Err "malloc" ENOMEM :: tail
    /\ unlinks tail.
Proof.
  intros H. unfold writeChunk, malloc. unfold bind at 1 2. unfold emit, ret.
  simpl. apply Z.leb_gt in H. rewrite H. simpl.
  match goal with |- context [err_ _ ?l ?e ?y] =>
    destruct (@err_spec Z l e y) as (w' & tail & E & G & Hh & _ & T & U) end.
  exists w', tail. rewrite E. simpl in *. rewrite T, <- app_assoc. auto.
Qed.

(** Every call of [writeChunk] comes to an end. *)
Lemma writeChunk_total fd count (w : world) :
  exists r, writeChunk kernel fd count w = Some r.
Proof.
  destruct (Z_lt_le_dec count 0) as [H|H].
  - destruct (writeChunk_negative fd count w H) as (w' & t & E & _). eauto.
  - destruct (writeChunk_spec fd count w H) as (r & E & _). eauto.
Qed.

(** Once there is enough fuel for the retry loop, more changes nothing. *)
Lemma writeChunk_again_fuel fuel :
  forall fuel' fd wanted count failed (w : world),
    (Z.to_nat count < fuel)%nat -> (fuel <= fuel')%nat ->
    writeChunk_again kernel fuel' fd wanted count failed w
    = writeChunk_again kernel fuel fd wanted count failed w.
Proof.
  induction fuel as [|fuel IH]; intros fuel' fd wanted count failed w H1 H2;
    [lia|].
  destruct fuel' as [|fuel']; [lia|].
  cbn [writeChunk_again]. unfold bind, call.
  destruct (do_call kernel (c_write fd count) w) as [a w1].
  destruct (wrap32 (retval a) <? 0); [|reflexivity].
  destruct (errno_eqb (err a) EMSGSIZE || errno_eqb (err a) ENOBUFS);
    [|reflexivity].
  destruct (count - 1 <? 1) eqn:Hc; [reflexivity|].
  apply Z.ltb_ge in Hc. apply IH; lia.
Qed.

(** ** What a call of writeChunk leaves behind *)

Lemma writeChunk_inv fd count (w : world) r :
  writeChunk kernel fd count w = Some r ->
  (0 <= count /\ retry_post fd count (after_malloc count w) r)
  \/ (count < 0 /\ exists w' tail,
        r = Exit EXIT_FAILURE w' /\ glob w' = glob w /\ hooks w' = hooks w
        /\ trace w' = trace w ++ Malloc count false :: Err "malloc" ENOMEM :: tail
        /\ unlinks tail).
Proof.
  intros E. destruct (Z_lt_le_dec count 0) as [H|H].
  - right. split; [exact H|].
    destruct (writeChunk_negative fd count w H) as (w' & t & E' & R).
    exists w', t. split; [congruence|exact R].
  - left. split; [exact H|].
    destruct (writeChunk_spec fd count w H) as (r' & E' & R).
    congruence.
Qed.

(** A call that returns either wrote [n >= 0] bytes and booked them, or
    returned -1 and left the globals alone. *)
Lemma writeChunk_ret fd count (w : world) n w' :
  writeChunk kernel fd count w = Some (Ret n w') ->
  0 <= count
  /\ hooks w' = hooks w
  /\ ((n = -1 /\ glob w' = glob w)
      \/ (0 <= n <= INT_MAX /\ glob w' = bump n (glob w))).
Proof.
  intros E. destruct (writeChunk_inv _ _ _ _ E) as [(H & R)|(H & w2 & t & X & _)];
    [|discriminate].
  split; [exact H|].
  destruct R as (delta & pre & a & Ht & Hh & _ & _ & _ & _ & _ & _ & Hend).
  split; [exact Hh|].
  inversion Hend; subst.
  - right. split; auto. split; auto. apply wrap32_range.
  - left. auto.
  - left. auto.
Qed.

Lemma writeChunk_exit fd count (w : world) s w' :
  writeChunk kernel fd count w = Some (Exit s w') ->
  s = EXIT_FAILURE /\ glob w' = glob w /\ hooks w' = hooks w.
Proof.
  intros E.
  destruct (writeChunk_inv _ _ _ _ E) as [(H & R)|(H & w2 & t & X & G & Hh & _)].
  - destruct R as (delta & pre & a & Ht & Hh & _ & _ & _ & _ & _ & _ & Hend).
    inversion Hend; subst. auto.
  - inversion X; subst. auto.
Qed.

Lemma bump_TOTAL n g : TOTAL (bump n g) = wrap32 (TOTAL g + n).
Proof. unfold bump. simpl. destruct (n >? LARGEST_CHUNK g); reflexivity. Qed.

Lemma bump_LARGEST n g : LARGEST_CHUNK (bump n g) = Z.max (LARGEST_CHUNK g) n.
Proof.
  unfold bump. simpl. destruct (n >? LARGEST_CHUNK g) eqn:E; simpl.
  - apply Z.gtb_lt in E. lia.
  - rewrite Z.gtb_ltb in E. apply Z.ltb_ge in E. lia.
Qed.

(** ** The loop of writeLoop *)

Lemma writeLoop_while_spec fuel :
  forall fd count inc i (w : world) r,
    in_int i ->
    writeLoop_while kernel fuel fd count inc i w = Some r ->
    exists l cl wl,
      full_writes kernel fd inc count w l cl wl
      /\ match r with
         | Ret j w' =>
             exists n,
               writeChunk kernel fd cl wl = Some (Ret n w')
               /\ (n <> cl \/ n < 0)
               /\ j = wrap32 (i + Z.of_nat (List.length l)
                              + (if n >? 0 then 1 else 0))
         | Exit s w' => writeChunk kernel fd cl wl = Some (Exit s w')
         end.
Proof.
  induction fuel as [|fuel IH]; intros fd count inc i w r Hi E; [discriminate|].
  cbn [writeLoop_while] in E. unfold bind at 1 in E.
  destruct (writeChunk kernel fd count w) as [[n w1|s w1]|] eqn:Ec;
    [| |discriminate].
  - destruct (negb (n =? count) || (n <? 0)) eqn:Hstop.
    + unfold ret in E. inversion E; subst; clear E.
      exists [], count, w. split; [constructor|].
      exists n. split; [exact Ec|]. split.
      * apply orb_true_iff in Hstop. destruct Hstop as [H|H].
        -- left. apply negb_true_iff, Z.eqb_neq in H. exact H.
        -- right. apply Z.ltb_lt in H. exact H.
      * simpl. rewrite Z.add_0_r.
        destruct (n >? 0); [reflexivity|].
        rewrite Z.add_0_r. symmetry. apply wrap32_id. exact Hi.
    + apply orb_false_iff in Hstop. destruct Hstop as [H1 H2].
      apply negb_false_iff, Z.eqb_eq in H1. apply Z.ltb_ge in H2. subst n.
      destruct (IH _ _ _ _ _ _ (wrap32_range (i + 1)) E)
        as (l & cl & wl & Hfw & Hr).
      exists (count :: l), cl, wl. split.
      * econstructor; eauto.
      * destruct r as [j w'|s w']; [|exact Hr].
        destruct Hr as (n & En & Hn & Hj). exists n. repeat split; auto.
        rewrite Hj. simpl List.length.
        rewrite <- Z.add_assoc, wrap32_add_l. f_equal. lia.
  - inversion E; subst. exists [], count, w. split; [constructor|exact Ec].
Qed.

(** A full write books its size. *)
Lemma full_write_books fd c (w : world) w1 :
  writeChunk kernel fd c w = Some (Ret c w1) -> 0 <= c ->
  glob w1 = bump c (glob w) /\ hooks w1 = hooks w /\ c <= INT_MAX.
Proof.
  intros E Hc. destruct (writeChunk_ret _ _ _ _ _ E) as (_ & Hh & [(X & _)|(R & G)]).
  - lia.
  - repeat split; auto. lia.
Qed.

(** The running total after a run of full writes. *)
Lemma full_writes_total fd inc c (w : world) l c' w' :
  full_writes kernel fd inc c w l c' w' ->
  in_int (TOTAL (glob w)) ->
  TOTAL (glob w') = wrap32 (TOTAL (glob w) + sum_Z l)
  /\ hooks w' = hooks w.
Proof.
  induction 1 as [c w|c w w1 l c' w' E Hc _ IH]; intros Hi.
  - simpl. rewrite Z.add_0_r. split; [|auto]. symmetry. now apply wrap32_id.
  - destruct (full_write_books _ _ _ _ E Hc) as (G & Hh & _).
    assert (Hi1 : in_int (TOTAL (glob w1))).
    { rewrite G, bump_TOTAL. apply wrap32_range. }
    destruct (IH Hi1) as (T & Hh').
    split; [|congruence].
    rewrite T, G, bump_TOTAL, wrap32_add_l. simpl. f_equal. lia.
Qed.

Lemma full_writes_split fd inc l1 :
  forall c (w : world) l2 c' w',
    full_writes kernel fd inc c w (l1 ++ l2) c' w' ->
    exists cm wm,
      full_writes kernel fd inc c w l1 cm wm /\ full_writes kernel fd inc cm wm l2 c' w'.
Proof.
  induction l1 as [|x l1 IH]; intros c w l2 c' w' H; simpl in H.
  - exists c, w. split; [constructor|exact H].
  - inversion H as [|c0 w0 w1 l0 c0' w0' E Hc Hrest]; subst.
    destruct (IH _ _ _ _ _ Hrest) as (cm & wm & A & B).
    exists cm, wm. split; [econstructor; eauto|exact B].
Qed.

(** Sizes written in full are ints, and never shrink from one to the next
    when the size is doubled or a non-negative int is added. *)
Lemma grow_ge inc c :
  inc = -1 \/ 0 <= inc <= INT_MAX ->
  0 <= c <= INT_MAX -> 0 <= grow inc c -> c <= grow inc c.
Proof.
  unfold grow, INT_MAX. intros Hinc Hc.
  destruct (inc =? -1) eqn:E.
  - unfold wrap32. intros H.
    destruct (Z_lt_le_dec (c * 2) 2147483648) as [L|L].
    + rewrite Z.mod_small in * by lia. lia.
    + exfalso.
      replace (c * 2 + 2147483648) with ((c * 2 - 2147483648) + 1 * 4294967296) in H by lia.
      rewrite Z_mod_plus_full, Z.mod_small in H by lia. lia.
  - apply Z.eqb_neq in E. destruct Hinc as [?|Hinc]; [lia|].
    unfold wrap32. intros H.
    destruct (Z_lt_le_dec (c + inc) 2147483648) as [L|L].
    + rewrite Z.mod_small in * by lia. lia.
    + exfalso.
      replace (c + inc + 2147483648)
        with ((c + inc - 2147483648) + 1 * 4294967296) in H by lia.
      rewrite Z_mod_plus_full, Z.mod_small in H by lia. lia.
Qed.

Lemma full_writes_sorted fd inc c (w : world) l c' w' :
  inc = -1 \/ 0 <= inc <= INT_MAX ->
  full_writes kernel fd inc c w l c' w' ->
  Sorted Z.le l /\ Forall (fun x => 0 <= x <= INT_MAX) l.
Proof.
  intros Hinc. induction 1 as [c w|c w w1 l c' w' E Hc Hfw (IH1 & IH2)].
  - split; constructor.
  - destruct (full_write_books _ _ _ _ E Hc) as (_ & _ & Hm).
    split; [|constructor; auto].
    constructor; [exact IH1|].
    inversion Hfw; subst; constructor.
    apply grow_ge; auto.
Qed.

Lemma countdown_snoc count k :
  countdown count (S k) = countdown count k ++ [count - Z.of_nat k].
Proof. unfold countdown. rewrite seq_S, map_app. reflexivity. Qed.

Lemma countdown_length count k : List.length (countdown count k) = k.
Proof. unfold countdown. now rewrite length_map, length_seq. Qed.

Lemma countdown_nth count k q :
  (q < k)%nat -> nth q (countdown count k) 0 = count - Z.of_nat q.
Proof.
  intros H. unfold countdown.
  rewrite (nth_indep _ 0 (count - Z.of_nat 0))
    by (now rewrite length_map, length_seq).
  rewrite (map_nth (fun j => count - Z.of_nat j) (seq 0 k) 0%nat q).
  now rewrite seq_nth by exact H.
Qed.

(** The sizes of the writes of one chunk, as [retry_post] gives them. *)
Lemma retry_sizes fd count (pre : list (Z * Z * sysret)) a :
  map (fun x => fst x) pre = map (pair fd) (countdown count (List.length pre)) ->
  map (fun x => snd (fst x))
      (pre ++ [(fd, count - Z.of_nat (List.length pre), a)])
  = countdown count (S (List.length pre)).
Proof.
  intros H. rewrite map_app, countdown_snoc. simpl. f_equal.
  rewrite <- (map_map (fun x => fst x) snd), H, map_map. simpl.
  now rewrite map_id.
Qed.

(** C5: the shrink step ends and never raises the size.  From any positive
    size, writeChunk comes to a result with whatever fuel covers the size;
    it issues at least one and at most [count] writes; their sizes are
    [count], [count - 1], ... (each exactly one below the one before, all
    at least 1); every write but the last was refused as too large; and
    when the last one is refused as too large as well, [count] writes were
    made and the call returns -1: the size has reached zero. *)
Theorem shrink_terminates_and_decreases fd count (w : world) :
  0 < count ->
  exists r delta,
    writeChunk kernel fd count w = Some r
    /\ (forall fuel, (Z.to_nat count < fuel)%nat ->
          writeChunk_again kernel fuel fd count count false
            (after_malloc count w) = Some r)
    /\ trace (world_of r) = trace w ++ delta
    /\ chunks_started delta = [count]
    /\ let sizes := map (fun x => snd (fst x)) (write_calls delta) in
       (1 <= List.length sizes)%nat
       /\ Z.of_nat (List.length sizes) <= count
       /\ sizes = countdown count (List.length sizes)
       /\ Forall (fun c => 1 <= c <= count) sizes
       /\ (forall p q, (p < q < List.length sizes)%nat ->
             nth q sizes 0 < nth p sizes 0)
       /\ (exists pre a,
             write_calls delta = pre ++ [a]
             /\ Forall (fun x => is_shrink (snd x) = true) pre
             /\ (is_shrink (snd a) = true ->
                   Z.of_nat (List.length sizes) = count
                   /\ exists w', r = Ret (-1) w')).
Proof.
  intros Hc.
  destruct (writeChunk_spec fd count w ltac:(lia)) as (r & E & R).
  destruct R as (delta & pre & a & Ht & Hh & Hev & Hch & Hw & Hm & Hp & Hl & Hend).
  exists r, (Malloc count true :: delta).
  split; [exact E|]. split.
  { intros fuel Hf. rewrite writeChunk_unfold in E by lia.
    rewrite <- E. apply writeChunk_again_fuel; lia. }
  split. { rewrite Ht. simpl. now rewrite <- app_assoc. }
  split. { simpl. now rewrite Hch. }
  cbv zeta. simpl write_calls. rewrite Hw, retry_sizes by exact Hm.
  rewrite countdown_length.
  split; [lia|]. split; [lia|]. split; [reflexivity|]. split.
  { apply Forall_forall. intros c Hin.
    apply In_nth with (d := 0) in Hin. destruct Hin as (q & Hq & <-).
    rewrite countdown_length in Hq. rewrite countdown_nth by exact Hq. lia. }
  split.
  { intros p q Hpq. rewrite !countdown_nth by lia. lia. }
  exists pre, (fd, count - Z.of_nat (List.length pre), a).
  split; [reflexivity|]. split; [exact Hp|].
  simpl. intros Hs. unfold is_shrink in Hs.
  apply andb_true_iff in Hs. destruct Hs as (Hs1 & Hs2).
  apply Z.ltb_lt in Hs1. apply orb_true_iff in Hs2.
  rewrite !errno_eqb_eq in Hs2.
  inversion Hend; subst; try lia.
  - destruct Hs2; congruence.
  - split; [lia|eauto].
  - destruct Hs2; congruence.
Qed.

(** C10: one call of writeChunk and the probe state.  A call that returns
    gives -1 or some [n >= 0].  With -1 (the last write would have blocked,
    or was refused as too large at a size that cannot shrink further) the
    globals are as before, so the running total and the largest chunk are
    unchanged.  With [n >= 0], [n] is what the last write took, whatever
    size was asked; the total has grown by [n] (as an [int]; exactly [n]
    when the sum fits) and the largest chunk is the maximum of its old value
    and [n]. *)
Theorem writeChunk_books_exactly_what_was_written fd count (w : world) n w' :
  writeChunk kernel fd count w = Some (Ret n w') ->
  (n = -1 \/ 0 <= n)
  /\ (n = -1 -> glob w' = glob w)
  /\ (0 <= n ->
        TOTAL (glob w') = wrap32 (TOTAL (glob w) + n)
        /\ (in_int (TOTAL (glob w) + n) ->
              TOTAL (glob w') = TOTAL (glob w) + n)
        /\ LARGEST_CHUNK (glob w') = Z.max (LARGEST_CHUNK (glob w)) n)
  /\ exists delta pre size a,
       trace w' = trace w ++ delta
       /\ write_calls delta = pre ++ [(fd, size, a)]
       /\ size <= count
       /\ (0 <= n -> n = taken a)
       /\ (n = -1 ->
             taken a < 0
             /\ (err a = EAGAIN
                 \/ ((err a = EMSGSIZE \/ err a = ENOBUFS) /\ size <= 1))).
Proof.
  intros E.
  destruct (writeChunk_inv _ _ _ _ E) as [(H & R)|(H & w2 & t & X & _)];
    [|discriminate].
  destruct R as (delta & pre & a & Ht & Hh & Hev & Hch & Hw & Hm & Hp & Hl & Hend).
  assert (Hcases :
    (n = -1 /\ glob w' = glob w /\ taken a < 0
     /\ (err a = EAGAIN
         \/ ((err a = EMSGSIZE \/ err a = ENOBUFS)
             /\ count - Z.of_nat (List.length pre) <= 1)))
    \/ (0 <= n /\ n = taken a /\ glob w' = bump n (glob w))).
  { inversion Hend; subst.
    - right. auto.
    - left. auto.
    - left. repeat split; auto. right. split; auto. lia. }
  split. { destruct Hcases as [(? & _)|(? & _)]; auto. }
  split. { intros ->. destruct Hcases as [(_ & G & _)|(? & _)]; [exact G|lia]. }
  split.
  { intros Hn. destruct Hcases as [(? & _)|(_ & _ & G)]; [lia|].
    rewrite G, bump_TOTAL, bump_LARGEST. repeat split; auto.
    intros Hi. now apply wrap32_id. }
  exists (Malloc count true :: delta), pre,
    (count - Z.of_nat (List.length pre)), a.
  split. { simpl in Ht. rewrite Ht. simpl. now rewrite <- app_assoc. }
  split. { exact Hw. }
  split. { lia. }
  split. { intros Hn. destruct Hcases as [(? & _)|(_ & ? & _)]; [lia|auto]. }
  intros ->. destruct Hcases as [(_ & _ & ? & ?)|(? & _)]; [auto|lia].
Qed.

(** C4: the loop of loop mode.  For doubling ([inc = -1]) or a non-negative
    increment, a run of the loop that ends consists of calls written in
    full, with sizes [l], followed by one call that was not.  The sizes [l]
    never decrease; after the first [N] of them the running total is the
    total at the start plus their sum (as an [int]; exactly that when it
    fits); and the loop ends at the first call that does not return its full
    size, or at the call that ends the process. *)
Theorem loop_mode_is_monotonic_and_sums fuel fd count inc (w : world) r :
  inc = -1 \/ 0 <= inc <= INT_MAX ->
  in_int (TOTAL (glob w)) ->
  writeLoop_while kernel fuel fd count inc 0 w = Some r ->
  exists l cl wl,
    full_writes kernel fd inc count w l cl wl
    /\ Sorted Z.le l
    /\ (forall N, exists cN wN,
          full_writes kernel fd inc count w (firstn N l) cN wN
          /\ TOTAL (glob wN) = wrap32 (TOTAL (glob w) + sum_Z (firstn N l))
          /\ (TOTAL (glob w) + sum_Z (firstn N l) <= INT_MAX ->
                TOTAL (glob wN) = TOTAL (glob w) + sum_Z (firstn N l)))
    /\ match r with
       | Ret _ w' =>
           exists n, writeChunk kernel fd cl wl = Some (Ret n w')
                     /\ (n <> cl \/ n < 0)
       | Exit s w' =>
           writeChunk kernel fd cl wl = Some (Exit s w') /\ s = EXIT_FAILURE
       end.
Proof.
  intros Hinc Hi E.
  assert (H0 : in_int 0) by (unfold in_int, INT_MIN, INT_MAX; lia).
  destruct (writeLoop_while_spec _ _ _ _ _ _ _ H0 E) as (l & cl & wl & Hfw & Hr).
  exists l, cl, wl. split; [exact Hfw|].
  destruct (full_writes_sorted _ _ _ _ _ _ _ Hinc Hfw) as (Hs & Hpos).
  split; [exact Hs|]. split.
  - intros N.
    rewrite <- (firstn_skipn N l) in Hfw.
    destruct (full_writes_split _ _ _ _ _ _ _ _ Hfw) as (cN & wN & A & _).
    exists cN, wN. split; [exact A|].
    destruct (full_writes_total _ _ _ _ _ _ _ A Hi) as (T & _).
    split; [exact T|].
    intros Hfit. rewrite T. apply wrap32_id.
    assert (0 <= sum_Z (firstn N l)).
    { assert (F : Forall (fun x => 0 <= x <= INT_MAX) (firstn N l)).
      { rewrite <- (firstn_skipn N l) in Hpos.
        apply Forall_app in Hpos. tauto. }
      clear - F. induction F; simpl; lia. }
    unfold in_int in *. lia.
  - destruct r as [j w'|s w'].
    + destruct Hr as (n & En & Hn & _). eauto.
    + split; [exact Hr|]. now destruct (writeChunk_exit _ _ _ _ _ Hr).
Qed.

(** ** Traces of the loop *)

Lemma shrink_not_would_block (l : list (Z * Z * sysret)) :
  Forall (fun x => is_shrink (snd x) = true) l ->
  Forall (fun x => ~ would_block x) l.
Proof.
  apply Forall_impl. intros x H [_ E]. unfold is_shrink in H.
  rewrite E in H. simpl in H. now rewrite andb_false_r in H.
Qed.

(** If only the last element of a list can be a would-block answer, nothing
    follows a would-block answer. *)
Lemma last_only (l : list (Z * Z * sysret)) tailing :
  Forall (fun x => ~ would_block x) l ->
  (List.length tailing <= 1)%nat ->
  forall pre x post,
    l ++ tailing = pre ++ x :: post -> would_block x -> post = [].
Proof.
  intros Hl Ht pre x post E Hx.
  destruct post as [|y post]; [reflexivity|exfalso].
  assert (Hin : In x l).
  { destruct tailing as [|t [|? ?]]; [| |simpl in Ht; lia].
    - rewrite app_nil_r in E. subst l. apply in_elt.
    - destruct (exists_last (l := y :: post) ltac:(discriminate))
        as (post' & z & Ep).
      rewrite Ep in E.
      change (pre ++ x :: post' ++ [z]) with (pre ++ (x :: post') ++ [z]) in E.
      rewrite app_assoc in E. apply app_inj_tail in E. destruct E as [E _].
      subst l. apply in_elt. }
  eapply Forall_forall in Hl; [|exact Hin]. contradiction.
Qed.

(** The writes of one call of [writeChunk]: refusals for size, then at
    most one more answer. *)
Lemma writeChunk_calls fd count (w : world) r :
  writeChunk kernel fd count w = Some r ->
  exists delta pre tailing,
    trace (world_of r) = trace w ++ delta
    /\ write_calls delta = pre ++ tailing
    /\ Forall (fun x => is_shrink (snd x) = true) pre
    /\ (List.length tailing <= 1)%nat
    /\ (forall n w', r = Ret n w' -> 0 <= n ->
          Forall (fun x => ~ would_block x) tailing).
Proof.
  intros E.
  destruct (writeChunk_inv _ _ _ _ E)
    as [(H & R)|(H & w2 & t & X & _ & _ & T & U)].
  - destruct R as (delta & pre & a & Ht & Hh & Hev & Hch & Hw & Hm & Hp & Hl & Hend).
    exists (Malloc count true :: delta), pre,
      [(fd, count - Z.of_nat (List.length pre), a)].
    split. { rewrite Ht. simpl. now rewrite <- app_assoc. }
    split; [exact Hw|]. split; [exact Hp|]. split; [simpl; lia|].
    intros n w' -> Hn. constructor; [|constructor].
    intros [Hneg _]. simpl in Hneg. inversion Hend; subst; lia.
  - subst r. exists (Malloc count false :: Err "malloc" ENOMEM :: t), [], [].
    split; [exact T|]. simpl.
    destruct (unlinks_inert fd t U) as (N1 & _). rewrite N1.
    repeat split; auto.
Qed.

Lemma full_writes_calls fd inc c (w : world) l c' w' :
  full_writes kernel fd inc c w l c' w' ->
  exists delta,
    trace w' = trace w ++ delta
    /\ Forall (fun x => ~ would_block x) (write_calls delta).
Proof.
  induction 1 as [c w|c w w1 l c' w' E Hc _ (d2 & T2 & F2)].
  - exists []. rewrite app_nil_r. split; [reflexivity|constructor].
  - destruct (writeChunk_calls _ _ _ _ E)
      as (d1 & pre & tl & T1 & W1 & P1 & _ & L1).
    exists (d1 ++ d2). split.
    + rewrite T2. simpl in T1. rewrite T1. now rewrite app_assoc.
    + rewrite write_calls_app, W1. apply Forall_app. split; [|exact F2].
      apply Forall_app. split; [now apply shrink_not_would_block|].
      eapply L1; eauto.
Qed.

(** In loop mode nothing is written after a would-block answer. *)
Lemma writeLoop_while_stops_at_would_block fuel fd count inc (w : world) r :
  writeLoop_while kernel fuel fd count inc 0 w = Some r ->
  exists delta,
    trace (world_of r) = trace w ++ delta
    /\ would_block_ends_strategy delta.
Proof.
  intros E.
  assert (H0 : in_int 0) by (unfold in_int, INT_MIN, INT_MAX; lia).
  destruct (writeLoop_while_spec _ _ _ _ _ _ _ H0 E) as (l & cl & wl & Hfw & Hr).
  destruct (full_writes_calls _ _ _ _ _ _ _ Hfw) as (d1 & T1 & F1).
  assert (Hlast : exists r0, writeChunk kernel fd cl wl = Some r0
                             /\ world_of r0 = world_of r).
  { destruct r as [j w'|s w']; [|eauto].
    destruct Hr as (n & En & _). eauto. }
  destruct Hlast as (r0 & E0 & W0).
  destruct (writeChunk_calls _ _ _ _ E0) as (d2 & pre & tl & T2 & W2 & P2 & L2 & _).
  exists (d1 ++ d2). split.
  - rewrite <- W0, T2, T1. now rewrite app_assoc.
  - intros p x post Hc Hx.
    rewrite write_calls_app, W2, app_assoc in Hc.
    eapply last_only; [| |exact Hc|exact Hx]; [|exact L2].
    apply Forall_app. split; [exact F1|].
    now apply shrink_not_would_block.
Qed.

(** C1 (amended): how one call of writeChunk treats the answers to its
    writes.  The writes of the call belong to one chunk and go down in size
    by exactly one; every write but the last was refused as too large
    (EMSGSIZE or ENOBUFS).  The last answer decides the call: bytes taken end
    it with that number; a refusal as too large, at a size that cannot shrink
    further, ends it with -1 and the report that not a single byte could be
    written; a would-block answer ends it with -1, the process going on and the
    globals untouched; any other failure ends the process with
    EXIT_FAILURE.  In loop mode no write follows a would-block answer. *)
Theorem write_answers_are_classified fd count (w : world) :
  0 <= count ->
  exists r delta pre size a,
    writeChunk kernel fd count w = Some r
    /\ trace (world_of r) = trace w ++ delta
    /\ chunks_started delta = [count]
    /\ write_calls delta = pre ++ [(fd, size, a)]
    /\ Forall (fun x => is_shrink (snd x) = true) pre
    /\ map (fun x => snd (fst x)) (write_calls delta)
       = countdown count (S (List.length pre))
    /\ (0 <= taken a -> exists w', r = Ret (taken a) w')
    /\ (is_shrink a = true ->
          size - 1 < 1
          /\ exists w',
               r = Ret (-1) w' /\ glob w' = glob w
               /\ In (Printf stderr "Unable to write even a single byte: %s\n"
                        [Strerror (err a)]) delta)
    /\ (would_block (fd, size, a) ->
          exists w', r = Ret (-1) w' /\ glob w' = glob w)
    /\ (taken a < 0 ->
          err a <> EAGAIN -> err a <> EMSGSIZE -> err a <> ENOBUFS ->
          exists w', r = Exit EXIT_FAILURE w' /\ In (Err "write" (err a)) delta)
    /\ forall fuel inc r',
         writeLoop_while kernel fuel fd count inc 0 w = Some r' ->
         exists d,
           trace (world_of r') = trace w ++ d /\ would_block_ends_strategy d.
Proof.
  intros Hc.
  destruct (writeChunk_spec fd count w Hc) as (r & E & R).
  destruct R as (delta & pre & a & Ht & Hh & Hev & Hch & Hw & Hm & Hp & Hl & Hend).
  exists r, (Malloc count true :: delta), pre,
    (count - Z.of_nat (List.length pre)), a.
  split; [exact E|].
  split. { rewrite Ht. simpl. now rewrite <- app_assoc. }
  split. { simpl. now rewrite Hch. }
  split; [exact Hw|]. split; [exact Hp|].
  split. { simpl write_calls. rewrite Hw. now apply retry_sizes. }
  split. { intros Hn. inversion Hend; subst; try lia. eauto. }
  split.
  { intros Hs. unfold is_shrink in Hs.
    apply andb_true_iff in Hs. destruct Hs as (Hs1 & Hs2).
    apply Z.ltb_lt in Hs1. apply orb_true_iff in Hs2.
    rewrite !errno_eqb_eq in Hs2.
    inversion Hend; subst; try lia.
    - destruct Hs2; congruence.
    - split; [lia|]. eexists. split; [reflexivity|]. split; [auto|now right].
    - destruct Hs2; congruence. }
  split.
  { intros (Hneg & Hb). simpl in Hneg, Hb.
    inversion Hend; subst; try lia.
    - eauto.
    - destruct H0; congruence.
    - congruence. }
  split.
  { intros Hneg N1 N2 N3.
    inversion Hend; subst; try lia; try congruence.
    - destruct H0; congruence.
    - eexists. split; [reflexivity|now right]. }
  intros fuel inc r'. apply writeLoop_while_stops_at_would_block.
Qed.

(** ** Loop mode from size 1 with doubling *)

Lemma pow2_S k : pow2 (S k) = 2 * pow2 k.
Proof. unfold pow2. rewrite Nat2Z.inj_succ, Z.pow_succ_r by lia. reflexivity. Qed.

Lemma pow2_pos k : 0 < pow2 k.
Proof. unfold pow2. apply Z.pow_pos_nonneg; lia. Qed.

Lemma pow2_le_30 k : (k <= 30)%nat -> pow2 k <= 1073741824.
Proof.
  intros H. unfold pow2. change 1073741824 with (2 ^ 30).
  apply Z.pow_le_mono_r; lia.
Qed.

Lemma grow_pow2 k :
  (k <= 30)%nat ->
  grow (-1) (pow2 k) = wrap32 (pow2 (S k))
  /\ ((k < 30)%nat -> grow (-1) (pow2 k) = pow2 (S k))
  /\ (k = 30%nat -> grow (-1) (pow2 k) < 0).
Proof.
  intros H. unfold grow. simpl (-1 =? -1).
  replace (pow2 k * 2) with (pow2 (S k)) by (rewrite pow2_S; lia).
  split; [reflexivity|]. split.
  - intros Hk. apply wrap32_id.
    pose proof (pow2_le_30 (S k) ltac:(lia)). pose proof (pow2_pos (S k)).
    unfold INT_MIN, INT_MAX. lia.
  - intros ->. vm_compute. reflexivity.
Qed.

Lemma full_writes_doubling fd l :
  forall k (w : world) cl wl,
    (k <= 30)%nat ->
    full_writes kernel fd (-1) (pow2 k) w l cl wl ->
    l = map pow2 (seq k (List.length l))
    /\ (0 <= cl -> (k + List.length l <= 30)%nat
                   /\ cl = pow2 (k + List.length l)).
Proof.
  induction l as [|x l IH]; intros k w cl wl Hk H.
  - inversion H; subst. split; [reflexivity|]. intros _.
    rewrite Nat.add_0_r. auto.
  - inversion H as [|c0 w0 w1 l0 c0' w0' E Hc Hrest]; subst.
    destruct (grow_pow2 k Hk) as (_ & G1 & G2).
    destruct (Nat.eq_dec k 30) as [->|Hne].
    + specialize (G2 eq_refl).
      inversion Hrest as [|c1 ? ? ? ? ? E1 Hc1 ?]; subst.
      * split; [reflexivity|]. intros Hcl. lia.
      * lia.
    + rewrite G1 in Hrest by lia.
      destruct (IH (S k) _ _ _ ltac:(lia) Hrest) as (L & C).
      split.
      * simpl. f_equal. exact L.
      * intros Hcl. destruct (C Hcl) as (C1 & C2).
        simpl List.length. rewrite Nat.add_succ_r. split; [lia|exact C2].
Qed.

Lemma bump_QUIET n g : QUIET (bump n g) = QUIET g.
Proof. unfold bump. simpl. destruct (n >? LARGEST_CHUNK g); reflexivity. Qed.

Lemma writeChunk_QUIET fd count (w : world) n w' :
  writeChunk kernel fd count w = Some (Ret n w') ->
  QUIET (glob w') = QUIET (glob w).
Proof.
  intros E. destruct (writeChunk_ret _ _ _ _ _ E) as (_ & _ & [(_ & G)|(_ & G)]);
    rewrite G; [reflexivity|apply bump_QUIET].
Qed.

Lemma full_writes_QUIET fd inc c (w : world) l c' w' :
  full_writes kernel fd inc c w l c' w' -> QUIET (glob w') = QUIET (glob w).
Proof.
  induction 1 as [|c w w1 l c' w' E Hc _ IH]; [reflexivity|].
  rewrite IH. eapply writeChunk_QUIET; eauto.
Qed.

(** Doubling leaves the range of an [int] after at most 31 steps, and the
    negative size that follows ends the process: the loop comes to an end
    whatever the kernel answers. *)
Lemma doubling_loop_ends n :
  forall fuel fd count i (w : world),
    1 <= count <= INT_MAX ->
    INT_MAX < count * 2 ^ Z.of_nat n ->
    (n < fuel)%nat ->
    exists r, writeLoop_while kernel fuel fd count (-1) i w = Some r.
Proof.
  unfold INT_MAX.
  induction n as [|n IH]; intros fuel fd count i w Hc Hn Hf.
  - simpl in Hn. lia.
  - destruct fuel as [|f]; [lia|]. cbn [writeLoop_while].
    destruct (writeChunk_total fd count w) as (r0 & E0).
    unfold bind at 1. rewrite E0.
    destruct r0 as [m w1|s w1]; [|eauto].
    destruct (negb (m =? count) || (m <? 0)); [unfold ret; eauto|].
    unfold grow. cbn [Z.eqb Pos.eqb].
    rewrite Nat2Z.inj_succ, Z.pow_succ_r in Hn by lia.
    destruct (Z_le_gt_dec (count * 2) 2147483647) as [Hs|Hs].
    + rewrite wrap32_id by (unfold INT_MIN, INT_MAX; lia).
      apply IH; [lia|lia|lia].
    + assert (W : wrap32 (count * 2) = count * 2 - 4294967296).
      { unfold wrap32.
        replace (count * 2 + 2147483648)
          with ((count * 2 - 2147483648) + 1 * 4294967296) by lia.
        rewrite Z_mod_plus_full, Z.mod_small by lia. lia. }
      destruct f as [|f]; [lia|]. cbn [writeLoop_while].
      destruct (writeChunk_negative fd (wrap32 (count * 2)) w1)
        as (w' & tl & E1 & _); [lia|].
      unfold bind at 1. rewrite E1. eauto.
Qed.

(** C3 (amended): loop mode from size 1 with doubling.  With room for 32
    iterations the loop always comes to an end.  A run that ends made [m]
    calls that were written in full, of sizes 1, 2, 4, ..., [2^(m-1)], and
    then a call of size [2^m] that was not.  The counter reported as
    "Iterations" is [m], plus one only when that last call wrote some bytes;
    when it returned -1 (the write would have blocked, or no byte could be
    written) the counter is [m]. *)
Theorem loop_from_one_doubles_and_counts fd (w : world) :
  (forall fuel, (32 <= fuel)%nat ->
     exists r, writeLoop kernel fuel fd 1 (-1) w = Some r)
  /\ (forall fuel w2,
        writeLoop kernel fuel fd 1 (-1) w = Some (Ret tt w2) ->
        exists m wl n w1 j,
          (m <= 30)%nat
          /\ full_writes kernel fd (-1) 1 w (map pow2 (seq 0 m)) (pow2 m) wl
          /\ writeChunk kernel fd (pow2 m) wl = Some (Ret n w1)
          /\ n <> pow2 m
          /\ writeLoop_while kernel fuel fd 1 (-1) 0 w = Some (Ret j w1)
          /\ j = Z.of_nat m + (if n >? 0 then 1 else 0)
          /\ (n = -1 -> j = Z.of_nat m)
          /\ glob w2 = glob w1
          /\ trace w2
             = trace w1
               ++ (if QUIET (glob w) then []
                   else [Printf stdout "%-15s: %8d\n"
                           [S_ "Iterations"; I j]])).
Proof.
  split.
  { intros fuel Hf.
    destruct (doubling_loop_ends 31 fuel fd 1 0 w) as (r & E);
      [unfold INT_MAX; lia|unfold INT_MAX; simpl; lia|lia|].
    unfold writeLoop. unfold bind at 1. rewrite E.
    destruct r as [j w1|s w1]; [|eauto].
    unfold bind, get, when, printf, emit, ret.
    destruct (negb (QUIET (glob w1))); eauto. }
  intros fuel w2.
  intros E. unfold writeLoop in E. unfold bind at 1 in E.
  destruct (writeLoop_while kernel fuel fd 1 (-1) 0 w) as [[j w1|s w1]|] eqn:El;
    [| discriminate | discriminate].
  assert (H0 : in_int 0) by (unfold in_int, INT_MIN, INT_MAX; lia).
  destruct (writeLoop_while_spec _ _ _ _ _ _ _ H0 El)
    as (l & cl & wl & Hfw & n & En & Hn & Hj).
  change 1 with (pow2 0) in Hfw.
  destruct (full_writes_doubling _ _ _ _ _ _ (Nat.le_0_l 30) Hfw) as (L & C).
  destruct (writeChunk_ret _ _ _ _ _ En) as (Hcl & _ & Hcases).
  destruct (C Hcl) as (C1 & C2). simpl in C1, C2.
  assert (Hq : QUIET (glob w1) = QUIET (glob w)).
  { rewrite (writeChunk_QUIET _ _ _ _ _ En).
    eapply full_writes_QUIET; eauto. }
  assert (Hj' : j = Z.of_nat (List.length l) + (if n >? 0 then 1 else 0)).
  { rewrite Hj. simpl. apply wrap32_id. unfold INT_MIN, INT_MAX.
    destruct (n >? 0); lia. }
  exists (List.length l), wl, n, w1, j.
  rewrite <- L, <- C2.
  split; [exact C1|]. split; [exact Hfw|]. split; [exact En|].
  split. { destruct Hn as [Hn|Hn]; [exact Hn|]. pose proof (pow2_pos (List.length l)). lia. }
  split; [reflexivity|]. split; [exact Hj'|].
  split. { intros ->. rewrite Hj'. simpl. lia. }
  unfold bind, get, when, printf, emit, ret in E. rewrite Hq in E.
  destruct (QUIET (glob w)); simpl in E; inversion E; subst; simpl;
    rewrite ?app_nil_r; auto.
Qed.

(** ** Running the monad *)

Lemma bind_Some {A B} (m : M A) (f : A -> M B) (w : world) r :
  bind m f w = Some r ->
  (exists a w1, m w = Some (Ret a w1) /\ f a w1 = Some r)
  \/ (exists s w1, m w = Some (Exit s w1) /\ r = Exit s w1).
Proof.
  unfold bind. destruct (m w) as [[a w1|s w1]|]; intros H.
  - left. eauto.
  - right. inversion H. eauto.
  - discriminate.
Qed.

Lemma bind_Ret {A B} (m : M A) (f : A -> M B) (w : world) b w' :
  bind m f w = Some (Ret b w') ->
  exists a w1, m w = Some (Ret a w1) /\ f a w1 = Some (Ret b w').
Proof.
  intros H. destruct (bind_Some _ _ _ _ H) as [X|(s & w1 & _ & X)];
    [exact X|discriminate].
Qed.

Section Emits.

Variable P : event -> Prop.
Variable R : globals -> globals -> Prop.
Hypothesis R_pre : preorder R.

Lemma emits_ret {A} (a : A) : emits P R (ret a).
Proof.
  intros w r H. inversion H; subst. exists []. simpl.
  rewrite app_nil_r. destruct R_pre. auto.
Qed.

Lemma emits_get {A} (f : globals -> A) : emits P R (get f).
Proof.
  intros w r H. inversion H; subst. exists []. simpl.
  rewrite app_nil_r. destruct R_pre. auto.
Qed.

Lemma emits_modify f : (forall g, R g (f g)) -> emits P R (modify f).
Proof.
  intros Hf w r H. inversion H; subst. exists []. simpl.
  rewrite app_nil_r. auto.
Qed.

Lemma emits_emit e : P e -> emits P R (emit e).
Proof.
  intros He w r H. inversion H; subst. exists [e]. simpl.
  destruct R_pre. auto.
Qed.

Lemma emits_call c : (forall a, P (Sys c a)) -> emits P R (call kernel c).
Proof.
  intros Hc w r H. unfold call in H.
  destruct (do_call_spec c w) as (a & k' & E & _). rewrite E in H.
  inversion H; subst. exists [Sys c a]. simpl. destruct R_pre. auto.
Qed.

Lemma emits_bind {A B} (m : M A) (f : A -> M B) :
  emits P R m -> (forall a, emits P R (f a)) -> emits P R (bind m f).
Proof.
  intros Hm Hf w r H.
  destruct (bind_Some _ _ _ _ H) as [(a & w1 & E1 & E2)|(s & w1 & E1 & ->)].
  - destruct (Hm _ _ E1) as (d1 & T1 & F1 & G1 & H1).
    destruct (Hf a _ _ E2) as (d2 & T2 & F2 & G2 & H2).
    exists (d1 ++ d2). simpl in T1, H1, G1. rewrite T2, T1, app_assoc, H2, H1.
    split; [reflexivity|]. split; [now apply Forall_app|].
    split; [|reflexivity]. destruct R_pre as [_ Ht]. eapply Ht; eauto.
  - destruct (Hm _ _ E1) as (d1 & T1 & F1 & G1 & H1). exists d1. auto.
Qed.

Lemma emits_exit {A} status :
  (forall p a, P (Sys (c_unlink p) a)) -> emits P R (@exit_ K kernel A status).
Proof.
  intros Hu w r H. rewrite exit_spec in H. inversion H; subst. simpl.
  destruct (exited_spec w) as (tail & T & G & Hh & U).
  exists tail. split; [exact T|]. split; [|split; [|exact Hh]].
  - eapply Forall_impl; [|exact U]. intros e (p & a & ->). apply Hu.
  - rewrite G. destruct R_pre. auto.
Qed.

Lemma emits_err {A} label e :
  P (Err label e) -> (forall p a, P (Sys (c_unlink p) a)) ->
  emits P R (@err_ K kernel A label e).
Proof.
  intros He Hu. unfold err_. apply emits_bind.
  - now apply emits_emit.
  - intros _. now apply emits_exit.
Qed.

Lemma emits_when b m : emits P R m -> emits P R (when b m).
Proof. destruct b; simpl; auto using emits_ret. Qed.

Lemma emits_if {A} (b : bool) (m1 m2 : M A) :
  emits P R m1 -> emits P R m2 -> emits P R (if b then m1 else m2).
Proof. destruct b; auto. Qed.

End Emits.

Lemma emits_impl {A} (P Q : event -> Prop) (R S : globals -> globals -> Prop)
  (m : M A) :
  (forall e, P e -> Q e) -> (forall g g', R g g' -> S g g') ->
  emits P R m -> emits Q S m.
Proof.
  intros HPQ HRS Hm w r H. destruct (Hm _ _ H) as (d & T & F & G & Hh).
  exists d. split; [exact T|]. split; [|auto].
  eapply Forall_impl; eauto.
Qed.

Lemma preorder_eq : preorder eq.
Proof. split; intros; congruence. Qed.

Lemma preorder_any : preorder (fun _ _ => True).
Proof. split; auto. Qed.

End Facts.

(** Solves [emits P R m] for straight-line code once [P] holds of every
    event the code can add. *)
Ltac emits_step :=
  first
    [ apply emits_ret | apply emits_get | apply emits_modify
    | apply emits_when | apply emits_exit | apply emits_err
    | apply emits_emit | apply emits_call
    | apply emits_bind; [| |intros ?]
    | apply emits_if ].

Ltac emits_auto :=
  repeat (unfold printf, fprintf_stderr, malloc; emits_step);
  try solve [intros; simpl; auto].

(** ** Classes of events and of changes to the globals *)

Lemma quiet_inert (l : list event) :
  Forall quiet_event l ->
  write_calls l = [] /\ read_calls l = [] /\ chunks_started l = [].
Proof.
  induction 1 as [|e l He _ (I1 & I2 & I3)]; simpl; auto.
  destruct e as [c a| | | |]; simpl in *; auto; try contradiction.
  destruct c; simpl in *; auto; contradiction.
Qed.

Lemma preorder_same_config : preorder same_config.
Proof.
  split.
  - intros g. destruct g; reflexivity.
  - intros x y z H1 H2. unfold same_config in *.
    rewrite H2. rewrite H1. destruct x; reflexivity.
Qed.

Lemma same_config_bump n g : same_config g (bump n g).
Proof.
  unfold same_config, bump. simpl.
  destruct (n >? LARGEST_CHUNK g); destruct g; reflexivity.
Qed.

Section Probe.

Context {K : Type}.
Variable kernel : K -> syscall -> sysret * K.
Variable pf : platform.

Abbreviation world := (@world K).
Abbreviation result := (@result K).

Lemma printFdQueueSize_emits fd which :
  emits quiet_event eq (printFdQueueSize kernel pf fd which).
Proof.
  pose proof preorder_eq as Hp.
  unfold printFdQueueSize.
  destruct (queue_request pf which) as [[req label]|]; emits_auto.
Qed.

Lemma writeChunk_emits fd count :
  emits (fun e => chunk_event fd e = true) same_config
    (writeChunk kernel fd count).
Proof.
  intros w r E.
  destruct (writeChunk_inv kernel _ _ _ _ E)
    as [(H & R)|(H & w2 & t & -> & G & Hh & T & U)].
  - destruct R as (delta & pre & a & Ht & Hh & Hev & _ & _ & _ & _ & _ & Hend).
    exists (Malloc count true :: delta).
    split. { rewrite Ht. simpl. now rewrite <- app_assoc. }
    split. { constructor; [reflexivity|exact Hev]. }
    split; [|exact Hh].
    inversion Hend; subst; simpl in *;
      match goal with H : glob _ = _ |- _ => rewrite H end;
      try apply same_config_bump; apply preorder_same_config.
  - exists (Malloc count false :: Err "malloc" ENOMEM :: t).
    split; [exact T|]. split; [|split; [|exact Hh]].
    + constructor; [reflexivity|]. constructor; [reflexivity|].
      now destruct (unlinks_inert fd t U) as (_ & _ & _ & _ & X).
    + simpl. rewrite G. apply preorder_same_config.
Qed.

Lemma get_bind {A B} (f : globals -> A) (k : A -> M B) (w : world) :
  bind (get f) k w = k (f (glob w)) w.
Proof. reflexivity. Qed.

Lemma err_not_Ret {A} label e (w : world) (a : A) w' :
  err_ kernel label e w <> Some (Ret a w').
Proof.
  destruct (@err_spec K kernel A label e w) as (w1 & t & E & _).
  rewrite E. discriminate.
Qed.

Lemma same_config_fields g g' :
  same_config g g' ->
  CHUNK1 g' = CHUNK1 g /\ CHUNK2 g' = CHUNK2 g
  /\ NUM_CHUNKS g' = NUM_CHUNKS g /\ QUIET g' = QUIET g
  /\ MODE g' = MODE g /\ IPC_TYPE g' = IPC_TYPE g.
Proof. intros H. rewrite H. simpl. auto 10. Qed.

(** ** Chunk mode *)

Lemma writeChunk_account fd count (w : world) n w' :
  writeChunk kernel fd count w = Some (Ret n w') ->
  exists delta,
    trace w' = trace w ++ delta
    /\ chunks_started delta = [count]
    /\ 0 <= count
    /\ same_config (glob w) (glob w')
    /\ hooks w' = hooks w
    /\ (0 <= LARGEST_CHUNK (glob w) ->
          LARGEST_CHUNK (glob w) <= LARGEST_CHUNK (glob w')
          /\ Forall (fun x => taken (snd x) <= LARGEST_CHUNK (glob w'))
               (write_calls delta))
    /\ (sane (write_calls delta) ->
          0 <= TOTAL (glob w) -> TOTAL (glob w) + count <= INT_MAX ->
          TOTAL (glob w) <= TOTAL (glob w') <= TOTAL (glob w) + count)
    /\ (whole (write_calls delta) ->
          0 <= TOTAL (glob w) -> TOTAL (glob w) + count <= INT_MAX ->
          TOTAL (glob w') = TOTAL (glob w) + count).
Proof.
  intros E.
  destruct (writeChunk_inv kernel _ _ _ _ E) as [(H & R)|(H & w2 & t & X & _)];
    [|discriminate].
  destruct R as (delta & pre & a & Ht & Hh & Hev & Hch & Hw & Hm & Hp & Hl & Hend).
  exists (Malloc count true :: delta). simpl in Ht.
  split. { rewrite Ht. simpl. now rewrite <- app_assoc. }
  split. { simpl. now rewrite Hch. }
  split; [exact H|].
  assert (Hpre : Forall (fun x : Z * Z * sysret => taken (snd x) < 0) pre).
  { eapply Forall_impl; [|exact Hp]. intros x Hx. unfold is_shrink in Hx.
    apply andb_true_iff in Hx. destruct Hx as (Hx & _). now apply Z.ltb_lt in Hx. }
  assert (Hcases :
    (n = taken a /\ 0 <= n /\ glob w' = bump n (glob w))
    \/ (taken a < 0 /\ glob w' = glob w)).
  { inversion Hend; subst; auto. }
  split.
  { destruct Hcases as [(_ & _ & G)|(_ & G)]; rewrite G;
      [apply same_config_bump|apply preorder_same_config]. }
  split; [exact Hh|].
  simpl write_calls. rewrite Hw.
  split.
  { intros HL. destruct Hcases as [(-> & Hn & G)|(Hn & G)]; rewrite G.
    - rewrite bump_LARGEST. split; [lia|].
      apply Forall_app. split.
      + eapply Forall_impl; [|exact Hpre]. simpl. intros; lia.
      + constructor; [simpl; lia|constructor].
    - split; [lia|]. apply Forall_app. split.
      + eapply Forall_impl; [|exact Hpre]. simpl. intros; lia.
      + constructor; [simpl; lia|constructor]. }
  split.
  { intros Hs Ht0 Hfit. apply Forall_app in Hs. destruct Hs as [_ Hs].
    inversion Hs as [|? ? Hlast _]; subst. simpl in Hlast.
    destruct Hcases as [(-> & Hn & G)|(Hn & G)]; rewrite G.
    - rewrite bump_TOTAL, wrap32_id; unfold INT_MIN, INT_MAX in *; lia.
    - lia. }
  intros Hwh Ht0 Hfit. apply Forall_app in Hwh. destruct Hwh as [Hw1 Hw2].
  destruct pre as [|x pre].
  - simpl in Hw2. inversion Hw2 as [|? ? Hlast _]; subst. simpl in Hlast.
    rewrite Z.sub_0_r in Hlast.
    destruct Hcases as [(-> & Hn & G)|(Hn & G)]; [|lia].
    rewrite G, bump_TOTAL, Hlast, wrap32_id; unfold INT_MIN, INT_MAX in *; lia.
  - exfalso. inversion Hw1 as [|? ? Hx _]; subst.
    inversion Hpre as [|? ? Hneg _]; subst.
    cbn [List.length] in Hm. rewrite countdown_S in Hm. simpl in Hm.
    inversion Hm as [[Hfst _]].
    destruct x as [[xfd xc] xa]. simpl in *. inversion Hfst; subst. lia.
Qed.

Lemma writeData_for_account left :
  forall fd (w : world) w',
    writeData_for kernel left fd w = Some (Ret tt w') ->
    exists delta,
      trace w' = trace w ++ delta
      /\ chunks_started delta = repeat (CHUNK2 (glob w)) left
      /\ same_config (glob w) (glob w')
      /\ hooks w' = hooks w
      /\ (0 <= LARGEST_CHUNK (glob w) ->
            LARGEST_CHUNK (glob w) <= LARGEST_CHUNK (glob w')
            /\ Forall (fun x => taken (snd x) <= LARGEST_CHUNK (glob w'))
                 (write_calls delta))
      /\ (sane (write_calls delta) ->
            0 <= TOTAL (glob w) ->
            TOTAL (glob w) + Z.of_nat left * CHUNK2 (glob w) <= INT_MAX ->
            TOTAL (glob w) <= TOTAL (glob w')
              <= TOTAL (glob w) + Z.of_nat left * CHUNK2 (glob w))
      /\ (whole (write_calls delta) ->
            0 <= TOTAL (glob w) ->
            TOTAL (glob w) + Z.of_nat left * CHUNK2 (glob w) <= INT_MAX ->
            TOTAL (glob w')
            = TOTAL (glob w) + Z.of_nat left * CHUNK2 (glob w)).
Proof.
  induction left as [|left IH]; intros fd w w' E.
  - inversion E; subst. exists []. simpl. rewrite app_nil_r.
    repeat split; auto; try lia. apply preorder_same_config.
  - cbn [writeData_for] in E. rewrite get_bind in E.
    apply bind_Ret in E. destruct E as (n & w1 & E1 & E2).
    destruct (writeChunk_account _ _ _ _ _ E1)
      as (d1 & T1 & C1 & Hc & S1 & H1 & L1 & B1 & Q1).
    destruct (IH _ _ _ E2) as (d2 & T2 & C2 & S2 & H2 & L2 & B2 & Q2).
    destruct (same_config_fields _ _ S1) as (_ & F2 & _).
    rewrite F2 in *.
    exists (d1 ++ d2).
    split. { rewrite T2, T1. now rewrite app_assoc. }
    split. { rewrite chunks_started_app, C1, C2. reflexivity. }
    split. { destruct preorder_same_config as [_ Tr]. eapply Tr; eauto. }
    split. { congruence. }
    rewrite write_calls_app.
    split.
    { intros HL. destruct (L1 HL) as (M1 & A1).
      destruct (L2 ltac:(lia)) as (M2 & A2).
      split; [lia|]. apply Forall_app. split; [|exact A2].
      eapply Forall_impl; [|exact A1]. simpl. intros; lia. }
    assert (Hmul : Z.of_nat (S left) * CHUNK2 (glob w)
                   = CHUNK2 (glob w) + Z.of_nat left * CHUNK2 (glob w)) by lia.
    split.
    { intros Hs Ht0 Hfit. apply Forall_app in Hs. destruct Hs as [Hs1 Hs2].
      assert (0 <= Z.of_nat left * CHUNK2 (glob w)) by nia.
      specialize (B1 Hs1 Ht0 ltac:(lia)).
      specialize (B2 Hs2 ltac:(lia) ltac:(lia)). lia. }
    intros Hw Ht0 Hfit. apply Forall_app in Hw. destruct Hw as [Hw1 Hw2].
    assert (0 <= Z.of_nat left * CHUNK2 (glob w)) by nia.
    specialize (Q1 Hw1 Ht0 ltac:(lia)).
    specialize (Q2 Hw2 ltac:(lia) ltac:(lia)). lia.
Qed.

Lemma writeData_announce_emits i :
  emits quiet_event eq (@writeData_announce K i).
Proof.
  pose proof preorder_eq as Hp. unfold writeData_announce. emits_auto.
Qed.

Lemma writeData_report_emits fd :
  emits quiet_event eq (writeData_report kernel pf fd).
Proof.
  pose proof preorder_eq as Hp. unfold writeData_report.
  apply emits_bind; [exact Hp|apply printFdQueueSize_emits|intros _].
  emits_auto.
Qed.

Lemma writeData_chunks_account fd (w : world) w' :
  writeData_chunks kernel fd w = Some (Ret tt w') ->
  exists delta,
    trace w' = trace w ++ delta
    /\ chunks_started delta
       = CHUNK1 (glob w) :: repeat (second_size (glob w)) (additional (glob w))
    /\ hooks w' = hooks w
    /\ (0 <= LARGEST_CHUNK (glob w) ->
          LARGEST_CHUNK (glob w) <= LARGEST_CHUNK (glob w')
          /\ Forall (fun x => taken (snd x) <= LARGEST_CHUNK (glob w'))
               (write_calls delta))
    /\ (sane (write_calls delta) ->
          0 <= TOTAL (glob w) ->
          TOTAL (glob w) + CHUNK1 (glob w)
            + Z.of_nat (additional (glob w)) * second_size (glob w) <= INT_MAX ->
          TOTAL (glob w) <= TOTAL (glob w')
            <= TOTAL (glob w) + CHUNK1 (glob w)
               + Z.of_nat (additional (glob w)) * second_size (glob w))
    /\ (whole (write_calls delta) ->
          0 <= TOTAL (glob w) ->
          TOTAL (glob w) + CHUNK1 (glob w)
            + Z.of_nat (additional (glob w)) * second_size (glob w) <= INT_MAX ->
          TOTAL (glob w')
          = TOTAL (glob w) + CHUNK1 (glob w)
            + Z.of_nat (additional (glob w)) * second_size (glob w)).
Proof.
  intros E. unfold writeData_chunks in E. rewrite !get_bind in E.
  unfold second_size, additional.
  set (g0 := if CHUNK2 (glob w) <? 1
             then set_CHUNK2 (CHUNK1 (glob w)) (glob w) else glob w).
  set (w0 := mkWorld (kst w) g0 (hooks w) (trace w)).
  assert (E0 : bind (writeData_announce (if CHUNK2 (glob w) <? 1 then 1 else 0))
                 (fun _ => bind (writeChunk kernel fd (CHUNK1 (glob w)))
                   (fun _ => bind (get NUM_CHUNKS)
                     (fun num => writeData_for kernel
                        (Z.to_nat (num - (if CHUNK2 (glob w) <? 1 then 1 else 0)))
                        fd))) w0 = Some (Ret tt w')).
  { subst w0 g0. destruct (CHUNK2 (glob w) <? 1); [exact E|].
    destruct w; exact E. }
  clear E.
  assert (G0 : CHUNK1 g0 = CHUNK1 (glob w) /\ NUM_CHUNKS g0 = NUM_CHUNKS (glob w)
               /\ TOTAL g0 = TOTAL (glob w)
               /\ LARGEST_CHUNK g0 = LARGEST_CHUNK (glob w)
               /\ CHUNK2 g0 = (if CHUNK2 (glob w) <? 1 then CHUNK1 (glob w)
                               else CHUNK2 (glob w))).
  { subst g0. destruct (CHUNK2 (glob w) <? 1); simpl; auto. }
  destruct G0 as (G1 & G2 & G3 & G4 & G5).
  apply bind_Ret in E0. destruct E0 as (u & w1 & Ea & E0).
  destruct (writeData_announce_emits _ _ _ Ea) as (da & Ta & Fa & Ga & Ha).
  simpl in Ta, Ga, Ha.
  apply bind_Ret in E0. destruct E0 as (n & w2 & Ec & E0).
  rewrite get_bind in E0.
  destruct (writeChunk_account _ _ _ _ _ Ec)
    as (d1 & T1 & C1 & Hc & S1 & H1 & L1 & B1 & Q1).
  destruct (writeData_for_account _ _ _ _ E0)
    as (d2 & T2 & C2 & S2 & H2 & L2 & B2 & Q2).
  destruct (same_config_fields _ _ S1) as (_ & F2 & F3 & _).
  rewrite F2, F3, <- Ga in *.
  rewrite G2, G5, G3, G4 in *.
  destruct (quiet_inert _ Fa) as (Wa & _ & Ca).
  replace (Z.to_nat (NUM_CHUNKS (glob w) - (if CHUNK2 (glob w) <? 1 then 1 else 0)))
    with (Z.to_nat (if CHUNK2 (glob w) <? 1 then NUM_CHUNKS (glob w) - 1
                    else NUM_CHUNKS (glob w))) in *
    by (destruct (CHUNK2 (glob w) <? 1); f_equal; lia).
  set (more := Z.to_nat (if CHUNK2 (glob w) <? 1 then NUM_CHUNKS (glob w) - 1
                         else NUM_CHUNKS (glob w))) in *.
  set (second := if CHUNK2 (glob w) <? 1 then CHUNK1 (glob w)
                 else CHUNK2 (glob w)) in *.
  exists (da ++ d1 ++ d2).
  split. { rewrite T2, T1, Ta. simpl. now rewrite <- !app_assoc. }
  split. { rewrite !chunks_started_app, Ca, C1, C2. reflexivity. }
  split. { rewrite H2, H1, Ha. reflexivity. }
  rewrite !write_calls_app, Wa. simpl app.
  split.
  { intros HL. destruct (L1 HL) as (M1 & A1).
    destruct (L2 ltac:(lia)) as (M2 & A2).
    split; [lia|].
    apply Forall_app. split; [|exact A2].
    eapply Forall_impl; [|exact A1]. simpl. intros; lia. }
  split.
  { intros Hs Ht0 Hfit. apply Forall_app in Hs. destruct Hs as [Hs1 Hs2].
    assert (0 <= Z.of_nat more * second).
    { destruct more; [lia|].
      assert (0 <= second).
      { subst second. destruct (CHUNK2 (glob w) <? 1) eqn:X; [lia|].
        apply Z.ltb_ge in X. lia. }
      nia. }
    specialize (B1 Hs1 Ht0 ltac:(lia)).
    specialize (B2 Hs2 ltac:(lia) ltac:(lia)). lia. }
  intros Hw Ht0 Hfit. apply Forall_app in Hw. destruct Hw as [Hw1 Hw2].
  assert (0 <= Z.of_nat more * second).
  { destruct more; [lia|].
    assert (0 <= second).
    { subst second. destruct (CHUNK2 (glob w) <? 1) eqn:X; [lia|].
      apply Z.ltb_ge in X. lia. }
    nia. }
  specialize (Q1 Hw1 Ht0 ltac:(lia)).
  specialize (Q2 Hw2 ltac:(lia) ltac:(lia)). lia.
Qed.

(** The part of [writeData] before the mode is looked at adds no write, no
    malloc, and changes no global. *)
Lemma writeData_inv fuel fd (w : world) r :
  writeData kernel pf fuel fd w = Some r ->
  exists a w1 pre,
    trace w1 = trace w ++ Sys (c_fcntl_nonblock fd) a :: pre
    /\ glob w1 = glob w /\ hooks w1 = hooks w
    /\ ((retval a < 0 /\ exists w' tail,
           r = Exit EXIT_FAILURE w'
           /\ trace w' = trace w ++ Sys (c_fcntl_nonblock fd) a
                           :: Err "fcntl set flags" (err a) :: tail
           /\ unlinks tail)
        \/ (0 <= retval a /\ Forall quiet_event pre
            /\ ((exists s w', r = Exit s w' /\ w' = w1 /\ s = EXIT_FAILURE)
                \/ bind (if mode_eqb (MODE (glob w)) LOOP
                         then writeLoop kernel fuel fd (CHUNK1 (glob w))
                                (CHUNK2 (glob w))
                         else writeData_chunks kernel fd)
                     (fun _ => writeData_report kernel pf fd) w1 = Some r))).
Proof.
  intros E. unfold writeData in E. unfold bind at 1 in E. unfold call in E.
  destruct (do_call_spec kernel (c_fcntl_nonblock fd) w) as (a & k' & Ec & _).
  rewrite Ec in E. clear Ec.
  destruct (retval a <? 0) eqn:Hneg.
  - apply Z.ltb_lt in Hneg.
    match type of E with err_ _ ?l ?e ?y = _ =>
      destruct (@err_spec K kernel unit l e y) as (w' & tail & E' & G & Hh & _ & T & U) end.
    rewrite E' in E. inversion E; subst; clear E. simpl in *.
    exists a, (mkWorld k' (glob w) (hooks w)
                 (trace w ++ [Sys (c_fcntl_nonblock fd) a])), [].
    split; [reflexivity|]. simpl.
    split; [reflexivity|]. split; [reflexivity|].
    left. split; [exact Hneg|]. exists w', tail. rewrite T, <- app_assoc. auto.
  - apply Z.ltb_ge in Hneg. unfold writeData_run in E.
    destruct (bind_Some _ _ _ _ E) as [(n & w1 & E1 & E2)|(s & w1 & E1 & ->)].
    + destruct (printFdQueueSize_emits _ _ _ _ E1) as (d1 & T1 & F1 & G1 & H1).
      simpl in T1, G1, H1. rewrite get_bind in E2.
      apply bind_Some in E2.
      destruct E2 as [(u & w2 & E2 & E3)|(s & w2 & E2 & ->)].
      * assert (Hnl : emits quiet_event eq
                        (when (negb (QUIET (glob w1))) (@printf K "\n" []))).
        { pose proof preorder_eq. emits_auto. }
        destruct (Hnl _ _ E2) as (d2 & T2 & F2 & G2 & H2).
        simpl in T2, G2, H2. rewrite get_bind in E3.
        exists a, w2, (d1 ++ d2).
        split. { rewrite T2, T1. simpl. now rewrite <- !app_assoc. }
        split; [congruence|]. split; [congruence|].
        right. split; [exact Hneg|]. split; [now apply Forall_app|].
        right. rewrite <- G2, <- G1 in E3.
        destruct (mode_eqb (MODE (glob w)) LOOP); [|exact E3].
        unfold bind at 1 in E3. rewrite !get_bind in E3.
        rewrite <- G2, <- G1 in E3. exact E3.
      * exfalso. unfold when in E2.
        destruct (negb (QUIET (glob w1))); inversion E2.
    + destruct (printFdQueueSize_emits _ _ _ _ E1) as (d1 & T1 & F1 & G1 & H1).
      simpl in T1, G1, H1.
      exists a, w1, d1.
      split. { rewrite T1. simpl. now rewrite <- !app_assoc. }
      split; [congruence|]. split; [congruence|].
      right. split; [exact Hneg|]. split; [exact F1|].
      left. exists s, w1. split; [reflexivity|]. split; [reflexivity|].
      unfold printFdQueueSize in E1.
      destruct (queue_request pf q_space) as [[req label]|]; [|discriminate].
      rewrite get_bind in E1.
      destruct (_ || _ || _); [|discriminate].
      apply bind_Some in E1.
      destruct E1 as [(x & w3 & _ & E1)|(s' & w3 & E1 & _)].
      * destruct (retval x =? -1).
        -- match type of E1 with err_ _ ?l ?e ?y = _ =>
             destruct (@err_spec K kernel Z l e y) as (w' & tail & E' & _) end.
           rewrite E' in E1. now inversion E1.
        -- rewrite get_bind in E1. apply bind_Some in E1.
           destruct E1 as [(? & ? & _ & E1)|(? & ? & E1 & _)];
             [discriminate|].
           unfold when in E1. destruct (negb _); discriminate.
      * unfold call in E1. destruct (do_call kernel _ _); discriminate.
Qed.

(** *** Chunk mode comes to an end *)

Lemma total_ret {A} (a : A) : total (K:=K) (ret a).
Proof. intros w. eexists. reflexivity. Qed.

Lemma total_get {A} (f : globals -> A) : total (K:=K) (get f).
Proof. intros w. eexists. reflexivity. Qed.

Lemma total_modify f : total (K:=K) (modify f).
Proof. intros w. eexists. reflexivity. Qed.

Lemma total_emit e : total (K:=K) (emit e).
Proof. intros w. eexists. reflexivity. Qed.

Lemma total_call c : total (call kernel c).
Proof. intros w. unfold call. destruct (do_call kernel c w). eauto. Qed.

Lemma total_exit {A} s : total (@exit_ K kernel A s).
Proof. intros w. eexists. reflexivity. Qed.

Lemma total_bind {A B} (m : @M K A) (k : A -> @M K B) :
  total m -> (forall a, total (k a)) -> total (bind m k).
Proof.
  intros Hm Hk w. unfold bind.
  destruct (Hm w) as ([a w1|s w1] & E); rewrite E; [apply Hk|eauto].
Qed.

Lemma total_writeChunk fd count : total (writeChunk kernel fd count).
Proof. intros w. apply writeChunk_total. Qed.

Ltac total_step :=
  first
    [ apply total_ret | apply total_get | apply total_modify
    | apply total_emit | apply total_call | apply total_exit
    | apply total_writeChunk
    | apply total_bind; [|intros ?]
    | match goal with
      | |- @total _ _ (if ?c then _ else _) => destruct c
      | |- @total _ _ (when ?c _) => unfold when
      | |- @total _ _ (err_ _ _ _) => unfold err_
      end ].

Ltac total_auto := cbv zeta; repeat total_step.

Lemma total_printFdQueueSize fd which :
  total (printFdQueueSize kernel pf fd which).
Proof.
  unfold printFdQueueSize.
  destruct (queue_request pf which) as [[req label]|]; total_auto.
Qed.

Lemma total_writeData_for left fd : total (writeData_for kernel left fd).
Proof.
  induction left as [|left IH]; cbn [writeData_for]; total_auto. exact IH.
Qed.

Lemma total_writeData_chunks fd : total (writeData_chunks kernel fd).
Proof.
  unfold writeData_chunks, writeData_announce. total_auto.
  all: apply total_writeData_for.
Qed.

Lemma total_writeData_report fd : total (writeData_report kernel pf fd).
Proof.
  unfold writeData_report. total_auto.
  all: apply total_printFdQueueSize.
Qed.

Lemma writeData_chunk_mode_total fuel fd (w : world) :
  MODE (glob w) = CHUNK ->
  exists r, writeData kernel pf fuel fd w = Some r.
Proof.
  intros Hm. unfold writeData. unfold bind at 1. unfold call.
  destruct (do_call_spec kernel (c_fcntl_nonblock fd) w) as (a & k' & Ec & _).
  rewrite Ec. clear Ec.
  destruct (retval a <? 0).
  { apply (total_bind _ _ (total_emit _) (fun _ => total_exit _)). }
  unfold writeData_run.
  match goal with |- exists r, bind _ _ ?w1 = _ =>
    destruct (total_printFdQueueSize fd q_space w1) as (r1 & E1);
    pose proof (printFdQueueSize_emits _ _ _ _ E1)
      as (d & _ & _ & G & _) end.
  unfold bind at 1. rewrite E1.
  destruct r1 as [x w2|s w2]; [|eauto]. simpl in G.
  rewrite get_bind. unfold bind at 1.
  assert (Hw : exists w3,
            when (negb (QUIET (glob w2))) (@printf K "\n" []) w2
            = Some (Ret tt w3) /\ glob w3 = glob w2).
  { unfold when, printf, emit, ret.
    destruct (negb (QUIET (glob w2))); eexists; split; reflexivity. }
  destruct Hw as (w3 & E3 & G3). rewrite E3.
  rewrite get_bind, G3, <- G, Hm. cbn [mode_eqb].
  apply (total_bind _ _ (total_writeData_chunks fd)
           (fun _ => total_writeData_report fd)).
Qed.

(** What chunk mode does, as the loop of lines 456-479 is written.  It
    always comes to an end.  A run that does not end the process starts one
    chunk of [CHUNK1] and then, whatever came of the earlier ones,
    [additional] chunks of [second_size].  When no answer reports more than
    was asked and the sum fits an [int], the total grows by at most the sum
    of the sizes started, and by exactly that sum when every write is taken
    whole. *)
Lemma chunk_mode_attempts_and_accounting fuel fd (w : world) :
  MODE (glob w) = CHUNK ->
  (exists r, writeData kernel pf fuel fd w = Some r)
  /\ forall w',
       writeData kernel pf fuel fd w = Some (Ret tt w') ->
       exists delta,
         trace w' = trace w ++ delta
         /\ chunks_started delta
            = CHUNK1 (glob w)
              :: repeat (second_size (glob w)) (additional (glob w))
         /\ (sane (write_calls delta) ->
             0 <= TOTAL (glob w) ->
             TOTAL (glob w) + CHUNK1 (glob w)
               + Z.of_nat (additional (glob w)) * second_size (glob w)
             <= INT_MAX ->
             TOTAL (glob w) <= TOTAL (glob w')
               <= TOTAL (glob w) + CHUNK1 (glob w)
                  + Z.of_nat (additional (glob w)) * second_size (glob w)
             /\ (whole (write_calls delta) ->
                 TOTAL (glob w')
                 = TOTAL (glob w) + CHUNK1 (glob w)
                   + Z.of_nat (additional (glob w)) * second_size (glob w))).
Proof.
  intros Hm. split; [now apply writeData_chunk_mode_total|]. intros w' E.
  revert Hm E.
  intros Hm E.
  destruct (writeData_inv _ _ _ _ E)
    as (a & w1 & pre & T1 & G1 & H1 & [(_ & w2 & t & X & _)|(Ha & Fp & [(s & w2 & X & _)|Eb])]);
    try discriminate.
  rewrite Hm in Eb. simpl in Eb.
  apply bind_Ret in Eb. destruct Eb as (u & w2 & Ec & Er). destruct u.
  destruct (writeData_chunks_account _ _ _ Ec) as (dc & Tc & Cc & Hc & Lc & Bc & Qc).
  destruct (writeData_report_emits _ _ _ Er) as (dr & Tr & Fr & Gr & Hr).
  simpl in Tr, Gr, Hr. rewrite G1 in *.
  destruct (quiet_inert _ Fp) as (Wp & _ & Cp).
  destruct (quiet_inert _ Fr) as (Wr & _ & Cr).
  exists (Sys (c_fcntl_nonblock fd) a :: pre ++ dc ++ dr).
  split. { rewrite Tr, Tc, T1. simpl. now rewrite <- !app_assoc. }
  split.
  { simpl. rewrite !chunks_started_app, Cp, Cc, Cr. simpl.
    now rewrite app_nil_r. }
  simpl write_calls. rewrite !write_calls_app, Wp, Wr, app_nil_r. simpl app.
  intros Hs Ht Hfit. rewrite <- Gr. split; [auto|]. intros Hw. auto.
Qed.

(** What [reportTest] prints in chunk mode (lines 571-578). *)
Lemma reportTest_chunk_mode fmt args (w : world) :
  QUIET (glob w) = false -> MODE (glob w) = CHUNK ->
  exists w0,
    reportTest fmt args w = Some (Ret tt w0)
    /\ glob w0 = glob w
    /\ trace w0
       = trace w
         ++ [Printf stdout "Testing " [];
             Printf stdout fmt args;
             Printf stdout " buffer size in %s mode.\n" [S_ "chunk"];
             Printf stdout "First chunk: %d byte%s, "
               [I (CHUNK1 (glob w)); S_ (plural (CHUNK1 (glob w) >? 1))];
             Printf stdout "then %d more chunk%s of size %d.\n"
               [I (NUM_CHUNKS (glob w));
                S_ (plural (NUM_CHUNKS (glob w) >? 1));
                I (if CHUNK2 (glob w) <? 0 then CHUNK1 (glob w)
                   else CHUNK2 (glob w))];
             Printf stdout "\n" []].
Proof.
  intros Hq Hm. unfold reportTest.
  rewrite get_bind, Hq, !get_bind, Hm.
  unfold bind, printf, emit, ret. simpl.
  eexists. split; [reflexivity|]. simpl.
  rewrite <- !app_assoc. simpl. auto.
Qed.

(** C2: chunk mode with the second size unset writes one chunk less than
    the program announces.  With [MODE = CHUNK], [CHUNK2] unset and
    [NUM_CHUNKS] at least 1, [reportTest] announces the first chunk and then
    [NUM_CHUNKS] more chunks of the initial size; [writeData] comes to an
    end, and a run that does not end the process starts [NUM_CHUNKS] chunks
    of the initial size in all, not [1 + NUM_CHUNKS]: the loop index starts
    at 1 where the second size is unset.  When every write is taken whole
    and the sum fits an [int], the total grows by [NUM_CHUNKS * CHUNK1]. *)
Theorem chunk_mode_writes_one_chunk_less_than_announced
    fuel fd fmt args (w : world) :
  MODE (glob w) = CHUNK ->
  QUIET (glob w) = false ->
  CHUNK2 (glob w) < 0 ->
  1 <= NUM_CHUNKS (glob w) ->
  (exists w0 out,
     reportTest fmt args w = Some (Ret tt w0)
     /\ glob w0 = glob w
     /\ trace w0 = trace w ++ out
     /\ In (Printf stdout "then %d more chunk%s of size %d.\n"
              [I (NUM_CHUNKS (glob w));
               S_ (plural (NUM_CHUNKS (glob w) >? 1));
               I (CHUNK1 (glob w))]) out)
  /\ (exists r, writeData kernel pf fuel fd w = Some r)
  /\ forall w',
       writeData kernel pf fuel fd w = Some (Ret tt w') ->
       exists delta,
         trace w' = trace w ++ delta
         /\ chunks_started delta
            = repeat (CHUNK1 (glob w)) (Z.to_nat (NUM_CHUNKS (glob w)))
         /\ chunks_started delta <> chunk_sizes_as_stated (glob w)
         /\ (sane (write_calls delta) ->
             whole (write_calls delta) ->
             0 <= TOTAL (glob w) ->
             TOTAL (glob w) + NUM_CHUNKS (glob w) * CHUNK1 (glob w)
             <= INT_MAX ->
             TOTAL (glob w')
             = TOTAL (glob w) + NUM_CHUNKS (glob w) * CHUNK1 (glob w)).
Proof.
  intros Hm Hq H2 Hn.
  split.
  { destruct (reportTest_chunk_mode fmt args w Hq Hm) as (w0 & E & G & T).
    exists w0. eexists. split; [exact E|]. split; [exact G|].
    split; [exact T|].
    assert (X : (CHUNK2 (glob w) <? 0) = true) by (apply Z.ltb_lt; lia).
    rewrite X. simpl. tauto. }
  destruct (chunk_mode_attempts_and_accounting fuel fd w Hm) as (Ht & Hc).
  split; [exact Ht|]. intros w' E.
  destruct (Hc w' E) as (delta & T & C & A).
  assert (X1 : (CHUNK2 (glob w) <? 1) = true) by (apply Z.ltb_lt; lia).
  assert (S2 : second_size (glob w) = CHUNK1 (glob w))
    by (unfold second_size; now rewrite X1).
  assert (Ad : additional (glob w) = Z.to_nat (NUM_CHUNKS (glob w) - 1))
    by (unfold additional; now rewrite X1).
  assert (Hs : Z.to_nat (NUM_CHUNKS (glob w))
               = S (Z.to_nat (NUM_CHUNKS (glob w) - 1))) by lia.
  assert (Cd : chunks_started delta
               = repeat (CHUNK1 (glob w)) (Z.to_nat (NUM_CHUNKS (glob w)))).
  { rewrite C, S2, Ad, Hs. reflexivity. }
  exists delta. split; [exact T|]. split; [exact Cd|].
  split.
  { intros X. apply (f_equal (@List.length Z)) in X.
    rewrite Cd in X. unfold chunk_sizes_as_stated in X. simpl in X.
    rewrite !repeat_length in X. lia. }
  intros Sa Wh T0 Fit.
  rewrite S2, Ad in A.
  assert (Ez : Z.of_nat (Z.to_nat (NUM_CHUNKS (glob w) - 1))
               = NUM_CHUNKS (glob w) - 1) by lia.
  rewrite Ez in A.
  assert (Fit' : TOTAL (glob w) + CHUNK1 (glob w)
                 + (NUM_CHUNKS (glob w) - 1) * CHUNK1 (glob w) <= INT_MAX)
    by lia.
  destruct (A Sa T0 Fit') as (_ & Eq). rewrite (Eq Wh). ring.
Qed.

(** ** The drain loop *)

Lemma no_read_after_stop_app (a b : list event) :
  no_read_after_stop a -> no_read_after_stop b ->
  read_calls b = [] \/ Forall (fun e => ~ drain_stop e) a ->
  no_read_after_stop (a ++ b).
Proof.
  induction a as [|e a IH]; simpl; intros Ha Hb Hor; [exact Hb|].
  destruct Ha as (H1 & H2). split.
  - intros Hs. rewrite read_calls_app. destruct Hor as [Hor|Hor].
    + now rewrite (H1 Hs), Hor.
    + inversion Hor; subst. contradiction.
  - apply IH; auto. destruct Hor as [?|Hor]; [now left|right].
    now inversion Hor.
Qed.

Lemma no_read_no_stop_issue (l : list event) :
  read_calls l = [] -> no_read_after_stop l.
Proof.
  induction l as [|e l IH]; simpl; auto. intros H.
  assert (Hl : read_calls l = []).
  { destruct e as [c a| | | |]; auto. destruct c; auto; discriminate. }
  auto.
Qed.

Lemma calls_of_app (a b : list event) :
  calls_of (a ++ b) = calls_of a ++ calls_of b.
Proof. apply flat_map_app. Qed.

Lemma next_call_app P (l1 l2 : list event) :
  next_call P l1 -> next_call P (l1 ++ l2).
Proof.
  intros (c & H & Hc). exists c. split; [|exact Hc].
  rewrite calls_of_app. destruct (calls_of l1); [discriminate|exact H].
Qed.

Lemma next_call_skip P (l1 l2 : list event) :
  calls_of l1 = [] -> next_call P l2 -> next_call P (l1 ++ l2).
Proof.
  intros H (c & H2 & Hc). exists c. split; [|exact Hc].
  now rewrite calls_of_app, H.
Qed.

Lemma next_call_here (P : syscall -> Prop) c a (l : list event) :
  P c -> next_call P (Sys c a :: l).
Proof. intros H. exists c. auto. Qed.

Lemma reads_go_on_app fd bufsiz (l1 l2 : list event) :
  reads_go_on fd bufsiz l1 -> reads_go_on fd bufsiz l2 ->
  reads_go_on fd bufsiz (l1 ++ l2).
Proof.
  induction l1 as [|e l1 IH]; simpl; [auto|].
  intros (He & H1) H2. split; [|auto].
  destruct e as [c a| | | |]; auto.
  destruct c; auto; intros; apply next_call_app; auto.
Qed.

Lemma reads_go_on_no_call fd bufsiz (l : list event) :
  calls_of l = [] -> reads_go_on fd bufsiz l.
Proof.
  induction l as [|e l IH]; simpl; [auto|].
  destruct e as [c a| | | |]; simpl; auto. discriminate.
Qed.

Lemma reads_go_on_unlinks fd bufsiz (tail : list event) :
  Forall (fun e => exists p r, e = Sys (c_unlink p) r) tail ->
  reads_go_on fd bufsiz tail.
Proof. induction 1 as [|e l (p & r & ->) _ IH]; simpl; auto. Qed.

(** What [printFdQueueSize] does: nothing and -1, or one ioctl. *)
Lemma printFdQueueSize_spec fd which (w : world) r :
  printFdQueueSize kernel pf fd which w = Some r ->
  (r = Ret (-1) w)
  \/ exists req a l,
       trace (world_of r) = trace w ++ Sys (c_ioctl fd req) a :: l
       /\ glob (world_of r) = glob w /\ hooks (world_of r) = hooks w
       /\ read_calls l = [] /\ write_calls l = [] /\ chunks_started l = []
       /\ Forall (fun e => ~ drain_stop e) l
       /\ (retval a <> -1 -> calls_of l = [])
       /\ (forall fd' b, reads_go_on fd' b l)
       /\ ((retval a = -1 /\ exists w', r = Exit EXIT_FAILURE w')
           \/ (retval a <> -1 /\ exists w', r = Ret (out0 a) w')).
Proof.
  intros E. unfold printFdQueueSize in E.
  destruct (queue_request pf which) as [[req label]|];
    [|left; now inversion E].
  rewrite get_bind in E.
  destruct (_ || _ || _); [|left; now inversion E].
  right. unfold bind at 1 in E. unfold call in E.
  destruct (do_call_spec kernel (c_ioctl fd req) w) as (a & k' & Ec & _).
  rewrite Ec in E. clear Ec. exists req, a.
  destruct (retval a =? -1) eqn:Hr.
  - apply Z.eqb_eq in Hr.
    match type of E with err_ _ ?l ?e ?y = _ =>
      destruct (@err_spec K kernel Z l e y) as (w' & tail & E' & G & Hh & _ & T & U) end.
    rewrite E' in E. inversion E; subst; clear E. simpl in *.
    exists (Err "ioctl" (err a) :: tail).
    destruct (unlinks_inert fd tail U) as (N1 & N2 & N3 & _).
    rewrite T, <- app_assoc. simpl. repeat split; auto.
    + constructor; [simpl; tauto|].
      eapply Forall_impl; [|exact U]. intros e (p & x & ->). simpl. tauto.
    + congruence.
    + now apply reads_go_on_unlinks.
    + left. eauto.
  - apply Z.eqb_neq in Hr. rewrite get_bind in E.
    unfold bind, when, printf, emit, ret in E. simpl in E.
    destruct (negb (QUIET (glob w))); simpl in E; inversion E; subst; simpl;
      rewrite <- ?app_assoc; simpl.
    + eexists. repeat split; eauto.
    + exists []. repeat split; eauto; constructor.
Qed.

Lemma readData_while_spec fuel :
  forall fd bufsiz total (w : world) r,
    in_int total ->
    readData_while kernel pf fuel fd bufsiz total w = Some r ->
    exists delta,
      trace (world_of r) = trace w ++ delta
      /\ glob (world_of r) = glob w /\ hooks (world_of r) = hooks w
      /\ Forall (fun y => fst (fst y) = fd /\ snd (fst y) = bufsiz)
           (read_calls delta)
      /\ write_calls delta = [] /\ chunks_started delta = []
      /\ no_read_after_stop delta
      /\ match r with
         | Ret t _ =>
             t = wrap32 (total + bytes_read (read_calls delta))
             /\ Forall (fun y => taken (snd y) < 0 -> err (snd y) = EAGAIN)
                  (read_calls delta)
         | Exit s _ => s = EXIT_FAILURE
         end.
Proof.
  induction fuel as [|fuel IH]; intros fd bufsiz total w r Hi E; [discriminate|].
  cbn [readData_while] in E.
  destruct (bind_Some _ _ _ _ E) as [(left & w1 & E1 & E2)|(s & w1 & E1 & ->)];
    clear E.
  - (* the queue query returned *)
    assert (Hq : exists d1,
               trace w1 = trace w ++ d1 /\ glob w1 = glob w
               /\ hooks w1 = hooks w
               /\ read_calls d1 = [] /\ write_calls d1 = []
               /\ chunks_started d1 = []
               /\ (left <> 0 -> Forall (fun e => ~ drain_stop e) d1)).
    { destruct (printFdQueueSize_spec _ _ _ _ E1)
        as [X|(req & a & l & T & G & Hh & R & W & C & Ns & Nc & Ng & [(_ & w' & X)|(Hr & w' & X)])].
      - inversion X; subst. exists []. rewrite app_nil_r.
        repeat split; auto.
      - discriminate.
      - inversion X; subst. simpl in *.
        exists (Sys (c_ioctl fd req) a :: l). simpl.
        repeat split; auto. intros Hl. constructor; [simpl; tauto|exact Ns]. }
    destruct Hq as (d1 & T1 & G1 & H1 & R1 & W1 & C1 & S1).
    assert (Sd1 : no_read_after_stop d1) by now apply no_read_no_stop_issue.
    destruct (left =? 0) eqn:Hl.
    + inversion E2; subst; clear E2. exists d1. simpl.
      rewrite R1. repeat split; auto.
      unfold bytes_read. simpl. rewrite Z.add_0_r. symmetry.
      now apply wrap32_id.
    + apply Z.eqb_neq in Hl. specialize (S1 Hl).
      unfold bind at 1 in E2. unfold call in E2.
      destruct (do_call_spec kernel (c_read fd bufsiz) w1) as (a & k' & Ec & _).
      rewrite Ec in E2. clear Ec. fold (taken a) in E2.
      destruct (taken a <? 0) eqn:Hneg.
      * apply Z.ltb_lt in Hneg.
        destruct (errno_eqb (err a) EAGAIN) eqn:Ha.
        -- apply errno_eqb_eq in Ha. inversion E2; subst; clear E2.
           exists (d1 ++ [Sys (c_read fd bufsiz) a]). simpl.
           rewrite T1, <- app_assoc, read_calls_app, write_calls_app,
             chunks_started_app, R1, W1, C1. simpl.
           repeat split; auto.
           ++ apply no_read_after_stop_app; simpl; auto.
           ++ unfold bytes_read. simpl.
              rewrite Z.max_l by lia. rewrite Z.add_0_r. symmetry.
              now apply wrap32_id.
        -- match type of E2 with err_ _ ?l ?e ?y = _ =>
             destruct (@err_spec K kernel Z l e y)
               as (w' & tail & E' & G & Hh & _ & T & U) end.
           rewrite E' in E2. inversion E2; subst; clear E2. simpl in *.
           destruct (unlinks_inert fd tail U) as (N1 & N2 & N3 & _).
           exists (d1 ++ Sys (c_read fd bufsiz) a :: Err "read" (err a) :: tail).
           rewrite T, T1, <- !app_assoc, read_calls_app, write_calls_app,
             chunks_started_app, R1, W1, C1. simpl. rewrite N1, N2, N3.
           repeat split; auto; try congruence.
           apply no_read_after_stop_app; simpl; auto.
           split; [auto|]. split; [intros []|].
           now apply no_read_no_stop_issue.
      * apply Z.ltb_ge in Hneg.
        destruct (taken a =? 0) eqn:Hz.
        -- apply Z.eqb_eq in Hz. inversion E2; subst; clear E2.
           exists (d1 ++ [Sys (c_read fd bufsiz) a]). simpl.
           rewrite T1, <- app_assoc, read_calls_app, write_calls_app,
             chunks_started_app, R1, W1, C1. simpl.
           repeat split; auto.
           ++ apply no_read_after_stop_app; simpl; auto.
           ++ unfold bytes_read. simpl. now rewrite Z.max_r, Z.add_0_r by lia.
           ++ constructor; [simpl; lia|constructor].
        -- apply Z.eqb_neq in Hz.
           destruct (IH _ _ _ _ _ (wrap32_range _) E2)
             as (d2 & T2 & G2 & H2 & R2 & W2 & C2 & S2 & Hr).
           exists (d1 ++ Sys (c_read fd bufsiz) a :: d2).
           simpl in T2, G2, H2.
           rewrite T2, T1, <- !app_assoc, read_calls_app, write_calls_app,
             chunks_started_app, R1, W1, C1. simpl.
           repeat split; auto; try congruence.
           ++ apply no_read_after_stop_app; simpl; auto.
              split; [intros; lia|exact S2].
           ++ destruct r as [t w'|s w']; [|exact Hr].
              destruct Hr as (Ht & Hf). split.
              ** rewrite Ht, wrap32_add_l. unfold bytes_read. simpl.
                 f_equal. rewrite Z.max_r by lia. lia.
              ** constructor; [simpl; lia|exact Hf].
  - (* the queue query ended the process *)
    destruct (printFdQueueSize_spec _ _ _ _ E1)
      as [X|(req & a & l & T & G & Hh & R & W & C & _ & _ & _ & [(_ & w' & X)|(Hr & w' & X)])];
      try discriminate.
    inversion X; subst. simpl in *.
    exists (Sys (c_ioctl fd req) a :: l). simpl. rewrite R.
    repeat split; auto.
    now apply no_read_no_stop_issue.
Qed.

(** The loop goes on as long as nothing stops it: its first call is the
    query or the read, a query that answers a non-zero count is followed by
    the read, and a read that took bytes by the next query or read. *)
Lemma readData_while_goes_on fuel :
  forall fd bufsiz total (w : world) r,
    readData_while kernel pf fuel fd bufsiz total w = Some r ->
    exists delta,
      trace (world_of r) = trace w ++ delta
      /\ next_call (query_or_read fd bufsiz) delta
      /\ reads_go_on fd bufsiz delta.
Proof.
  induction fuel as [|fuel IH]; intros fd bufsiz total w r E; [discriminate|].
  cbn [readData_while] in E.
  destruct (bind_Some _ _ _ _ E) as [(left & w1 & E1 & E2)|(s & w1 & E1 & ->)];
    clear E.
  - assert (Hq : exists d1,
               trace w1 = trace w ++ d1
               /\ (left = 0 -> next_call (query_or_read fd bufsiz) d1
                               /\ reads_go_on fd bufsiz d1)
               /\ (left <> 0 -> forall b l2,
                     (0 < taken b ->
                      next_call (query_or_read fd bufsiz) l2) ->
                     reads_go_on fd bufsiz l2 ->
                     next_call (query_or_read fd bufsiz)
                       (d1 ++ Sys (c_read fd bufsiz) b :: l2)
                     /\ reads_go_on fd bufsiz
                          (d1 ++ Sys (c_read fd bufsiz) b :: l2))).
    { destruct (printFdQueueSize_spec _ _ _ _ E1)
        as [X|(req & a & l & T & G & Hh & R & W & C & Ns & Nc & Ng & [(_ & w' & X)|(Hr & w' & X)])].
      - inversion X; subst. exists []. rewrite app_nil_r.
        split; [reflexivity|].
        split; [intros; discriminate|].
        intros _ b l2 Hb H2. simpl. split; [|split; [exact Hb|exact H2]].
        apply next_call_here. now left.
      - discriminate.
      - inversion X; subst. simpl in *.
        exists (Sys (c_ioctl fd req) a :: l).
        split; [exact T|]. specialize (Nc Hr).
        split.
        + intros H0. split; [apply next_call_here; right; eauto|].
          simpl. split; [|apply Ng]. intros _ H1. now elim H1.
        + intros Hl b l2 Hb H2. split.
          * apply next_call_here. right. eauto.
          * simpl. split.
            -- intros _ _. apply next_call_skip; [exact Nc|].
               now apply next_call_here.
            -- apply reads_go_on_app; [apply Ng|]. simpl. auto. }
    destruct Hq as (d1 & T1 & N0 & N1).
    destruct (left =? 0) eqn:Hl.
    + apply Z.eqb_eq in Hl. inversion E2; subst; clear E2. exists d1. simpl.
      split; [exact T1|]. now apply N0.
    + apply Z.eqb_neq in Hl. specialize (N1 Hl).
      unfold bind at 1 in E2. unfold call in E2.
      destruct (do_call_spec kernel (c_read fd bufsiz) w1) as (a & k' & Ec & _).
      rewrite Ec in E2. clear Ec. fold (taken a) in E2.
      destruct (taken a <? 0) eqn:Hneg.
      * apply Z.ltb_lt in Hneg.
        destruct (errno_eqb (err a) EAGAIN) eqn:Ha.
        -- inversion E2; subst; clear E2.
           exists (d1 ++ [Sys (c_read fd bufsiz) a]). simpl.
           rewrite T1, <- app_assoc. split; [reflexivity|].
           apply N1; [intros; lia|exact Logic.I].
        -- match type of E2 with err_ _ ?l ?e ?y = _ =>
             destruct (@err_spec K kernel Z l e y)
               as (w' & tail & E' & G & Hh & _ & T & U) end.
           rewrite E' in E2. inversion E2; subst; clear E2. simpl in *.
           exists (d1 ++ Sys (c_read fd bufsiz) a :: Err "read" (err a) :: tail).
           rewrite T, T1, <- !app_assoc. split; [reflexivity|].
           apply N1; [intros; lia|]. simpl. split; [exact Logic.I|].
           now apply reads_go_on_unlinks.
      * apply Z.ltb_ge in Hneg.
        destruct (taken a =? 0) eqn:Hz.
        -- apply Z.eqb_eq in Hz. inversion E2; subst; clear E2.
           exists (d1 ++ [Sys (c_read fd bufsiz) a]). simpl.
           rewrite T1, <- app_assoc. split; [reflexivity|].
           apply N1; [intros; lia|exact Logic.I].
        -- destruct (IH _ _ _ _ _ E2) as (d2 & T2 & N2 & G2).
           exists (d1 ++ Sys (c_read fd bufsiz) a :: d2).
           simpl in T2. rewrite T2, T1, <- !app_assoc.
           split; [reflexivity|]. apply N1; auto.
  - destruct (printFdQueueSize_spec _ _ _ _ E1)
      as [X|(req & a & l & T & G & Hh & R & W & C & Ns & Nc & Ng & [(Hr & w' & X)|(_ & w' & X)])];
      try discriminate.
    exists (Sys (c_ioctl fd req) a :: l). split; [exact T|]. split.
    + apply next_call_here. right. eauto.
    + simpl. split; [intros H; now elim H|apply Ng].
Qed.

(** ** Events of the probe *)

Lemma probe_events_inert fd (l : list event) :
  Forall (probe_event fd) l ->
  read_calls l = [] /\ Forall (fun x => fst (fst x) = fd) (write_calls l).
Proof.
  induction 1 as [|e l He _ (I1 & I2)]; simpl; auto.
  destruct e as [c a| | | |]; simpl in *; auto.
  destruct c; simpl in *; auto; contradiction.
Qed.

Lemma chunk_event_probe fd e : chunk_event fd e = true -> probe_event fd e.
Proof.
  destruct e as [c a| | | |]; simpl; auto.
  destruct c; simpl; auto; try discriminate. intros H. now apply Z.eqb_eq in H.
Qed.

Lemma quiet_event_probe fd e : quiet_event e -> probe_event fd e.
Proof.
  destruct e as [c a| | | |]; simpl; auto. destruct c; simpl; auto; contradiction.
Qed.

Lemma preorder_any_change : preorder any_change.
Proof. split; unfold any_change; auto. Qed.

Lemma writeChunk_probe fd count :
  emits (probe_event fd) any_change (writeChunk kernel fd count).
Proof.
  eapply emits_impl; [| |apply writeChunk_emits].
  - apply chunk_event_probe.
  - unfold any_change; auto.
Qed.

Lemma writeLoop_while_probe fuel :
  forall fd count inc i,
    emits (probe_event fd) any_change
      (writeLoop_while kernel fuel fd count inc i).
Proof.
  pose proof preorder_any_change as Hp.
  induction fuel as [|fuel IH]; intros fd count inc i.
  - intros w r H. discriminate.
  - cbn [writeLoop_while].
    apply emits_bind; [exact Hp|apply writeChunk_probe|intros n].
    apply emits_if; [now apply emits_ret|apply IH].
Qed.

Lemma writeData_for_probe left :
  forall fd, emits (probe_event fd) any_change (writeData_for kernel left fd).
Proof.
  pose proof preorder_any_change as Hp.
  induction left as [|left IH]; intros fd; cbn [writeData_for].
  - now apply emits_ret.
  - apply emits_bind; [exact Hp|now apply emits_get|intros c2].
    apply emits_bind; [exact Hp|apply writeChunk_probe|intros _]. apply IH.
Qed.

Lemma quiet_probe {A} fd (m : @M K A) :
  emits quiet_event eq m -> emits (probe_event fd) any_change m.
Proof.
  apply emits_impl; [apply quiet_event_probe|unfold any_change; auto].
Qed.

Lemma writeData_run_probe fuel fd :
  emits (probe_event fd) any_change (writeData_run kernel pf fuel fd).
Proof.
  pose proof preorder_any_change as Hp.
  unfold writeData_run.
  apply emits_bind;
    [exact Hp|apply quiet_probe, printFdQueueSize_emits|intros _].
  apply emits_bind; [exact Hp|now apply emits_get|intros q].
  apply emits_bind; [exact Hp| |intros _].
  { apply emits_when; [exact Hp|]. apply emits_emit; simpl; auto. }
  apply emits_bind; [exact Hp|now apply emits_get|intros m].
  apply emits_bind; [exact Hp| |intros _].
  - apply emits_if.
    + apply emits_bind; [exact Hp|now apply emits_get|intros c1].
      apply emits_bind; [exact Hp|now apply emits_get|intros c2].
      unfold writeLoop.
      apply emits_bind; [exact Hp|apply writeLoop_while_probe|intros i].
      apply emits_bind; [exact Hp|now apply emits_get|intros q'].
      apply emits_when; [exact Hp|]. apply emits_emit; simpl; auto.
    + unfold writeData_chunks.
      apply emits_bind; [exact Hp|now apply emits_get|intros c2].
      apply emits_bind; [exact Hp|now apply emits_get|intros c1].
      apply emits_bind; [exact Hp| |intros _].
      { apply emits_when; [exact Hp|].
        apply emits_modify; unfold any_change; auto. }
      apply emits_bind;
        [exact Hp|apply quiet_probe, writeData_announce_emits|intros _].
      apply emits_bind; [exact Hp|apply writeChunk_probe|intros _].
      apply emits_bind; [exact Hp|now apply emits_get|intros num].
      apply writeData_for_probe.
  - apply quiet_probe, writeData_report_emits.
Qed.

(** The first thing [writeData] does is set its descriptor nonblocking; when
    that fails nothing is written; every write is on that descriptor and
    nothing is read. *)
Lemma writeData_nonblocking_first fuel fd (w : world) r :
  writeData kernel pf fuel fd w = Some r ->
  exists a rest,
    trace (world_of r) = trace w ++ Sys (c_fcntl_nonblock fd) a :: rest
    /\ (retval a < 0 -> write_calls rest = [])
    /\ Forall (fun x => fst (fst x) = fd) (write_calls rest)
    /\ read_calls rest = []
    /\ hooks (world_of r) = hooks w.
Proof.
  intros E. unfold writeData in E. unfold bind at 1 in E. unfold call in E.
  destruct (do_call_spec kernel (c_fcntl_nonblock fd) w) as (a & k' & Ec & _).
  rewrite Ec in E. clear Ec. exists a.
  destruct (retval a <? 0) eqn:Hneg.
  - match type of E with err_ _ ?l ?e ?y = _ =>
      destruct (@err_spec K kernel unit l e y)
        as (w' & tail & E' & G & Hh & _ & T & U) end.
    rewrite E' in E. inversion E; subst; clear E. simpl in *.
    exists (Err "fcntl set flags" (err a) :: tail).
    destruct (unlinks_inert fd tail U) as (N1 & N2 & _).
    rewrite T, <- app_assoc. simpl. rewrite N1, N2. repeat split; auto.
  - apply Z.ltb_ge in Hneg.
    destruct (writeData_run_probe _ _ _ _ E) as (d & T & F & _ & Hh).
    destruct (probe_events_inert _ _ F) as (R & W).
    exists d. simpl in T, Hh. rewrite T, <- app_assoc. simpl.
    repeat split; auto. intros; lia.
Qed.

(** ** The largest chunk on record covers every write of the process *)

Lemma covered_mono g g' d :
  LARGEST_CHUNK g <= LARGEST_CHUNK g' -> covered g d -> covered g' d.
Proof.
  intros H. unfold covered. apply Forall_impl. intros; lia.
Qed.

Lemma covered_app g d1 d2 : covered g d1 -> covered g d2 -> covered g (d1 ++ d2).
Proof.
  unfold covered. rewrite write_calls_app. intros. now apply Forall_app.
Qed.

Lemma covered_quiet g d : Forall quiet_event d -> covered g d.
Proof.
  intros H. unfold covered. destruct (quiet_inert _ H) as (W & _).
  rewrite W. constructor.
Qed.

Lemma writeLoop_while_largest fuel :
  forall fd count inc i (w : world) j w',
    writeLoop_while kernel fuel fd count inc i w = Some (Ret j w') ->
    0 <= LARGEST_CHUNK (glob w) ->
    exists d,
      trace w' = trace w ++ d
      /\ LARGEST_CHUNK (glob w) <= LARGEST_CHUNK (glob w')
      /\ covered (glob w') d.
Proof.
  induction fuel as [|fuel IH]; intros fd count inc i w j w' E HL;
    [discriminate|].
  cbn [writeLoop_while] in E.
  apply bind_Ret in E. destruct E as (n & w1 & E1 & E2).
  destruct (writeChunk_account _ _ _ _ _ E1)
    as (d1 & T1 & _ & _ & _ & _ & L1 & _).
  destruct (L1 HL) as (M1 & A1).
  destruct (negb (n =? count) || (n <? 0)).
  - inversion E2; subst. exists d1. auto.
  - destruct (IH _ _ _ _ _ _ _ E2 ltac:(lia)) as (d2 & T2 & M2 & A2).
    exists (d1 ++ d2). rewrite T2, T1, app_assoc.
    split; [reflexivity|]. split; [lia|].
    apply covered_app; [|exact A2]. eapply covered_mono; [|exact A1]. exact M2.
Qed.

Lemma writeData_largest fuel fd (w : world) w' :
  writeData kernel pf fuel fd w = Some (Ret tt w') ->
  0 <= LARGEST_CHUNK (glob w) ->
  exists d,
    trace w' = trace w ++ d
    /\ read_calls d = []
    /\ LARGEST_CHUNK (glob w) <= LARGEST_CHUNK (glob w')
    /\ covered (glob w') d.
Proof.
  intros E HL.
  destruct (writeData_nonblocking_first _ _ _ _ E) as (a0 & rest0 & T0 & _ & _ & R0 & _).
  destruct (writeData_inv _ _ _ _ E)
    as (a & w1 & pre & T1 & G1 & H1
        & [(_ & w2 & t & X & _)|(Ha & Fp & [(s & w2 & X & _)|Eb])]);
    try discriminate.
  apply bind_Ret in Eb. destruct Eb as (u & w2 & Ec & Er). destruct u.
  destruct (writeData_report_emits _ _ _ Er) as (dr & Tr & Fr & Gr & Hr).
  simpl in Tr, Gr, Hr.
  assert (Hmid : exists dc,
             trace w2 = trace w1 ++ dc
             /\ LARGEST_CHUNK (glob w) <= LARGEST_CHUNK (glob w2)
             /\ covered (glob w2) dc).
  { destruct (mode_eqb (MODE (glob w)) LOOP).
    - unfold writeLoop in Ec. apply bind_Ret in Ec.
      destruct Ec as (j & w3 & El & Ep).
      destruct (writeLoop_while_largest _ _ _ _ _ _ _ _ El ltac:(rewrite G1; exact HL))
        as (dl & Tl & Ml & Al).
      rewrite get_bind in Ep. unfold when, printf, emit, ret in Ep.
      rewrite G1 in Ml.
      destruct (negb (QUIET (glob w3))); inversion Ep; subst; simpl.
      + exists (dl ++ [Printf stdout "%-15s: %8d\n" [S_ "Iterations"; I j]]).
        rewrite Tl, <- app_assoc. split; [reflexivity|]. split; [exact Ml|].
        apply covered_app; [exact Al|]. apply covered_quiet.
        repeat constructor.
      + exists dl. auto.
    - destruct (writeData_chunks_account _ _ _ Ec)
        as (dc & Tc & _ & _ & Lc & _).
      rewrite G1 in Lc. destruct (Lc HL) as (Mc & Ac).
      exists dc. auto. }
  destruct Hmid as (dc & Tc & Mc & Ac).
  exists (Sys (c_fcntl_nonblock fd) a :: pre ++ dc ++ dr).
  assert (Tall : trace w' = trace w ++ Sys (c_fcntl_nonblock fd) a :: pre ++ dc ++ dr).
  { rewrite Tr, Tc, T1. simpl. now rewrite <- !app_assoc. }
  split; [exact Tall|]. split.
  { simpl in T0. rewrite Tall in T0. apply app_inv_head in T0.
    inversion T0; subst. simpl. exact R0. }
  rewrite <- Gr. split; [exact Mc|].
  change (Sys (c_fcntl_nonblock fd) a :: pre ++ dc ++ dr)
    with ([Sys (c_fcntl_nonblock fd) a] ++ pre ++ dc ++ dr).
  repeat apply covered_app; auto using covered_quiet.
  apply covered_quiet. repeat constructor.
Qed.

(** ** readData *)

Lemma drain_bufsiz_ge g :
  LARGEST_CHUNK g <= drain_bufsiz pf g /\ BUFSIZ pf <= drain_bufsiz pf g.
Proof.
  unfold drain_bufsiz. destruct (LARGEST_CHUNK g >? BUFSIZ pf) eqn:E.
  - apply Z.gtb_lt in E. lia.
  - rewrite Z.gtb_ltb in E. apply Z.ltb_ge in E. lia.
Qed.

Lemma readData_spec fuel fd (w : world) r :
  readData kernel pf fuel fd w = Some r ->
  exists pre post,
    trace (world_of r) = trace w ++ pre ++ post
    /\ read_calls pre = []
    /\ (read_calls post = []
        \/ exists a, List.last pre Free = Sys (c_fcntl_nonblock fd) a
                     /\ 0 <= retval a)
    /\ glob (world_of r) = glob w /\ hooks (world_of r) = hooks w
    /\ Forall (fun y => fst (fst y) = fd /\ snd (fst y) = drain_bufsiz pf (glob w))
         (read_calls post)
    /\ write_calls (pre ++ post) = []
    /\ no_read_after_stop (pre ++ post)
    /\ match r with
       | Ret t _ =>
           t = wrap32 (bytes_read (read_calls post))
           /\ Forall (fun y => taken (snd y) < 0 -> err (snd y) = EAGAIN)
                (read_calls post)
       | Exit s _ => s = EXIT_FAILURE
       end
    /\ reads_go_on fd (drain_bufsiz pf (glob w)) post
    /\ ((exists a, List.last pre Free = Sys (c_fcntl_nonblock fd) a
                   /\ 0 <= retval a) ->
        next_call (query_or_read fd (drain_bufsiz pf (glob w))) post)
    /\ match r with
       | Ret _ _ =>
           exists loop,
             post = loop ++
                    (if QUIET (glob w) then []
                     else [Printf stdout "%-15s: %8d\n"
                             [S_ "Read";
                              I (wrap32 (bytes_read (read_calls loop)))]])
       | Exit _ _ => True
       end.
Proof.
  intros E. unfold readData in E. rewrite get_bind in E.
  assert (Hq : exists w0 l,
             when (negb (QUIET (glob w))) (@printf K "Draining...\n" []) w
             = Some (Ret tt w0)
             /\ trace w0 = trace w ++ l /\ glob w0 = glob w
             /\ hooks w0 = hooks w
             /\ Forall quiet_event l /\ Forall (fun e => ~ drain_stop e) l).
  { unfold when, printf, emit, ret. destruct (negb (QUIET (glob w))).
    - eexists _, [_]. split; [reflexivity|]. simpl.
      repeat split; repeat constructor; simpl; auto.
    - exists w, []. rewrite app_nil_r. repeat split; auto. }
  destruct Hq as (w0 & l & E0 & T0 & G0 & H0 & F0 & S0).
  unfold bind at 1 in E. rewrite E0 in E. rewrite get_bind in E.
  unfold malloc in E. unfold bind at 1 2 in E. unfold emit, ret in E.
  simpl in E. rewrite G0 in E.
  destruct (quiet_inert _ F0) as (W0 & R0 & C0).
  set (bufsiz := drain_bufsiz pf (glob w)) in *.
  assert (Hpre : forall ok a,
    read_calls (l ++ [Malloc bufsiz ok; Sys (c_fcntl_nonblock fd) a]) = []
    /\ write_calls (l ++ [Malloc bufsiz ok; Sys (c_fcntl_nonblock fd) a]) = []
    /\ Forall (fun e => ~ drain_stop e)
         (l ++ [Malloc bufsiz ok; Sys (c_fcntl_nonblock fd) a])).
  { intros ok a. rewrite read_calls_app, write_calls_app, R0, W0.
    split; [reflexivity|]. split; [reflexivity|].
    apply Forall_app. split; [exact S0|]. repeat constructor; simpl; auto. }
  assert (Hpre1 : forall ok,
    read_calls (l ++ [Malloc bufsiz ok]) = []
    /\ write_calls (l ++ [Malloc bufsiz ok]) = []).
  { intros ok. now rewrite read_calls_app, write_calls_app, R0, W0. }
  destruct (0 <=? bufsiz) eqn:Hb; simpl in E.
  - unfold bind at 1 in E. unfold call in E.
    match type of E with context [do_call _ ?c ?y] =>
      destruct (do_call_spec kernel c y) as (a & k' & Ec & _) end.
    rewrite Ec in E. clear Ec. simpl in E.
    destruct (Hpre true a) as (P1 & P2 & P3).
    destruct (retval a <? 0) eqn:Hneg.
    + match type of E with err_ _ ?l ?e ?y = _ =>
        destruct (@err_spec K kernel Z l e y)
          as (w' & tail & E' & G & Hh & _ & T & U) end.
      rewrite E' in E. inversion E; subst; clear E. simpl in *.
      destruct (unlinks_inert fd tail U) as (N1 & N2 & N3 & _).
      exists (l ++ [Malloc bufsiz true; Sys (c_fcntl_nonblock fd) a]),
        (Err "fcntl set flags" (err a) :: tail).
      split. { rewrite T, T0, <- !app_assoc. reflexivity. }
      split; [exact P1|].
      split. { left. exact N2. }
      split; [congruence|]. split; [congruence|].
      split. { simpl. rewrite N2. constructor. }
      split. { rewrite write_calls_app, P2. simpl. exact N1. }
      split.
      { apply no_read_no_stop_issue. rewrite read_calls_app, P1. exact N2. }
      split; [reflexivity|].
      split. { simpl. split; [exact Logic.I|now apply reads_go_on_unlinks]. }
      split; [|exact Logic.I].
      intros (a' & La & Ha).
      change [Malloc bufsiz true; Sys (c_fcntl_nonblock fd) a]
        with ([Malloc bufsiz true] ++ [Sys (c_fcntl_nonblock fd) a]) in La.
      rewrite app_assoc, last_last in La. inversion La; subst a'.
      apply Z.ltb_lt in Hneg. lia.
    + apply Z.ltb_ge in Hneg.
      assert (Hi : in_int 0) by (unfold in_int, INT_MIN, INT_MAX; lia).
      destruct (bind_Some _ _ _ _ E) as [(t & w1 & E1 & E2)|(s & w1 & E1 & ->)];
        clear E.
      * destruct (readData_while_spec _ _ _ _ _ _ Hi E1)
          as (d & T & G & Hh & Fr & W & C & S & Ht & Hf).
        destruct (readData_while_goes_on _ _ _ _ _ _ E1) as (d' & T' & Nd & Gd).
        simpl in T, G, Hh, T'.
        assert (d' = d) by (rewrite T in T'; now apply app_inv_head in T').
        subst d'.
        assert (Hp : exists l2 w2,
                   when (negb (QUIET (glob w)))
                     (@printf K "%-15s: %8d\n" [S_ "Read"; I t]) w1
                   = Some (Ret tt w2)
                   /\ trace w2 = trace w1 ++ l2 /\ glob w2 = glob w1
                   /\ hooks w2 = hooks w1
                   /\ read_calls l2 = [] /\ write_calls l2 = []
                   /\ l2 = (if QUIET (glob w) then []
                            else [Printf stdout "%-15s: %8d\n"
                                    [S_ "Read"; I t]])).
        { unfold when, printf, emit, ret. destruct (QUIET (glob w)); simpl.
          - exists [], w1. rewrite app_nil_r. auto 10.
          - eexists [_], _. split; [reflexivity|]. simpl. auto 10. }
        destruct Hp as (l2 & w2 & Ep & T2 & G2 & H2 & R2 & W2 & L2).
        revert L2.
        unfold bind at 1 in E2. rewrite Ep in E2. inversion E2; subst; clear E2.
        simpl. intros L2.
        exists (l ++ [Malloc bufsiz true; Sys (c_fcntl_nonblock fd) a]),
          (d ++ l2).
        split. { rewrite T2, T, T0, <- !app_assoc. reflexivity. }
        split; [exact P1|].
        split. { right. exists a. change [Malloc bufsiz true; Sys (c_fcntl_nonblock fd) a]
                   with ([Malloc bufsiz true] ++ [Sys (c_fcntl_nonblock fd) a]).
                 rewrite app_assoc, last_last. auto. }
        split; [congruence|]. split; [congruence|].
        rewrite read_calls_app, R2, app_nil_r.
        split; [exact Fr|].
        split. { rewrite write_calls_app, P2, write_calls_app, W, W2. reflexivity. }
        split.
        { apply no_read_after_stop_app.
          - now apply no_read_no_stop_issue.
          - apply no_read_after_stop_app; auto.
            now apply no_read_no_stop_issue.
          - right. exact P3. }
        split; [split; [reflexivity|exact Hf]|].
        split.
        { apply reads_go_on_app; [exact Gd|].
          apply reads_go_on_no_call. rewrite L2.
          now destruct (QUIET (glob w)). }
        split. { intros _. now apply next_call_app. }
        exists d. now rewrite L2.
      * destruct (readData_while_spec _ _ _ _ _ _ Hi E1)
          as (d & T & G & Hh & Fr & W & C & S & Hs).
        destruct (readData_while_goes_on _ _ _ _ _ _ E1) as (d' & T' & Nd & Gd).
        simpl in *.
        assert (d' = d) by (rewrite T in T'; now apply app_inv_head in T').
        subst d'.
        exists (l ++ [Malloc bufsiz true; Sys (c_fcntl_nonblock fd) a]), d.
        split. { rewrite T, T0, <- !app_assoc. reflexivity. }
        split; [exact P1|].
        split. { right. exists a. change [Malloc bufsiz true; Sys (c_fcntl_nonblock fd) a]
                   with ([Malloc bufsiz true] ++ [Sys (c_fcntl_nonblock fd) a]).
                 rewrite app_assoc, last_last. auto. }
        split; [congruence|]. split; [congruence|].
        split; [exact Fr|].
        split. { rewrite write_calls_app, P2, W. reflexivity. }
        split.
        { apply no_read_after_stop_app; auto.
          now apply no_read_no_stop_issue. }
        split; [exact Hs|]. auto.
  - match type of E with err_ _ ?l ?e ?y = _ =>
      destruct (@err_spec K kernel Z l e y)
        as (w' & tail & E' & G & Hh & _ & T & U) end.
    rewrite E' in E. inversion E; subst; clear E. simpl in *.
    destruct (unlinks_inert fd tail U) as (N1 & N2 & N3 & _).
    destruct (Hpre1 false) as (P1 & P2).
    exists (l ++ [Malloc bufsiz false]), (Err "malloc" ENOMEM :: tail).
    split. { rewrite T, T0, <- !app_assoc. reflexivity. }
    split; [exact P1|].
    split. { left. exact N2. }
    split; [congruence|]. split; [congruence|].
    split. { simpl. rewrite N2. constructor. }
    split. { rewrite write_calls_app, P2. simpl. exact N1. }
    split.
    { apply no_read_no_stop_issue. rewrite read_calls_app, P1. exact N2. }
    split; [reflexivity|].
    split. { simpl. split; [exact Logic.I|now apply reads_go_on_unlinks]. }
    split; [|exact Logic.I].
    intros (a' & La & Ha). rewrite last_last in La. discriminate.
Qed.

Lemma bytes_read_nonneg calls : 0 <= bytes_read calls.
Proof.
  unfold bytes_read. induction calls as [|x calls IH]; simpl; lia.
Qed.

(** C6: the drain.  [readData] reads into a buffer of
    [max(BUFSIZ, LARGEST_CHUNK)] bytes, [LARGEST_CHUNK] being the record of
    the process that drains; it sets the descriptor nonblocking before its
    first read.  Once the descriptor is nonblocking the loop starts and
    runs as long as nothing stops it: its first call is the queue query or
    the read; a query that succeeds with a count other than zero is
    followed by the read, and a read that took bytes by the next query or
    read.  Once a query that succeeded reports depth zero, or a read fails
    or returns zero bytes, it reads no more.  When it returns, the last
    thing it did, unless [QUIET] is set, was to print the line [Read] with
    the sum of what its reads returned, cut to an [int]; a read failure
    other than would-block ends the process with EXIT_FAILURE.  When the
    probe ran before the drain in the same process, the buffer is at least
    as large as what any write took. *)
Theorem drain_reads_until_empty fuel :
  (forall fd (w : world) r,
     readData kernel pf fuel fd w = Some r ->
     exists pre post,
       trace (world_of r) = trace w ++ pre ++ post
       /\ read_calls pre = []
       /\ (read_calls post = []
           \/ exists a, List.last pre Free = Sys (c_fcntl_nonblock fd) a
                        /\ 0 <= retval a)
       /\ Forall (fun y => fst (fst y) = fd
                           /\ snd (fst y) = drain_bufsiz pf (glob w)
                           /\ LARGEST_CHUNK (glob w) <= snd (fst y)
                           /\ BUFSIZ pf <= snd (fst y))
            (read_calls post)
       /\ no_read_after_stop (pre ++ post)
       /\ ((exists a, List.last pre Free = Sys (c_fcntl_nonblock fd) a
                      /\ 0 <= retval a) ->
           next_call (query_or_read fd (drain_bufsiz pf (glob w))) post)
       /\ reads_go_on fd (drain_bufsiz pf (glob w)) post
       /\ match r with
          | Ret t _ =>
              t = wrap32 (bytes_read (read_calls post))
              /\ (bytes_read (read_calls post) <= INT_MAX ->
                    t = bytes_read (read_calls post))
              /\ Forall (fun y => taken (snd y) < 0 -> err (snd y) = EAGAIN)
                   (read_calls post)
              /\ exists loop,
                   read_calls loop = read_calls post
                   /\ post = loop ++
                        (if QUIET (glob w) then []
                         else [Printf stdout "%-15s: %8d\n"
                                 [S_ "Read"; I t]])
          | Exit s _ => s = EXIT_FAILURE
          end)
  /\ (forall wfd rfd (w : world) r,
        0 <= LARGEST_CHUNK (glob w) ->
        bind (writeData kernel pf fuel wfd)
          (fun _ => readData kernel pf fuel rfd) w = Some r ->
        exists d,
          trace (world_of r) = trace w ++ d /\ drain_buffer_covers_writes d).
Proof.
  split.
  - intros fd w r E.
    destruct (readData_spec _ _ _ _ E)
      as (pre & post & T & R & Hn & G & Hh & Fr & W & S & Hr & Go & Nx & Hl).
    exists pre, post.
    split; [exact T|]. split; [exact R|]. split; [exact Hn|].
    split.
    { eapply Forall_impl; [|exact Fr]. intros y (Y1 & Y2).
      destruct (drain_bufsiz_ge (glob w)). rewrite Y2. auto. }
    split; [exact S|]. split; [exact Nx|]. split; [exact Go|].
    destruct r as [t w'|s w']; [|exact Hr].
    destruct Hr as (Ht & Hf). split; [exact Ht|].
    split.
    { intros Hfit. rewrite Ht. apply wrap32_id.
      pose proof (bytes_read_nonneg (read_calls post)).
      unfold INT_MIN. lia. }
    split; [exact Hf|].
    destruct Hl as (loop & Hl). exists loop.
    assert (Rl : read_calls loop = read_calls post).
    { pose proof (f_equal read_calls Hl) as X.
      rewrite read_calls_app in X. rewrite X.
      destruct (QUIET (glob w)); simpl; now rewrite app_nil_r. }
    split; [exact Rl|]. rewrite Ht, <- Rl. exact Hl.
  - intros wfd rfd w r HL E.
    destruct (bind_Some _ _ _ _ E) as [(u & w1 & E1 & E2)|(s & w1 & E1 & ->)].
    + destruct u.
      destruct (writeData_largest _ _ _ _ E1 HL) as (d1 & T1 & R1 & M1 & C1).
      destruct (readData_spec _ _ _ _ E2)
        as (pre & post & T & R & Hn & G & Hh & Fr & W & S & Hr & _).
      exists (d1 ++ pre ++ post).
      split. { rewrite T, T1. now rewrite <- !app_assoc. }
      intros x y Hx Hy.
      rewrite write_calls_app, W, app_nil_r in Hx.
      rewrite !read_calls_app, R1, R in Hy. simpl in Hy.
      eapply Forall_forall in C1; [|exact Hx].
      eapply Forall_forall in Fr; [|exact Hy].
      destruct Fr as (_ & ->).
      destruct (drain_bufsiz_ge (glob w1)). lia.
    + destruct (writeData_nonblocking_first _ _ _ _ E1)
        as (a & rest & T & _ & _ & R & _).
      exists (Sys (c_fcntl_nonblock wfd) a :: rest).
      split; [exact T|].
      intros x y Hx Hy. simpl in Hy. rewrite R in Hy. contradiction.
Qed.

(** ** A probe of size zero *)

(** On a kernel that answers a write of zero bytes with zero, a chunk of
    size zero is a full write. *)
Lemma zero_chunk_is_full fd (w : world) :
  (forall k fd', retval (fst (kernel k (c_write fd' 0))) = 0) ->
  exists w1, writeChunk kernel fd 0 w = Some (Ret 0 w1).
Proof.
  intros Hz. rewrite writeChunk_unfold by lia. simpl Z.to_nat.
  cbn [writeChunk_again]. unfold bind at 1. unfold call.
  destruct (do_call_spec kernel (c_write fd 0) (after_malloc 0 w))
    as (a & k' & Ec & Ek).
  rewrite Ec. specialize (Hz (kst (after_malloc 0 w)) fd).
  rewrite Ek in Hz. simpl in Hz. rewrite Hz. simpl.
  unfold bind, get, modify, when, printf, emit, ret. simpl.
  change (wrap32 0) with 0.
  destruct (negb (QUIET (glob w))); simpl;
    destruct (0 >? LARGEST_CHUNK (glob w)); simpl; eauto.
Qed.

End Probe.

(** ** Code that runs before the exit handler is registered *)

Section BeforeHandlers.

Context {K : Type}.
Variable kernel : K -> syscall -> sysret * K.

Abbreviation world := (@world K).
Abbreviation result := (@result K).
Abbreviation M := (@M K).
Abbreviation cli := (cli (K:=K)).

Variables P Q : event -> Prop.
Variable R : globals -> globals -> Prop.
Variable S : Z -> Prop.
Hypothesis R_pre : preorder R.

Lemma cli_ret {A} (a : A) : cli P Q R S (ret a).
Proof.
  intros w Hh. exists (Ret a w), []. simpl. rewrite app_nil_r.
  repeat split; auto. apply R_pre.
Qed.

Lemma cli_get {A} (f : globals -> A) : cli P Q R S (get f).
Proof.
  intros w Hh. exists (Ret (f (glob w)) w), []. simpl. rewrite app_nil_r.
  repeat split; auto. apply R_pre.
Qed.

Lemma cli_modify f : (forall g, R g (f g)) -> cli P Q R S (modify f).
Proof.
  intros Hf w Hh. eexists (Ret tt _), []. simpl. rewrite app_nil_r.
  repeat split; auto.
Qed.

Lemma cli_emit e : P e -> Q e -> cli P Q R S (emit e).
Proof.
  intros HP HQ w Hh. eexists (Ret tt _), [e]. simpl.
  repeat split; auto. apply R_pre.
Qed.

Lemma cli_exit {A} status : S status -> cli P Q R S (@exit_ K kernel A status).
Proof.
  intros HS w Hh. exists (Exit status w), []. unfold exit_. rewrite Hh.
  simpl. rewrite app_nil_r. repeat split; auto.
Qed.

Lemma cli_bind {A B} (m : M A) (f : A -> M B) :
  cli P Q R S m -> (forall a, cli P Q R S (f a)) -> cli P Q R S (bind m f).
Proof.
  intros Hm Hf w Hh.
  destruct (Hm _ Hh) as (r1 & d1 & E1 & H1 & K1 & T1 & F1 & X1).
  unfold bind. rewrite E1. destruct r1 as [a w1|s w1]; simpl in *.
  - destruct (Hf a _ H1) as (r2 & d2 & E2 & H2 & K2 & T2 & F2 & X2).
    exists r2, (d1 ++ d2). rewrite T2, T1, app_assoc.
    split; [exact E2|]. split; [exact H2|]. split; [congruence|].
    split; [reflexivity|]. split; [now apply Forall_app|].
    destruct r2 as [b w2|s w2]; [|exact X2].
    destruct X1 as (Q1 & R1). destruct X2 as (Q2 & R2).
    split; [now apply Forall_app|]. destruct R_pre as [_ Tr]. eapply Tr; eauto.
  - exists (Exit s w1), d1. simpl. auto 10.
Qed.

Lemma cli_if {A} (b : bool) (m1 m2 : M A) :
  cli P Q R S m1 -> cli P Q R S m2 -> cli P Q R S (if b then m1 else m2).
Proof. destruct b; auto. Qed.

Lemma cli_when (b : bool) (m : M unit) :
  cli P Q R S m -> cli P Q R S (when b m).
Proof. destruct b; simpl; auto using cli_ret. Qed.

End BeforeHandlers.

Lemma cli_impl {K A} (P P' Q Q' : event -> Prop) R R' (S S' : Z -> Prop)
  (m : @M K A) :
  (forall e, P e -> P' e) -> (forall e, Q e -> Q' e) ->
  (forall g g', R g g' -> R' g g') -> (forall s, S s -> S' s) ->
  cli P Q R S m -> cli P' Q' R' S' m.
Proof.
  intros HP HQ HR HS Hm w Hh.
  destruct (Hm _ Hh) as (r & d & E & H1 & K1 & T1 & F1 & X1).
  exists r, d. split; [exact E|]. split; [exact H1|]. split; [exact K1|].
  split; [exact T1|]. split; [eapply Forall_impl; eauto|].
  destruct r as [a w'|s w'].
  - destruct X1 as (Q1 & R1). split; [eapply Forall_impl; eauto|auto].
  - auto.
Qed.

(** Code that prints and then exits never returns, so what is asked of
    events and globals on return asks nothing of it. *)
Lemma cli_then_exit {K} (kernel : K -> syscall -> sysret * K) {A B}
  (P Q : event -> Prop) R (S : Z -> Prop) (m : @M K A) status :
  S status ->
  cli P (fun _ => True) any_change S m ->
  cli P Q R S (bind m (fun _ => @exit_ K kernel B status)).
Proof.
  intros HS Hm w Hh.
  destruct (Hm _ Hh) as (r1 & d1 & E1 & H1 & K1 & T1 & F1 & X1).
  unfold bind. rewrite E1. destruct r1 as [a w1|s w1]; simpl in *.
  - unfold exit_. rewrite H1. exists (Exit status w1), d1. simpl. auto 10.
  - exists (Exit s w1), d1. simpl. auto 10.
Qed.

(** ** The command line *)

Section CommandLine.

Context {K : Type}.
Variable kernel : K -> syscall -> sysret * K.
Variable pf : platform.

Abbreviation world := (@world K).
Abbreviation result := (@result K).

Lemma usage_spec (w : world) :
  hooks w = false ->
  exists w' d,
    @usage K w = Some (Ret tt w')
    /\ hooks w' = false /\ kst w' = kst w /\ glob w' = glob w
    /\ trace w' = trace w ++ d /\ Forall is_printf d.
Proof.
  intros Hh.
  assert (Hc : cli is_printf (fun _ => True) eq (fun _ => False) (@usage K)).
  { unfold usage, printf.
    repeat (apply cli_bind; [apply preorder_eq| |intros _]);
      apply cli_emit; simpl; auto using preorder_eq. }
  destruct (Hc _ Hh) as (r & d & E & H1 & K1 & T1 & F1 & X).
  destruct r as [[] w'|s w']; [|contradiction].
  destruct X as (_ & G). exists w', d. simpl in *. auto 10.
Qed.

Lemma usage_then_exit {A} status (w : world) :
  hooks w = false ->
  exists w' d,
    bind (@usage K) (fun _ => @exit_ K kernel A status) w
    = Some (Exit status w')
    /\ cli_step w (@Exit K A status w') d /\ glob w' = glob w.
Proof.
  intros Hh. destruct (usage_spec w Hh) as (w' & d & E & H1 & K1 & G1 & T1 & F1).
  exists w', d. unfold bind. rewrite E. unfold exit_. rewrite H1.
  split; [reflexivity|]. split; [|exact G1].
  unfold cli_step. simpl. repeat split; auto. intros; discriminate.
Qed.

Lemma complain_then_exit {A} fmt args status (w : world) :
  hooks w = false ->
  exists w',
    bind (@fprintf_stderr K fmt args) (fun _ => @exit_ K kernel A status) w
    = Some (Exit status w')
    /\ cli_step w (@Exit K A status w') [Printf stderr fmt args]
    /\ glob w' = glob w.
Proof.
  intros Hh. unfold bind, fprintf_stderr, emit, exit_. simpl. rewrite Hh.
  eexists. split; [reflexivity|]. split; [|reflexivity].
  unfold cli_step. simpl. repeat split; auto.
  - repeat constructor.
  - intros; discriminate.
Qed.

Lemma inputNumber_spec a threshold (w : world) :
  hooks w = false ->
  (accepted_number a threshold
   /\ inputNumber kernel a threshold w = Some (Ret (wrap32 (strtol a)) w))
  \/ (~ accepted_number a threshold
      /\ exists w',
           inputNumber kernel a threshold w = Some (Exit EXIT_FAILURE w')
           /\ cli_step w (@Exit K Z EXIT_FAILURE w')
                [Printf stderr "Please provide a number >= %d.\n" [I threshold]]
           /\ glob w' = glob w).
Proof.
  intros Hh. unfold inputNumber, accepted_number.
  destruct (wrap32 (strtol a) <? threshold) eqn:E.
  - right. apply Z.ltb_lt in E. split; [lia|].
    destruct (@complain_then_exit Z "Please provide a number >= %d.\n"
                [I threshold] EXIT_FAILURE w Hh) as (w' & E' & C & G).
    eauto.
  - left. apply Z.ltb_ge in E. auto.
Qed.

Lemma modify_bind {B} f (k : unit -> @M K B) (w : world) :
  bind (modify f) k w = k tt (mkWorld (kst w) (f (glob w)) (hooks w) (trace w)).
Proof. reflexivity. Qed.

Lemma cli_step_refl {A} (w : world) (a : A) :
  hooks w = false -> cli_step w (Ret a w) [].
Proof. intros Hh. unfold cli_step. simpl. rewrite app_nil_r. auto 10. Qed.

(** The same step seen from a world that differs in its globals only. *)
Lemma cli_step_from {A} (w0 w : world) (r : result A) d :
  kst w0 = kst w -> trace w0 = trace w ->
  cli_step w0 r d -> cli_step w r d.
Proof.
  intros Hk Ht (H1 & H2 & H3 & H4 & H5). unfold cli_step.
  rewrite <- Hk, <- Ht. auto 10.
Qed.

Lemma cli_step_exit {A B} {w w' : world} {s d} :
  cli_step w (@Exit K A s w') d -> cli_step w (@Exit K B s w') d.
Proof.
  intros (H1 & H2 & H3 & H4 & _). unfold cli_step. simpl in *.
  repeat split; auto. intros; discriminate.
Qed.

Lemma options_keep_other o rest g g1 g' :
  IPC_TYPE g1 = IPC_TYPE g -> SET_PIPEBUF g1 = SET_PIPEBUF g ->
  (forall a, o <> opt_P a) ->
  options_keep rest g1 g' -> options_keep (o :: rest) g g'.
Proof.
  intros I P N (H1 & H2 & H3 & H4). unfold options_keep.
  rewrite <- I, <- P. split; [exact H1|]. split; [exact H2|]. split.
  - intros (a & [E|E]); [now destruct (N a)|]. apply H3. now exists a.
  - intros X. apply H4. intros a Y. apply (X a). now right.
Qed.

Lemma options_keep_P a rest g g1 g' :
  IPC_TYPE g1 = IPC_TYPE g -> 1 <= SET_PIPEBUF g1 ->
  options_keep rest g1 g' -> options_keep (opt_P a :: rest) g g'.
Proof.
  intros I P (H1 & H2 & H3 & H4). unfold options_keep.
  rewrite <- I. split; [exact H1|].
  assert (1 <= SET_PIPEBUF g') by (destruct H2; lia).
  split; [now right|]. split; [auto|].
  intros X. destruct (X a). now left.
Qed.

Lemma options_post_cons o rest sflag sflag' (w w1 : world) r :
  (option_accepted o) ->
  sflag' = sflag || is_opt_s o ->
  (forall g', options_keep rest (glob w1) g' ->
              options_keep (o :: rest) (glob w) g') ->
  options_post rest sflag' w1 r -> options_post (o :: rest) sflag w r.
Proof.
  intros Hacc Hs Hk. destruct r as [st w'|s w']; simpl.
  - intros (F & S & Kp). split; [now constructor|].
    split; [|now apply Hk]. now rewrite orb_assoc, <- Hs.
  - intros (S & F). split.
    + destruct S as [S|(S & I)]; [now left|right; split; auto; now right].
    + intros X. inversion X; subst. contradiction.
Qed.

Lemma options_post_refused o rest sflag (w w' : world) s :
  ~ option_accepted o ->
  exit_status_ok (o :: rest) s ->
  options_post (o :: rest) sflag w (Exit s w').
Proof.
  intros N S. simpl. split; [exact S|].
  intros X. inversion X; subst. contradiction.
Qed.

Lemma parseArgs_options_spec opts :
  forall sflag type (w : world),
    hooks w = false ->
    exists r d,
      parseArgs_options kernel opts sflag type w = Some r
      /\ cli_step w r d
      /\ options_post opts sflag w r.
Proof.
  induction opts as [|o rest IH]; intros sflag type w Hh.
  - exists (Ret (sflag, type) w), []. simpl. rewrite orb_false_r.
    split; [reflexivity|]. split; [now apply cli_step_refl|].
    unfold options_keep. split; [auto|]. split; [auto|].
    split; [auto|]. split; [auto|]. split; [|auto].
    intros (a & []).
  - assert (Hnum : forall a threshold setter,
      (option_accepted o <-> accepted_number a threshold) ->
      is_opt_s o = false ->
      (forall n g g', threshold <= n ->
         options_keep rest (setter n g) g' -> options_keep (o :: rest) g g') ->
      exists r d,
        bind (inputNumber kernel a threshold)
          (fun n => bind (modify (setter n))
             (fun _ => parseArgs_options kernel rest sflag type)) w = Some r
        /\ cli_step w r d
        /\ options_post (o :: rest) sflag w r).
    { intros a threshold setter Hacc Hs Hk.
      destruct (inputNumber_spec a threshold w Hh)
        as [(Ha & E)|(Ha & w' & E & C & _)].
      - unfold bind at 1. rewrite E. rewrite modify_bind.
        match goal with |- context [parseArgs_options _ _ _ _ ?w1] =>
          destruct (IH sflag type w1 Hh) as (r & d & E1 & C1 & X1) end.
        exists r, d. split; [exact E1|].
        split. { eapply cli_step_from; [| |exact C1]; reflexivity. }
        eapply options_post_cons; [now apply Hacc| |
          |exact X1].
        + now rewrite Hs, orb_false_r.
        + simpl. intros g'. apply Hk. exact Ha.
      - unfold bind at 1. rewrite E.
        eexists _, _. split; [reflexivity|].
        split; [exact (cli_step_exit C)|].
        apply options_post_refused; [|now left].
        intros X. apply Ha. now apply Hacc. }
    assert (Hflag : forall (f : globals -> globals) sflag',
      option_accepted o -> sflag' = sflag || is_opt_s o ->
      (forall a, o <> opt_P a) ->
      (forall g, IPC_TYPE (f g) = IPC_TYPE g
                 /\ SET_PIPEBUF (f g) = SET_PIPEBUF g) ->
      forall type',
      exists r d,
        bind (modify f)
          (fun _ => parseArgs_options kernel rest sflag' type') w = Some r
        /\ cli_step w r d
        /\ options_post (o :: rest) sflag w r).
    { intros f sflag' Hacc Hs HnP Hf type'. rewrite modify_bind.
      match goal with |- context [parseArgs_options _ _ _ _ ?w1] =>
        destruct (IH sflag' type' w1 Hh) as (r & d & E1 & C1 & X1) end.
      exists r, d. split; [exact E1|].
      split. { eapply cli_step_from; [| |exact C1]; reflexivity. }
      eapply options_post_cons; [exact Hacc|exact Hs| |exact X1].
      simpl. intros g'. destruct (Hf (glob w)) as (F1 & F2).
      now apply options_keep_other. }
    destruct o; cbn [parseArgs_options].
    + apply Hnum; [simpl; tauto|reflexivity|].
      intros n g g' Hn. apply options_keep_P; [reflexivity|exact Hn].
    + apply Hnum; [simpl; tauto|reflexivity|].
      intros n g g' _. apply options_keep_other;
        [reflexivity|reflexivity|discriminate].
    + apply Hnum; [simpl; tauto|reflexivity|].
      intros n g g' _. apply options_keep_other;
        [reflexivity|reflexivity|discriminate].
    + apply Hflag; simpl; auto; [now rewrite orb_false_r|discriminate].
    + destruct (@usage_then_exit (bool * option string) EXIT_SUCCESS w Hh)
        as (w' & d & E & C & _).
      eexists _, d. split; [exact E|]. split; [exact C|].
      apply options_post_refused; [simpl; tauto|].
      right; split; simpl; auto.
    + apply Hflag; simpl; auto; [now rewrite orb_false_r|discriminate].
    + apply Hnum; [simpl; tauto|reflexivity|].
      intros n g g' _. apply options_keep_other;
        [reflexivity|reflexivity|discriminate].
    + apply Hflag; simpl; auto; [now rewrite orb_false_r|discriminate].
    + apply Hflag; simpl; auto; [now rewrite orb_true_r|discriminate].
    + destruct (IH sflag (Some optarg) w Hh) as (r & d & E1 & C1 & X1).
      exists r, d. split; [exact E1|]. split; [exact C1|].
      eapply options_post_cons; [exact Logic.I|symmetry; apply orb_false_r|
                                 |exact X1].
      intros g'. apply options_keep_other; auto. discriminate.
    + destruct (@usage_then_exit (bool * option string) EXIT_FAILURE w Hh)
        as (w' & d & E & C & _).
      eexists _, d. split; [exact E|]. split; [exact C|].
      apply options_post_refused; [simpl; tauto|now left].
Qed.

Lemma cli_step_Ret {A} (w w' : world) (a : A) d :
  cli_step w (Ret a w') d ->
  hooks w' = false /\ kst w' = kst w /\ trace w' = trace w /\ d = [].
Proof.
  intros (H1 & H2 & H3 & _ & H5). simpl in *.
  assert (d = []) by (eapply H5; reflexivity). subst d.
  rewrite app_nil_r in H3. auto.
Qed.

Lemma cli_step_glob {A} (w : world) (a : A) g :
  hooks w = false ->
  cli_step w (Ret a (mkWorld (kst w) g (hooks w) (trace w))) [].
Proof.
  intros Hh. unfold cli_step. simpl. rewrite app_nil_r. auto 10.
Qed.

Lemma parseArgs_operands_spec operands (w : world) :
  hooks w = false ->
  exists r d,
    parseArgs_operands kernel operands w = Some r
    /\ cli_step w r d
    /\ match r with
       | Ret _ w' =>
           operands_accepted operands /\ late_keep (glob w) (glob w')
       | Exit s _ => s = EXIT_FAILURE /\ ~ operands_accepted operands
       end.
Proof.
  intros Hh. unfold operands_accepted.
  destruct operands as [|a0 more]; cbn [parseArgs_operands].
  - exists (Ret tt w), []. split; [reflexivity|].
    split; [now apply cli_step_refl|]. simpl. split; [constructor|].
    now split.
  - destruct (inputNumber_spec a0 0 w Hh) as [(Ha & E)|(Ha & w' & E & C & _)].
    + unfold bind at 1. rewrite E. rewrite modify_bind.
      destruct more as [|a1 more'].
      * eexists _, []. split; [reflexivity|].
        split; [now apply cli_step_glob|]. simpl.
        split; [now repeat constructor|now split].
      * match goal with |- context [bind _ _ ?w1] =>
          destruct (inputNumber_spec a1 0 w1 Hh)
            as [(Ha1 & E1)|(Ha1 & w' & E1 & C1 & _)] end.
        -- unfold bind at 1. rewrite E1. eexists _, [].
           split; [reflexivity|]. split; [now apply (cli_step_glob w)|]. simpl.
           split; [now repeat constructor|now split].
        -- unfold bind at 1. rewrite E1. eexists _, _.
           split; [reflexivity|]. split.
           { eapply cli_step_from; [| |exact (cli_step_exit C1)]; reflexivity. }
           split; [reflexivity|]. simpl. intros X.
           inversion X as [|? ? _ X1]; subst. inversion X1; subst.
           contradiction.
    + unfold bind at 1. rewrite E. eexists _, _.
      split; [reflexivity|]. split; [exact (cli_step_exit C)|].
      split; [reflexivity|]. simpl. intros X. inversion X; subst.
      contradiction.
Qed.

Lemma parseArgs_socket_spec sflag operands (w : world) :
  hooks w = false ->
  exists r d,
    parseArgs_socket kernel sflag operands w = Some r
    /\ cli_step w r d
    /\ match r with
       | Ret _ w' =>
           operands_accepted operands
           /\ late_keep (glob w) (glob w')
           /\ (sflag = true ->
               IPC_TYPE (glob w) = IPC_SOCKET
               \/ IPC_TYPE (glob w) = IPC_SOCKETPAIR)
           /\ (has_prefix "inet" (SET_SOCKTYPE (glob w)) = true ->
               IPC_TYPE (glob w) = IPC_SOCKET)
       | Exit s _ => s = EXIT_FAILURE
       end.
Proof.
  intros Hh. unfold parseArgs_socket. rewrite get_bind.
  destruct (sflag && negb (ipc_eqb (IPC_TYPE (glob w)) IPC_SOCKET)
            && negb (ipc_eqb (IPC_TYPE (glob w)) IPC_SOCKETPAIR)) eqn:C1.
  { destruct (@complain_then_exit unit
      "Setting the socket type only makes sense with '-t socket' or '-t socketpair'.\n"
      [] EXIT_FAILURE w Hh) as (w' & E & C & _).
    eexists _, _. split; [exact E|]. split; [exact C|reflexivity]. }
  rewrite get_bind.
  destruct (has_prefix "inet" (SET_SOCKTYPE (glob w))
            && negb (ipc_eqb (IPC_TYPE (glob w)) IPC_SOCKET)) eqn:C2.
  { destruct (@complain_then_exit unit
      "'inet/inet6' type sockets can only be specified with '-t socket'.\n"
      [] EXIT_FAILURE w Hh) as (w' & E & C & _).
    eexists _, _. split; [exact E|]. split; [exact C|reflexivity]. }
  assert (S1 : sflag = true ->
               IPC_TYPE (glob w) = IPC_SOCKET
               \/ IPC_TYPE (glob w) = IPC_SOCKETPAIR).
  { intros ->. destruct (IPC_TYPE (glob w)); auto; discriminate. }
  assert (S2 : has_prefix "inet" (SET_SOCKTYPE (glob w)) = true ->
               IPC_TYPE (glob w) = IPC_SOCKET).
  { intros X. rewrite X in C2. destruct (IPC_TYPE (glob w)); auto;
      discriminate. }
  clear C1 C2.
  match goal with |- context [bind ?B _ w] =>
    assert (B1 : exists g1, B w
                 = Some (Ret tt (mkWorld (kst w) g1 (hooks w) (trace w)))
                 /\ late_keep (glob w) g1) end.
  { destruct (has_prefix "inet-" (SET_SOCKTYPE (glob w))).
    - eexists. split; [reflexivity|]. now split.
    - destruct (has_prefix "inet6-" (SET_SOCKTYPE (glob w))).
      + eexists. split; [reflexivity|]. now split.
      + exists (glob w). split; [now destruct w|]. now split. }
  destruct B1 as (g1 & E1 & (K1 & K2)).
  unfold bind at 1. rewrite E1. rewrite get_bind. cbn [glob].
  assert (Hop : forall g2, late_keep (glob w) g2 ->
    exists r d,
      parseArgs_operands kernel operands
        (mkWorld (kst w) g2 (hooks w) (trace w)) = Some r
      /\ cli_step w r d
      /\ match r with
         | Ret _ w' =>
             operands_accepted operands
             /\ late_keep (glob w) (glob w')
             /\ (sflag = true ->
                 IPC_TYPE (glob w) = IPC_SOCKET
                 \/ IPC_TYPE (glob w) = IPC_SOCKETPAIR)
             /\ (has_prefix "inet" (SET_SOCKTYPE (glob w)) = true ->
                 IPC_TYPE (glob w) = IPC_SOCKET)
         | Exit s _ => s = EXIT_FAILURE
         end).
  { intros g2 (L1 & L2).
    destruct (parseArgs_operands_spec operands
                (mkWorld (kst w) g2 (hooks w) (trace w)) Hh)
      as (r & d & E & C & X).
    exists r, d. split; [exact E|].
    split. { eapply cli_step_from; [| |exact C]; reflexivity. }
    destruct r as [u w'|s w']; [|tauto].
    destruct X as (X1 & X2 & X3). simpl in X2, X3.
    split; [exact X1|]. split; [split; congruence|auto]. }
  destruct (strcasecmp_eq (SET_SOCKTYPE g1) "stream").
  - rewrite modify_bind. cbn [kst glob hooks trace].
    apply Hop. now split.
  - destruct (negb (strcasecmp_eq (SET_SOCKTYPE g1) "dgram")).
    + match goal with |- context [bind _ _ ?w1] =>
        destruct (@complain_then_exit unit
          "Invalid socket type. Please use one of [inet[6]-(dgram|stream).\n"
          [] EXIT_FAILURE w1 Hh) as (w' & E & C & _) end.
      unfold bind at 1. rewrite E. eexists _, _.
      split; [reflexivity|]. split; [|reflexivity].
      eapply cli_step_from; [| |exact C]; reflexivity.
    + unfold bind at 1. unfold ret. apply Hop. now split.
Qed.

Lemma parseArgs_spec opts operands (w : world) :
  hooks w = false ->
  exists r d,
    parseArgs kernel opts operands w = Some r
    /\ cli_step w r d
    /\ match r with
       | Ret _ w' =>
           Forall option_accepted opts
           /\ (List.length operands <= 2)%nat
           /\ Forall (fun a => accepted_number a 0) operands
           /\ (IPC_TYPE (glob w') = IPC_PIPE \/ SET_PIPEBUF (glob w') = -1)
           /\ (existsb is_opt_s opts = true ->
               IPC_TYPE (glob w') = IPC_SOCKET
               \/ IPC_TYPE (glob w') = IPC_SOCKETPAIR)
           /\ ((exists a, In (opt_P a) opts) -> 1 <= SET_PIPEBUF (glob w'))
           /\ ((forall a, ~ In (opt_P a) opts) ->
               SET_PIPEBUF (glob w') = SET_PIPEBUF (glob w))
       | Exit s _ => exit_status_ok opts s
       end.
Proof.
  intros Hh. unfold parseArgs.
  destruct (parseArgs_options_spec opts false None w Hh)
    as (r0 & d0 & E0 & C0 & X0).
  unfold bind at 1. rewrite E0.
  destruct r0 as [st w0|s w0].
  2:{ exists (Exit s w0), d0. split; [reflexivity|].
      split; [exact (cli_step_exit C0)|]. now destruct X0. }
  destruct X0 as (F0 & S0 & (I0 & P0 & P1 & P2)). simpl in S0.
  destruct (cli_step_Ret _ _ _ _ C0) as (Hh0 & K0 & T0 & ->).
  destruct (2 <? Z.of_nat (List.length operands)) eqn:L.
  { destruct (@usage_then_exit unit EXIT_FAILURE w0 Hh0)
      as (w' & d & E & C & _).
    exists (Exit EXIT_FAILURE w'), d. split; [exact E|].
    split; [|now left].
    eapply cli_step_from; [| |exact C]; auto. }
  apply Z.ltb_ge in L.
  assert (B1 : exists g1,
            parseArgs_type (snd st) w0
            = Some (Ret tt (mkWorld (kst w0) g1 (hooks w0) (trace w0)))
            /\ SET_PIPEBUF g1 = SET_PIPEBUF (glob w0)
            /\ SET_SOCKTYPE g1 = SET_SOCKTYPE (glob w0)).
  { unfold parseArgs_type. destruct (snd st) as [t|].
    - destruct (strcasecmp_eq t "fifo");
        [eexists; split; [reflexivity|now split]|].
      destruct (strcasecmp_eq t "pipe");
        [eexists; split; [reflexivity|now split]|].
      destruct (strcasecmp_eq t "socket");
        [eexists; split; [reflexivity|now split]|].
      destruct (strcasecmp_eq t "socketpair");
        [eexists; split; [reflexivity|now split]|].
      exists (glob w0). split; [now destruct w0|now split].
    - exists (glob w0). split; [now destruct w0|now split]. }
  destruct B1 as (g1 & E1 & G1 & G2).
  unfold bind at 1. rewrite E1. rewrite !get_bind. cbn [glob].
  set (w1 := mkWorld (kst w0) g1 (hooks w0) (trace w0)).
  destruct (negb (ipc_eqb (IPC_TYPE g1) IPC_PIPE)
            && negb (SET_PIPEBUF g1 =? -1)) eqn:C1.
  { destruct (@complain_then_exit unit
      "Setting the pipe size only makes sense with '-t pipe'.\n"
      [] EXIT_FAILURE w1 Hh0) as (w' & E & C & _).
    eexists _, _. split; [exact E|]. split; [|now left].
    eapply cli_step_from; [| |exact C]; auto. }
  destruct (parseArgs_socket_spec (fst st) operands w1 Hh0)
    as (r & d & E & C & X).
  exists r, d. split; [exact E|].
  split. { eapply cli_step_from; [| |exact C]; auto. }
  destruct r as [u w'|s w']; [|now left].
  destruct X as (X1 & (X2 & X3) & X4 & X5). simpl in X2, X3, X4.
  rewrite X2, X3.
  split; [exact F0|]. split; [lia|].
  split. { unfold operands_accepted in X1.
           rewrite firstn_all2 in X1 by lia. exact X1. }
  split. { destruct (IPC_TYPE g1); auto.
           all: right; simpl in C1; apply negb_false_iff in C1;
             now apply Z.eqb_eq. }
  split. { intros Y. apply X4. now rewrite S0, Y. }
  rewrite G1. split; [exact P1|exact P2].
Qed.

(** From the start of the program [parseArgs] always comes to an end,
    calls nothing and registers nothing; it prints only on its way out.
    When it exits, the status is [EXIT_FAILURE], or [EXIT_SUCCESS] where
    [-h] was given, and [main] ends there.  It returns only when the numbers
    read pass their thresholds, there are at most two operands, [-P] goes
    with a pipe and [-s] with a socket or socket pair. *)
Lemma parseArgs_ends_before_any_call fuel opts operands (k : K) :
  exists r,
    parseArgs kernel opts operands (start k) = Some r
    /\ kst (world_of r) = k
    /\ hooks (world_of r) = false
    /\ Forall is_printf (trace (world_of r))
    /\ match r with
       | Ret _ w' =>
           trace w' = []
           /\ Forall option_accepted opts
           /\ (List.length operands <= 2)%nat
           /\ Forall (fun a => accepted_number a 0) operands
           /\ (IPC_TYPE (glob w') = IPC_PIPE
               \/ forall a, ~ In (opt_P a) opts)
           /\ (existsb is_opt_s opts = true ->
               IPC_TYPE (glob w') = IPC_SOCKET
               \/ IPC_TYPE (glob w') = IPC_SOCKETPAIR)
       | Exit s w' =>
           exit_status_ok opts s
           /\ main kernel pf fuel opts operands (start k)
              = Some (Exit s w', None)
       end.
Proof.
  destruct (parseArgs_spec opts operands (start k) eq_refl)
    as (r & d & E & (H1 & H2 & H3 & H4 & H5) & X).
  exists r. simpl in H2, H3. split; [exact E|]. split; [exact H2|].
  split; [exact H1|]. rewrite H3. split; [exact H4|].
  destruct r as [u w'|s w'].
  - destruct X as (X1 & X2 & X3 & X4 & X5 & X6 & X7).
    simpl in H3. split; [rewrite H3; eapply H5; reflexivity|].
    split; [exact X1|]. split; [exact X2|]. split; [exact X3|].
    split; [|exact X5].
    destruct X4 as [X4|X4]; [now left|right].
    intros a Y. assert (1 <= SET_PIPEBUF (glob w')) by (apply X6; eauto).
    lia.
  - split; [exact X|]. unfold main, bind. now rewrite E.
Qed.

(** [exit] adds the calls of the handler at most: nothing on standard
    output, no write. *)
Lemma exit_quiet {A} s (w : world) :
  exists w' d,
    @exit_ K kernel A s w = Some (Exit s w')
    /\ trace w' = trace w ++ d
    /\ stdout_of d = [] /\ write_calls d = []
    /\ forall e, In e d -> exists p r, e = Sys (c_unlink p) r.
Proof.
  unfold exit_. destruct (hooks w).
  - unfold run_cleanup, do_call.
    destruct (kernel (kst w) (c_unlink "socket")) as [r3 k3]. cbn.
    destruct (kernel k3 (c_unlink "fifo")) as [r4 k4]. cbn.
    exists (mkWorld k4 (glob w) (hooks w)
              ((trace w ++ [Sys (c_unlink "socket") r3])
               ++ [Sys (c_unlink "fifo") r4])),
      [Sys (c_unlink "socket") r3; Sys (c_unlink "fifo") r4].
    split; [reflexivity|]. cbn. rewrite <- app_assoc.
    split; [reflexivity|]. split; [reflexivity|]. split; [reflexivity|].
    intros e [<-|[<-|[]]]; eauto.
  - exists w, []. rewrite app_nil_r. split; [reflexivity|].
    split; [reflexivity|]. split; [reflexivity|]. split; [reflexivity|].
    intros e [].
Qed.

Lemma bind_Exit {A B} (m : @M K A) (f : A -> @M K B) (w w' : world) s :
  m w = Some (Exit s w') -> bind m f w = Some (Exit s w').
Proof. intros E. unfold bind. now rewrite E. Qed.

(** C8 -- Without a request ([SET_PIPEBUF] is -1) [setPipeSize] returns at
    once: no call, no output, nothing changed.  On a platform without
    [F_SETPIPE_SZ], a command line that [parseArgs] accepts and that holds
    [-P] ends the program with [EXIT_FAILURE]: nothing is printed on standard
    output, no byte is written, and the trace holds the message that setting
    the pipe size is not supported (or the diagnostic of [atexit] or [pipe],
    had one of them failed before). *)
Theorem unsupported_pipe_size_request_is_fatal :
  (forall fd (w : world),
     SET_PIPEBUF (glob w) = -1 -> setPipeSize kernel pf fd w = Some (Ret tt w))
  /\ (forall fuel opts operands (k : K) a w1,
        has_F_SETPIPE_SZ pf = false ->
        In (opt_P a) opts ->
        parseArgs kernel opts operands (start k) = Some (Ret tt w1) ->
        exists w',
          main kernel pf fuel opts operands (start k)
          = Some (Exit EXIT_FAILURE w', None)
          /\ stdout_of (trace w') = []
          /\ write_calls (trace w') = []
          /\ pipe_size_refused (trace w')).
Proof.
  split.
  { intros fd w E. unfold setPipeSize. rewrite get_bind, E. reflexivity. }
  intros fuel opts operands k a w1 Hpf Hin E.
  destruct (parseArgs_spec opts operands (start k) eq_refl)
    as (r & d & E' & C & X).
  rewrite E in E'. injection E' as <-.
  destruct (cli_step_Ret _ _ _ _ C) as (Hh1 & K1 & T1 & ->).
  destruct X as (_ & _ & _ & X4 & _ & X6 & _).
  assert (P1 : 1 <= SET_PIPEBUF (glob w1)) by (apply X6; eauto).
  assert (I1 : IPC_TYPE (glob w1) = IPC_PIPE) by (destruct X4; [auto|lia]).
  simpl in T1.
  assert (Fin : forall (w : world) e,
    stdout_of (trace w) = [] -> write_calls (trace w) = [] ->
    is_stdout e = false -> write_calls [e] = [] ->
    pipe_size_refused [e] ->
    exists w',
      bind (emit e) (fun _ => @exit_ K kernel unit EXIT_FAILURE) w
      = Some (Exit EXIT_FAILURE w')
      /\ stdout_of (trace w') = [] /\ write_calls (trace w') = []
      /\ pipe_size_refused (trace w')).
  { intros w e S0 W0 Se We Pe. unfold bind, emit.
    destruct (@exit_quiet unit EXIT_FAILURE
                (mkWorld (kst w) (glob w) (hooks w) (trace w ++ [e])))
      as (w' & d & Ex & T & S & W & _).
    exists w'. split; [exact Ex|]. rewrite T. cbn [trace].
    unfold stdout_of in *. rewrite !filter_app, !write_calls_app.
    rewrite S0, W0, S, W, We. cbn [filter]. rewrite Se.
    split; [reflexivity|]. split; [reflexivity|].
    assert (In_mid : forall x, In x [e] -> In x ((trace w ++ [e]) ++ d)).
    { intros x Hx. apply in_or_app. left. apply in_or_app. now right. }
    destruct Pe as [Pe|(n & [Pe|Pe])].
    - left. now apply In_mid.
    - right. exists n. left. now apply In_mid.
    - right. exists n. right. now apply In_mid. }
  unfold main. unfold bind at 1. rewrite E.
  unfold register_cleanup, bind at 1, call, do_call.
  destruct (kernel (kst w1) c_atexit_cleanup) as [r1 k1] eqn:A1.
  destruct (retval r1 <? 0) eqn:R1.
  { match goal with |- context [err_ _ _ _ ?w] =>
      destruct (Fin w (Err "atexit" (err r1))) as (w' & Ex & S & W & Pr) end.
    - cbn. now rewrite T1.
    - cbn. now rewrite T1.
    - reflexivity.
    - reflexivity.
    - right. exists (err r1). right. now left.
    - unfold err_. rewrite Ex. now exists w'. }
  cbn [glob]. rewrite I1.
  match goal with |- context [bind (doPipe _ _ _) _ ?w] => set (w2 := w) end.
  assert (D : exists w',
    doPipe kernel pf fuel w2 = Some (Exit EXIT_FAILURE w')
    /\ stdout_of (trace w') = [] /\ write_calls (trace w') = []
    /\ pipe_size_refused (trace w')).
  { unfold doPipe. unfold bind at 1. unfold call, do_call.
    destruct (kernel (kst w2) c_pipe) as [r2 k2] eqn:A2.
    destruct (retval r2 <? 0) eqn:R2.
    { match goal with |- context [err_ _ _ _ ?w] =>
        destruct (Fin w (Err "pipe" (err r2))) as (w' & Ex & S & W & Pr) end.
      - cbn. now rewrite T1.
      - cbn. now rewrite T1.
      - reflexivity.
      - reflexivity.
      - right. exists (err r2). left. now left.
      - unfold err_. rewrite Ex. now exists w'. }
    match goal with |- context [bind (setPipeSize _ _ _) _ ?w] =>
      destruct (Fin w (Printf stderr
        "Sorry, setting the pipe size is not supported on this platform.\n" []))
        as (w' & Ex & S & W & Pr) end.
    - cbn. now rewrite T1.
    - cbn. now rewrite T1.
    - reflexivity.
    - reflexivity.
    - left. now left.
    - exists w'. split; [|auto]. apply bind_Exit.
      unfold setPipeSize. rewrite get_bind. subst w2. cbn [glob] in *.
      replace (SET_PIPEBUF (glob w1) =? -1) with false
        by (symmetry; apply Z.eqb_neq; lia).
      rewrite Hpf. cbn [negb]. exact Ex. }
  destruct D as (w' & Ex & S & W & Pr).
  rewrite (bind_Exit _ _ _ _ _ Ex). now exists w'.
Qed.

(** C7 -- A probe run with initial chunk size 0 does not terminate.  Loop
    mode from size zero, doubling or adding zero, on a kernel that answers a
    write of zero bytes with zero: every write is a full write and the next
    size is zero again, so no number of iterations brings [writeLoop] to its
    end, and [writeData] ends only where it fails before the loop; it never
    returns and reports no total. *)
Theorem zero_size_loop_never_ends :
  (forall k fd, retval (fst (kernel k (c_write fd 0))) = 0) ->
  forall inc, inc = -1 \/ inc = 0 ->
    (forall fuel fd i (w : world),
       writeLoop_while kernel fuel fd 0 inc i w = None)
    /\ (forall fuel fd (w : world) r,
          MODE (glob w) = LOOP -> CHUNK1 (glob w) = 0 ->
          CHUNK2 (glob w) = inc ->
          writeData kernel pf fuel fd w = Some r ->
          exists w', r = Exit EXIT_FAILURE w'
                     /\ write_calls (trace w') = write_calls (trace w)).
Proof.
  intros Hz inc Hinc.
  assert (L : forall fuel fd i (w : world),
            writeLoop_while kernel fuel fd 0 inc i w = None).
  { induction fuel as [|fuel IH]; intros fd i w; [reflexivity|].
    cbn [writeLoop_while].
    destruct (zero_chunk_is_full kernel fd w Hz) as (w1 & E).
    unfold bind at 1. rewrite E. cbn.
    replace (grow inc 0) with 0 by (destruct Hinc; subst; reflexivity).
    apply IH. }
  split; [exact L|].
  intros fuel fd w r HM H1 H2 E.
  destruct (writeData_inv kernel pf _ _ _ _ E)
    as (a & w1 & pre & T & G & Hh & [(Neg & w' & tail & -> & T' & U)
                                    |(Pos & Q & [(s & w' & -> & -> & ->)|B])]).
  - exists w'. split; [reflexivity|].
    rewrite T'. destruct (unlinks_inert fd tail U) as (N2 & _).
    change (trace w ++ Sys (c_fcntl_nonblock fd) a
              :: Err "fcntl set flags" (err a) :: tail)
      with (trace w ++ [Sys (c_fcntl_nonblock fd) a;
                        Err "fcntl set flags" (err a)] ++ tail).
    rewrite !write_calls_app, N2. cbn. now rewrite app_nil_r.
  - exists w1. split; [reflexivity|]. rewrite T.
    change (Sys (c_fcntl_nonblock fd) a :: pre)
      with ([Sys (c_fcntl_nonblock fd) a] ++ pre).
    rewrite !write_calls_app. cbn.
    destruct (quiet_inert pre Q) as (W & _). rewrite W.
    now rewrite app_nil_r.
  - rewrite HM, H1, H2 in B. cbn [mode_eqb] in B.
    unfold writeLoop in B. unfold bind at 1 2 in B. now rewrite L in B.
Qed.

End CommandLine.

(** * Sample runs

    The theorems above, and the places where the program does something
    else than one would expect, on the sample kernel. *)

(** ** writeChunk *)

(** A datagram channel that refuses more than three bytes at once: a chunk
    of five shrinks to three. *)
Lemma shrink_on_small_datagrams :
  0 < 5
  /\ exists r delta,
       writeChunk chan_kernel 4 5 (start (dgram_chan 10 3)) = Some r
       /\ trace (world_of r) = delta
       /\ map (fun x => snd (fst x)) (write_calls delta)
          = countdown 5 (List.length (write_calls delta)).
Proof.
  split; [lia|].
  destruct (shrink_terminates_and_decreases chan_kernel 4 5
              (start (dgram_chan 10 3)) ltac:(lia))
    as (r & delta & E & _ & T & _ & S).
  cbv zeta in S. destruct S as (_ & _ & S & _).
  exists r, delta. rewrite length_map in S. auto.
Defined.

(** A stream channel with room for three bytes takes three of five, and
    three is what is booked. *)
Lemma partial_write_is_booked :
  exists n w',
    writeChunk chan_kernel 4 5 (start (stream_chan 3)) = Some (Ret n w')
    /\ TOTAL (glob w') = wrap32 (0 + n)
    /\ LARGEST_CHUNK (glob w') = Z.max 0 n.
Proof.
  eexists _, _. split; [vm_compute; reflexivity|].
  match goal with |- TOTAL (glob ?w) = wrap32 (0 + ?n) /\ _ =>
    destruct (writeChunk_books_exactly_what_was_written chan_kernel 4 5
                (start (stream_chan 3)) n w eq_refl)
      as (_ & _ & B & _) end.
  destruct (B ltac:(lia)) as (B1 & _ & B2). split; [exact B1|exact B2].
Defined.

(** A write of five bytes on a channel with room for seven. *)
Lemma classified_on_a_stream :
  0 <= 5
  /\ exists r, writeChunk chan_kernel 4 5 (start (stream_chan 7)) = Some r.
Proof.
  split; [lia|].
  destruct (write_answers_are_classified chan_kernel 4 5
              (start (stream_chan 7)) ltac:(lia))
    as (r & _ & _ & _ & _ & E & _).
  exists r. exact E.
Defined.

(** ** Loop mode *)

(** A pipe with room for seven bytes: 1, 2 and 4 go through, 8 would
    block. *)
Lemma loop_on_seven_bytes :
  (-1 = -1 \/ 0 <= -1 <= INT_MAX)
  /\ in_int (TOTAL (glob (start (stream_chan 7))))
  /\ exists r l cl wl,
       writeLoop_while chan_kernel 10 4 1 (-1) 0 (start (stream_chan 7))
       = Some r
       /\ full_writes chan_kernel 4 (-1) 1 (start (stream_chan 7)) l cl wl
       /\ Sorted Z.le l.
Proof.
  split; [now left|]. split; [vm_compute; split; discriminate|].
  eexists. 
  match goal with |- exists l cl wl, ?lhs = Some ?r /\ _ =>
    assert (E : lhs = Some r) by (vm_compute; reflexivity) end.
  destruct (loop_mode_is_monotonic_and_sums chan_kernel 10 4 1 (-1)
              (start (stream_chan 7)) _ (or_introl eq_refl)
              ltac:(vm_compute; split; discriminate) E)
    as (l & cl & wl & F & S & _).
  exists l, cl, wl. auto.
Defined.

(** The same pipe through [writeLoop]. *)
Lemma doubling_on_seven_bytes :
  exists w2 m wl n w1 j,
    writeLoop chan_kernel 10 4 1 (-1) (start (stream_chan 7))
    = Some (Ret tt w2)
    /\ full_writes chan_kernel 4 (-1) 1 (start (stream_chan 7))
         (map pow2 (seq 0 m)) (pow2 m) wl
    /\ writeChunk chan_kernel 4 (pow2 m) wl = Some (Ret n w1)
    /\ writeLoop_while chan_kernel 10 4 1 (-1) 0 (start (stream_chan 7))
       = Some (Ret j w1)
    /\ j = Z.of_nat m + (if n >? 0 then 1 else 0).
Proof.
  eexists.
  match goal with |- exists m wl n w1 j, ?lhs = Some (Ret tt ?w) /\ _ =>
    assert (E : lhs = Some (Ret tt w)) by (vm_compute; reflexivity) end.
  destruct (proj2 (loop_from_one_doubles_and_counts chan_kernel 4
                     (start (stream_chan 7))) 10%nat _ E)
    as (m & wl & n & w1 & j & _ & F & C & _ & L & J & _).
  exists m, wl, n, w1, j. auto.
Defined.

(** [ipcbuf] on that pipe: three writes are accepted, the fourth would
    block, and the count printed is three, not four. *)
Lemma would_block_is_not_counted :
  exists w',
    main chan_kernel linux 50 [] [] (start (stream_chan 7))
    = Some (Exit EXIT_SUCCESS w', None)
    /\ map (fun x => snd (fst x)) (write_calls (trace w')) = [1; 2; 4; 8]
    /\ accepted_writes (trace w') = 3%nat
    /\ (exists pre x, write_calls (trace w') = pre ++ [x] /\ would_block x)
    /\ reported_iterations (trace w') = [3]
    /\ reported_iterations (trace w')
       <> [Z.of_nat (accepted_writes (trace w')) + 1].
Proof.
  eexists. split; [vm_compute; reflexivity|].
  split; [vm_compute; reflexivity|]. split; [vm_compute; reflexivity|].
  split.
  { exists [(4, 1, ok 1); (4, 2, ok 2); (4, 4, ok 4)], (4, 8, failure EAGAIN).
    split; [vm_compute; reflexivity|]. vm_compute. split; reflexivity. }
  split; [vm_compute; reflexivity|]. vm_compute. discriminate.
Qed.

(** ** Chunk mode *)

(** [ipcbuf -c -n 2] on a pipe that is full: the second chunk is attempted
    although the first would have blocked. *)
Lemma chunk_mode_goes_on_after_would_block :
  exists w',
    main chan_kernel linux 50 [opt_c; opt_n "2"] [] (start (stream_chan 0))
    = Some (Exit EXIT_SUCCESS w', None)
    /\ ~ would_block_ends_strategy (trace w').
Proof.
  eexists. split; [vm_compute; reflexivity|].
  intros H.
  assert (X := H [] (4, 1, failure EAGAIN) [(4, 1, failure EAGAIN)]
                 ltac:(vm_compute; reflexivity)
                 ltac:(vm_compute; split; reflexivity)).
  discriminate X.
Qed.

(** [ipcbuf -c 100] on a pipe with room for 1000 bytes: one chunk of 100 is
    written in full, not two, and the total is 100. *)
Lemma unset_second_size_writes_one_chunk_less :
  exists w1 w',
    parseArgs chan_kernel [opt_c] ["100"] (start (stream_chan 1000))
    = Some (Ret tt w1)
    /\ main chan_kernel linux 50 [opt_c] ["100"] (start (stream_chan 1000))
       = Some (Exit EXIT_SUCCESS w', None)
    /\ chunk_sizes_as_stated (glob w1) = [100; 100]
    /\ map (fun x => snd (fst x)) (write_calls (trace w')) = [100]
    /\ map (fun x => taken (snd x)) (write_calls (trace w')) = [100]
    /\ TOTAL (glob w') = 100
    /\ TOTAL (glob w') <> sum_Z (chunk_sizes_as_stated (glob w1)).
Proof.
  eexists _, _. split; [vm_compute; reflexivity|].
  split; [vm_compute; reflexivity|]. split; [vm_compute; reflexivity|].
  split; [vm_compute; reflexivity|]. split; [vm_compute; reflexivity|].
  split; [vm_compute; reflexivity|]. vm_compute. discriminate.
Qed.

(** [ipcbuf -c 100], the announcement and the probe side by side: one more
    chunk of size 100 is announced, and one chunk of 100 is started in
    all. *)
Lemma one_more_chunk_announced_and_not_written :
  exists w w0 out w' delta,
    parseArgs chan_kernel [opt_c] ["100"] (start (stream_chan 1000))
    = Some (Ret tt w)
    /\ reportTest "pipe" [] w = Some (Ret tt w0)
    /\ trace w0 = trace w ++ out
    /\ In (Printf stdout "then %d more chunk%s of size %d.\n"
             [I 1; S_ ""; I 100]) out
    /\ writeData chan_kernel linux 5 4 w = Some (Ret tt w')
    /\ trace w' = trace w ++ delta
    /\ chunks_started delta = [100]
    /\ chunks_started delta <> chunk_sizes_as_stated (glob w)
    /\ TOTAL (glob w') = 100.
Proof.
  eexists.
  match goal with |- exists w0 out w' delta, ?p = Some (Ret tt ?w) /\ _ =>
    assert (P : p = Some (Ret tt w)) by (vm_compute; reflexivity);
    destruct (chunk_mode_writes_one_chunk_less_than_announced
                chan_kernel linux 5 4 "pipe" [] w
                ltac:(vm_compute; reflexivity) ltac:(vm_compute; reflexivity)
                ltac:(vm_compute; reflexivity) ltac:(vm_compute; discriminate))
      as ((w0 & out & E0 & _ & T0 & I0) & _ & Hc)
  end.
  exists w0, out. eexists.
  match goal with |- exists delta, _ /\ _ /\ _ /\ _ /\ ?d = Some (Ret tt ?w') /\ _ =>
    assert (E : d = Some (Ret tt w')) by (vm_compute; reflexivity) end.
  destruct (Hc _ E) as (delta & T & C & N & _).
  exists delta.
  split; [exact P|]. split; [exact E0|]. split; [exact T0|].
  split; [exact I0|]. split; [exact E|]. split; [exact T|].
  split; [rewrite C; vm_compute; reflexivity|].
  split; [exact N|]. vm_compute. reflexivity.
Defined.

(** Chunk mode with both sizes given: 100, then one chunk of 50. *)
Lemma chunks_of_100_and_50 :
  exists w w' delta,
    parseArgs chan_kernel [opt_c] ["100"; "50"] (start (stream_chan 1000))
    = Some (Ret tt w)
    /\ MODE (glob w) = CHUNK
    /\ writeData chan_kernel linux 5 4 w = Some (Ret tt w')
    /\ trace w' = trace w ++ delta
    /\ chunks_started delta
       = CHUNK1 (glob w) :: repeat (second_size (glob w)) (additional (glob w)).
Proof.
  eexists _, _.
  match goal with |- exists delta, ?p = Some (Ret tt ?w) /\ _ =>
    assert (P : p = Some (Ret tt w)) by (vm_compute; reflexivity) end.
  match goal with |- exists delta, _ /\ _ /\ ?d = Some (Ret tt ?w') /\ _ =>
    assert (E : d = Some (Ret tt w')) by (vm_compute; reflexivity) end.
  match type of E with writeData _ _ _ _ ?w = Some (Ret tt ?w') =>
    destruct (proj2 (chunk_mode_attempts_and_accounting chan_kernel linux 5 4
                       w eq_refl) w' E) as (delta & T & C & _) end.
  exists delta. auto.
Defined.

(** ** The drain *)

(** Probe and drain in one process, on a pipe with room for seven bytes. *)
Lemma drain_after_probe_in_one_process :
  0 <= LARGEST_CHUNK (glob (start (stream_chan 7)))
  /\ exists r d,
       bind (writeData chan_kernel linux 10 4)
         (fun _ => readData chan_kernel linux 10 3) (start (stream_chan 7))
       = Some r
       /\ trace (world_of r) = trace (start (stream_chan 7)) ++ d
       /\ drain_buffer_covers_writes d.
Proof.
  split; [vm_compute; discriminate|].
  eexists.
  match goal with |- exists d, ?lhs = Some ?r /\ _ =>
    assert (E : lhs = Some r) by (vm_compute; reflexivity) end.
  destruct (proj2 (drain_reads_until_empty chan_kernel linux 10) 4 3
              (start (stream_chan 7)) _ ltac:(vm_compute; discriminate) E)
    as (d & T & C).
  exists d. auto.
Defined.

(** [ipcbuf -q -c -t socket -s stream 16384]: the child writes one chunk of
    16384 bytes; the parent, whose [LARGEST_CHUNK] is still 0, drains with a
    buffer of [BUFSIZ] = 8192 bytes. *)
Lemma stream_socket_drains_with_BUFSIZ :
  exists parent child,
    main chan_kernel linux 50 [opt_t "socket"; opt_s "stream"; opt_q; opt_c]
      ["16384"] (start (stream_chan 100000))
    = Some (Exit EXIT_SUCCESS parent, Some (Exit EXIT_SUCCESS child))
    /\ LARGEST_CHUNK (glob child) = 16384
    /\ LARGEST_CHUNK (glob parent) = 0
    /\ map (fun x => taken (snd x)) (write_calls (trace parent)) = [16384]
    /\ map (fun y => snd (fst y)) (read_calls (trace parent)) = [8192; 8192]
    /\ ~ drain_buffer_covers_writes (trace parent).
Proof.
  eexists _, _. split; [vm_compute; reflexivity|].
  split; [vm_compute; reflexivity|]. split; [vm_compute; reflexivity|].
  split; [vm_compute; reflexivity|]. split; [vm_compute; reflexivity|].
  intros H.
  assert (X := H (4, 16384, ok 16384) (5, 8192, ok 8192)
                 ltac:(vm_compute; auto) ltac:(vm_compute; auto)).
  vm_compute in X. apply X. reflexivity.
Qed.

(** ** A probe of size zero *)

(** [ipcbuf 0] on the sample pipe: whatever the number of iterations
    allowed, the loop has not come to its end. *)
Lemma zero_size_on_the_sample_pipe :
  (forall k fd, retval (fst (chan_kernel k (c_write fd 0))) = 0)
  /\ (-1 = -1 \/ -1 = 0)
  /\ (forall fuel,
        writeLoop_while chan_kernel fuel 4 0 (-1) 0 (start (stream_chan 7))
        = None)
  /\ (forall fuel w',
        writeData chan_kernel linux fuel 4
          (mkWorld (stream_chan 7) (set_CHUNK1 0 initial_globals) false [])
        <> Some (Ret tt w')).
Proof.
  assert (Hz : forall k fd, retval (fst (chan_kernel k (c_write fd 0))) = 0)
    by reflexivity.
  split; [exact Hz|]. split; [now left|].
  destruct (zero_size_loop_never_ends chan_kernel linux Hz (-1)
              (or_introl eq_refl)) as (L & D).
  split; [intros fuel; apply L|].
  intros fuel w' E.
  destruct (D fuel 4
              (mkWorld (stream_chan 7) (set_CHUNK1 0 initial_globals) false [])
              (Ret tt w') eq_refl eq_refl eq_refl E) as (w2 & X & _).
  discriminate X.
Defined.

(** ** The command line *)

(** [ipcbuf -P 4096] where [F_SETPIPE_SZ] is missing. *)
Lemma pipe_size_request_on_netbsd :
  has_F_SETPIPE_SZ netbsd = false
  /\ In (opt_P "4096") [opt_P "4096"]
  /\ exists w1 w',
       parseArgs chan_kernel [opt_P "4096"] [] (start (stream_chan 7))
       = Some (Ret tt w1)
       /\ main chan_kernel netbsd 50 [opt_P "4096"] [] (start (stream_chan 7))
          = Some (Exit EXIT_FAILURE w', None)
       /\ stdout_of (trace w') = []
       /\ write_calls (trace w') = []
       /\ pipe_size_refused (trace w').
Proof.
  split; [reflexivity|]. split; [now left|].
  eexists.
  match goal with |- exists w', ?lhs = Some (Ret tt ?w) /\ _ =>
    assert (P : lhs = Some (Ret tt w)) by (vm_compute; reflexivity) end.
  destruct (proj2 (unsupported_pipe_size_request_is_fatal chan_kernel netbsd)
              50%nat [opt_P "4096"] [] (stream_chan 7) "4096" _ eq_refl
              (or_introl eq_refl) P) as (w' & E & S & W & R).
  exists w'. auto 10.
Defined.

(** Text without digits and a number too large for an [int] are accepted:
    [ipcbuf -c abc] writes a chunk of zero bytes on a pipe it created and
    ends with status 0; 99999999999 is read as 1215752191. *)
Lemma unreadable_arguments_are_accepted :
  all_digits "abc" = false
  /\ (exists w' r,
        main chan_kernel linux 50 [opt_c] ["abc"] (start (stream_chan 7))
        = Some (Exit EXIT_SUCCESS w', None)
        /\ In (Sys c_pipe r) (trace w')
        /\ map (fun x => snd (fst x)) (write_calls (trace w')) = [0])
  /\ (exists w1,
        parseArgs chan_kernel [] ["99999999999"] (start (stream_chan 7))
        = Some (Ret tt w1)
        /\ ~ in_int (strtol "99999999999")
        /\ CHUNK1 (glob w1) = 1215752191).
Proof.
  split; [reflexivity|]. split.
  { eexists _, (ok2 0 3 4). split; [vm_compute; reflexivity|].
    split; [vm_compute; auto|vm_compute; reflexivity]. }
  eexists. split; [vm_compute; reflexivity|].
  split; [|vm_compute; reflexivity].
  vm_compute. intros [_ H]. now apply H.
Qed.

Lemma bind_None {K A B} (m : @M K A) (k : A -> @M K B) w :
  m w = None -> bind m k w = None.
Proof. intros E. unfold bind. now rewrite E. Qed.

Lemma bind_step {K A B} (m : @M K A) (k : A -> @M K B) w a w1 :
  m w = Some (Ret a w1) -> bind m k w = k a w1.
Proof. intros E. unfold bind. now rewrite E. Qed.

(** Runs the part of a computation that does not depend on [fuel]. *)
Ltac run_prefix fuel :=
  repeat first
    [ match goal with
      | |- bind ?m ?k ?w = None =>
          lazymatch m with context [fuel] => fail | _ => idtac end;
          let v := eval vm_compute in (m w) in
          match v with
          | Some (Ret ?a ?w1) =>
              rewrite (bind_step m k w a w1) by (vm_compute; reflexivity);
              cbv beta
          end
      end
    | match goal with
      | |- (if ?c then _ else _) _ = None =>
          let v := eval vm_compute in c in
          match v with
          | true => change c with true
          | false => change c with false
          end; cbv iota
      end ].

(** [ipcbuf 0]: the whole program on the sample pipe, with any bound on the
    number of iterations. *)
Lemma zero_size_run_never_ends fuel :
  main chan_kernel linux fuel [] ["0"] (start (stream_chan 7)) = None.
Proof.
  assert (Hz : forall k fd, retval (fst (chan_kernel k (c_write fd 0))) = 0)
    by reflexivity.
  assert (L : forall fd i (w : world),
            writeLoop_while chan_kernel fuel fd 0 (-1) i w = None).
  { revert Hz. clear. induction fuel as [|fuel IH]; intros Hz fd i w;
      [reflexivity|].
    cbn [writeLoop_while].
    destruct (zero_chunk_is_full chan_kernel fd w Hz) as (w1 & E).
    unfold bind at 1. rewrite E. cbn. apply IH, Hz. }
  unfold main.
  match goal with |- match ?p with _ => _ end = None =>
    let v := eval vm_compute in p in
    replace p with v by (vm_compute; reflexivity) end.
  cbv beta iota zeta. cbn [IPC_TYPE glob set_CHUNK1 initial_globals].
  match goal with |- match ?p with _ => _ end = None =>
    assert (E : p = None); [|now rewrite E] end.
  apply bind_None. unfold doPipe. run_prefix fuel.
  apply bind_None. unfold writeData. run_prefix fuel.
  unfold writeData_run. run_prefix fuel.
  apply bind_None. cbn [mode_eqb]. run_prefix fuel.
  unfold writeLoop. apply bind_None. cbn [out1]. apply L.
Qed.


(** * The rest of the program *)

(** ** The reporting functions *)

Section Reports.

Context {K : Type}.
Variable kernel : K -> syscall -> sysret * K.
Variable pf : platform.

Abbreviation world := (@world K).
Abbreviation result := (@result K).

(** What [err] leaves behind: the diagnostic, then the calls of the exit
    handler. *)
Lemma err_outcome {A} label e (w : world) :
  exists w' tail,
    @err_ K kernel A label e w = Some (Exit EXIT_FAILURE w')
    /\ glob w' = glob w /\ hooks w' = hooks w
    /\ trace w' = trace w ++ Err label e :: tail /\ unlinks tail.
Proof.
  destruct (@err_spec K kernel A label e w) as (w' & tail & E & G & H & _ & T & U).
  exists w', tail. auto.
Qed.

(** printFdQueueSize (lines 101-159).  The function always comes to an end
    and leaves the globals alone.  On Linux and FreeBSD it does nothing for a
    pipe or a fifo and returns -1, as it does wherever the platform has no
    request for the queue asked about.  In every other case, that is with a
    request for the queue and either another platform or a socket or socket
    pair, it issues exactly one [ioctl] with that request on its descriptor:
    an answer of -1 ends the process with [EXIT_FAILURE] after
    [err("ioctl")]; any other answer is returned as the value stored by the
    call, after one line of output unless [QUIET] is set. *)
Theorem queue_size_query fd which (w : world) :
  exists r,
    printFdQueueSize kernel pf fd which w = Some r
    /\ glob (world_of r) = glob w
    /\ ((is_freebsd pf || is_linux pf = true
         /\ (IPC_TYPE (glob w) = IPC_PIPE \/ IPC_TYPE (glob w) = IPC_FIFO))
        \/ queue_request pf which = None ->
        r = Ret (-1) w)
    /\ (forall req label,
          queue_request pf which = Some (req, label) ->
          is_freebsd pf || is_linux pf = false
          \/ IPC_TYPE (glob w) = IPC_SOCKET
          \/ IPC_TYPE (glob w) = IPC_SOCKETPAIR ->
          exists a l,
            trace (world_of r) = trace w ++ Sys (c_ioctl fd req) a :: l
            /\ match r with
               | Ret n _ =>
                   retval a <> -1 /\ n = out0 a
                   /\ l = (if QUIET (glob w) then []
                           else [Printf stdout "%-15s: %8d\n"
                                   [S_ label; I (out0 a)]])
               | Exit s _ =>
                   retval a = -1 /\ s = EXIT_FAILURE
                   /\ exists tail,
                        l = Err "ioctl" (err a) :: tail /\ unlinks tail
               end).
Proof.
  unfold printFdQueueSize.
  destruct (queue_request pf which) as [[req label]|] eqn:Q.
  2:{ exists (Ret (-1) w). simpl.
      split; [reflexivity|]. split; [reflexivity|]. split; [auto|].
      intros req label X. discriminate. }
  rewrite get_bind.
  destruct (negb (is_freebsd pf || is_linux pf)
            || ipc_eqb (IPC_TYPE (glob w)) IPC_SOCKET
            || ipc_eqb (IPC_TYPE (glob w)) IPC_SOCKETPAIR) eqn:C.
  2:{ exists (Ret (-1) w). simpl.
      split; [reflexivity|]. split; [reflexivity|]. split; [auto|].
      intros req' label' _ X. exfalso.
      apply orb_false_iff in C. destruct C as (C & C2).
      apply orb_false_iff in C. destruct C as (C0 & C1).
      destruct X as [X|[X|X]]; rewrite X in *; discriminate. }
  unfold bind at 1. unfold call.
  destruct (do_call_spec kernel (c_ioctl fd req) w) as (a & k' & Ec & _).
  rewrite Ec. clear Ec.
  assert (Hno : (is_freebsd pf || is_linux pf = true
                 /\ (IPC_TYPE (glob w) = IPC_PIPE
                     \/ IPC_TYPE (glob w) = IPC_FIFO))
                \/ Some (req, label) = None -> False).
  { intros [(H1 & H2)|H]; [|discriminate]. rewrite H1 in C.
    destruct H2 as [H2|H2]; rewrite H2 in C; discriminate. }
  destruct (retval a =? -1) eqn:Hr.
  - apply Z.eqb_eq in Hr.
    match goal with |- context [err_ _ ?l ?e ?y] =>
      destruct (@err_outcome Z l e y) as (w' & tail & E & G & H & T & U) end.
    exists (Exit EXIT_FAILURE w'). rewrite E. simpl in *.
    split; [reflexivity|]. split; [exact G|].
    split; [intros X; destruct (Hno X)|].
    intros req' label' X _. inversion X; subst req' label'.
    exists a, (Err "ioctl" (err a) :: tail).
    rewrite T, <- app_assoc. simpl.
    split; [reflexivity|]. split; [exact Hr|]. split; [reflexivity|].
    exists tail. auto.
  - apply Z.eqb_neq in Hr. rewrite get_bind. cbn [glob].
    unfold bind, when, printf, emit, ret.
    destruct (QUIET (glob w)); cbn [negb]; cbv iota.
    + eexists. split; [reflexivity|]. simpl.
      split; [reflexivity|]. split; [intros X; destruct (Hno X)|].
      intros req' label' X _. inversion X; subst req' label'.
      exists a, []. auto.
    + eexists. split; [reflexivity|]. simpl.
      split; [reflexivity|]. split; [intros X; destruct (Hno X)|].
      intros req' label' X _. inversion X; subst req' label'.
      exists a, [Printf stdout "%-15s: %8d\n" [S_ label; I (out0 a)]].
      rewrite <- app_assoc. simpl. auto.
Qed.

(** printSockOpt (lines 161-191).  The function always comes to an end and
    leaves the globals alone.  With [QUIET] set, or for an option other than
    the three it names, it does nothing at all: the option is not even
    queried.  Otherwise it issues exactly one [getsockopt]: a negative answer
    ends the process with [EXIT_FAILURE] after [err("getsockopt")], any
    other is followed by one line with the option's name and value. *)
Theorem socket_option_report fd opt (w : world) :
  exists r,
    printSockOpt kernel fd opt w = Some r
    /\ glob (world_of r) = glob w
    /\ (QUIET (glob w) = true \/ sockopt_name opt = None -> r = Ret tt w)
    /\ (QUIET (glob w) = false ->
        forall name, sockopt_name opt = Some name ->
        exists a l,
          trace (world_of r) = trace w ++ Sys (c_getsockopt fd opt) a :: l
          /\ match r with
             | Ret _ _ =>
                 0 <= retval a
                 /\ l = [Printf stdout "%-15s: %8d\n" [S_ name; I (out0 a)]]
             | Exit s _ =>
                 retval a < 0 /\ s = EXIT_FAILURE
                 /\ exists tail,
                      l = Err "getsockopt" (err a) :: tail /\ unlinks tail
             end).
Proof.
  unfold printSockOpt. rewrite get_bind.
  destruct (QUIET (glob w)) eqn:Q.
  { exists (Ret tt w). simpl. split; [reflexivity|]. split; [reflexivity|].
    split; [reflexivity|]. discriminate. }
  destruct (sockopt_name opt) as [name|] eqn:N.
  2:{ exists (Ret tt w). simpl. split; [reflexivity|]. split; [reflexivity|].
      split; [reflexivity|]. discriminate. }
  unfold bind at 1. unfold call.
  destruct (do_call_spec kernel (c_getsockopt fd opt) w) as (a & k' & Ec & _).
  rewrite Ec. clear Ec.
  destruct (retval a <? 0) eqn:Hr.
  - apply Z.ltb_lt in Hr.
    match goal with |- context [err_ _ ?l ?e ?y] =>
      destruct (@err_outcome unit l e y) as (w' & tail & E & G & H & T & U) end.
    exists (Exit EXIT_FAILURE w'). rewrite E. simpl in *.
    split; [reflexivity|]. split; [exact G|].
    split; [intros [X|X]; discriminate|].
    intros _ name' Hn. injection Hn as <-.
    exists a, (Err "getsockopt" (err a) :: tail).
    rewrite T, <- app_assoc. simpl.
    split; [reflexivity|]. split; [exact Hr|]. split; [reflexivity|].
    exists tail. auto.
  - apply Z.ltb_ge in Hr. unfold printf, emit.
    eexists. split; [reflexivity|]. simpl.
    split; [reflexivity|]. split; [intros [X|X]; discriminate|].
    intros _ name' Hn. injection Hn as <-.
    exists a, [Printf stdout "%-15s: %8d\n" [S_ name; I (out0 a)]].
    rewrite <- app_assoc. simpl. auto.
Qed.


(** setBufferSizes (lines 715-736).  The function always comes to an end,
    prints nothing on standard output and leaves the globals alone.  A buffer
    size is set only when it was asked for (the value is not negative) and
    the descriptor is greater than 0: the receive side first, on [rfd], then
    the send side, on [wfd].  With neither asked for nothing is called.  A
    failure to set the send side always ends the process; a failure to set
    the receive side does so except on SunOS, where it is ignored. *)
Theorem buffer_sizes_are_set_on_request rfd wfd (w : world) :
  let wanted :=
    (if (rfd >? 0) && (SET_RCVBUF (glob w) >=? 0)
     then [(rfd, SO_RCVBUF, SET_RCVBUF (glob w))] else [])
    ++ (if (wfd >? 0) && (SET_SNDBUF (glob w) >=? 0)
        then [(wfd, SO_SNDBUF, SET_SNDBUF (glob w))] else []) in
  exists r d,
    setBufferSizes kernel pf rfd wfd w = Some r
    /\ trace (world_of r) = trace w ++ d
    /\ glob (world_of r) = glob w
    /\ stdout_of d = []
    /\ (wanted = [] -> r = Ret tt w)
    /\ match r with
       | Ret _ _ =>
           map fst (setsockopt_calls d) = wanted
           /\ Forall (fun x => retval (snd x) < 0 ->
                               snd (fst (fst x)) = SO_RCVBUF
                               /\ is_sun pf = true)
                (setsockopt_calls d)
       | Exit s _ =>
           s = EXIT_FAILURE
           /\ exists pre x rest,
                setsockopt_calls d = pre ++ [x]
                /\ wanted = map fst (pre ++ [x]) ++ rest
                /\ retval (snd x) < 0
                /\ (snd (fst (fst x)) = SO_RCVBUF -> is_sun pf = false)
       end.
Proof.
  cbv zeta. unfold setBufferSizes. rewrite !get_bind.
  set (rcv := SET_RCVBUF (glob w)). set (snd_ := SET_SNDBUF (glob w)).
  assert (Second : forall (w1 : world) d1,
    trace w1 = trace w ++ d1 -> glob w1 = glob w ->
    stdout_of d1 = [] ->
    exists r d,
      (if (wfd >? 0) && (snd_ >=? 0)
       then bind (call kernel (c_setsockopt wfd SO_SNDBUF snd_))
              (fun r => if retval r <? 0
                        then err_ kernel "setsockopt" (err r) else ret tt)
       else ret tt) w1 = Some r
      /\ trace (world_of r) = trace w ++ d1 ++ d
      /\ glob (world_of r) = glob w
      /\ stdout_of d = []
      /\ ((wfd >? 0) && (snd_ >=? 0) = false -> r = Ret tt w1)
      /\ match r with
         | Ret _ _ =>
             map fst (setsockopt_calls d)
             = (if (wfd >? 0) && (snd_ >=? 0)
                then [(wfd, SO_SNDBUF, snd_)] else [])
             /\ Forall (fun x => retval (snd x) < 0 -> False)
                  (setsockopt_calls d)
         | Exit s _ =>
             s = EXIT_FAILURE
             /\ exists x,
                  setsockopt_calls d = [x]
                  /\ fst x = (wfd, SO_SNDBUF, snd_)
                  /\ (wfd >? 0) && (snd_ >=? 0) = true
                  /\ retval (snd x) < 0
         end).
  { intros w1 d1 T1 G1 S1.
    destruct ((wfd >? 0) && (snd_ >=? 0)).
    - unfold bind at 1. unfold call.
      destruct (do_call_spec kernel (c_setsockopt wfd SO_SNDBUF snd_) w1)
        as (a & k' & Ec & _).
      rewrite Ec. clear Ec.
      destruct (retval a <? 0) eqn:Hr.
      + apply Z.ltb_lt in Hr.
        match goal with |- context [err_ _ ?l ?e ?y] =>
          destruct (@err_outcome unit l e y)
            as (w' & tail & E & G & H & T & U) end.
        exists (Exit EXIT_FAILURE w'),
          (Sys (c_setsockopt wfd SO_SNDBUF snd_) a
             :: Err "setsockopt" (err a) :: tail).
        destruct (unlinks_inert 0 tail U) as (_ & _ & _ & St & _).
        assert (Sc : setsockopt_calls tail = []).
        { clear - U. induction U as [|e l (p & r & ->) _ IH]; simpl; auto. }
        rewrite E. simpl in *. rewrite T, T1, <- !app_assoc. simpl.
        rewrite Sc. split; [reflexivity|]. split; [reflexivity|].
        split; [congruence|]. split; [exact St|]. split; [discriminate|].
        split; [reflexivity|]. eexists. split; [reflexivity|]. simpl. auto.
      + apply Z.ltb_ge in Hr.
        eexists _, [Sys (c_setsockopt wfd SO_SNDBUF snd_) a].
        split; [reflexivity|]. simpl. rewrite T1, <- app_assoc.
        split; [reflexivity|]. split; [exact G1|]. split; [reflexivity|].
        split; [discriminate|]. split; [reflexivity|].
        constructor; [simpl; lia|constructor].
    - exists (Ret tt w1), []. simpl. rewrite app_nil_r.
      split; [reflexivity|]. split; [exact T1|]. split; [exact G1|].
      split; [reflexivity|]. split; [reflexivity|]. split; [reflexivity|].
      constructor. }
  destruct ((rfd >? 0) && (rcv >=? 0)) eqn:C1.
  - unfold bind at 1. unfold bind at 1. unfold call at 1.
    destruct (do_call_spec kernel (c_setsockopt rfd SO_RCVBUF rcv) w)
      as (a & k' & Ec & _).
    rewrite Ec. clear Ec.
    destruct ((retval a <? 0) && negb (is_sun pf)) eqn:Hr.
    + apply andb_prop in Hr. destruct Hr as (Hr & Hs).
      apply Z.ltb_lt in Hr. apply negb_true_iff in Hs.
      match goal with |- context [err_ _ ?l ?e ?y] =>
        destruct (@err_outcome unit l e y)
          as (w' & tail & E & G & H & T & U) end.
      exists (Exit EXIT_FAILURE w'),
        (Sys (c_setsockopt rfd SO_RCVBUF rcv) a
           :: Err "setsockopt" (err a) :: tail).
      destruct (unlinks_inert 0 tail U) as (_ & _ & _ & St & _).
      assert (Sc : setsockopt_calls tail = []).
      { clear - U. induction U as [|e l (p & r & ->) _ IH]; simpl; auto. }
      rewrite E. simpl in *. rewrite T, <- !app_assoc. simpl. rewrite Sc.
      split; [reflexivity|]. split; [reflexivity|]. split; [exact G|].
      split; [exact St|]. split; [discriminate|]. split; [reflexivity|].
      exists [], (rfd, SO_RCVBUF, rcv, a). eexists.
      split; [reflexivity|]. simpl. split; [reflexivity|]. auto.
    + cbv iota beta.
      match goal with |- context [ret tt ?w1] =>
        destruct (Second w1 [Sys (c_setsockopt rfd SO_RCVBUF rcv) a])
          as (r & d & E & T & G & St & Hn & X); [reflexivity|reflexivity|reflexivity|] end.
      exists r, (Sys (c_setsockopt rfd SO_RCVBUF rcv) a :: d).
      unfold ret at 1. cbv iota beta. rewrite E.
      split; [reflexivity|]. split; [exact T|]. split; [exact G|].
      split; [exact St|]. split; [discriminate|].
      destruct r as [u w2|s w2].
      * destruct X as (X1 & X2). simpl. rewrite X1. split; [reflexivity|].
        constructor.
        -- simpl. intros Ha. split; [reflexivity|].
           apply andb_false_iff in Hr. destruct Hr as [Hr|Hr].
           ++ apply Z.ltb_ge in Hr. lia.
           ++ now apply negb_false_iff in Hr.
        -- eapply Forall_impl; [|exact X2]. simpl. tauto.
      * destruct X as (-> & x & X1 & X2 & X3 & X4).
        split; [reflexivity|]. simpl. rewrite X1, X3.
        exists [(rfd, SO_RCVBUF, rcv, a)], x, [].
        split; [reflexivity|]. simpl. rewrite X2.
        split; [reflexivity|]. split; [exact X4|].
        destruct x as [[[xf xo] xv] xa]. simpl in *.
        injection X2 as -> -> ->. discriminate.
  - unfold bind at 1. unfold ret at 1. cbv iota beta.
    destruct (Second w []) as (r & d & E & T & G & St & Hn & X);
      [now rewrite app_nil_r|reflexivity|reflexivity|].
    exists r, d. rewrite E. simpl in T.
    split; [reflexivity|]. split; [exact T|]. split; [exact G|].
    split; [exact St|]. simpl.
    split. { destruct ((wfd >? 0) && (snd_ >=? 0)); [discriminate|auto]. }
    destruct r as [u w2|s w2].
    + destruct X as (X1 & X2). split; [exact X1|].
      eapply Forall_impl; [|exact X2]. simpl. tauto.
    + destruct X as (-> & x & X1 & X2 & X3 & X4).
      split; [reflexivity|]. exists [], x, [].
      rewrite X1, X3. simpl. rewrite X2.
      split; [reflexivity|]. split; [reflexivity|]. split; [exact X4|].
      destruct x as [[[xf xo] xv] xa]. simpl in *.
      injection X2 as -> -> ->. discriminate.
Qed.


(** reportTest (lines 544-579).  The function only prints: it always
    returns, calls nothing, leaves kernel, globals and exit handler as they
    were, and everything it adds goes to standard output.  With [QUIET] set
    it prints nothing.  Otherwise the report opens with "Testing ", closes
    with an empty line and names the mode; in chunk mode it announces
    [NUM_CHUNKS] more chunks, of the second size, or of the first when the
    second is negative. *)
Theorem test_report_only_prints fmt args (w : world) :
  exists d,
    @reportTest K fmt args w
    = Some (Ret tt (mkWorld (kst w) (glob w) (hooks w) (trace w ++ d)))
    /\ Forall stdout_line d
    /\ (QUIET (glob w) = true -> d = [])
    /\ (QUIET (glob w) = false ->
        exists mid,
          d = Printf stdout "Testing " [] :: Printf stdout fmt args
              :: Printf stdout " buffer size in %s mode.\n"
                   [S_ (match MODE (glob w) with
                        | CHUNK => "chunk" | LOOP => "loop" end)]
              :: mid ++ [Printf stdout "\n" []]
          /\ (MODE (glob w) = CHUNK ->
              mid = [Printf stdout "First chunk: %d byte%s, "
                       [I (CHUNK1 (glob w));
                        S_ (plural (CHUNK1 (glob w) >? 1))];
                     Printf stdout "then %d more chunk%s of size %d.\n"
                       [I (NUM_CHUNKS (glob w));
                        S_ (plural (NUM_CHUNKS (glob w) >? 1));
                        I (if CHUNK2 (glob w) <? 0 then CHUNK1 (glob w)
                           else CHUNK2 (glob w))]])).
Proof.
  unfold reportTest. rewrite get_bind.
  destruct (QUIET (glob w)) eqn:Q.
  { exists []. rewrite app_nil_r. split; [now destruct w|].
    split; [constructor|]. split; [reflexivity|discriminate]. }
  rewrite !get_bind. unfold bind, printf, emit, ret. cbn [glob kst hooks trace].
  destruct (MODE (glob w)) eqn:Hm; cbn [mode_eqb].
  - destruct (CHUNK2 (glob w) =? -1); cbn [glob kst hooks trace];
      rewrite <- !app_assoc; cbn [app].
    all: eexists; split; [reflexivity|].
    all: split; [repeat constructor|].
    all: split; [discriminate|]. all: intros _.
    all: eexists [_; _]; split; [reflexivity|discriminate].
  - cbn [glob kst hooks trace]. rewrite <- !app_assoc. cbn [app].
    eexists. split; [reflexivity|]. split; [repeat constructor|].
    split; [discriminate|]. intros _.
    eexists [_; _]. split; [reflexivity|]. intros _. reflexivity.
Qed.

(** What [after_last_dot] finds in a string without a dot. *)
Lemma after_last_dot_none s : no_dot s = true -> after_last_dot s = None.
Proof.
  induction s as [|c s IH]; simpl; [reflexivity|].
  intros H. apply andb_prop in H. destruct H as (Hc & Hs).
  rewrite (IH Hs). apply negb_true_iff in Hc. now rewrite Hc.
Qed.

Lemma after_last_dot_last a b :
  no_dot b = true ->
  after_last_dot (a ++ String "."%char b)%string = Some b.
Proof.
  intros Hb. induction a as [|c a IH]; simpl.
  - now rewrite (after_last_dot_none b Hb).
  - now rewrite IH.
Qed.

(** reportSysctl, lines 645-655: the label printed for a sysctl is the last
    component of its dotted name; a name without a dot, or one that ends in a
    dot, is printed whole. *)
Theorem sysctl_label_is_last_component a b :
  no_dot b = true ->
  sysctl_short_name (a ++ String "."%char b)%string
  = (if String.eqb b "" then (a ++ ".")%string else b)
  /\ sysctl_short_name b = b.
Proof.
  intros Hb. unfold sysctl_short_name. split.
  - rewrite (after_last_dot_last a b Hb). now destruct b.
  - now rewrite (after_last_dot_none b Hb).
Qed.

(** How a failed call on the way ends the run of a piece. *)
Lemma err_dies {A} label e (w w1 : world) l1 :
  trace w1 = trace w ++ l1 -> glob w1 = glob w ->
  exists r l,
    @err_ K kernel A label e w1 = Some r
    /\ trace (world_of r) = trace w ++ l1 ++ l
    /\ glob (world_of r) = glob w
    /\ dies_of label e r l.
Proof.
  intros T1 G1.
  destruct (@err_outcome A label e w1) as (w' & tail & E & G & H & T & U).
  exists (Exit EXIT_FAILURE w'), (Err label e :: tail).
  split; [exact E|]. simpl. rewrite T, T1, <- app_assoc.
  split; [reflexivity|]. split; [congruence|].
  exists w', tail. auto.
Qed.

(** reportSysctl (lines 629-713).  The function always comes to an end and
    leaves the globals alone.  On SunOS, with [QUIET] set, or for the name
    "invalid" it does nothing.  Otherwise it copies the name, and a copy
    that fails ends the process after [err("strdup")]; then it prints the
    label.  On Linux it opens the entry under /proc/sys, reads it and closes
    it; a failure of [open] or [read] ends the process after [err] with that
    name, and so does, after [err("strtol")], a text that reads as a number
    below 1; otherwise the number read, cut to an [int], is printed.
    Elsewhere it asks [sysctlbyname] for the length, gives up with a message
    on standard error and [EXIT_FAILURE] on a length above [BUFSIZ], asks
    again for the value and prints what the call stored; a failure of either
    call ends the process after [err("sysctl")].  When the function returns,
    the value is the last thing printed and the copy is freed. *)
Theorem sysctl_report s (w : world) :
  exists r d,
    reportSysctl kernel pf s w = Some r
    /\ trace (world_of r) = trace w ++ d
    /\ glob (world_of r) = glob w
    /\ (is_sun pf = true \/ QUIET (glob w) = true \/ s = "invalid" ->
        r = Ret tt w)
    /\ (is_sun pf = false -> QUIET (glob w) = false -> s <> "invalid" ->
        exists c l0,
          d = Sys (c_strdup s) c :: l0
          /\ if retval c =? 0 then dies_of "strdup" (err c) r l0
             else
               exists l,
                 l0 = Printf stdout "%-15s: " [S_ (sysctl_short_name s)] :: l
                 /\ if is_linux pf then
                      exists a1 l1,
                        l = Sys (c_open_proc_sys s) a1 :: l1
                        /\ if retval a1 <? 0 then dies_of "open" (err a1) r l1
                           else
                             exists a2 l2,
                               l1 = Sys (c_read_text (retval a1)) a2 :: l2
                               /\ if retval a2 <? 0
                                  then dies_of "read" (err a2) r l2
                                  else
                                    exists a3 l3,
                                      l2 = Sys (c_close (retval a1)) a3 :: l3
                                      /\ if wrap32 (out0 a2) <? 1
                                         then exists e,
                                                dies_of "strtol" e r l3
                                         else
                                           l3 = [Printf stdout "%8d\n"
                                                   [I (wrap32 (out0 a2))];
                                                 Free]
                                           /\ exists w', r = Ret tt w'
                    else
                      exists a1 l1,
                        l = Sys (c_sysctlbyname s false) a1 :: l1
                        /\ if retval a1 <? 0
                           then dies_of "sysctl" (err a1) r l1
                           else if out0 a1 >? BUFSIZ pf then
                             exists w' tail,
                               r = Exit EXIT_FAILURE w'
                               /\ l1 = Printf stderr
                                         "sysctl value too large for %s\n"
                                         [S_ s] :: tail
                               /\ unlinks tail
                           else
                             exists a2 l2,
                               l1 = Sys (c_sysctlbyname s true) a2 :: l2
                               /\ if retval a2 <? 0
                                  then dies_of "sysctl" (err a2) r l2
                                  else
                                    l2 = [Printf stdout "%8d\n"
                                            [I (out0 a2)]; Free]
                                    /\ exists w', r = Ret tt w').
Proof.
  unfold reportSysctl.
  destruct (is_sun pf) eqn:Sun.
  { exists (Ret tt w), []. simpl. rewrite app_nil_r.
    split; [reflexivity|]. split; [reflexivity|]. split; [reflexivity|].
    split; [reflexivity|discriminate]. }
  rewrite get_bind.
  destruct (QUIET (glob w)) eqn:Q.
  { exists (Ret tt w), []. simpl. rewrite app_nil_r.
    split; [reflexivity|]. split; [reflexivity|]. split; [reflexivity|].
    split; [reflexivity|discriminate]. }
  cbn [orb].
  destruct (String.eqb s "invalid") eqn:Inv.
  { apply String.eqb_eq in Inv.
    exists (Ret tt w), []. simpl. rewrite app_nil_r.
    split; [reflexivity|]. split; [reflexivity|]. split; [reflexivity|].
    split; [reflexivity|]. intros _ _ X. contradiction. }
  apply String.eqb_neq in Inv.
  assert (Skip : false = true \/ false = true \/ s = "invalid" -> False).
  { intros [X|[X|X]]; [discriminate|discriminate|contradiction]. }
  unfold bind at 1. unfold call at 1.
  destruct (do_call_spec kernel (c_strdup s) w) as (c & k0 & Ec & _).
  rewrite Ec. clear Ec.
  destruct (retval c =? 0) eqn:Hc.
  { edestruct (@err_dies unit "strdup" (err c) w) as (r & l & E & T & G & D);
      [| |exists r; eexists; split; [exact E|]; split; [exact T|]];
      [reflexivity|reflexivity|].
    split; [exact G|]. split; [intros X; destruct (Skip X)|]. intros _ _ _.
    exists c, l. split; [reflexivity|]. now rewrite Hc. }
  unfold bind at 1. unfold printf at 1, emit at 1. cbv iota beta.
  cbn [glob kst hooks trace].
  destruct (is_linux pf) eqn:Lin.
  - unfold bind at 1. unfold call at 1.
    match goal with |- context [do_call kernel (c_open_proc_sys s) ?w0] =>
      destruct (do_call_spec kernel (c_open_proc_sys s) w0)
        as (a1 & k1 & Ec & _) end.
    rewrite Ec. clear Ec. cbn [glob kst hooks trace].
    destruct (retval a1 <? 0) eqn:H1.
    { edestruct (@err_dies unit "open" (err a1) w) as (r & l & E & T & G & D);
        [| |exists r; eexists; split; [exact E|]; split; [exact T|]];
        [cbn [trace]; rewrite <- !app_assoc; reflexivity|reflexivity|].
      split; [exact G|]. split; [intros X; destruct (Skip X)|]. intros _ _ _.
      exists c. eexists. split; [reflexivity|]. rewrite Hc.
      eexists. split; [reflexivity|].
      exists a1, l. split; [reflexivity|]. now rewrite H1. }
    cbv zeta. unfold bind at 1. unfold call at 1.
    match goal with |- context [do_call kernel (c_read_text ?fd) ?w1] =>
      destruct (do_call_spec kernel (c_read_text fd) w1)
        as (a2 & k2 & Ec & _) end.
    rewrite Ec. clear Ec. cbn [glob kst hooks trace].
    destruct (retval a2 <? 0) eqn:H2.
    { edestruct (@err_dies unit "read" (err a2) w) as (r & l & E & T & G & D);
        [| |exists r; eexists; split; [exact E|]; split; [exact T|]];
        [cbn [trace]; rewrite <- !app_assoc; reflexivity|reflexivity|].
      split; [exact G|]. split; [intros X; destruct (Skip X)|]. intros _ _ _.
      exists c. eexists. split; [reflexivity|]. rewrite Hc.
      eexists. split; [reflexivity|].
      exists a1. eexists. split; [reflexivity|]. rewrite H1.
      exists a2, l. split; [reflexivity|]. now rewrite H2. }
    unfold bind at 1. unfold call at 1.
    match goal with |- context [do_call kernel (c_close ?fd) ?w1] =>
      destruct (do_call_spec kernel (c_close fd) w1)
        as (a3 & k3 & Ec & _) end.
    rewrite Ec. clear Ec. cbn [glob kst hooks trace].
    destruct (wrap32 (out0 a2) <? 1) eqn:Hn.
    { edestruct (@err_dies unit "strtol" (err a2) w)
        as (r & l & E & T & G & D);
        [| |exists r; eexists; split; [exact E|]; split; [exact T|]];
        [cbn [trace]; rewrite <- !app_assoc; reflexivity|reflexivity|].
      split; [exact G|]. split; [intros X; destruct (Skip X)|]. intros _ _ _.
      exists c. eexists. split; [reflexivity|]. rewrite Hc.
      eexists. split; [reflexivity|].
      exists a1. eexists. split; [reflexivity|]. rewrite H1.
      exists a2. eexists. split; [reflexivity|]. rewrite H2.
      exists a3, l. split; [reflexivity|]. rewrite Hn. eauto. }
    unfold bind, printf, emit.
    eexists _, [Sys (c_strdup s) c;
                Printf stdout "%-15s: " [S_ (sysctl_short_name s)];
                Sys (c_open_proc_sys s) a1; Sys (c_read_text (retval a1)) a2;
                Sys (c_close (retval a1)) a3;
                Printf stdout "%8d\n" [I (wrap32 (out0 a2))]; Free].
    split; [reflexivity|]. simpl. rewrite <- !app_assoc. simpl.
    split; [reflexivity|]. split; [reflexivity|].
    split; [intros X; destruct (Skip X)|]. intros _ _ _.
    exists c. eexists. split; [reflexivity|]. rewrite Hc.
    eexists. split; [reflexivity|].
    exists a1. eexists. split; [reflexivity|]. rewrite H1.
    exists a2. eexists. split; [reflexivity|]. rewrite H2.
    exists a3. eexists. split; [reflexivity|]. rewrite Hn. eauto.
  - unfold bind at 1. unfold call at 1.
    match goal with |- context [do_call kernel (c_sysctlbyname s false) ?w0] =>
      destruct (do_call_spec kernel (c_sysctlbyname s false) w0)
        as (a1 & k1 & Ec & _) end.
    rewrite Ec. clear Ec. cbn [glob kst hooks trace].
    destruct (retval a1 <? 0) eqn:H1.
    { edestruct (@err_dies unit "sysctl" (err a1) w)
        as (r & l & E & T & G & D);
        [| |exists r; eexists; split; [exact E|]; split; [exact T|]];
        [cbn [trace]; rewrite <- !app_assoc; reflexivity|reflexivity|].
      split; [exact G|]. split; [intros X; destruct (Skip X)|]. intros _ _ _.
      exists c. eexists. split; [reflexivity|]. rewrite Hc.
      eexists. split; [reflexivity|].
      exists a1, l. split; [reflexivity|]. now rewrite H1. }
    destruct (out0 a1 >? BUFSIZ pf) eqn:Hb.
    { unfold bind, fprintf_stderr, emit. cbn [glob kst hooks trace].
      match goal with |- context [exit_ _ _ ?w1] =>
        destruct (@exit_quiet K kernel unit EXIT_FAILURE w1)
          as (w' & d' & E & T & _ & _ & U) end.
      cbv beta iota. rewrite E. cbn [trace] in T.
      exists (Exit EXIT_FAILURE w'),
        (Sys (c_strdup s) c
         :: Printf stdout "%-15s: " [S_ (sysctl_short_name s)]
         :: Sys (c_sysctlbyname s false) a1
         :: Printf stderr "sysctl value too large for %s\n" [S_ s] :: d').
      split; [reflexivity|]. simpl. rewrite T.
      rewrite <- !app_assoc. simpl.
      split; [reflexivity|].
      split. { unfold exit_ in E. injection E as <-.
               destruct (hooks w); [|reflexivity].
               unfold run_cleanup, do_call. simpl.
               repeat match goal with |- context [kernel ?k ?c] =>
                 destruct (kernel k c) end. reflexivity. }
      split; [intros X; destruct (Skip X)|]. intros _ _ _.
      exists c. eexists. split; [reflexivity|]. rewrite Hc.
      eexists. split; [reflexivity|].
      exists a1. eexists. split; [reflexivity|]. rewrite H1, Hb.
      exists w', d'. split; [reflexivity|]. split; [reflexivity|].
      apply Forall_forall. exact U. }
    unfold bind at 1. unfold call at 1.
    match goal with |- context [do_call kernel (c_sysctlbyname s true) ?w1] =>
      destruct (do_call_spec kernel (c_sysctlbyname s true) w1)
        as (a2 & k2 & Ec & _) end.
    rewrite Ec. clear Ec. cbn [glob kst hooks trace].
    destruct (retval a2 <? 0) eqn:H2.
    { edestruct (@err_dies unit "sysctl" (err a2) w)
        as (r & l & E & T & G & D);
        [| |exists r; eexists; split; [exact E|]; split; [exact T|]];
        [cbn [trace]; rewrite <- !app_assoc; reflexivity|reflexivity|].
      split; [exact G|]. split; [intros X; destruct (Skip X)|]. intros _ _ _.
      exists c. eexists. split; [reflexivity|]. rewrite Hc.
      eexists. split; [reflexivity|].
      exists a1. eexists. split; [reflexivity|]. rewrite H1, Hb.
      exists a2, l. split; [reflexivity|]. now rewrite H2. }
    unfold bind, printf, emit.
    eexists _, [Sys (c_strdup s) c;
                Printf stdout "%-15s: " [S_ (sysctl_short_name s)];
                Sys (c_sysctlbyname s false) a1;
                Sys (c_sysctlbyname s true) a2;
                Printf stdout "%8d\n" [I (out0 a2)]; Free].
    split; [reflexivity|]. simpl. rewrite <- !app_assoc. simpl.
    split; [reflexivity|]. split; [reflexivity|].
    split; [intros X; destruct (Skip X)|]. intros _ _ _.
    exists c. eexists. split; [reflexivity|]. rewrite Hc.
    eexists. split; [reflexivity|].
    exists a1. eexists. split; [reflexivity|]. rewrite H1, Hb.
    exists a2. eexists. split; [reflexivity|]. rewrite H2. eauto.
Qed.

End Reports.

(** ** Probe and drain keep to their descriptors *)

Lemma preorder_keeps_setup : preorder keeps_setup.
Proof.
  split.
  - intros g. destruct g; reflexivity.
  - intros x y z H1 H2. unfold keeps_setup in *.
    rewrite H2. rewrite H1. destruct x; reflexivity.
Qed.

Lemma same_config_keeps_setup g g' : same_config g g' -> keeps_setup g g'.
Proof.
  unfold same_config, keeps_setup. intros H. destruct g, g'.
  simpl in *. inversion H; subst. reflexivity.
Qed.

Lemma keeps_setup_fields g g' :
  keeps_setup g g' ->
  IPC_TYPE g' = IPC_TYPE g /\ MODE g' = MODE g /\ QUIET g' = QUIET g
  /\ CHUNK1 g' = CHUNK1 g /\ NUM_CHUNKS g' = NUM_CHUNKS g
  /\ SOCK_TYPE g' = SOCK_TYPE g /\ SOCK_DOMAIN g' = SOCK_DOMAIN g
  /\ SET_RCVBUF g' = SET_RCVBUF g /\ SET_SNDBUF g' = SET_SNDBUF g
  /\ SET_PIPEBUF g' = SET_PIPEBUF g.
Proof. intros H. rewrite H. destruct g; simpl. auto 12. Qed.

Lemma probe_call_inert fd (l : list event) :
  Forall (probe_call fd) l ->
  read_calls l = [] /\ Forall (fun x => fst (fst x) = fd) (write_calls l).
Proof.
  induction 1 as [|e l He _ (I1 & I2)]; simpl; auto.
  destruct e as [c a| | | |]; simpl in *; auto.
  destruct c; simpl in *; auto; contradiction.
Qed.

Lemma drain_call_inert fd (l : list event) :
  Forall (drain_call fd) l ->
  write_calls l = [] /\ Forall (fun y => fst (fst y) = fd) (read_calls l).
Proof.
  induction 1 as [|e l He _ (I1 & I2)]; simpl; auto.
  destruct e as [c a| | | |]; simpl in *; auto.
  destruct c; simpl in *; auto; contradiction.
Qed.

Section Descriptors.

Context {K : Type}.
Variable kernel : K -> syscall -> sysret * K.
Variable pf : platform.

Abbreviation world := (@world K).
Abbreviation result := (@result K).

Lemma printFdQueueSize_calls fd which P :
  (forall req a, P (Sys (c_ioctl fd req) a)) ->
  (forall f x, P (Printf stdout f x)) ->
  (forall l e, P (Err l e)) -> (forall p a, P (Sys (c_unlink p) a)) ->
  emits P eq (printFdQueueSize kernel pf fd which).
Proof.
  intros H1 H2 H3 H4. pose proof preorder_eq as Hp.
  unfold printFdQueueSize.
  destruct (queue_request pf which) as [[req label]|]; emits_auto.
Qed.

Lemma writeChunk_calls_on fd count :
  emits (probe_call fd) keeps_setup (writeChunk kernel fd count).
Proof.
  eapply emits_impl; [| |apply writeChunk_emits].
  - intros e. destruct e as [c a| | | |]; simpl; auto.
    destruct c; simpl; auto; try discriminate.
    intros H. now apply Z.eqb_eq in H.
  - apply same_config_keeps_setup.
Qed.

Lemma writeLoop_while_calls_on fuel :
  forall fd count inc i,
    emits (probe_call fd) keeps_setup
      (writeLoop_while kernel fuel fd count inc i).
Proof.
  pose proof preorder_keeps_setup as Hp.
  induction fuel as [|fuel IH]; intros fd count inc i.
  - intros w r H. discriminate.
  - cbn [writeLoop_while].
    apply emits_bind; [exact Hp|apply writeChunk_calls_on|intros n].
    apply emits_if; [now apply emits_ret|apply IH].
Qed.

Lemma writeData_for_calls_on left :
  forall fd,
    emits (probe_call fd) keeps_setup (writeData_for kernel left fd).
Proof.
  pose proof preorder_keeps_setup as Hp.
  induction left as [|left IH]; intros fd; cbn [writeData_for].
  - now apply emits_ret.
  - apply emits_bind; [exact Hp|now apply emits_get|intros c2].
    apply emits_bind; [exact Hp|apply writeChunk_calls_on|intros _]. apply IH.
Qed.

Lemma eq_keeps_setup {A} P (m : @M K A) :
  emits P eq m -> emits P keeps_setup m.
Proof.
  apply emits_impl; [auto|]. intros g g' <-. apply preorder_keeps_setup.
Qed.

Lemma writeData_run_calls_on fuel fd :
  emits (probe_call fd) keeps_setup (writeData_run kernel pf fuel fd).
Proof.
  pose proof preorder_keeps_setup as Hp.
  assert (Hq : forall which,
            emits (probe_call fd) keeps_setup
              (printFdQueueSize kernel pf fd which)).
  { intros which. apply eq_keeps_setup.
    apply printFdQueueSize_calls; simpl; auto. }
  unfold writeData_run.
  apply emits_bind; [exact Hp|apply Hq|intros _].
  apply emits_bind; [exact Hp|now apply emits_get|intros q].
  apply emits_bind; [exact Hp| |intros _].
  { apply emits_when; [exact Hp|]. apply emits_emit; simpl; auto. }
  apply emits_bind; [exact Hp|now apply emits_get|intros m].
  apply emits_bind; [exact Hp| |intros _].
  - apply emits_if.
    + apply emits_bind; [exact Hp|now apply emits_get|intros c1].
      apply emits_bind; [exact Hp|now apply emits_get|intros c2].
      unfold writeLoop.
      apply emits_bind; [exact Hp|apply writeLoop_while_calls_on|intros i].
      apply emits_bind; [exact Hp|now apply emits_get|intros q'].
      apply emits_when; [exact Hp|]. apply emits_emit; simpl; auto.
    + unfold writeData_chunks.
      apply emits_bind; [exact Hp|now apply emits_get|intros c2].
      apply emits_bind; [exact Hp|now apply emits_get|intros c1].
      apply emits_bind; [exact Hp| |intros _].
      { apply emits_when; [exact Hp|].
        apply emits_modify. intros g. unfold keeps_setup.
        destruct g; reflexivity. }
      apply emits_bind; [exact Hp| |intros _].
      { unfold writeData_announce. emits_auto. }
      apply emits_bind; [exact Hp|apply writeChunk_calls_on|intros _].
      apply emits_bind; [exact Hp|now apply emits_get|intros num].
      apply writeData_for_calls_on.
  - unfold writeData_report.
    apply emits_bind; [exact Hp|apply Hq|intros _].
    emits_auto.
Qed.

Lemma writeData_calls_on fuel fd :
  emits (probe_call fd) keeps_setup (writeData kernel pf fuel fd).
Proof.
  pose proof preorder_keeps_setup as Hp. unfold writeData.
  apply emits_bind; [exact Hp| |intros r].
  { apply emits_call; [exact Hp|]. simpl. auto. }
  apply emits_if; [|apply writeData_run_calls_on].
  apply emits_err; [exact Hp| |]; simpl; auto.
Qed.

(** writeData (lines 441-492), with writeLoop and writeChunk.  The probe
    touches nothing but its descriptor.  Its first call sets [fd]
    nonblocking, and when that fails the process ends with [EXIT_FAILURE]
    before anything is written.  Every other call is an [ioctl], a [write]
    or a [close] on [fd] (or an [unlink] of the exit handler): it reads
    nothing and opens nothing.  Of the globals it changes only [TOTAL],
    [LARGEST_CHUNK] and [CHUNK2], and it leaves the exit handler as
    registered as it was. *)
Theorem probe_touches_only_its_descriptor fuel fd (w : world) r :
  writeData kernel pf fuel fd w = Some r ->
  exists a rest,
    trace (world_of r) = trace w ++ Sys (c_fcntl_nonblock fd) a :: rest
    /\ Forall (probe_call fd) rest
    /\ read_calls rest = []
    /\ Forall (fun x => fst (fst x) = fd) (write_calls rest)
    /\ (retval a < 0 ->
        write_calls rest = [] /\ exists w', r = Exit EXIT_FAILURE w')
    /\ keeps_setup (glob w) (glob (world_of r))
    /\ hooks (world_of r) = hooks w.
Proof.
  intros E. unfold writeData in E. unfold bind at 1 in E. unfold call in E.
  destruct (do_call_spec kernel (c_fcntl_nonblock fd) w) as (a & k' & Ec & _).
  rewrite Ec in E. clear Ec. exists a.
  destruct (retval a <? 0) eqn:Hneg.
  - match type of E with err_ _ ?l ?e ?y = _ =>
      destruct (@err_spec K kernel unit l e y)
        as (w' & tail & E' & G & Hh & _ & T & U) end.
    rewrite E' in E. inversion E; subst; clear E. simpl in *.
    exists (Err "fcntl set flags" (err a) :: tail).
    destruct (unlinks_inert fd tail U) as (N1 & N2 & _).
    rewrite T, <- app_assoc. simpl. rewrite N1, N2.
    split; [reflexivity|].
    split. { constructor; [exact Logic.I|].
             eapply Forall_impl; [|exact U]. intros e (p & x & ->).
             exact Logic.I. }
    split; [reflexivity|]. split; [constructor|].
    split; [eauto|]. split; [|exact Hh].
    rewrite G. apply preorder_keeps_setup.
  - apply Z.ltb_ge in Hneg.
    destruct (writeData_run_calls_on _ _ _ _ E) as (d & T & F & G & Hh).
    destruct (probe_call_inert _ _ F) as (R & W).
    exists d. simpl in T, Hh, G. rewrite T, <- app_assoc. simpl.
    split; [reflexivity|]. split; [exact F|]. split; [exact R|].
    split; [exact W|]. split; [intros; lia|]. split; [exact G|exact Hh].
Qed.

Lemma readData_while_calls_on fuel :
  forall fd bufsiz total,
    emits (fun e => drain_call fd e /\ forall n b, e <> Malloc n b) eq
      (readData_while kernel pf fuel fd bufsiz total).
Proof.
  pose proof preorder_eq as Hp.
  induction fuel as [|fuel IH]; intros fd bufsiz total.
  - intros w r H. discriminate.
  - cbn [readData_while].
    apply emits_bind; [exact Hp| |intros left].
    { apply printFdQueueSize_calls; simpl; intros; (split; [auto|congruence]). }
    apply emits_if; [now apply emits_ret|].
    apply emits_bind; [exact Hp| |intros r].
    { apply emits_call; [exact Hp|]. simpl; intros; (split; [auto|congruence]). }
    cbv zeta. apply emits_if.
    + apply emits_if; [now apply emits_ret|].
      apply emits_err; [exact Hp| |]; simpl; intros; (split; [auto|congruence]).
    + apply emits_if; [now apply emits_ret|apply IH].
Qed.

Lemma no_malloc_started (l : list event) :
  Forall (fun e => forall n b, e <> Malloc n b) l -> chunks_started l = [].
Proof.
  induction 1 as [|e l He _ IH]; simpl; auto.
  destruct e as [c a|n b| | |]; auto. destruct (He n b eq_refl).
Qed.

Lemma readData_calls_on fuel fd :
  emits (drain_call fd) eq (readData kernel pf fuel fd).
Proof.
  pose proof preorder_eq as Hp. unfold readData.
  apply emits_bind; [exact Hp|now apply emits_get|intros q].
  apply emits_bind; [exact Hp| |intros _].
  { apply emits_when; [exact Hp|]. apply emits_emit; [exact Hp|]. exact Logic.I. }
  apply emits_bind; [exact Hp|now apply emits_get|intros b].
  apply emits_bind; [exact Hp| |intros ok].
  { unfold malloc. apply emits_bind; [exact Hp| |intros _; now apply emits_ret].
    apply emits_emit; [exact Hp|]. exact Logic.I. }
  apply emits_if; [apply emits_err; [exact Hp| |]; simpl; auto|].
  apply emits_bind; [exact Hp| |intros r0].
  { apply emits_call; [exact Hp|]. simpl. auto. }
  apply emits_if; [apply emits_err; [exact Hp| |]; simpl; auto|].
  apply emits_bind; [exact Hp| |intros t].
  { eapply emits_impl; [| |apply readData_while_calls_on]; [|auto].
    simpl. tauto. }
  apply emits_bind; [exact Hp| |intros _; now apply emits_ret].
  apply emits_when; [exact Hp|]. apply emits_emit; [exact Hp|]. exact Logic.I.
Qed.

(** readData (lines 494-542).  The drain touches nothing but its
    descriptor: every call is an [fcntl], an [ioctl] or a [read] on [fd] (or
    an [unlink] of the exit handler), so it writes nothing and closes
    nothing.  It asks [malloc] once, for [max(BUFSIZ, LARGEST_CHUNK)] bytes,
    before its first call, and leaves the globals and the exit handler as
    they were. *)
Theorem drain_touches_only_its_descriptor fuel fd (w : world) r :
  readData kernel pf fuel fd w = Some r ->
  exists d,
    trace (world_of r) = trace w ++ d
    /\ Forall (drain_call fd) d
    /\ write_calls d = []
    /\ Forall (fun y => fst (fst y) = fd) (read_calls d)
    /\ (exists pre rest,
          d = pre
              ++ Malloc (drain_bufsiz pf (glob w))
                   (0 <=? drain_bufsiz pf (glob w)) :: rest
          /\ calls_of pre = [] /\ chunks_started rest = [])
    /\ glob (world_of r) = glob w
    /\ hooks (world_of r) = hooks w.
Proof.
  intros E. unfold readData in E. rewrite get_bind in E.
  set (pre := if QUIET (glob w) then []
              else [Printf stdout "Draining...\n" []]).
  set (w1 := mkWorld (kst w) (glob w) (hooks w) (trace w ++ pre)).
  assert (E1 : when (negb (QUIET (glob w))) (@printf K "Draining...\n" []) w
               = Some (Ret tt w1)).
  { unfold when, printf, emit, ret, w1, pre.
    destruct (QUIET (glob w)); simpl; [|reflexivity].
    rewrite app_nil_r. now destruct w. }
  unfold bind at 1 in E. rewrite E1 in E. rewrite get_bind in E.
  unfold bind at 1 in E. unfold malloc, bind, emit, ret in E.
  cbn [glob kst hooks trace w1] in E. fold (@bind K) in E.
  set (b := drain_bufsiz pf (glob w)) in *.
  set (w2 := mkWorld (kst w) (glob w) (hooks w)
               ((trace w ++ pre) ++ [Malloc b (0 <=? b)])) in *.
  assert (Tail : emits (fun e => drain_call fd e /\ forall n x, e <> Malloc n x)
                   eq
                   (if negb (0 <=? b) then err_ kernel "malloc" ENOMEM
                    else bind (call kernel (c_fcntl_nonblock fd))
                           (fun r0 =>
                              if retval r0 <? 0
                              then err_ kernel "fcntl set flags" (err r0)
                              else bind (readData_while kernel pf fuel fd b 0)
                                     (fun total =>
                                        bind (when (negb (QUIET (glob w)))
                                                (printf "%-15s: %8d\n"
                                                   [S_ "Read"; I total]))
                                          (fun _ => ret total))))).
  { pose proof preorder_eq as Hp.
    apply emits_if.
    - apply emits_err; [exact Hp| |]; simpl; intros; (split; [auto|congruence]).
    - apply emits_bind; [exact Hp| |intros r0].
      { apply emits_call; [exact Hp|]. simpl; intros; (split; [auto|congruence]). }
      apply emits_if.
      + apply emits_err; [exact Hp| |]; simpl; intros; (split; [auto|congruence]).
      + apply emits_bind; [exact Hp|apply readData_while_calls_on|intros t].
        apply emits_bind; [exact Hp| |intros _; now apply emits_ret].
        apply emits_when; [exact Hp|]. apply emits_emit; [exact Hp|].
        simpl. split; [auto|congruence]. }
  destruct (Tail w2 r E) as (d & T & F & G & Hh).
  assert (F1 : Forall (drain_call fd) d).
  { eapply Forall_impl; [|exact F]. simpl. tauto. }
  assert (F2 : Forall (fun e => forall n x, e <> Malloc n x) d).
  { eapply Forall_impl; [|exact F]. simpl. tauto. }
  assert (Fp : Forall (drain_call fd) (pre ++ Malloc b (0 <=? b) :: d)).
  { apply Forall_app. split.
    - unfold pre. destruct (QUIET (glob w)); repeat constructor.
    - constructor; [exact Logic.I|exact F1]. }
  destruct (drain_call_inert _ _ Fp) as (W & R).
  exists (pre ++ Malloc b (0 <=? b) :: d).
  split. { rewrite T. unfold w2. simpl. rewrite <- !app_assoc. reflexivity. }
  split; [exact Fp|]. split; [exact W|]. split; [exact R|].
  split. { exists pre, d. split; [reflexivity|].
           split; [unfold pre; now destruct (QUIET (glob w))|].
           now apply no_malloc_started. }
  split; [now rewrite <- G|exact Hh].
Qed.

End Descriptors.

(** ** How the process ends *)

Section Tidy.

Context {K : Type}.
Variable kernel : K -> syscall -> sysret * K.
Variable pf : platform.

Abbreviation world := (@world K).
Abbreviation result := (@result K).
Abbreviation tidy := (tidy kernel).

Section Steps.

Variable S : Z -> Prop.

Lemma tidy_ret {A} (a : A) : tidy S (ret a).
Proof. intros w r E. inversion E; subst. reflexivity. Qed.

Lemma tidy_get {A} (f : globals -> A) : tidy S (get f).
Proof. intros w r E. inversion E; subst. reflexivity. Qed.

Lemma tidy_modify f : tidy S (@modify K f).
Proof. intros w r E. inversion E; subst. reflexivity. Qed.

Lemma tidy_emit e : tidy S (@emit K e).
Proof. intros w r E. inversion E; subst. reflexivity. Qed.

Lemma tidy_call c : tidy S (call kernel c).
Proof.
  intros w r E. unfold call in E.
  destruct (do_call_spec kernel c w) as (a & k' & Ec & _). rewrite Ec in E.
  inversion E; subst. reflexivity.
Qed.

Lemma tidy_exit {A} s : S s -> tidy S (@exit_ K kernel A s).
Proof.
  intros Hs w r E. rewrite exit_spec in E. inversion E; subst.
  split; [exact Hs|]. exists w. auto.
Qed.

Lemma tidy_bind {A B} (m : @M K A) (k : A -> @M K B) :
  tidy S m -> (forall a, tidy S (k a)) -> tidy S (bind m k).
Proof.
  intros Hm Hk w r E.
  destruct (bind_Some _ _ _ _ E) as [(a & w1 & E1 & E2)|(s & w1 & E1 & ->)].
  - pose proof (Hm _ _ E1) as H1. pose proof (Hk a _ _ E2) as H2.
    simpl in H1. destruct r as [b w'|s w'].
    + congruence.
    + destruct H2 as (Hs & w0 & H0 & Ew). split; [exact Hs|].
      exists w0. split; [congruence|exact Ew].
  - exact (Hm _ _ E1).
Qed.

Lemma tidy_err {A} label e :
  S EXIT_FAILURE -> tidy S (@err_ K kernel A label e).
Proof.
  intros Hs. unfold err_. apply tidy_bind; [apply tidy_emit|].
  intros _. now apply tidy_exit.
Qed.

Lemma tidy_when b m : tidy S m -> tidy S (when b m).
Proof. destruct b; simpl; auto using tidy_ret. Qed.

Lemma tidy_if {A} (b : bool) (m1 m2 : @M K A) :
  tidy S m1 -> tidy S m2 -> tidy S (if b then m1 else m2).
Proof. destruct b; auto. Qed.

End Steps.

Ltac tidy_step :=
  first
    [ apply tidy_ret | apply tidy_get | apply tidy_modify
    | apply tidy_when | apply tidy_exit | apply tidy_err
    | apply tidy_emit | apply tidy_call
    | apply tidy_bind; [|intros ?]
    | apply tidy_if ].

Ltac tidy_auto :=
  repeat (unfold printf, fprintf_stderr, malloc; tidy_step);
  try reflexivity.

Lemma printFdQueueSize_tidy fd which :
  tidy failed (printFdQueueSize kernel pf fd which).
Proof.
  unfold printFdQueueSize.
  destruct (queue_request pf which) as [[req label]|]; tidy_auto.
Qed.

Lemma printSockOpt_tidy fd opt : tidy failed (printSockOpt kernel fd opt).
Proof. unfold printSockOpt. destruct (sockopt_name opt); tidy_auto. Qed.

Lemma setPipeSize_tidy fd : tidy failed (setPipeSize kernel pf fd).
Proof. unfold setPipeSize. tidy_auto. Qed.

Lemma reportTest_tidy fmt args : tidy failed (@reportTest K fmt args).
Proof. unfold reportTest. tidy_auto. Qed.

Lemma reportSysctl_tidy s : tidy failed (reportSysctl kernel pf s).
Proof. unfold reportSysctl. tidy_auto. Qed.

Lemma setBufferSizes_tidy rfd wfd :
  tidy failed (setBufferSizes kernel pf rfd wfd).
Proof. unfold setBufferSizes. tidy_auto. Qed.

Lemma writeChunk_again_tidy fuel :
  forall fd wanted count failed_,
    tidy failed (writeChunk_again kernel fuel fd wanted count failed_).
Proof.
  induction fuel as [|fuel IH]; intros fd wanted count failed_.
  - intros w r E. discriminate.
  - cbn [writeChunk_again].
    apply tidy_bind; [apply tidy_call|intros a]. cbv zeta.
    apply tidy_if; [|tidy_auto].
    apply tidy_if; [|tidy_auto].
    apply tidy_if; [tidy_auto|apply IH].
Qed.

Lemma writeChunk_tidy fd count : tidy failed (writeChunk kernel fd count).
Proof.
  unfold writeChunk.
  apply tidy_bind; [tidy_auto|intros ok].
  apply tidy_if; [tidy_auto|apply writeChunk_again_tidy].
Qed.

Lemma writeLoop_while_tidy fuel :
  forall fd count inc i,
    tidy failed (writeLoop_while kernel fuel fd count inc i).
Proof.
  induction fuel as [|fuel IH]; intros fd count inc i.
  - intros w r E. discriminate.
  - cbn [writeLoop_while].
    apply tidy_bind; [apply writeChunk_tidy|intros n].
    apply tidy_if; [tidy_auto|apply IH].
Qed.

Lemma writeLoop_tidy fuel fd count inc :
  tidy failed (writeLoop kernel fuel fd count inc).
Proof.
  unfold writeLoop.
  apply tidy_bind; [apply writeLoop_while_tidy|intros i]. tidy_auto.
Qed.

Lemma writeData_for_tidy left fd : tidy failed (writeData_for kernel left fd).
Proof.
  induction left as [|left IH]; cbn [writeData_for]; [apply tidy_ret|].
  apply tidy_bind; [apply tidy_get|intros c2].
  apply tidy_bind; [apply writeChunk_tidy|intros _; exact IH].
Qed.

Lemma writeData_tidy fuel fd : tidy failed (writeData kernel pf fuel fd).
Proof.
  unfold writeData.
  apply tidy_bind; [apply tidy_call|intros a].
  apply tidy_if; [tidy_auto|].
  unfold writeData_run.
  apply tidy_bind; [apply printFdQueueSize_tidy|intros _].
  apply tidy_bind; [apply tidy_get|intros q].
  apply tidy_bind; [tidy_auto|intros _].
  apply tidy_bind; [apply tidy_get|intros m].
  apply tidy_bind.
  - apply tidy_if.
    + apply tidy_bind; [apply tidy_get|intros c1].
      apply tidy_bind; [apply tidy_get|intros c2].
      apply writeLoop_tidy.
    + unfold writeData_chunks.
      apply tidy_bind; [apply tidy_get|intros c2].
      apply tidy_bind; [apply tidy_get|intros c1]. cbv zeta.
      apply tidy_bind; [tidy_auto|intros _].
      apply tidy_bind; [unfold writeData_announce; tidy_auto|intros _].
      apply tidy_bind; [apply writeChunk_tidy|intros _].
      apply tidy_bind; [apply tidy_get|intros num].
      apply writeData_for_tidy.
  - intros _. unfold writeData_report.
    apply tidy_bind; [apply printFdQueueSize_tidy|intros _].
    tidy_auto.
Qed.

Lemma readData_while_tidy fuel :
  forall fd bufsiz total,
    tidy failed (readData_while kernel pf fuel fd bufsiz total).
Proof.
  induction fuel as [|fuel IH]; intros fd bufsiz total.
  - intros w r E. discriminate.
  - cbn [readData_while].
    apply tidy_bind; [apply printFdQueueSize_tidy|intros left].
    apply tidy_if; [apply tidy_ret|].
    apply tidy_bind; [apply tidy_call|intros a]. cbv zeta.
    apply tidy_if; [tidy_auto|].
    apply tidy_if; [apply tidy_ret|apply IH].
Qed.

Lemma readData_tidy fuel fd : tidy failed (readData kernel pf fuel fd).
Proof.
  unfold readData.
  apply tidy_bind; [apply tidy_get|intros q].
  apply tidy_bind; [tidy_auto|intros _].
  apply tidy_bind; [apply tidy_get|intros b].
  apply tidy_bind; [tidy_auto|intros ok].
  apply tidy_if; [tidy_auto|].
  apply tidy_bind; [apply tidy_call|intros a].
  apply tidy_if; [tidy_auto|].
  apply tidy_bind; [apply readData_while_tidy|intros t]. tidy_auto.
Qed.

Lemma doPipe_tidy fuel : tidy failed (doPipe kernel pf fuel).
Proof.
  unfold doPipe.
  apply tidy_bind; [apply tidy_call|intros a].
  apply tidy_if; [tidy_auto|]. cbv zeta.
  apply tidy_bind; [apply setPipeSize_tidy|intros _].
  apply tidy_bind; [apply reportTest_tidy|intros _].
  apply tidy_bind; [apply tidy_get|intros q].
  apply tidy_bind; [destruct (PIPE_BUF pf); tidy_auto|intros _].
  apply tidy_bind; [destruct (PIPE_MAX pf); tidy_auto|intros _].
  apply tidy_bind; [tidy_auto|intros _].
  apply tidy_bind; [apply tidy_call|intros b].
  apply tidy_if; [tidy_auto|].
  apply tidy_bind; [tidy_auto|intros _].
  apply tidy_bind; [apply writeData_tidy|intros _].
  apply tidy_bind; [apply readData_tidy|intros _]. apply tidy_ret.
Qed.

Lemma doFifo_tidy fuel : tidy failed (doFifo kernel pf fuel).
Proof.
  unfold doFifo.
  apply tidy_bind; [apply reportTest_tidy|intros _].
  apply tidy_bind; [apply tidy_call|intros a].
  apply tidy_if; [tidy_auto|].
  apply tidy_bind; [apply tidy_call|intros b].
  apply tidy_if; [tidy_auto|]. cbv zeta.
  apply tidy_bind; [apply tidy_call|intros c].
  apply tidy_if; [tidy_auto|]. cbv zeta.
  apply tidy_bind; [apply writeData_tidy|intros _].
  apply tidy_bind; [apply readData_tidy|intros _]. apply tidy_ret.
Qed.

Lemma doSocketpair_tidy fuel : tidy failed (doSocketpair kernel pf fuel).
Proof.
  unfold doSocketpair.
  apply tidy_bind; [apply tidy_get|intros st].
  apply tidy_bind; [apply reportTest_tidy|intros _].
  apply tidy_bind; [apply tidy_get|intros t].
  apply tidy_bind; [apply tidy_call|intros a].
  apply tidy_if; [tidy_auto|]. cbv zeta.
  apply tidy_bind; [apply setBufferSizes_tidy|intros _].
  apply tidy_bind; [apply reportSysctl_tidy|intros _].
  apply tidy_bind; [apply printSockOpt_tidy|intros _].
  apply tidy_bind; [apply printSockOpt_tidy|intros _].
  apply tidy_bind; [apply writeData_tidy|intros _].
  apply tidy_bind; [apply readData_tidy|intros _]. apply tidy_ret.
Qed.

Lemma doSocket_bind_tidy : tidy failed (doSocket_bind kernel pf).
Proof.
  unfold doSocket_bind.
  apply tidy_bind; [apply tidy_get|intros dn].
  apply tidy_bind; [apply tidy_get|intros st].
  apply tidy_bind; [apply reportTest_tidy|intros _].
  apply tidy_bind; [apply tidy_get|intros d].
  apply tidy_bind; [apply tidy_get|intros t].
  apply tidy_bind; [apply tidy_call|intros a].
  apply tidy_if; [tidy_auto|]. cbv zeta.
  apply tidy_bind.
  { destruct d; [tidy_auto|tidy_auto|]. destruct (is_freebsd pf); tidy_auto. }
  intros _.
  apply tidy_bind; [apply tidy_call|intros b].
  apply tidy_if; [tidy_auto|].
  apply tidy_bind; [apply reportSysctl_tidy|intros _]. apply tidy_ret.
Qed.

Lemma doSocket_probe_tidy fuel rfd wfd :
  tidy failed (doSocket_probe kernel pf fuel rfd wfd).
Proof.
  unfold doSocket_probe.
  apply tidy_bind; [apply tidy_get|intros d].
  apply tidy_bind; [apply tidy_call|intros a].
  apply tidy_if; [tidy_auto|].
  apply tidy_bind; [apply setBufferSizes_tidy|intros _].
  apply tidy_bind; [apply printSockOpt_tidy|intros _].
  apply tidy_bind; [apply printSockOpt_tidy|intros _].
  apply tidy_bind; [apply writeData_tidy|intros _].
  apply tidy_bind; [apply tidy_get|intros t].
  destruct t; [|apply tidy_ret].
  apply tidy_bind; [apply readData_tidy|intros _]. tidy_auto.
Qed.

Lemma doSocket_child_tidy fuel rfd :
  tidy failed (doSocket_child kernel pf fuel rfd).
Proof.
  unfold doSocket_child.
  apply tidy_bind; [apply tidy_call|intros _].
  apply tidy_bind; [apply tidy_get|intros d].
  apply tidy_bind; [apply tidy_get|intros t].
  apply tidy_bind; [apply tidy_call|intros a].
  apply tidy_if; [tidy_auto|apply doSocket_probe_tidy].
Qed.

Lemma doSocket_listen_tidy wfd : tidy failed (doSocket_listen kernel wfd).
Proof. unfold doSocket_listen. tidy_auto. Qed.

Lemma doSocket_fork_tidy : tidy failed (doSocket_fork kernel).
Proof. unfold doSocket_fork. tidy_auto. Qed.

Lemma tidy_impl {A} (S T : Z -> Prop) (m : @M K A) :
  (forall s, S s -> T s) -> tidy S m -> tidy T m.
Proof.
  intros H Hm w r E. pose proof (Hm _ _ E) as X.
  destruct r; [exact X|]. destruct X as (Hs & X). auto.
Qed.

End Tidy.

(** ** The transports *)

Lemma quiet_is_one_way rfd wfd (d : list event) :
  write_calls d = [] -> read_calls d = [] -> probe_before_drain rfd wfd d.
Proof.
  intros W R. exists d, []. rewrite app_nil_r, W, R. simpl.
  repeat split; constructor.
Qed.

Lemma one_way_after_quiet rfd wfd (pre d : list event) :
  write_calls pre = [] -> read_calls pre = [] ->
  probe_before_drain rfd wfd d -> probe_before_drain rfd wfd (pre ++ d).
Proof.
  intros W R (b & a & -> & Rb & Wb & Wa & Ra).
  exists (pre ++ b), a. rewrite app_assoc.
  rewrite read_calls_app, write_calls_app, W, R, Rb. simpl. auto.
Qed.

Section Transports.

Context {K : Type}.
Variable kernel : K -> syscall -> sysret * K.
Variable pf : platform.

Abbreviation world := (@world K).
Abbreviation result := (@result K).

Lemma one_way_quiet {A} rfd wfd R (m : @M K A) :
  emits quiet_event R m -> one_way rfd wfd m.
Proof.
  intros Hm w r E. destruct (Hm _ _ E) as (d & T & F & _ & Hh).
  destruct (quiet_inert d F) as (W & Rd & _).
  exists d. split; [exact T|]. split; [|exact Hh].
  now apply quiet_is_one_way.
Qed.

Lemma one_way_bind {A B} rfd wfd R (m : @M K A) (k : A -> @M K B) :
  emits quiet_event R m -> (forall a, one_way rfd wfd (k a)) ->
  one_way rfd wfd (bind m k).
Proof.
  intros Hm Hk w r E.
  destruct (bind_Some _ _ _ _ E) as [(a & w1 & E1 & E2)|(s & w1 & E1 & ->)].
  - destruct (Hm _ _ E1) as (d1 & T1 & F1 & _ & H1).
    destruct (Hk a _ _ E2) as (d2 & T2 & P2 & H2).
    destruct (quiet_inert d1 F1) as (W & Rd & _).
    simpl in T1, H1. exists (d1 ++ d2). rewrite T2, T1, app_assoc, H2, H1.
    split; [reflexivity|]. split; [|reflexivity].
    now apply one_way_after_quiet.
  - destruct (Hm _ _ E1) as (d1 & T1 & F1 & _ & H1).
    destruct (quiet_inert d1 F1) as (W & Rd & _).
    exists d1. split; [exact T1|]. split; [|exact H1].
    now apply quiet_is_one_way.
Qed.

Lemma one_way_if {A} rfd wfd (b : bool) (m1 m2 : @M K A) :
  one_way rfd wfd m1 -> one_way rfd wfd m2 ->
  one_way rfd wfd (if b then m1 else m2).
Proof. destruct b; auto. Qed.

(** The probe, then the drain, then whatever [k] does without writing or
    reading. *)
Lemma probe_then_drain {A} fuel rfd wfd R (k : Z -> @M K A) :
  (forall t, emits quiet_event R (k t)) ->
  one_way rfd wfd
    (bind (writeData kernel pf fuel wfd)
       (fun _ => bind (readData kernel pf fuel rfd) k)).
Proof.
  intros Hk w r E.
  destruct (bind_Some _ _ _ _ E) as [(u & w1 & E1 & E2)|(s & w1 & E1 & ->)].
  - destruct (writeData_calls_on kernel pf _ _ _ _ E1)
      as (d1 & T1 & F1 & _ & H1).
    destruct (probe_call_inert _ _ F1) as (R1 & W1).
    simpl in T1, H1.
    destruct (bind_Some _ _ _ _ E2) as [(t & w2 & E3 & E4)|(s & w2 & E3 & ->)].
    + destruct (readData_calls_on kernel pf _ _ _ _ E3)
        as (d2 & T2 & F2 & _ & H2).
      destruct (drain_call_inert _ _ F2) as (W2 & R2).
      destruct (Hk t _ _ E4) as (d3 & T3 & F3 & _ & H3).
      destruct (quiet_inert d3 F3) as (W3 & R3 & _).
      simpl in T2, H2.
      exists (d1 ++ d2 ++ d3).
      rewrite T3, T2, T1, <- !app_assoc.
      split; [reflexivity|]. split; [|congruence].
      exists d1, (d2 ++ d3).
      split; [reflexivity|].
      rewrite write_calls_app, read_calls_app, W2, W3, R3, !app_nil_r.
      repeat split; auto.
    + destruct (readData_calls_on kernel pf _ _ _ _ E3)
        as (d2 & T2 & F2 & _ & H2).
      destruct (drain_call_inert _ _ F2) as (W2 & R2).
      simpl in T2, H2.
      exists (d1 ++ d2). simpl.
      rewrite T2, T1, <- !app_assoc.
      split; [reflexivity|]. split; [|congruence].
      exists d1, d2. auto.
  - destruct (writeData_calls_on kernel pf _ _ _ _ E1)
      as (d1 & T1 & F1 & _ & H1).
    destruct (probe_call_inert _ _ F1) as (R1 & W1).
    simpl in T1, H1.
    exists d1. split; [exact T1|]. split; [|exact H1].
    exists d1, []. rewrite app_nil_r. simpl. repeat split; auto.
Qed.


Lemma setPipeSize_quiet fd : emits quiet_event eq (setPipeSize kernel pf fd).
Proof. pose proof preorder_eq as Hp. unfold setPipeSize. emits_auto. Qed.

Lemma reportTest_quiet fmt args : emits quiet_event eq (@reportTest K fmt args).
Proof. pose proof preorder_eq as Hp. unfold reportTest. emits_auto. Qed.

Lemma reportSysctl_quiet s : emits quiet_event eq (reportSysctl kernel pf s).
Proof. pose proof preorder_eq as Hp. unfold reportSysctl. emits_auto. Qed.

Lemma setBufferSizes_quiet rfd wfd :
  emits quiet_event eq (setBufferSizes kernel pf rfd wfd).
Proof. pose proof preorder_eq as Hp. unfold setBufferSizes. emits_auto. Qed.

Lemma printSockOpt_quiet fd opt :
  emits quiet_event eq (printSockOpt kernel fd opt).
Proof.
  pose proof preorder_eq as Hp. unfold printSockOpt.
  destruct (sockopt_name opt); emits_auto.
Qed.

Lemma err_quiet {A} label e : emits quiet_event eq (@err_ K kernel A label e).
Proof. pose proof preorder_eq as Hp. emits_auto. Qed.

(** doPipe (lines 581-627).  The first thing [doPipe] does is call [pipe];
    when that fails the process ends with [EXIT_FAILURE] after
    [err("pipe")] and nothing else happens.  Otherwise every write goes to
    the second descriptor the call stored and every read to the first, and
    no write follows a read: the probe is over when the drain begins. *)
Theorem pipe_is_written_then_read fuel (w : world) r :
  doPipe kernel pf fuel w = Some r ->
  exists a d,
    trace (world_of r) = trace w ++ Sys c_pipe a :: d
    /\ (retval a < 0 ->
        exists w' tail,
          r = Exit EXIT_FAILURE w'
          /\ d = Err "pipe" (err a) :: tail /\ unlinks tail)
    /\ probe_before_drain (out0 a) (out1 a) d
    /\ hooks (world_of r) = hooks w.
Proof.
  intros E. unfold doPipe in E. unfold bind at 1 in E. unfold call at 1 in E.
  destruct (do_call_spec kernel c_pipe w) as (a & k' & Ec & _).
  rewrite Ec in E. clear Ec. exists a.
  destruct (retval a <? 0) eqn:Hneg.
  - match type of E with err_ _ ?l ?e ?y = _ =>
      destruct (@err_spec K kernel unit l e y)
        as (w' & tail & E' & G & Hh & _ & T & U) end.
    rewrite E' in E. inversion E; subst; clear E. simpl in *.
    exists (Err "pipe" (err a) :: tail).
    destruct (unlinks_inert 0 tail U) as (N1 & N2 & _).
    rewrite T, <- app_assoc. simpl.
    split; [reflexivity|]. split; [eauto|]. split; [|exact Hh].
    apply quiet_is_one_way; simpl; auto.
  - apply Z.ltb_ge in Hneg. cbv zeta in E.
    match type of E with ?m _ = _ =>
      assert (O : one_way (out0 a) (out1 a) m) end.
    { pose proof preorder_eq as Hp.
      apply (one_way_bind _ _ eq); [apply setPipeSize_quiet|intros _].
      apply (one_way_bind _ _ eq); [apply reportTest_quiet|intros _].
      apply (one_way_bind _ _ eq); [now apply emits_get|intros q].
      apply (one_way_bind _ _ eq); [destruct (PIPE_BUF pf); emits_auto|intros _].
      apply (one_way_bind _ _ eq); [destruct (PIPE_MAX pf); emits_auto|intros _].
      apply (one_way_bind _ _ eq); [emits_auto|intros _].
      apply (one_way_bind _ _ eq); [emits_auto|intros r0].
      apply one_way_if; [apply (one_way_quiet _ _ eq), err_quiet|].
      apply (one_way_bind _ _ eq); [emits_auto|intros _].
      apply (probe_then_drain _ _ _ eq). intros t. emits_auto. }
    destruct (O _ _ E) as (d & T & P & Hh). simpl in T, Hh.
    exists d. rewrite T, <- app_assoc. simpl.
    split; [reflexivity|]. split; [intros; lia|]. split; [exact P|exact Hh].
Qed.


Lemma checked_call {A} c label (k : sysret -> @M K A) (w : world) r :
  bind (call kernel c)
    (fun a => if retval a <? 0 then err_ kernel label (err a) else k a) w
  = Some r ->
  exists a (w1 : world),
    trace w1 = trace w ++ [Sys c a] /\ glob w1 = glob w
    /\ hooks w1 = hooks w
    /\ ((retval a < 0
         /\ exists w' tail,
             r = Exit EXIT_FAILURE w'
             /\ trace w' = trace w1 ++ Err label (err a) :: tail
             /\ unlinks tail /\ hooks w' = hooks w
             /\ glob w' = glob w)
        \/ (0 <= retval a /\ k a w1 = Some r)).
Proof.
  intros E. unfold bind at 1 in E. unfold call at 1 in E.
  destruct (do_call_spec kernel c w) as (a & k' & Ec & _).
  rewrite Ec in E. clear Ec.
  exists a, (mkWorld k' (glob w) (hooks w) (trace w ++ [Sys c a])).
  split; [reflexivity|]. split; [reflexivity|]. split; [reflexivity|].
  destruct (retval a <? 0) eqn:Hneg.
  - left. apply Z.ltb_lt in Hneg. split; [exact Hneg|].
    match type of E with err_ _ ?l ?e ?y = _ =>
      destruct (@err_spec K kernel A l e y)
        as (w' & tail & E' & G & Hh & _ & T & U) end.
    rewrite E' in E. inversion E; subst; clear E.
    exists w', tail. auto.
  - right. apply Z.ltb_ge in Hneg. auto.
Qed.

Lemma reportTest_no_call fmt args : emits no_call eq (@reportTest K fmt args).
Proof. pose proof preorder_eq as Hp. unfold reportTest. emits_auto. Qed.

Lemma reportTest_returns fmt args (w : world) :
  exists w', @reportTest K fmt args w = Some (Ret tt w').
Proof.
  unfold reportTest, bind, when, printf, emit, ret. cbn.
  destruct (QUIET (glob w)); [eauto|].
  destruct (mode_eqb (MODE (glob w)) LOOP);
    [destruct (CHUNK2 (glob w) =? -1)|]; eauto.
Qed.

Lemma failure_is_one_way rfd wfd label e (tail : list event) :
  unlinks tail -> probe_before_drain rfd wfd (Err label e :: tail).
Proof.
  intros U. destruct (unlinks_inert 0 tail U) as (N1 & N2 & _).
  apply quiet_is_one_way; simpl; auto.
Qed.

(** doFifo (lines 770-791).  The FIFO is created, then opened for reading,
    then opened for writing, in this order and with nothing in between; the
    first of the three calls that fails ends the process with
    [EXIT_FAILURE] and its diagnostic.  What follows writes only to the
    descriptor of the second [open] and reads only from that of the first,
    and no write follows a read. *)
Theorem fifo_is_opened_for_reading_first fuel (w : world) r :
  doFifo kernel pf fuel w = Some r ->
  exists pre a1 d1,
    trace (world_of r) = trace w ++ pre ++ Sys (c_mkfifo "fifo") a1 :: d1
    /\ Forall no_call pre
    /\ hooks (world_of r) = hooks w
    /\ (retval a1 < 0 ->
        exists w' tail,
          r = Exit EXIT_FAILURE w'
          /\ d1 = Err "fifo" (err a1) :: tail /\ unlinks tail)
    /\ (0 <= retval a1 ->
        exists a2 d2,
          d1 = Sys (c_open_rdonly_nonblock "fifo") a2 :: d2
          /\ (retval a2 < 0 ->
              exists w' tail,
                r = Exit EXIT_FAILURE w'
                /\ d2 = Err "open" (err a2) :: tail /\ unlinks tail)
          /\ (0 <= retval a2 ->
              exists a3 d3,
                d2 = Sys (c_open_wronly_nonblock "fifo") a3 :: d3
                /\ (retval a3 < 0 ->
                    exists w' tail,
                      r = Exit EXIT_FAILURE w'
                      /\ d3 = Err "open" (err a3) :: tail /\ unlinks tail)
                /\ probe_before_drain (retval a2) (retval a3) d3)).
Proof.
  intros E. unfold doFifo in E.
  destruct (bind_Some _ _ _ _ E) as [(u & w0 & E0 & E1)|(s & w0 & E0 & ->)];
    destruct (reportTest_no_call _ _ _ _ E0) as (pre & T0 & F0 & _ & H0);
    simpl in T0, H0.
  2:{ match type of E0 with reportTest ?f ?l _ = _ =>
        destruct (reportTest_returns f l w) as (x & Ex) end.
      congruence. }
  clear E E0. exists pre.
  destruct (checked_call _ _ _ _ _ E1)
    as (a1 & w1 & T1 & _ & H1 & [(N1 & w' & tail & -> & T' & U & H' & G')|(P1 & E2)]);
    exists a1; clear E1.
  { exists (Err "fifo" (err a1) :: tail). simpl.
    rewrite T', T1, T0, <- !app_assoc. simpl.
    repeat split; auto; try congruence; try lia.
    intros _. eauto. }
  destruct (checked_call _ _ _ _ _ E2)
    as (a2 & w2 & T2 & _ & H2 & [(N2 & w' & tail & -> & T' & U & H' & G')|(P2 & E3)]);
    clear E2.
  { eexists. simpl. rewrite T', T2, T1, T0, <- !app_assoc. simpl.
    split; [reflexivity|]. split; [exact F0|]. split; [congruence|].
    split; [lia|]. intros _. exists a2. eexists. split; [reflexivity|].
    split; [eauto|lia]. }
  destruct (checked_call _ _ _ _ _ E3)
    as (a3 & w3 & T3 & _ & H3 & [(N3 & w' & tail & -> & T' & U & H' & G')|(P3 & E4)]);
    clear E3.
  { eexists. simpl. rewrite T', T3, T2, T1, T0, <- !app_assoc. simpl.
    split; [reflexivity|]. split; [exact F0|]. split; [congruence|].
    split; [lia|]. intros _. exists a2. eexists. split; [reflexivity|].
    split; [lia|]. intros _. exists a3. eexists. split; [reflexivity|].
    split; [eauto|]. now apply failure_is_one_way. }
  cbv zeta in E4.
  assert (O : one_way (retval a2) (retval a3)
                (bind (writeData kernel pf fuel (retval a3))
                   (fun _ => bind (readData kernel pf fuel (retval a2))
                               (fun _ => ret tt)))).
  { apply (probe_then_drain _ _ _ eq). intros t.
    pose proof preorder_eq as Hp. emits_auto. }
  destruct (O _ _ E4) as (d & T & P & Hh).
  exists (Sys (c_open_rdonly_nonblock "fifo") a2
          :: Sys (c_open_wronly_nonblock "fifo") a3 :: d).
  rewrite T, T3, T2, T1, T0, <- !app_assoc. simpl.
  split; [reflexivity|]. split; [exact F0|]. split; [congruence|].
  split; [lia|]. intros _. exists a2. eexists. split; [reflexivity|].
  split; [lia|]. intros _. exists a3, d. split; [reflexivity|].
  split; [lia|exact P].
Qed.

(** doSocketpair (lines 738-762).  After the title of the report the first
    call is [socketpair] with the socket type chosen on the command line;
    when it fails the process ends with [EXIT_FAILURE] and a diagnostic
    labelled ["pipe"].  Otherwise every write is on the second descriptor
    of the pair and every read on the first, and no write follows a
    read. *)
Theorem socketpair_is_written_then_read fuel (w : world) r :
  doSocketpair kernel pf fuel w = Some r ->
  exists pre a d,
    trace (world_of r)
    = trace w ++ pre ++ Sys (c_socketpair (SOCK_TYPE (glob w))) a :: d
    /\ Forall no_call pre
    /\ (retval a < 0 ->
        exists w' tail,
          r = Exit EXIT_FAILURE w'
          /\ d = Err "pipe" (err a) :: tail /\ unlinks tail)
    /\ probe_before_drain (out0 a) (out1 a) d
    /\ hooks (world_of r) = hooks w.
Proof.
  intros E. unfold doSocketpair in E.
  rewrite get_bind in E.
  destruct (bind_Some _ _ _ _ E) as [(u & w0 & E0 & E1)|(s & w0 & E0 & ->)];
    destruct (reportTest_no_call _ _ _ _ E0) as (pre & T0 & F0 & G0 & H0);
    simpl in T0, H0, G0.
  2:{ match type of E0 with reportTest ?f ?l ?y = _ =>
        destruct (reportTest_returns f l y) as (x & Ex) end.
      congruence. }
  clear E E0. exists pre.
  rewrite get_bind, <- G0 in E1.
  destruct (checked_call _ _ _ _ _ E1)
    as (a & w1 & T1 & _ & H1 & [(N1 & w' & tail & -> & T' & U & H' & G')|(P1 & E2)]);
    exists a; clear E1.
  { exists (Err "pipe" (err a) :: tail). simpl.
    rewrite T', T1, T0, <- !app_assoc. simpl.
    split; [reflexivity|]. split; [exact F0|]. split; [eauto|].
    split; [now apply failure_is_one_way|congruence]. }
  cbv zeta in E2.
  match type of E2 with ?m _ = _ =>
    assert (O : one_way (out0 a) (out1 a) m) end.
  { pose proof preorder_eq as Hp.
    apply (one_way_bind _ _ eq); [apply setBufferSizes_quiet|intros _].
    apply (one_way_bind _ _ eq); [apply reportSysctl_quiet|intros _].
    apply (one_way_bind _ _ eq); [apply printSockOpt_quiet|intros _].
    apply (one_way_bind _ _ eq); [apply printSockOpt_quiet|intros _].
    apply (probe_then_drain _ _ _ eq). intros t. emits_auto. }
  destruct (O _ _ E2) as (d & T & P & Hh).
  exists d. rewrite T, T1, T0, <- !app_assoc. simpl.
  split; [reflexivity|]. split; [exact F0|]. split; [intros; lia|].
  split; [exact P|congruence].
Qed.


Lemma probe_call_on_socket fd e : probe_call fd e -> on_socket fd e.
Proof. destruct e as [c a| | | |]; simpl; auto. destruct c; simpl; tauto. Qed.

Lemma drain_call_on_socket fd e : drain_call fd e -> on_socket fd e.
Proof. destruct e as [c a| | | |]; simpl; auto. destruct c; simpl; tauto. Qed.

Lemma no_call_on_socket fd e : no_call e -> on_socket fd e.
Proof. destruct e as [c a| | | |]; simpl; auto. contradiction. Qed.

Lemma unlinks_on_socket fd (tail : list event) :
  unlinks tail -> Forall (on_socket fd) tail.
Proof. apply Forall_impl. intros e (p & a & ->). exact Logic.I. Qed.

Lemma preorder_true : preorder (fun _ _ : globals => True).
Proof. split; auto. Qed.

Lemma setBufferSizes_on_socket fd :
  emits (on_socket fd) (fun _ _ => True) (setBufferSizes kernel pf fd fd).
Proof. pose proof preorder_true as Hp. unfold setBufferSizes. emits_auto. Qed.

Lemma printSockOpt_on_socket fd opt :
  emits (on_socket fd) (fun _ _ => True) (printSockOpt kernel fd opt).
Proof.
  pose proof preorder_true as Hp. unfold printSockOpt.
  destruct (sockopt_name opt); emits_auto.
Qed.

Lemma reportSysctl_on_socket fd s :
  emits (on_socket fd) (fun _ _ => True) (reportSysctl kernel pf s).
Proof. pose proof preorder_true as Hp. unfold reportSysctl. emits_auto. Qed.

Lemma doSocket_probe_on_socket fuel fd :
  emits (on_socket fd) (fun _ _ => True) (doSocket_probe kernel pf fuel fd fd).
Proof.
  pose proof preorder_true as Hp. unfold doSocket_probe.
  apply emits_bind; [exact Hp|now apply emits_get|intros d].
  apply emits_bind; [exact Hp|apply emits_call; [exact Hp|simpl; auto]|intros a].
  apply emits_if; [emits_auto|].
  apply emits_bind; [exact Hp|apply setBufferSizes_on_socket|intros _].
  apply emits_bind; [exact Hp|apply printSockOpt_on_socket|intros _].
  apply emits_bind; [exact Hp|apply printSockOpt_on_socket|intros _].
  apply emits_bind; [exact Hp| |intros _].
  { eapply emits_impl; [apply probe_call_on_socket| |apply writeData_calls_on].
    auto. }
  apply emits_bind; [exact Hp|now apply emits_get|intros t].
  destruct t; [|emits_auto].
  apply emits_bind; [exact Hp| |intros _; emits_auto].
  eapply emits_impl; [apply drain_call_on_socket| |apply readData_calls_on].
  auto.
Qed.

Lemma one_way_then_drain {A B} rfd wfd R (m : @M K A) (k : A -> @M K B) :
  one_way rfd wfd m -> (forall a, emits (drain_call rfd) R (k a)) ->
  one_way rfd wfd (bind m k).
Proof.
  intros Hm Hk w r E.
  destruct (bind_Some _ _ _ _ E) as [(a & w1 & E1 & E2)|(s & w1 & E1 & ->)].
  - destruct (Hm _ _ E1) as (d1 & T1 & (b & f & -> & Rb & Wb & Wf & Rf) & H1).
    destruct (Hk a _ _ E2) as (d2 & T2 & F2 & _ & H2).
    destruct (drain_call_inert _ _ F2) as (W2 & R2).
    simpl in T1, H1. exists (b ++ f ++ d2).
    rewrite T2, T1, <- !app_assoc, H2, H1.
    split; [reflexivity|]. split; [|reflexivity].
    exists b, (f ++ d2).
    split; [reflexivity|].
    rewrite write_calls_app, read_calls_app, Wf, W2.
    repeat split; auto. apply Forall_app; auto.
  - destruct (Hm _ _ E1) as (d1 & T1 & P1 & H1). exists d1. auto.
Qed.

Lemma probe_then {A} fuel rfd wfd R (k : unit -> @M K A) :
  (forall u, emits (drain_call rfd) R (k u)) ->
  one_way rfd wfd (bind (writeData kernel pf fuel wfd) k).
Proof.
  intros Hk. apply (one_way_then_drain _ _ R); [|exact Hk].
  intros w r E.
  destruct (writeData_calls_on kernel pf _ _ _ _ E) as (d1 & T1 & F1 & _ & H1).
  destruct (probe_call_inert _ _ F1) as (R1 & W1).
  exists d1. split; [exact T1|]. split; [|exact H1].
  exists d1, []. rewrite app_nil_r. simpl. repeat split; auto.
Qed.

Lemma doSocket_probe_one_way fuel rfd wfd :
  one_way rfd wfd (doSocket_probe kernel pf fuel rfd wfd).
Proof.
  pose proof preorder_eq as Hp. unfold doSocket_probe.
  apply (one_way_bind _ _ eq); [now apply emits_get|intros d].
  apply (one_way_bind _ _ eq); [emits_auto|intros a].
  apply one_way_if; [apply (one_way_quiet _ _ eq), err_quiet|].
  apply (one_way_bind _ _ eq); [apply setBufferSizes_quiet|intros _].
  apply (one_way_bind _ _ eq); [apply printSockOpt_quiet|intros _].
  apply (one_way_bind _ _ eq); [apply printSockOpt_quiet|intros _].
  apply (probe_then _ _ _ eq). intros _.
  apply emits_bind; [exact Hp|now apply emits_get|intros t].
  destruct t; [|emits_auto].
  apply emits_bind; [exact Hp|apply readData_calls_on|intros _; emits_auto].
Qed.


Lemma doSocket_bind_spec (w : world) rb :
  doSocket_bind kernel pf w = Some rb ->
  exists pre a d,
    trace (world_of rb)
    = trace w ++ pre
      ++ Sys (c_socket (SOCK_DOMAIN (glob w)) (SOCK_TYPE (glob w))) a :: d
    /\ Forall no_call pre
    /\ Forall (fun e => on_socket (retval a) e /\ quiet_event e) d
    /\ glob (world_of rb) = glob w
    /\ hooks (world_of rb) = hooks w
    /\ (retval a < 0 ->
        exists w' tail,
          rb = Exit EXIT_FAILURE w'
          /\ d = Err "socket" (err a) :: tail /\ unlinks tail)
    /\ (forall fd w1, rb = Ret fd w1 -> fd = retval a).
Proof.
  intros E. unfold doSocket_bind in E. rewrite !get_bind in E.
  destruct (bind_Some _ _ _ _ E) as [(u & w0 & E0 & E1)|(s & w0 & E0 & ->)];
    destruct (reportTest_no_call _ _ _ _ E0) as (pre & T0 & F0 & G0 & H0);
    simpl in T0, H0, G0.
  2:{ match type of E0 with reportTest ?f ?l ?y = _ =>
        destruct (reportTest_returns f l y) as (x & Ex) end.
      congruence. }
  clear E E0. exists pre.
  rewrite !get_bind, <- G0 in E1.
  destruct (checked_call _ _ _ _ _ E1)
    as (a & w1 & T1 & G1 & H1 & [(N1 & w' & tail & -> & T' & U & H' & G')|(P1 & E2)]);
    exists a; clear E1.
  { exists (Err "socket" (err a) :: tail).
    simpl. rewrite T', T1, T0, <- !app_assoc. simpl.
    split; [reflexivity|]. split; [exact F0|]. split.
    { constructor; [simpl; auto|].
      eapply Forall_impl; [|exact U]. intros e (p & x & ->). simpl. auto. }
    split; [congruence|]. split; [congruence|]. split; [eauto|].
    intros fd w3 X. discriminate. }
  cbv zeta in E2.
  match type of E2 with ?m _ = _ =>
    assert (O : emits (fun e => on_socket (retval a) e /\ quiet_event e) eq m)
  end.
  { pose proof preorder_eq as Hp.
    apply emits_bind; [exact Hp| |intros _].
    { destruct (SOCK_DOMAIN (glob w)); [emits_auto|emits_auto|].
      destruct (is_freebsd pf); emits_auto. }
    apply emits_bind; [exact Hp|emits_auto|intros b].
    apply emits_if; [emits_auto|].
    apply emits_bind; [exact Hp| |intros _; emits_auto].
    unfold reportSysctl. emits_auto. }
  destruct (O _ _ E2) as (d & T & F & G & Hh).
  exists d. rewrite T, T1, T0, <- !app_assoc. simpl.
  split; [reflexivity|]. split; [exact F0|]. split; [exact F|].
  split; [congruence|]. split; [congruence|]. split; [intros; lia|].
  intros fd w3 ->.
  apply bind_Ret in E2. destruct E2 as (u1 & w4 & _ & E2).
  apply bind_Ret in E2. destruct E2 as (b & w5 & _ & E2).
  destruct (negb (retval b =? 0)); [now apply err_not_Ret in E2|].
  apply bind_Ret in E2. destruct E2 as (u2 & w6 & _ & E2).
  inversion E2. reflexivity.
Qed.


(** doSocket (lines 793-934), datagram sockets.  There is one process and
    one socket.  After the title of the report the first call is [socket];
    when it fails the process ends with [EXIT_FAILURE].  From then on no
    other socket is created, the process neither forks nor listens nor
    accepts, and [bind], [connect], the socket options, every write and
    every read are on the descriptor [socket] returned: the socket is
    connected to itself.  No write follows a read. *)
Theorem datagram_socket_is_its_own_peer fuel (w : world) rn :
  SOCK_TYPE (glob w) = SOCK_DGRAM ->
  doSocket kernel pf fuel (exit_ kernel EXIT_SUCCESS) w = Some rn ->
  snd rn = None
  /\ exists pre a d,
       trace (world_of (fst rn))
       = trace w ++ pre
         ++ Sys (c_socket (SOCK_DOMAIN (glob w)) SOCK_DGRAM) a :: d
       /\ Forall no_call pre
       /\ Forall (on_socket (retval a)) d
       /\ probe_before_drain (retval a) (retval a) d
       /\ (retval a < 0 ->
           exists w' tail,
             fst rn = Exit EXIT_FAILURE w'
             /\ d = Err "socket" (err a) :: tail /\ unlinks tail)
       /\ hooks (world_of (fst rn)) = hooks w.
Proof.
  intros Hd E. unfold doSocket in E.
  destruct (doSocket_bind kernel pf w) as [rb|] eqn:Eb; [|discriminate].
  destruct (doSocket_bind_spec _ _ Eb)
    as (pre & a & d1 & T1 & F0 & F1 & G1 & H1 & N1 & V1).
  rewrite Hd in T1.
  assert (Q1 : Forall quiet_event d1)
    by (eapply Forall_impl; [|exact F1]; simpl; tauto).
  assert (S1 : Forall (on_socket (retval a)) d1)
    by (eapply Forall_impl; [|exact F1]; simpl; tauto).
  destruct (quiet_inert d1 Q1) as (W1 & R1 & _).
  destruct rb as [wfd w1|s w1]; simpl in *.
  - rewrite G1, Hd in E.
    pose proof (V1 _ _ eq_refl) as Hv. subst wfd.
    match type of E with match ?m w1 with _ => _ end = _ =>
      destruct (m w1) as [r|] eqn:Ep; [|discriminate];
      assert (O : one_way (retval a) (retval a) m);
      [|assert (S : emits (on_socket (retval a)) (fun _ _ => True) m)]
    end.
    { pose proof preorder_eq as Hp.
      apply (one_way_then_drain _ _ eq); [apply doSocket_probe_one_way|].
      intros _. emits_auto. }
    { pose proof preorder_true as Hp.
      apply emits_bind; [exact Hp|apply doSocket_probe_on_socket|].
      intros _. emits_auto. }
    inversion E; subst rn; clear E. simpl.
    split; [reflexivity|].
    destruct (O _ _ Ep) as (d2 & T2 & P2 & H2).
    destruct (S _ _ Ep) as (d2' & T2' & S2 & _ & _).
    assert (d2' = d2) by (rewrite T2 in T2'; now apply app_inv_head in T2').
    subst d2'.
    exists pre, a, (d1 ++ d2).
    rewrite T2, T1, <- !app_assoc. simpl.
    split; [reflexivity|]. split; [exact F0|].
    split; [now apply Forall_app|].
    split; [now apply one_way_after_quiet|].
    split; [|congruence].
    intros Hneg. destruct (N1 Hneg) as (w' & tail & X & _). discriminate.
  - inversion E; subst rn; clear E. simpl.
    split; [reflexivity|].
    exists pre, a, d1.
    split; [exact T1|]. split; [exact F0|]. split; [exact S1|].
    split; [now apply quiet_is_one_way|]. split; [|exact H1].
    intros Hneg. destruct (N1 Hneg) as (w' & tail & X & Y).
    inversion X; subst. eauto.
Qed.


Lemma emits_bind_from {A B} P R (m : @M K A) (k : A -> @M K B) (w : world) r :
  emits P R m ->
  (forall a (w1 : world) r1,
     R (glob w) (glob w1) -> k a w1 = Some r1 ->
     exists d, trace (world_of r1) = trace w1 ++ d /\ Forall P d
               /\ hooks (world_of r1) = hooks w1) ->
  bind m k w = Some r ->
  exists d, trace (world_of r) = trace w ++ d /\ Forall P d
            /\ hooks (world_of r) = hooks w.
Proof.
  intros Hm Hk E.
  destruct (bind_Some _ _ _ _ E) as [(a & w1 & E1 & E2)|(s & w1 & E1 & ->)].
  - destruct (Hm _ _ E1) as (d1 & T1 & F1 & G1 & H1). simpl in *.
    destruct (Hk _ _ _ G1 E2) as (d2 & T2 & F2 & H2).
    exists (d1 ++ d2). rewrite T2, T1, app_assoc, H2, H1.
    split; [reflexivity|]. split; [now apply Forall_app|reflexivity].
  - destruct (Hm _ _ E1) as (d1 & T1 & F1 & G1 & H1). eauto.
Qed.

Lemma probe_call_writer rfd wfd e : probe_call wfd e -> writer_event rfd wfd e.
Proof. destruct e as [c a| | | |]; simpl; auto. destruct c; simpl; tauto. Qed.

Lemma drain_call_reader fd e : drain_call fd e -> reader_event fd e.
Proof. destruct e as [c a| | | |]; simpl; auto. destruct c; simpl; tauto. Qed.

Lemma setBufferSizes_writer rfd wfd :
  emits (writer_event rfd wfd) eq (setBufferSizes kernel pf rfd wfd).
Proof. pose proof preorder_eq as Hp. unfold setBufferSizes. emits_auto. Qed.

Lemma stream_probe_writes fuel rfd wfd (w : world) r :
  SOCK_TYPE (glob w) = SOCK_STREAM ->
  doSocket_probe kernel pf fuel rfd wfd w = Some r ->
  exists d,
    trace (world_of r) = trace w ++ d /\ Forall (writer_event rfd wfd) d
    /\ hooks (world_of r) = hooks w.
Proof.
  intros Hs E. pose proof preorder_eq as Hp.
  unfold doSocket_probe in E. rewrite get_bind in E.
  revert E. apply (emits_bind_from _ eq); [emits_auto|].
  intros a w1 r1 G1 E.
  destruct (retval a <? 0).
  { assert (Q : emits (writer_event rfd wfd) eq
                  (@err_ K kernel unit "connect" (err a))) by emits_auto.
    destruct (Q _ _ E) as (d & T & F & _ & H). eauto. }
  revert E. apply (emits_bind_from _ eq); [apply setBufferSizes_writer|].
  intros _ w2 r2 G2 E.
  revert E. apply (emits_bind_from _ eq).
  { unfold printSockOpt. emits_auto. }
  intros _ w3 r3 G3 E.
  revert E. apply (emits_bind_from _ eq).
  { unfold printSockOpt. emits_auto. }
  intros _ w4 r4 G4 E.
  revert E. apply (emits_bind_from _ keeps_setup).
  { eapply emits_impl; [apply probe_call_writer| |apply writeData_calls_on].
    auto. }
  intros _ w5 r5 G5 E.
  destruct (keeps_setup_fields _ _ G5) as (_ & _ & _ & _ & _ & St & _).
  rewrite get_bind, St, <- G4, <- G3, <- G2, <- G1, Hs in E.
  inversion E; subst. simpl.
  exists []. rewrite app_nil_r. auto.
Qed.

(** doSocket (lines 910-933), the child of a stream socket.  The child
    sleeps, then creates a socket of its own; when that fails it ends with
    [EXIT_FAILURE].  After that it never reads, accepts, listens, forks or
    waits; it connects, probes and writes only on its own socket; and of the
    buffer sizes it sets or reports, the receive buffer is that of the
    socket it inherited and the send buffer that of its own. *)
Theorem stream_child_only_writes fuel rfd (w : world) r :
  SOCK_TYPE (glob w) = SOCK_STREAM ->
  doSocket_child kernel pf fuel rfd w = Some r ->
  exists u a d,
    trace (world_of r)
    = trace w ++ Sys (c_usleep 500) u
        :: Sys (c_socket (SOCK_DOMAIN (glob w)) SOCK_STREAM) a :: d
    /\ Forall (writer_event rfd (retval a)) d
    /\ (retval a < 0 ->
        exists w' tail,
          r = Exit EXIT_FAILURE w'
          /\ d = Err "socket" (err a) :: tail /\ unlinks tail)
    /\ hooks (world_of r) = hooks w.
Proof.
  intros Hs E. unfold doSocket_child in E.
  unfold bind at 1 in E. unfold call at 1 in E.
  destruct (do_call_spec kernel (c_usleep 500) w) as (u & k' & Ec & _).
  rewrite Ec in E. clear Ec. rewrite !get_bind in E. cbn [glob] in E.
  rewrite Hs in E.
  destruct (checked_call _ _ _ _ _ E)
    as (a & w1 & T1 & G1 & H1 & [(N1 & w' & tail & -> & T' & U & H' & G')|(P1 & E2)]);
    exists u, a; clear E; simpl in T1, G1, H1.
  - exists (Err "socket" (err a) :: tail). simpl in *.
    rewrite T', T1, <- !app_assoc. simpl.
    split; [reflexivity|]. split.
    { constructor; [exact Logic.I|].
      eapply Forall_impl; [|exact U]. intros e (p & x & ->). exact Logic.I. }
    split; [eauto|congruence].
  - destruct (stream_probe_writes fuel rfd (retval a) w1 r) as (d & T & F & H);
      [congruence|exact E2|].
    exists d. rewrite T, T1, <- !app_assoc. simpl.
    split; [reflexivity|]. split; [exact F|]. split; [intros; lia|congruence].
Qed.

(** doSocket (lines 897-908), the parent of a stream socket.  The parent
    accepts a connection on the listening socket and never returns: it ends
    the process, with [EXIT_FAILURE] when [accept] fails.  After [accept]
    it never writes, connects or creates a socket; it reads and queries
    only the accepted connection, and the one buffer size it may set is the
    receive buffer of that connection.  It reads only after [waitpid] has
    answered for the child without error, and ends with [EXIT_SUCCESS]
    only then. *)
Theorem stream_parent_only_reads fuel pid wfd (w : world) r :
  doSocket_serve kernel pf fuel pid wfd w = Some r ->
  exists s w' a d,
    r = Exit s w'
    /\ trace w' = trace w ++ Sys (c_accept wfd) a :: d
    /\ Forall (reader_event (retval a)) d
    /\ (retval a < 0 ->
        s = EXIT_FAILURE
        /\ exists tail, d = Err "accept" (err a) :: tail /\ unlinks tail)
    /\ (read_calls d <> [] \/ s = EXIT_SUCCESS ->
        exists setup b rest,
          d = setup ++ Sys (c_waitpid pid) b :: rest
          /\ read_calls setup = [] /\ 0 <= retval b /\ 0 <= retval a)
    /\ hooks w' = hooks w.
Proof.
  intros E. unfold doSocket_serve in E. pose proof preorder_eq as Hp.
  assert (Hu : forall fd tail, unlinks tail -> Forall (reader_event fd) tail).
  { intros fd tail. apply Forall_impl. intros e (p & x & ->). exact Logic.I. }
  destruct (checked_call _ _ _ _ _ E)
    as (a & w1 & T1 & G1 & H1 & [(N1 & w' & tail & -> & T' & U & H' & G')|(P1 & E2)]);
    clear E.
  { exists EXIT_FAILURE, w', a, (Err "accept" (err a) :: tail).
    destruct (unlinks_inert 0 tail U) as (_ & R0 & _).
    rewrite T', T1, <- !app_assoc. simpl.
    split; [reflexivity|]. split; [reflexivity|].
    split; [constructor; [exact Logic.I|now apply Hu]|].
    split; [eauto|]. split; [|congruence].
    intros [X|X]; [now rewrite R0 in X|discriminate]. }
  cbv zeta in E2.
  assert (Q : emits (fun e => reader_event (retval a) e /\ quiet_event e) eq
                (setBufferSizes kernel pf (retval a) (-1)))
    by (unfold setBufferSizes; emits_auto).
  destruct (bind_Some _ _ _ _ E2) as [(u & w2 & E3 & E4)|(s & w2 & E3 & ->)];
    clear E2;
    destruct (Q _ _ E3) as (d2 & T2 & F2 & G2 & H2); simpl in T2, G2, H2;
    (assert (F2r : Forall (reader_event (retval a)) d2)
       by (eapply Forall_impl; [|exact F2]; simpl; tauto));
    (assert (F2q : Forall quiet_event d2)
       by (eapply Forall_impl; [|exact F2]; simpl; tauto));
    destruct (quiet_inert d2 F2q) as (_ & R2 & _).
  2:{ exists s, w2, a, d2. rewrite T2, T1, <- !app_assoc. simpl.
      split; [reflexivity|]. split; [reflexivity|]. split; [exact F2r|].
      split; [intros; lia|]. split; [|congruence].
      intros [X|X]; [now rewrite R2 in X|].
      destruct (setBufferSizes_tidy kernel pf _ _ _ _ E3) as (Y & _).
      unfold failed in Y. rewrite X in Y. discriminate. }
  destruct (checked_call _ _ _ _ _ E4)
    as (b & w3 & T3 & G3 & H3 & [(N3 & w' & tail & -> & T' & U & H' & G')|(P3 & E5)]);
    clear E4.
  { exists EXIT_FAILURE, w', a, (d2 ++ Sys (c_waitpid pid) b
                                  :: Err "waitpid" (err b) :: tail).
    destruct (unlinks_inert 0 tail U) as (_ & R0 & _).
    rewrite T', T3, T2, T1, <- !app_assoc. simpl.
    split; [reflexivity|]. split; [reflexivity|]. split.
    { apply Forall_app. split; [exact F2r|].
      constructor; [exact Logic.I|].
      constructor; [exact Logic.I|now apply Hu]. }
    split; [intros; lia|]. split; [|congruence].
    intros [X|X]; [|discriminate].
    exfalso. apply X. rewrite read_calls_app, R2. simpl. exact R0. }
  match type of E5 with ?m _ = _ =>
    assert (D : emits (reader_event (retval a)) eq m) end.
  { apply emits_bind; [exact Hp| |intros _; emits_auto].
    eapply emits_impl; [apply drain_call_reader| |apply readData_calls_on].
    auto. }
  destruct (D _ _ E5) as (d5 & T5 & F5 & _ & H5).
  assert (X : exists s w', r = Exit s w').
  { destruct (bind_Some _ _ _ _ E5) as [(t & w4 & _ & E6)|(s & w4 & _ & ->)].
    - rewrite exit_spec in E6. inversion E6. eauto.
    - eauto. }
  destruct X as (s & w' & ->). simpl in T5, H5.
  exists s, w', a, (d2 ++ Sys (c_waitpid pid) b :: d5).
  rewrite T5, T3, T2, T1, <- !app_assoc. simpl.
  split; [reflexivity|]. split; [reflexivity|]. split.
  { apply Forall_app. split; [exact F2r|]. constructor; [exact Logic.I|exact F5]. }
  split; [intros; lia|]. split; [|congruence].
  intros _. exists d2, b, d5. auto.
Qed.

End Transports.

(** ** Every process ends through [exit] *)

Lemma probe_call_no_atexit fd e : probe_call fd e -> no_atexit e.
Proof. destruct e as [c a| | | |]; simpl; auto. destruct c; simpl; tauto. Qed.

Lemma drain_call_no_atexit fd e : drain_call fd e -> no_atexit e.
Proof. destruct e as [c a| | | |]; simpl; auto. destruct c; simpl; tauto. Qed.

Lemma ends_with_cleanup_app (l tr : list event) :
  ends_with_cleanup tr -> ends_with_cleanup (l ++ tr).
Proof.
  intros (l0 & a & b & ->). exists (l ++ l0), a, b. now rewrite app_assoc.
Qed.

Section Ending.

Context {K : Type}.
Variable kernel : K -> syscall -> sysret * K.
Variable pf : platform.

Abbreviation world := (@world K).
Abbreviation result := (@result K).
Abbreviation tidy := (tidy kernel).

Lemma no_return_exit {A} s : no_return (@exit_ K kernel A s).
Proof. intros w a w' E. rewrite exit_spec in E. discriminate. Qed.

Lemma no_return_err {A} label e : no_return (@err_ K kernel A label e).
Proof. intros w a w'. apply err_not_Ret. Qed.

Lemma no_return_bind {A B} (m : @M K A) (k : A -> @M K B) :
  (forall a, no_return (k a)) -> no_return (bind m k).
Proof.
  intros Hk w b w' E. apply bind_Ret in E. destruct E as (a & w1 & _ & E).
  exact (Hk a _ _ _ E).
Qed.

Lemma no_return_if {A} (b : bool) (m1 m2 : @M K A) :
  no_return m1 -> no_return m2 -> no_return (if b then m1 else m2).
Proof. destruct b; auto. Qed.

Lemma no_return_Exit {A} (m : @M K A) (w : world) r :
  no_return m -> m w = Some r -> exists s w', r = Exit s w'.
Proof.
  intros Hm E. destruct r as [a w'|s w']; [|eauto].
  exfalso. exact (Hm _ _ _ E).
Qed.

Lemma writeData_no_atexit fuel fd :
  emits no_atexit any_change (writeData kernel pf fuel fd).
Proof.
  eapply emits_impl; [apply probe_call_no_atexit| |apply writeData_calls_on].
  unfold any_change. auto.
Qed.

Lemma readData_no_atexit fuel fd :
  emits no_atexit any_change (readData kernel pf fuel fd).
Proof.
  eapply emits_impl; [apply drain_call_no_atexit| |apply readData_calls_on].
  unfold any_change. auto.
Qed.

Ltac quiet_step :=
  first
    [ apply writeData_no_atexit | apply readData_no_atexit
    | progress (unfold printf, fprintf_stderr, malloc)
    | emits_step
    | match goal with
      | |- emits _ _ (match ?x with _ => _ end) => destruct x
      end ].

Ltac quiet_auto := repeat quiet_step; try solve [intros; simpl; auto].

Lemma doPipe_no_atexit fuel :
  emits no_atexit any_change (doPipe kernel pf fuel).
Proof.
  pose proof preorder_any_change as Hp.
  unfold doPipe, setPipeSize, reportTest. quiet_auto.
Qed.

Lemma doFifo_no_atexit fuel :
  emits no_atexit any_change (doFifo kernel pf fuel).
Proof.
  pose proof preorder_any_change as Hp.
  unfold doFifo, reportTest. quiet_auto.
Qed.

Lemma doSocketpair_no_atexit fuel :
  emits no_atexit any_change (doSocketpair kernel pf fuel).
Proof.
  pose proof preorder_any_change as Hp.
  unfold doSocketpair, reportTest, setBufferSizes, reportSysctl, printSockOpt.
  quiet_auto.
Qed.

Lemma doSocket_bind_no_atexit :
  emits no_atexit any_change (doSocket_bind kernel pf).
Proof.
  pose proof preorder_any_change as Hp.
  unfold doSocket_bind, reportTest, reportSysctl. quiet_auto.
Qed.

Lemma doSocket_probe_no_atexit fuel rfd wfd :
  emits no_atexit any_change (doSocket_probe kernel pf fuel rfd wfd).
Proof.
  pose proof preorder_any_change as Hp.
  unfold doSocket_probe, setBufferSizes, printSockOpt. quiet_auto.
Qed.

Lemma doSocket_child_no_atexit fuel rfd :
  emits no_atexit any_change (doSocket_child kernel pf fuel rfd).
Proof.
  pose proof preorder_any_change as Hp.
  unfold doSocket_child.
  apply emits_bind; [exact Hp|quiet_auto|intros _].
  apply emits_bind; [exact Hp|quiet_auto|intros d].
  apply emits_bind; [exact Hp|quiet_auto|intros t].
  apply emits_bind; [exact Hp|quiet_auto|intros a].
  apply emits_if; [quiet_auto|apply doSocket_probe_no_atexit].
Qed.

Lemma doSocket_serve_no_atexit fuel pid wfd :
  emits no_atexit any_change (doSocket_serve kernel pf fuel pid wfd).
Proof.
  pose proof preorder_any_change as Hp.
  unfold doSocket_serve, setBufferSizes. quiet_auto.
Qed.

Lemma doSocket_serve_tidy fuel pid wfd :
  tidy (fun s => s = EXIT_SUCCESS \/ s = EXIT_FAILURE)
    (doSocket_serve kernel pf fuel pid wfd).
Proof.
  unfold doSocket_serve.
  apply tidy_bind; [apply tidy_call|intros a].
  apply tidy_if; [apply tidy_err; auto|]. cbv zeta.
  apply tidy_bind.
  { eapply tidy_impl; [|apply setBufferSizes_tidy]. unfold failed. auto. }
  intros _.
  apply tidy_bind; [apply tidy_call|intros b].
  apply tidy_if; [apply tidy_err; auto|].
  apply tidy_bind.
  { eapply tidy_impl; [|apply readData_tidy]. unfold failed. auto. }
  intros _. apply tidy_exit. auto.
Qed.

Lemma doSocket_serve_no_return fuel pid wfd :
  no_return (doSocket_serve kernel pf fuel pid wfd).
Proof.
  unfold doSocket_serve.
  apply no_return_bind. intros a.
  apply no_return_if; [apply no_return_err|]. cbv zeta.
  apply no_return_bind. intros _.
  apply no_return_bind. intros b.
  apply no_return_if; [apply no_return_err|].
  apply no_return_bind. intros _. apply no_return_exit.
Qed.

(** What a piece of the program that registers nothing leaves: the handler
    as registered as before, and when it ends the process, a trace that ends
    with the handler's calls if the handler was registered. *)
Lemma run_to_end {A} S R (m : @M K A) h (w : world) r :
  tidy S m -> emits no_atexit R m -> registered h w ->
  m w = Some r ->
  registered h (world_of r)
  /\ forall s w', r = Exit s w' ->
       S s /\ (h = true -> ends_with_cleanup (trace w')).
Proof.
  intros Ht He (Hh & Ha) E.
  destruct (He _ _ E) as (d & T & F & _ & H).
  split.
  - split; [congruence|]. intros a I Z0. rewrite T in I.
    apply in_app_or in I. destruct I as [I|I]; [eauto|].
    rewrite Forall_forall in F. destruct (F _ I).
  - intros s w' ->. pose proof (Ht _ _ E) as (Hs & w0 & H0 & ->).
    split; [exact Hs|]. intros ->. unfold exited.
    rewrite H0, Hh.
    destruct (run_cleanup_spec kernel w0) as (r1 & r2 & Tc & _).
    rewrite Tc. exists (trace w0), r1, r2. reflexivity.
Qed.

(** The same for a piece followed by the return from [main]. *)
Lemma run_then_exit S R (m : @M K unit) h (w : world) (r : result unit) :
  tidy S m -> emits no_atexit R m -> preorder R -> registered h w ->
  bind m (fun _ => exit_ kernel EXIT_SUCCESS) w = Some r ->
  exists s w',
    r = Exit s w'
    /\ (S s \/ s = EXIT_SUCCESS)
    /\ registered h w'
    /\ (h = true -> ends_with_cleanup (trace w')).
Proof.
  intros Ht He Hp Hr E.
  assert (N : no_return (bind m (fun _ => @exit_ K kernel unit EXIT_SUCCESS))).
  { apply no_return_bind. intros _. apply no_return_exit. }
  destruct (no_return_Exit _ _ _ N E) as (s & w' & ->).
  exists s, w'. split; [reflexivity|].
  assert (T : tidy (fun s => S s \/ s = EXIT_SUCCESS)
                (bind m (fun _ => @exit_ K kernel unit EXIT_SUCCESS))).
  { apply tidy_bind; [eapply tidy_impl; [|exact Ht]; auto|].
    intros _. apply tidy_exit. auto. }
  assert (Q : emits no_atexit R
                (bind m (fun _ => @exit_ K kernel unit EXIT_SUCCESS))).
  { apply emits_bind; [exact Hp|exact He|intros _].
    apply emits_exit; [exact Hp|]. intros; exact Logic.I. }
  destruct (run_to_end _ _ _ _ _ _ T Q Hr E) as (R1 & R2).
  destruct (R2 _ _ eq_refl) as (Hs & Hc). auto.
Qed.


Lemma registered_resume h (mine other : world) :
  hooks mine = h -> registered h other ->
  registered h (resume mine other).
Proof. intros Hm (_ & Ha). split; [exact Hm|exact Ha]. Qed.

Lemma doSocket_ends fuel h (w : world) rn :
  registered h w ->
  doSocket kernel pf fuel (exit_ kernel EXIT_SUCCESS) w = Some rn ->
  forall p, p = fst rn \/ snd rn = Some p ->
  exists s w',
    p = Exit s w'
    /\ (s = EXIT_SUCCESS \/ s = EXIT_FAILURE)
    /\ registered h w'
    /\ (h = true -> ends_with_cleanup (trace w')).
Proof.
  intros Hr E p Hp. pose proof preorder_any_change as Pa.
  unfold doSocket in E.
  destruct (doSocket_bind kernel pf w) as [rb|] eqn:Eb; [|discriminate].
  destruct (run_to_end _ _ _ _ _ _ (doSocket_bind_tidy kernel pf)
              doSocket_bind_no_atexit Hr Eb) as (R1 & X1).
  destruct rb as [wfd w1|s w1]; simpl in R1.
  2:{ inversion E; subst rn; clear E. simpl in Hp.
      destruct Hp as [->|Hp]; [|discriminate].
      destruct (X1 _ _ eq_refl) as (Hs & Hc).
      exists s, w1. unfold failed in Hs. auto. }
  clear X1. destruct (SOCK_TYPE (glob w1)).
  - match type of E with match ?m w1 with _ => _ end = _ =>
      destruct (m w1) as [r|] eqn:Ep; [|discriminate] end.
    inversion E; subst rn; clear E. simpl in Hp.
    destruct Hp as [->|Hp]; [|discriminate].
    destruct (run_then_exit _ _ _ _ _ _ (doSocket_probe_tidy kernel pf fuel wfd wfd)
                (doSocket_probe_no_atexit fuel wfd wfd) Pa R1 Ep)
      as (s & w' & -> & Hs & Hr' & Hc).
    exists s, w'. unfold failed in Hs. intuition.
  - destruct (doSocket_fork kernel w1) as [rf|] eqn:Ef; [|discriminate].
    assert (Qf : emits no_atexit any_change (doSocket_fork kernel))
      by (unfold doSocket_fork; quiet_auto).
    destruct (run_to_end _ _ _ _ _ _ (doSocket_fork_tidy kernel) Qf R1 Ef)
      as (R2 & X2).
    destruct rf as [pid w2|s w2]; simpl in R2.
    2:{ inversion E; subst rn; clear E. simpl in Hp.
        destruct Hp as [->|Hp]; [|discriminate].
        destruct (X2 _ _ eq_refl) as (Hs & Hc).
        exists s, w2. unfold failed in Hs. auto. }
    clear X2.
    destruct (doSocket_listen kernel wfd w2) as [pl|] eqn:El; [|discriminate].
    assert (Ql : emits no_atexit any_change (doSocket_listen kernel wfd))
      by (unfold doSocket_listen; quiet_auto).
    destruct (run_to_end _ _ _ _ _ _ (doSocket_listen_tidy kernel wfd) Ql R2 El)
      as (R3 & X3).
    match type of E with match ?m ?y with _ => _ end = _ =>
      destruct (m y) as [child|] eqn:Ec; [|discriminate] end.
    assert (Rc : registered h (resume w2 (world_of pl)))
      by (apply registered_resume; [apply R2|exact R3]).
    destruct (run_then_exit _ _ _ _ _ _ (doSocket_child_tidy kernel pf fuel wfd)
                (doSocket_child_no_atexit fuel wfd) Pa Rc Ec)
      as (sc & wc & -> & Hsc & Hrc & Hcc).
    assert (Child : exists s w',
              Exit sc wc = @Exit K unit s w'
              /\ (s = EXIT_SUCCESS \/ s = EXIT_FAILURE)
              /\ registered h w'
              /\ (h = true -> ends_with_cleanup (trace w'))).
    { exists sc, wc. unfold failed in Hsc. intuition. }
    destruct pl as [u w3|s w3]; simpl in R3.
    + match type of E with match ?m ?y with _ => _ end = _ =>
        destruct (m y) as [parent|] eqn:Es; [|discriminate] end.
      inversion E; subst rn; clear E. simpl in Hp.
      destruct Hp as [->|Hp]; [|inversion Hp; subst p; exact Child].
      assert (Rp : registered h (resume w3 (world_of (@Exit K unit sc wc))))
        by (apply registered_resume; [apply R3|exact Hrc]).
      destruct (run_to_end _ _ _ _ _ _ (doSocket_serve_tidy fuel pid wfd)
                  (doSocket_serve_no_atexit fuel pid wfd) Rp Es) as (R4 & X4).
      destruct (no_return_Exit _ _ _ (doSocket_serve_no_return fuel pid wfd) Es)
        as (s & w' & ->).
      destruct (X4 _ _ eq_refl) as (Hs & Hc).
      exists s, w'. auto.
    + inversion E; subst rn; clear E. simpl in Hp.
      destruct Hp as [->|Hp]; [|inversion Hp; subst p; exact Child].
      destruct (X3 _ _ eq_refl) as (Hs & Hc).
      exists s, w3. unfold failed in Hs. auto.
Qed.

(** main (lines 936-963) with cleanup (lines 764-768).  A run of [main]
    need not come to an end: the loop of size 0 never does.  This is about
    the runs that do.  In such a run no process returns from [main]: each
    one, the forked child included, ends through [exit], with status
    [EXIT_SUCCESS] or [EXIT_FAILURE].  When [atexit] was called and answered
    0, the last two calls of the process are those of the handler:
    [unlink("socket")] and [unlink("fifo")], whichever transport was chosen
    and however the run went. *)
Theorem a_process_that_ends_ends_through_exit fuel opts operands (k : K) rn :
  main kernel pf fuel opts operands (start k) = Some rn ->
  forall p, p = fst rn \/ snd rn = Some p ->
  exists s w',
    p = Exit s w'
    /\ (s = EXIT_SUCCESS \/ s = EXIT_FAILURE)
    /\ forall a, In (Sys c_atexit_cleanup a) (trace w') -> retval a = 0 ->
                 ends_with_cleanup (trace w').
Proof.
  intros E p Hp. pose proof preorder_any_change as Pa. unfold main in E.
  destruct (parseArgs_spec kernel opts operands (start k) eq_refl)
    as (r0 & d0 & E0 & C0 & X0).
  unfold bind at 1 in E. rewrite E0 in E.
  destruct r0 as [u w0|s w0].
  2:{ inversion E; subst rn; clear E. simpl in Hp.
      destruct Hp as [->|Hp]; [|discriminate].
      exists s, w0. split; [reflexivity|].
      split; [destruct X0 as [->|(-> & _)]; auto|].
      intros a I _. exfalso.
      destruct C0 as (_ & _ & T & F & _). simpl in T. rewrite T in I.
      rewrite Forall_forall in F. destruct (F _ I). }
  destruct (cli_step_Ret _ _ _ _ C0) as (H0 & _ & T0 & _). simpl in T0.
  clear X0 E0 C0.
  unfold register_cleanup in E. unfold bind at 1 in E. unfold call at 1 in E.
  destruct (do_call_spec kernel c_atexit_cleanup w0) as (a & k' & Ec & _).
  rewrite Ec in E. clear Ec.
  destruct (retval a <? 0) eqn:Hneg.
  { apply Z.ltb_lt in Hneg.
    match type of E with context [err_ _ ?l ?e ?y] =>
      destruct (@err_spec K kernel unit l e y)
        as (w' & tail & E' & G & Hh & _ & T & U) end.
    rewrite E' in E. inversion E; subst rn; clear E. simpl in Hp.
    destruct Hp as [->|Hp]; [|discriminate].
    exists EXIT_FAILURE, w'. split; [reflexivity|]. split; [auto|].
    intros b I Hb. exfalso. rewrite T in I. simpl in I. rewrite T0 in I.
    simpl in I. destruct I as [I|[I|I]]; [inversion I; subst; lia|discriminate|].
    unfold unlinks in U. rewrite Forall_forall in U.
    destruct (U _ I) as (x & y & X). discriminate. }
  cbn [kst glob hooks trace] in E.
  set (w1 := mkWorld k' (glob w0) (retval a =? 0)
               (trace w0 ++ [Sys c_atexit_cleanup a])) in *.
  assert (Hr : registered (retval a =? 0) w1).
  { split; [reflexivity|]. intros b I Hb. simpl in I. rewrite T0 in I.
    simpl in I. destruct I as [I|[]]. inversion I; subst.
    now apply Z.eqb_eq. }
  assert (Fin : forall s w',
            p = @Exit K unit s w'
            /\ (s = EXIT_SUCCESS \/ s = EXIT_FAILURE)
            /\ registered (retval a =? 0) w'
            /\ ((retval a =? 0) = true -> ends_with_cleanup (trace w')) ->
            exists s w',
              p = Exit s w'
              /\ (s = EXIT_SUCCESS \/ s = EXIT_FAILURE)
              /\ forall a, In (Sys c_atexit_cleanup a) (trace w') ->
                           retval a = 0 -> ends_with_cleanup (trace w')).
  { intros s w' (-> & Hs & (_ & Ha) & Hc). exists s, w'.
    split; [reflexivity|]. split; [exact Hs|]. intros b I Hb. eauto. }
  assert (One : forall m : @M K unit,
            tidy failed m -> emits no_atexit any_change m ->
            match bind m (fun _ => exit_ kernel EXIT_SUCCESS) w1 with
            | Some r => Some (r, @None (result unit))
            | None => None
            end = Some rn ->
            exists s w',
              p = Exit s w'
              /\ (s = EXIT_SUCCESS \/ s = EXIT_FAILURE)
              /\ forall a, In (Sys c_atexit_cleanup a) (trace w') ->
                           retval a = 0 -> ends_with_cleanup (trace w')).
  { intros m Tm Qm Em.
    destruct (bind m (fun _ => exit_ kernel EXIT_SUCCESS) w1) as [r|] eqn:Er;
      [|discriminate].
    inversion Em; subst rn; clear Em. simpl in Hp.
    destruct Hp as [->|Hp]; [|discriminate].
    destruct (run_then_exit _ _ _ _ _ _ Tm Qm Pa Hr Er)
      as (s & w' & -> & Hs & Hr' & Hc).
    apply (Fin s w'). unfold failed in Hs. intuition. }
  destruct (IPC_TYPE (glob w0)).
  - apply (One _ (doPipe_tidy kernel pf fuel) (doPipe_no_atexit fuel) E).
  - apply (One _ (doFifo_tidy kernel pf fuel) (doFifo_no_atexit fuel) E).
  - apply (One _ (doSocketpair_tidy kernel pf fuel)
             (doSocketpair_no_atexit fuel) E).
  - destruct (doSocket_ends _ _ _ _ Hr E p Hp) as (s & w' & X).
    exact (Fin s w' X).
Qed.

End Ending.

(** ** Loop mode comes to an end when the size grows *)

Section Growth.

Context {K : Type}.
Variable kernel : K -> syscall -> sysret * K.

Abbreviation world := (@world K).
Abbreviation result := (@result K).

Lemma writeChunk_one_chunk fd count (w : world) :
  exists r d,
    writeChunk kernel fd count w = Some r
    /\ trace (world_of r) = trace w ++ d
    /\ chunks_started d = [count]
    /\ (count < 0 -> exists s w', r = Exit s w').
Proof.
  destruct (Z_lt_le_dec count 0) as [H|H].
  - destruct (writeChunk_negative kernel fd count w H)
      as (w' & tail & E & _ & _ & T & U).
    destruct (unlinks_inert 0 tail U) as (_ & _ & C & _).
    exists (Exit EXIT_FAILURE w'), (Malloc count false :: Err "malloc" ENOMEM :: tail).
    simpl. rewrite C. eauto 6.
  - destruct (writeChunk_spec kernel fd count w H)
      as (r & E & delta & pre & a & T & _ & _ & C & _).
    exists r, (Malloc count true :: delta). simpl in *.
    rewrite T, C, <- app_assoc. simpl.
    repeat split; auto. intros; lia.
Qed.

(** One iteration of the loop that is followed by another. *)
Lemma writeLoop_while_step fuel fd count inc i (w : world) :
  exists r0 d0,
    writeChunk kernel fd count w = Some r0
    /\ trace (world_of r0) = trace w ++ d0
    /\ chunks_started d0 = [count]
    /\ (count < 0 -> exists s w', r0 = Exit s w')
    /\ ((exists r,
           writeLoop_while kernel (S fuel) fd count inc i w = Some r
           /\ trace (world_of r) = trace (world_of r0))
        \/ (exists w1,
              r0 = Ret count w1
              /\ writeLoop_while kernel (S fuel) fd count inc i w
                 = writeLoop_while kernel fuel fd (grow inc count) inc
                     (wrap32 (i + 1)) w1)).
Proof.
  destruct (writeChunk_one_chunk fd count w) as (r0 & d0 & E0 & T0 & C0 & N0).
  exists r0, d0. repeat (split; [assumption|]).
  assert (HL : writeLoop_while kernel (S fuel) fd count inc i w
               = match r0 with
                 | Ret m w1 =>
                     (if negb (m =? count) || (m <? 0)
                      then ret (if m >? 0 then wrap32 (i + 1) else i)
                      else writeLoop_while kernel fuel fd (grow inc count) inc
                             (wrap32 (i + 1))) w1
                 | Exit s w1 => Some (Exit s w1)
                 end).
  { cbn [writeLoop_while]. unfold bind. rewrite E0. destruct r0; reflexivity. }
  rewrite HL. clear HL.
  destruct r0 as [m w1|s w1].
  - destruct (negb (m =? count) || (m <? 0)) eqn:B.
    + left. unfold ret. eauto.
    + right. apply orb_false_iff in B. destruct B as (B & _).
      apply negb_false_iff, Z.eqb_eq in B. subst m. eauto.
  - left. eauto.
Qed.

Lemma wrap32_above z :
  INT_MAX < z <= 2 * INT_MAX -> wrap32 z < 0.
Proof.
  unfold INT_MAX, wrap32. intros H.
  replace (z + 2147483648) with ((z - 2147483648) + 1 * 4294967296) by lia.
  rewrite Z_mod_plus_full, Z.mod_small by lia. lia.
Qed.

Lemma growing_while_ends n :
  forall fuel fd count inc i (w : world),
    (inc = -1 /\ 1 <= count <= INT_MAX /\ INT_MAX < count * 2 ^ Z.of_nat n)
    \/ (1 <= inc <= INT_MAX /\ 0 <= count <= INT_MAX
        /\ INT_MAX < count + inc * Z.of_nat n) ->
    (n < fuel)%nat ->
    exists r d,
      writeLoop_while kernel fuel fd count inc i w = Some r
      /\ trace (world_of r) = trace w ++ d
      /\ (List.length (chunks_started d) <= S n)%nat.
Proof.
  induction n as [|n IH]; intros fuel fd count inc i w Hc Hf.
  { exfalso. simpl in Hc. lia. }
  destruct fuel as [|fuel]; [lia|].
  destruct (writeLoop_while_step fuel fd count inc i w)
    as (r0 & d0 & E0 & T0 & C0 & _ & [(r & E & T)|(w1 & -> & E)]).
  { exists r, d0. rewrite T, T0, C0. simpl. split; [exact E|]. split; [auto|lia]. }
  rewrite E. clear E E0. simpl in T0.
  assert (Hg : (INT_MIN <= grow inc count <= INT_MAX
                /\ ((inc = -1 /\ 1 <= grow inc count <= INT_MAX
                     /\ INT_MAX < grow inc count * 2 ^ Z.of_nat n)
                    \/ (1 <= inc <= INT_MAX /\ 0 <= grow inc count <= INT_MAX
                        /\ INT_MAX < grow inc count + inc * Z.of_nat n)))
               \/ grow inc count < 0).
  { unfold grow. rewrite Nat2Z.inj_succ in Hc.
    destruct Hc as [(-> & Hc & Hn)|(Hi & Hc & Hn)].
    - cbn [Z.eqb Pos.eqb]. rewrite Z.pow_succ_r in Hn by lia.
      destruct (Z_le_gt_dec (count * 2) INT_MAX) as [Hs|Hs].
      + left. rewrite wrap32_id by (unfold INT_MIN, INT_MAX in *; lia).
        split; [unfold INT_MIN, INT_MAX in *; lia|]. left.
        split; [reflexivity|]. split; [lia|]. lia.
      + right. apply wrap32_above. lia.
    - replace (inc =? -1) with false by (symmetry; apply Z.eqb_neq; lia).
      destruct (Z_le_gt_dec (count + inc) INT_MAX) as [Hs|Hs].
      + left. rewrite wrap32_id by (unfold INT_MIN, INT_MAX in *; lia).
        split; [unfold INT_MIN, INT_MAX in *; lia|]. right.
        split; [exact Hi|]. split; [lia|]. lia. 
      + right. apply wrap32_above. lia. }
  destruct Hg as [(_ & Hg)|Hg].
  - destruct (IH fuel fd (grow inc count) inc (wrap32 (i + 1)) w1 Hg)
      as (r & d & E & T & L); [lia|].
    exists r, (d0 ++ d). rewrite E, T, T0, <- app_assoc, chunks_started_app, C0.
    simpl. split; [reflexivity|]. split; [reflexivity|lia].
  - destruct fuel as [|fuel]; [lia|].
    destruct (writeLoop_while_step fuel fd (grow inc count) inc (wrap32 (i + 1)) w1)
      as (r1 & d1 & E1 & T1 & C1 & N1 & [(r & E & T)|(w2 & -> & E)]).
    + exists r, (d0 ++ d1). rewrite E, T, T1, T0, <- app_assoc, chunks_started_app, C0, C1.
      simpl. split; [reflexivity|]. split; [reflexivity|lia].
    + destruct (N1 Hg) as (s & w' & X). discriminate.
Qed.


(** writeLoop (lines 247-271).  When the size doubles from 1 or more, or
    grows by a positive increment, loop mode comes to an end whatever the
    kernel answers: once the size has left the range of an [int] it is
    negative, [malloc] fails and the process ends.  If [n] steps take the
    size out of the range, at most [n + 1] chunks are started. *)
Theorem growing_loop_ends n fuel fd count inc (w : world) :
  (inc = -1 /\ 1 <= count <= INT_MAX /\ INT_MAX < count * 2 ^ Z.of_nat n)
  \/ (1 <= inc <= INT_MAX /\ 0 <= count <= INT_MAX
      /\ INT_MAX < count + inc * Z.of_nat n) ->
  (n < fuel)%nat ->
  exists r d,
    writeLoop kernel fuel fd count inc w = Some r
    /\ trace (world_of r) = trace w ++ d
    /\ (List.length (chunks_started d) <= S n)%nat.
Proof.
  intros Hc Hf.
  destruct (growing_while_ends n fuel fd count inc 0 w Hc Hf)
    as (r0 & d & E & T & L).
  unfold writeLoop. unfold bind at 1. rewrite E.
  destruct r0 as [i w1|s w1]; [|eauto].
  rewrite get_bind. simpl in T.
  destruct (QUIET (glob w1)); simpl.
  - exists (Ret tt w1), d. auto.
  - unfold printf, emit. eexists. exists (d ++ [Printf stdout "%-15s: %8d\n"
                                                 [S_ "Iterations"; I i]]).
    split; [reflexivity|]. simpl. rewrite T, <- app_assoc, chunks_started_app.
    simpl. rewrite app_nil_r. auto.
Qed.

End Growth.

(** ** What [-q] leaves of the output *)

Lemma stdout_of_app (a b : list event) :
  stdout_of (a ++ b) = stdout_of a ++ stdout_of b.
Proof. apply filter_app. Qed.

Section Quiet.

Context {K : Type}.
Variable kernel : K -> syscall -> sysret * K.
Variable pf : platform.

Abbreviation world := (@world K).
Abbreviation result := (@result K).

(** Nothing on standard output. *)
Abbreviation silent := (hushed (fun _ l => l = [])).

Lemma silent_ret {A} (a : A) : silent (@ret K A a).
Proof.
  intros w r Q E. inversion E; subst. exists []. simpl.
  rewrite app_nil_r. auto.
Qed.

Lemma silent_get {A} (f : globals -> A) : silent (@get K A f).
Proof.
  intros w r Q E. inversion E; subst. exists []. simpl.
  rewrite app_nil_r. auto.
Qed.

Lemma silent_modify f :
  (forall g, QUIET (f g) = QUIET g) -> silent (@modify K f).
Proof.
  intros Hf w r Q E. inversion E; subst. exists []. simpl.
  rewrite app_nil_r, Hf. auto.
Qed.

Lemma silent_emit e : is_stdout e = false -> silent (@emit K e).
Proof.
  intros He w r Q E. inversion E; subst. exists [e]. simpl.
  unfold stdout_of. simpl. rewrite He. auto.
Qed.

Lemma silent_call c : silent (call kernel c).
Proof.
  intros w r Q E. unfold call in E.
  destruct (do_call_spec kernel c w) as (a & k' & Ec & _). rewrite Ec in E.
  inversion E; subst. exists [Sys c a]. simpl. auto.
Qed.

Lemma silent_exit {A} s : silent (@exit_ K kernel A s).
Proof.
  intros w r Q E. rewrite exit_spec in E. inversion E; subst. simpl.
  destruct (exited_spec kernel w) as (tail & T & G & _ & U).
  destruct (unlinks_inert 0 tail U) as (_ & _ & _ & S0 & _).
  exists tail. rewrite G. auto.
Qed.

Lemma hushed_bind {A B} (L : result B -> list event -> Prop)
  (m : @M K A) (k : A -> @M K B) :
  (forall s (w : world), L (Exit s w) []) ->
  silent m -> (forall a, hushed L (k a)) -> hushed L (bind m k).
Proof.
  intros HL Hm Hk w r Q E.
  destruct (bind_Some _ _ _ _ E) as [(a & w1 & E1 & E2)|(s & w1 & E1 & ->)].
  - destruct (Hm _ _ Q E1) as (d1 & T1 & S1 & Q1). simpl in T1, Q1.
    destruct (Hk a _ _ Q1 E2) as (d2 & T2 & S2 & Q2).
    exists (d1 ++ d2). rewrite T2, T1, app_assoc, stdout_of_app, S1.
    simpl. auto.
  - destruct (Hm _ _ Q E1) as (d1 & T1 & S1 & Q1). simpl in *.
    exists d1. rewrite S1. auto.
Qed.

Lemma silent_bind {A B} (m : @M K A) (k : A -> @M K B) :
  silent m -> (forall a, silent (k a)) -> silent (bind m k).
Proof. apply hushed_bind. reflexivity. Qed.

(** Under [-q] the test of [QUIET] takes the quiet branch. *)
Lemma hushed_quiet {B} (L : result B -> list event -> Prop)
  (k : bool -> @M K B) :
  hushed L (k true) -> hushed L (bind (get QUIET) k).
Proof. intros Hk w r Q E. rewrite get_bind, Q in E. exact (Hk _ _ Q E). Qed.

Lemma silent_err {A} label e : silent (@err_ K kernel A label e).
Proof.
  unfold err_. apply silent_bind; [now apply silent_emit|].
  intros _. apply silent_exit.
Qed.

Lemma silent_when b (m : @M K unit) : silent m -> silent (when b m).
Proof. destruct b; simpl; auto using silent_ret. Qed.

Lemma silent_if {A} (b : bool) (m1 m2 : @M K A) :
  silent m1 -> silent m2 -> silent (if b then m1 else m2).
Proof. destruct b; auto. Qed.

Ltac silent_step :=
  first
    [ apply silent_ret | apply hushed_quiet | apply silent_get
    | apply silent_modify | apply silent_when | apply silent_exit
    | apply silent_err | apply silent_emit | apply silent_call
    | apply silent_bind; [|intros ?]
    | apply silent_if ].

Ltac silent_auto :=
  repeat (unfold fprintf_stderr, malloc; silent_step);
  try solve [intros; simpl; auto].

Lemma printFdQueueSize_silent fd which :
  silent (printFdQueueSize kernel pf fd which).
Proof.
  unfold printFdQueueSize.
  destruct (queue_request pf which) as [[req label]|]; silent_auto.
Qed.

Lemma printSockOpt_silent fd opt : silent (printSockOpt kernel fd opt).
Proof. unfold printSockOpt. silent_auto. Qed.

Lemma setPipeSize_silent fd : silent (setPipeSize kernel pf fd).
Proof. unfold setPipeSize. silent_auto. Qed.

Lemma reportTest_silent fmt args : silent (@reportTest K fmt args).
Proof. unfold reportTest. silent_auto. Qed.

Lemma reportSysctl_silent s : silent (reportSysctl kernel pf s).
Proof. unfold reportSysctl. apply silent_if; silent_auto. Qed.

Lemma setBufferSizes_silent rfd wfd :
  silent (setBufferSizes kernel pf rfd wfd).
Proof. unfold setBufferSizes. silent_auto. Qed.


Lemma writeChunk_again_silent fuel :
  forall fd wanted count failed_,
    silent (writeChunk_again kernel fuel fd wanted count failed_).
Proof.
  induction fuel as [|fuel IH]; intros fd wanted count failed_.
  - intros w r Q E. discriminate.
  - cbn [writeChunk_again].
    apply silent_bind; [apply silent_call|intros a]. cbv zeta.
    apply silent_if; [|silent_auto].
    apply silent_if; [apply silent_if; [silent_auto|apply IH]|].
    apply silent_if; [|silent_auto].
    apply hushed_quiet. destruct failed_; silent_auto.
Qed.

Lemma writeChunk_silent fd count : silent (writeChunk kernel fd count).
Proof.
  unfold writeChunk.
  apply silent_bind; [silent_auto|intros ok].
  apply silent_if; [silent_auto|apply writeChunk_again_silent].
Qed.

Lemma writeLoop_while_silent fuel :
  forall fd count inc i, silent (writeLoop_while kernel fuel fd count inc i).
Proof.
  induction fuel as [|fuel IH]; intros fd count inc i.
  - intros w r Q E. discriminate.
  - cbn [writeLoop_while].
    apply silent_bind; [apply writeChunk_silent|intros n].
    apply silent_if; [silent_auto|apply IH].
Qed.

Lemma writeLoop_silent fuel fd count inc :
  silent (writeLoop kernel fuel fd count inc).
Proof.
  unfold writeLoop.
  apply silent_bind; [apply writeLoop_while_silent|intros i]. silent_auto.
Qed.

Lemma writeData_for_silent left fd : silent (writeData_for kernel left fd).
Proof.
  induction left as [|left IH]; cbn [writeData_for]; [apply silent_ret|].
  apply silent_bind; [apply silent_get|intros c2].
  apply silent_bind; [apply writeChunk_silent|intros _; exact IH].
Qed.

Lemma readData_while_silent fuel :
  forall fd bufsiz total,
    silent (readData_while kernel pf fuel fd bufsiz total).
Proof.
  induction fuel as [|fuel IH]; intros fd bufsiz total.
  - intros w r Q E. discriminate.
  - cbn [readData_while].
    apply silent_bind; [apply printFdQueueSize_silent|intros left].
    apply silent_if; [apply silent_ret|].
    apply silent_bind; [apply silent_call|intros a]. cbv zeta.
    apply silent_if; [silent_auto|].
    apply silent_if; [apply silent_ret|apply IH].
Qed.

Lemma readData_silent fuel fd : silent (readData kernel pf fuel fd).
Proof.
  unfold readData. apply hushed_quiet.
  apply silent_bind; [silent_auto|intros _].
  apply silent_bind; [apply silent_get|intros b].
  apply silent_bind; [silent_auto|intros ok].
  apply silent_if; [silent_auto|].
  apply silent_bind; [apply silent_call|intros a].
  apply silent_if; [silent_auto|].
  apply silent_bind; [apply readData_while_silent|intros t]. silent_auto.
Qed.

Lemma only_the_total_exit {A} s (w : world) :
  only_the_total (@Exit K A s w) [].
Proof. split; [now left|]. intros a w' X. discriminate. Qed.

Lemma err_hushed {A} label e :
  hushed only_the_total (@err_ K kernel A label e).
Proof.
  intros w r Q E. destruct (silent_err _ _ _ _ Q E) as (d & T & S0 & Q0).
  exists d. rewrite S0. split; [exact T|]. split; [|exact Q0].
  destruct r as [u w'|s w']; [|apply only_the_total_exit].
  now apply err_not_Ret in E.
Qed.

Lemma hushed_if {A} L (b : bool) (m1 m2 : @M K A) :
  hushed L m1 -> hushed L m2 -> hushed L (if b then m1 else m2).
Proof. destruct b; auto. Qed.

Lemma writeData_report_hushed fd :
  hushed only_the_total (writeData_report kernel pf fd).
Proof.
  intros w r Q E. unfold writeData_report in E.
  destruct (bind_Some _ _ _ _ E) as [(n & w1 & E1 & E2)|(s & w1 & E1 & ->)];
    destruct (printFdQueueSize_silent fd q_write _ _ Q E1)
      as (d1 & T1 & S1 & Q1); simpl in T1, Q1.
  2:{ exists d1. rewrite S1. split; [exact T1|].
      split; [apply only_the_total_exit|exact Q1]. }
  clear E E1. rewrite get_bind, Q1, get_bind in E2. simpl in E2.
  unfold printf in E2. unfold bind at 1 in E2. unfold emit at 1 in E2.
  rewrite get_bind in E2. cbn [glob] in E2.
  destruct (ipc_eqb (IPC_TYPE (glob w1)) IPC_PIPE
            || ipc_eqb (IPC_TYPE (glob w1)) IPC_FIFO).
  - unfold bind at 1 in E2. unfold call at 1 in E2.
    match type of E2 with context [do_call _ ?c ?y] =>
      destruct (do_call_spec kernel c y) as (a & k' & Ec & _) end.
    rewrite Ec in E2. inversion E2; subst r; clear E2 Ec. simpl.
    exists (d1 ++ [Printf stdout "%d\n" [I (TOTAL (glob w1))];
                   Sys (c_close fd) a]).
    rewrite T1, <- !app_assoc, stdout_of_app, S1. simpl.
    split; [reflexivity|]. split; [|exact Q1].
    split; [now right|]. intros u w' X. inversion X; subst. reflexivity.
  - inversion E2; subst r; clear E2. simpl.
    exists (d1 ++ [Printf stdout "%d\n" [I (TOTAL (glob w1))]]).
    rewrite T1, <- !app_assoc, stdout_of_app, S1. simpl.
    split; [reflexivity|]. split; [|exact Q1].
    split; [now right|]. intros u w' X. inversion X; subst. reflexivity.
Qed.

Lemma writeData_hushed fuel fd :
  hushed only_the_total (writeData kernel pf fuel fd).
Proof.
  pose proof (@only_the_total_exit unit) as Hx.
  unfold writeData.
  apply hushed_bind; [exact Hx|apply silent_call|intros a].
  apply hushed_if; [apply err_hushed|].
  unfold writeData_run.
  apply hushed_bind; [exact Hx|apply printFdQueueSize_silent|intros _].
  apply hushed_quiet.
  apply hushed_bind; [exact Hx|silent_auto|intros _].
  apply hushed_bind; [exact Hx|apply silent_get|intros m].
  apply hushed_bind; [exact Hx| |intros _; apply writeData_report_hushed].
  apply silent_if.
  - apply silent_bind; [apply silent_get|intros c1].
    apply silent_bind; [apply silent_get|intros c2].
    apply writeLoop_silent.
  - unfold writeData_chunks.
    apply silent_bind; [apply silent_get|intros c2].
    apply silent_bind; [apply silent_get|intros c1]. cbv zeta.
    apply silent_bind; [silent_auto|intros _].
    apply silent_bind; [unfold writeData_announce; silent_auto|intros _].
    apply silent_bind; [apply writeChunk_silent|intros _].
    apply silent_bind; [apply silent_get|intros num].
    apply writeData_for_silent.
Qed.

(** Once the total is out, what is silent and leaves the globals alone
    changes nothing. *)
Lemma hushed_then_silent {A B} P (m : @M K A) (k : A -> @M K B) :
  hushed only_the_total m ->
  (forall a, silent (k a)) -> (forall a, emits P eq (k a)) ->
  hushed only_the_total (bind m k).
Proof.
  intros Hm Hs Hk w r Q E.
  destruct (bind_Some _ _ _ _ E) as [(a & w1 & E1 & E2)|(s & w1 & E1 & ->)].
  - destruct (Hm _ _ Q E1) as (d1 & T1 & (_ & S1) & Q1). simpl in T1, Q1.
    specialize (S1 _ _ eq_refl).
    destruct (Hs a _ _ Q1 E2) as (d2 & T2 & S2 & Q2).
    destruct (Hk a _ _ E2) as (_ & _ & _ & G & _).
    exists (d1 ++ d2). rewrite T2, T1, app_assoc, stdout_of_app, S1, S2.
    split; [reflexivity|]. split; [|exact Q2].
    unfold only_the_total, at_most_the_total. rewrite <- G. simpl.
    split; [now right|]. intros b w' ->. simpl in G. now rewrite <- G.
  - destruct (Hm _ _ Q E1) as (d1 & T1 & (S1 & _) & Q1). simpl in *.
    exists d1. split; [exact T1|]. split; [|exact Q1].
    split; [exact S1|]. intros b w' X. discriminate.
Qed.

Lemma drain_is_last fuel rfd :
  (forall u : unit,
     silent (bind (readData kernel pf fuel rfd) (fun _ => @ret K unit tt)))
  /\ (forall u : unit,
        emits (drain_call rfd) eq
          (bind (readData kernel pf fuel rfd) (fun _ => @ret K unit tt))).
Proof.
  pose proof preorder_eq as Hp. split; intros _.
  - apply silent_bind; [apply readData_silent|intros _; apply silent_ret].
  - apply emits_bind; [exact Hp|apply readData_calls_on|intros _].
    now apply emits_ret.
Qed.

(** doPipe, doFifo and doSocketpair under [-q] (lines 441-492, 544-548,
    581-627, 738-791).  Started with [QUIET] set, each of the three leaves
    it set and prints on standard output at most one line, the total as a
    bare number; when it returns, it has printed exactly that line, and the
    number is the value of [TOTAL] it leaves. *)
Theorem quiet_run_prints_only_the_total fuel (m : @M K unit) (w : world) r :
  QUIET (glob w) = true ->
  In m [doPipe kernel pf fuel; doFifo kernel pf fuel;
        doSocketpair kernel pf fuel] ->
  m w = Some r ->
  exists d,
    trace (world_of r) = trace w ++ d
    /\ at_most_the_total (TOTAL (glob (world_of r))) (stdout_of d)
    /\ (forall w', r = Ret tt w' ->
          stdout_of d = [Printf stdout "%d\n" [I (TOTAL (glob w'))]])
    /\ QUIET (glob (world_of r)) = true.
Proof.
  intros Q Hm E.
  assert (H : hushed only_the_total m).
  { pose proof (@only_the_total_exit unit) as Hx.
    destruct Hm as [<-|[<-|[<-|[]]]].
    - unfold doPipe.
      apply hushed_bind; [exact Hx|apply silent_call|intros a].
      apply hushed_if; [apply err_hushed|].
      cbv zeta.
      apply hushed_bind; [exact Hx|apply setPipeSize_silent|intros _].
      apply hushed_bind; [exact Hx|apply reportTest_silent|intros _].
      apply hushed_quiet.
      apply hushed_bind; [exact Hx|destruct (PIPE_BUF pf); silent_auto|intros _].
      apply hushed_bind; [exact Hx|destruct (PIPE_MAX pf); silent_auto|intros _].
      apply hushed_bind; [exact Hx|silent_auto|intros _].
      apply hushed_bind; [exact Hx|apply silent_call|intros b].
      apply hushed_if; [apply err_hushed|].
      apply hushed_bind; [exact Hx|silent_auto|intros _].
      destruct (drain_is_last fuel (out0 a)) as (D1 & D2).
      apply (hushed_then_silent (drain_call (out0 a)));
        [apply writeData_hushed|exact D1|exact D2].
    - unfold doFifo.
      apply hushed_bind; [exact Hx|apply reportTest_silent|intros _].
      apply hushed_bind; [exact Hx|apply silent_call|intros a].
      apply hushed_if; [apply err_hushed|].
      apply hushed_bind; [exact Hx|apply silent_call|intros b].
      apply hushed_if; [apply err_hushed|]. cbv zeta.
      apply hushed_bind; [exact Hx|apply silent_call|intros c].
      apply hushed_if; [apply err_hushed|]. cbv zeta.
      destruct (drain_is_last fuel (retval b)) as (D1 & D2).
      apply (hushed_then_silent (drain_call (retval b)));
        [apply writeData_hushed|exact D1|exact D2].
    - unfold doSocketpair.
      apply hushed_bind; [exact Hx|apply silent_get|intros st].
      apply hushed_bind; [exact Hx|apply reportTest_silent|intros _].
      apply hushed_bind; [exact Hx|apply silent_get|intros t].
      apply hushed_bind; [exact Hx|apply silent_call|intros a].
      apply hushed_if; [apply err_hushed|]. cbv zeta.
      apply hushed_bind; [exact Hx|apply setBufferSizes_silent|intros _].
      apply hushed_bind; [exact Hx|apply reportSysctl_silent|intros _].
      apply hushed_bind; [exact Hx|apply printSockOpt_silent|intros _].
      apply hushed_bind; [exact Hx|apply printSockOpt_silent|intros _].
      destruct (drain_is_last fuel (out0 a)) as (D1 & D2).
      apply (hushed_then_silent (drain_call (out0 a)));
        [apply writeData_hushed|exact D1|exact D2]. }
  destruct (H _ _ Q E) as (d & T & (S1 & S2) & Q1).
  exists d. split; [exact T|]. split; [exact S1|]. split; [|exact Q1].
  intros w' ->. exact (S2 _ _ eq_refl).
Qed.

End Quiet.

(** ** The probe closes a pipe, not a socket *)

Section Closing.

Context {K : Type}.
Variable kernel : K -> syscall -> sysret * K.
Variable pf : platform.

Abbreviation world := (@world K).
Abbreviation result := (@result K).

Lemma writeChunk_before_close fd count :
  emits (before_close fd) keeps_setup (writeChunk kernel fd count).
Proof.
  eapply emits_impl; [| |apply writeChunk_emits].
  - intros e. destruct e as [c a| | | |]; simpl; auto.
    destruct c; simpl; auto; try discriminate.
    intros H. now apply Z.eqb_eq in H.
  - apply same_config_keeps_setup.
Qed.

Lemma writeLoop_while_before_close fuel :
  forall fd count inc i,
    emits (before_close fd) keeps_setup
      (writeLoop_while kernel fuel fd count inc i).
Proof.
  pose proof preorder_keeps_setup as Hp.
  induction fuel as [|fuel IH]; intros fd count inc i.
  - intros w r H. discriminate.
  - cbn [writeLoop_while].
    apply emits_bind; [exact Hp|apply writeChunk_before_close|intros n].
    apply emits_if; [now apply emits_ret|apply IH].
Qed.

Lemma writeData_for_before_close left :
  forall fd,
    emits (before_close fd) keeps_setup (writeData_for kernel left fd).
Proof.
  pose proof preorder_keeps_setup as Hp.
  induction left as [|left IH]; intros fd; cbn [writeData_for].
  - now apply emits_ret.
  - apply emits_bind; [exact Hp|now apply emits_get|intros c2].
    apply emits_bind; [exact Hp|apply writeChunk_before_close|intros _].
    apply IH.
Qed.

Lemma printFdQueueSize_before_close fd which :
  emits (before_close fd) keeps_setup (printFdQueueSize kernel pf fd which).
Proof.
  apply eq_keeps_setup. apply printFdQueueSize_calls; simpl; auto.
Qed.

Lemma writes_before_close fuel fd m :
  emits (before_close fd) keeps_setup
    (if mode_eqb m LOOP then
       bind (get CHUNK1)
         (fun c1 => bind (get CHUNK2)
                      (fun c2 => writeLoop kernel fuel fd c1 c2))
     else writeData_chunks kernel fd).
Proof.
  pose proof preorder_keeps_setup as Hp.
  apply emits_if.
  - apply emits_bind; [exact Hp|now apply emits_get|intros c1].
    apply emits_bind; [exact Hp|now apply emits_get|intros c2].
    unfold writeLoop.
    apply emits_bind; [exact Hp|apply writeLoop_while_before_close|intros i].
    apply emits_bind; [exact Hp|now apply emits_get|intros q'].
    apply emits_when; [exact Hp|]. apply emits_emit; simpl; auto.
  - unfold writeData_chunks.
    apply emits_bind; [exact Hp|now apply emits_get|intros c2].
    apply emits_bind; [exact Hp|now apply emits_get|intros c1].
    apply emits_bind; [exact Hp| |intros _].
    { apply emits_when; [exact Hp|].
      apply emits_modify. intros g. unfold keeps_setup.
      destruct g; reflexivity. }
    apply emits_bind; [exact Hp| |intros _].
    { unfold writeData_announce. emits_auto. }
    apply emits_bind; [exact Hp|apply writeChunk_before_close|intros _].
    apply emits_bind; [exact Hp|now apply emits_get|intros num].
    apply writeData_for_before_close.
Qed.

(** A step of a run that returns: what [m] added, and what is left to
    run. *)
Lemma emits_Ret_step {A B} P (m : @M K A) (k : A -> @M K B) (w : world) b w' :
  emits P keeps_setup m ->
  bind m k w = Some (Ret b w') ->
  exists a (w1 : world) d,
    trace w1 = trace w ++ d /\ Forall P d
    /\ keeps_setup (glob w) (glob w1)
    /\ k a w1 = Some (Ret b w').
Proof.
  intros Hm E. apply bind_Ret in E. destruct E as (a & w1 & E1 & E2).
  destruct (Hm _ _ E1) as (d & T & F & G & _). eauto 8.
Qed.

(** writeData (lines 482-491).  A probe that returns has printed the total
    as the last line of its output: as a bare number under [-q], as the
    line "Observed total" otherwise; the number is the value of [TOTAL] it
    leaves.  On a pipe or a FIFO it then closes the descriptor, and that is
    its last call; on a socket or a socketpair the line is the last event.
    Before that the probe closes nothing. *)
Theorem probe_closes_pipes_only fuel fd (w : world) w' :
  writeData kernel pf fuel fd w = Some (Ret tt w') ->
  exists pre,
    Forall (before_close fd) pre
    /\ let line :=
         Printf stdout
           (if QUIET (glob w) then "%d\n" else "Observed total : %8d\n\n")
           [I (TOTAL (glob w'))] in
       if ipc_eqb (IPC_TYPE (glob w)) IPC_PIPE
          || ipc_eqb (IPC_TYPE (glob w)) IPC_FIFO
       then exists a, trace w' = trace w ++ pre ++ [line; Sys (c_close fd) a]
       else trace w' = trace w ++ pre ++ [line].
Proof.
  intros E. pose proof preorder_keeps_setup as Hp. unfold writeData in E.
  assert (Hc : emits (before_close fd) keeps_setup
                 (call kernel (c_fcntl_nonblock fd)))
    by (apply emits_call; [exact Hp|simpl; auto]).
  destruct (emits_Ret_step _ _ _ _ _ _ Hc E) as (a0 & w0 & d0 & T0 & F0 & G0 & E0).
  clear E. destruct (retval a0 <? 0); [now apply err_not_Ret in E0|].
  unfold writeData_run in E0.
  destruct (emits_Ret_step _ _ _ _ _ _ (printFdQueueSize_before_close fd q_space) E0)
    as (a1 & w1 & d1 & T1 & F1 & G1 & E1). clear E0.
  rewrite get_bind in E1.
  assert (Hw : forall b, emits (before_close fd) keeps_setup
                 (when b (printf (K:=K) "\n" [])))
    by (intros b; emits_auto).
  destruct (emits_Ret_step _ _ _ _ _ _ (Hw _) E1)
    as (a2 & w2 & d2 & T2 & F2 & G2 & E2). clear E1.
  rewrite get_bind in E2.
  destruct (emits_Ret_step _ _ _ _ _ _ (writes_before_close fuel fd _) E2)
    as (a3 & w3 & d3 & T3 & F3 & G3 & E3). clear E2.
  unfold writeData_report in E3.
  destruct (emits_Ret_step _ _ _ _ _ _ (printFdQueueSize_before_close fd q_write) E3)
    as (a4 & w4 & d4 & T4 & F4 & G4 & E4). clear E3.
  assert (G : keeps_setup (glob w) (glob w4)).
  { destruct Hp as (_ & Ht). eauto. }
  destruct (keeps_setup_fields _ _ G) as (Gi & _ & Gq & _).
  cbv beta in E4. rewrite !get_bind, Gq in E4.
  exists (d0 ++ d1 ++ d2 ++ d3 ++ d4).
  split; [repeat (apply Forall_app; split); assumption|].
  cbv zeta.
  assert (Tw : trace w4 = trace w ++ d0 ++ d1 ++ d2 ++ d3 ++ d4)
    by (rewrite T4, T3, T2, T1, T0, <- !app_assoc; reflexivity).
  assert (X : forall fmt,
            bind (printf fmt [I (TOTAL (glob w4))])
              (fun _ =>
                 bind (get IPC_TYPE)
                   (fun t =>
                      if ipc_eqb t IPC_PIPE || ipc_eqb t IPC_FIFO
                      then bind (call kernel (c_close fd)) (fun _ => ret tt)
                      else ret tt)) w4 = Some (Ret tt w') ->
            if ipc_eqb (IPC_TYPE (glob w)) IPC_PIPE
               || ipc_eqb (IPC_TYPE (glob w)) IPC_FIFO
            then exists a,
                   trace w'
                   = trace w ++ (d0 ++ d1 ++ d2 ++ d3 ++ d4)
                       ++ [Printf stdout fmt [I (TOTAL (glob w'))];
                           Sys (c_close fd) a]
            else trace w'
                 = trace w ++ (d0 ++ d1 ++ d2 ++ d3 ++ d4)
                     ++ [Printf stdout fmt [I (TOTAL (glob w'))]]).
  { intros fmt E5. unfold printf in E5.
    unfold bind at 1 in E5. unfold emit at 1 in E5.
    rewrite get_bind in E5. cbn [glob] in E5. rewrite Gi in E5.
    destruct (ipc_eqb (IPC_TYPE (glob w)) IPC_PIPE
              || ipc_eqb (IPC_TYPE (glob w)) IPC_FIFO).
    - unfold bind at 1 in E5. unfold call at 1 in E5.
      match type of E5 with context [do_call _ ?c ?y] =>
        destruct (do_call_spec kernel c y) as (a & k' & Ec & _) end.
      rewrite Ec in E5. inversion E5; subst w'; clear E5 Ec. simpl.
      exists a. rewrite Tw, <- !app_assoc. reflexivity.
    - inversion E5; subst w'; clear E5. simpl.
      rewrite Tw, <- !app_assoc. reflexivity. }
  destruct (QUIET (glob w)); simpl in E4; exact (X _ E4).
Qed.

End Closing.

(** ** What the options decide *)

Lemma preorder_same_report : preorder same_report.
Proof.
  split; unfold same_report.
  - auto.
  - intros x y z (A1 & A2) (B1 & B2). split; congruence.
Qed.

Lemma preorder_same_transport : preorder same_transport.
Proof. split; unfold same_transport; intros; congruence. Qed.

Lemma preorder_same_socket : preorder same_socket.
Proof.
  split; unfold same_socket.
  - auto.
  - intros x y z (A1 & A2 & A3) (B1 & B2 & B3). repeat split; congruence.
Qed.

Lemma prefix_app (a b s : string) :
  String.prefix (a ++ b) s = true -> String.prefix a s = true.
Proof.
  revert a. induction s as [|c' s IH]; intros a; destruct a as [|c a];
    simpl; auto.
  destruct (ascii_dec c c'); [apply IH|discriminate].
Qed.

Section Options.

Context {K : Type}.
Variable kernel : K -> syscall -> sysret * K.
Variable pf : platform.

Abbreviation world := (@world K).
Abbreviation result := (@result K).

Lemma inputNumber_Ret a threshold (w : world) n w' :
  inputNumber kernel a threshold w = Some (Ret n w') -> w' = w.
Proof.
  unfold inputNumber. cbv zeta.
  destruct (wrap32 (strtol a) <? threshold).
  - intros E. apply bind_Ret in E. destruct E as (u & w1 & _ & E).
    rewrite exit_spec in E. discriminate.
  - intros E. inversion E. reflexivity.
Qed.

Lemma parseArgs_options_report opts :
  forall sflag type (w : world) st w',
    parseArgs_options kernel opts sflag type w = Some (Ret st w') ->
    QUIET (glob w') = QUIET (glob w) || existsb is_opt_q opts
    /\ MODE (glob w') = mode_after opts (MODE (glob w)).
Proof.
  induction opts as [|o opts IH]; intros sflag type w st w' E.
  - inversion E; subst. simpl. now rewrite orb_false_r.
  - cbn [parseArgs_options] in E.
    destruct o;
      try (apply bind_Ret in E; destruct E as (n & w1 & E1 & E);
           apply inputNumber_Ret in E1; subst w1);
      try (rewrite modify_bind in E; apply IH in E; simpl in E;
           destruct E as (-> & ->); simpl;
           rewrite ?orb_true_r; auto).
    + apply bind_Ret in E. destruct E as (u & w1 & _ & E).
      rewrite exit_spec in E. discriminate.
    + apply IH in E. exact E.
    + apply bind_Ret in E. destruct E as (u & w1 & _ & E).
      rewrite exit_spec in E. discriminate.
Qed.

(** parseArgs (lines 323-439).  When the command line is accepted, the run
    is quiet exactly when it was so before or [-q] is among the options, and
    its mode is that of the last [-c] or [-l] (the mode before, when there is
    none): the order of these options matters, their number does not. *)
Theorem options_decide_quiet_and_mode opts operands (w : world) w' :
  parseArgs kernel opts operands w = Some (Ret tt w') ->
  QUIET (glob w') = QUIET (glob w) || existsb is_opt_q opts
  /\ MODE (glob w') = mode_after opts (MODE (glob w)).
Proof.
  intros E. unfold parseArgs in E.
  apply bind_Ret in E. destruct E as (st & w1 & E1 & E).
  destruct (parseArgs_options_report _ _ _ _ _ _ E1) as (Q1 & M1).
  destruct (2 <? Z.of_nat (List.length operands)).
  { apply bind_Ret in E. destruct E as (u & w2 & _ & E).
    rewrite exit_spec in E. discriminate. }
  pose proof preorder_same_report as Hp.
  match type of E with ?m _ = _ =>
    assert (O : emits (fun _ => True) same_report m) end.
  { unfold parseArgs_type, parseArgs_socket, parseArgs_operands, inputNumber.
    apply emits_bind; [exact Hp| |intros _].
    { destruct (snd st); emits_auto; intros g; split; reflexivity. }
    emits_auto; try (intros g; split; reflexivity).
    destruct operands as [|a6 more]; emits_auto;
      try (intros g; split; reflexivity).
    destruct more; emits_auto; try (intros g; split; reflexivity). }
  destruct (O _ _ E) as (_ & _ & _ & (Q2 & M2) & _). simpl in Q2, M2.
  rewrite Q2, M2. auto.
Qed.


Lemma parseArgs_options_type opts :
  forall sflag type (w : world) st w',
    parseArgs_options kernel opts sflag type w = Some (Ret st w') ->
    snd st = last_type_option opts type
    /\ IPC_TYPE (glob w') = IPC_TYPE (glob w)
    /\ SOCK_TYPE (glob w') = SOCK_TYPE (glob w)
    /\ SOCK_DOMAIN (glob w') = SOCK_DOMAIN (glob w).
Proof.
  induction opts as [|o opts IH]; intros sflag type w st w' E.
  - inversion E; subst. simpl. auto.
  - cbn [parseArgs_options] in E.
    destruct o;
      try (apply bind_Ret in E; destruct E as (n & w1 & E1 & E);
           apply inputNumber_Ret in E1; subst w1);
      try (rewrite modify_bind in E; apply IH in E; simpl in E; exact E).
    + apply bind_Ret in E. destruct E as (u & w1 & _ & E).
      rewrite exit_spec in E. discriminate.
    + apply IH in E. exact E.
    + apply bind_Ret in E. destruct E as (u & w1 & _ & E).
      rewrite exit_spec in E. discriminate.
Qed.

Lemma parseArgs_type_Ret type (w : world) u w' :
  @parseArgs_type K type w = Some (Ret u w') ->
  IPC_TYPE (glob w')
  = match type with
    | Some t => match ipc_named t with
                | Some i => i
                | None => IPC_TYPE (glob w)
                end
    | None => IPC_TYPE (glob w)
    end
  /\ SOCK_TYPE (glob w') = SOCK_TYPE (glob w)
  /\ SOCK_DOMAIN (glob w') = SOCK_DOMAIN (glob w)
  /\ SET_SOCKTYPE (glob w') = SET_SOCKTYPE (glob w).
Proof.
  unfold parseArgs_type, ipc_named. destruct type as [t|].
  - destruct (strcasecmp_eq t "fifo");
      [|destruct (strcasecmp_eq t "pipe");
        [|destruct (strcasecmp_eq t "socket");
          [|destruct (strcasecmp_eq t "socketpair")]]];
      intros E; inversion E; subst; simpl; auto.
  - intros E; inversion E; subst; simpl; auto.
Qed.

(** The part of [parseArgs] after the options, for a command line that is
    accepted. *)
Lemma parseArgs_accepted opts operands (w : world) w' :
  parseArgs kernel opts operands w = Some (Ret tt w') ->
  exists st (w1 w2 : world),
    parseArgs_options kernel opts false None w = Some (Ret st w1)
    /\ parseArgs_type (snd st) w1 = Some (Ret tt w2)
    /\ parseArgs_socket kernel (fst st) operands w2 = Some (Ret tt w').
Proof.
  intros E. unfold parseArgs in E.
  apply bind_Ret in E. destruct E as (st & w1 & E1 & E).
  destruct (2 <? Z.of_nat (List.length operands)).
  { apply bind_Ret in E. destruct E as (u & w2 & _ & E).
    rewrite exit_spec in E. discriminate. }
  apply bind_Ret in E. destruct E as ([] & w2 & E2 & E).
  rewrite !get_bind in E.
  destruct (negb (ipc_eqb (IPC_TYPE (glob w2)) IPC_PIPE)
            && negb (SET_PIPEBUF (glob w2) =? -1)).
  { apply bind_Ret in E. destruct E as (u & w3 & _ & E).
    rewrite exit_spec in E. discriminate. }
  eauto 6.
Qed.

Lemma parseArgs_operands_keeps operands :
  emits (fun _ => True)
    (fun g g' => same_transport g g' /\ same_socket g g')
    (parseArgs_operands kernel operands).
Proof.
  assert (Hp : preorder (fun g g' => same_transport g g' /\ same_socket g g')).
  { destruct preorder_same_transport as (T1 & T2).
    destruct preorder_same_socket as (S1 & S2).
    split; [auto|]. intros x y z (A1 & A2) (B1 & B2). eauto. }
  assert (Hm : forall f : globals -> globals,
            (forall g, IPC_TYPE (f g) = IPC_TYPE g
                       /\ SOCK_TYPE (f g) = SOCK_TYPE g
                       /\ SOCK_DOMAIN (f g) = SOCK_DOMAIN g
                       /\ SET_SOCKTYPE (f g) = SET_SOCKTYPE g) ->
            forall g, same_transport g (f g) /\ same_socket g (f g)).
  { intros f Hf g. destruct (Hf g) as (A & B & C & D).
    unfold same_transport, same_socket. auto. }
  unfold parseArgs_operands, inputNumber.
  destruct operands as [|a0 more]; emits_auto;
    try (apply Hm; intros g; simpl; auto).
  destruct more; emits_auto; try (apply Hm; intros g; simpl; auto).
Qed.

(** parseArgs, lines 383-393.  When the command line is accepted, the
    transport is the one named by the last [-t], whatever the case of the
    name; a name that is none of the four is ignored, as are all [-t] but
    the last: the transport is then the one set before. *)
Theorem transport_is_the_last_named opts operands (w : world) w' :
  parseArgs kernel opts operands w = Some (Ret tt w') ->
  IPC_TYPE (glob w')
  = match last_type_option opts None with
    | Some t => match ipc_named t with
                | Some i => i
                | None => IPC_TYPE (glob w)
                end
    | None => IPC_TYPE (glob w)
    end.
Proof.
  intros E.
  destruct (parseArgs_accepted _ _ _ _ E) as (st & w1 & w2 & E1 & E2 & E3).
  destruct (parseArgs_options_type _ _ _ _ _ _ E1) as (T1 & I1 & _).
  destruct (parseArgs_type_Ret _ _ _ _ E2) as (I2 & _).
  rewrite T1, I1 in I2. rewrite <- I2.
  pose proof preorder_same_transport as Hp.
  assert (O : emits (fun _ => True) same_transport
                (parseArgs_socket kernel (fst st) operands)).
  { unfold parseArgs_socket.
    apply emits_bind; [exact Hp|now apply emits_get|intros t].
    apply emits_if; [emits_auto|].
    apply emits_bind; [exact Hp|now apply emits_get|intros s0].
    apply emits_if; [emits_auto|].
    apply emits_bind; [exact Hp|emits_auto; intros g; reflexivity|intros _].
    apply emits_bind; [exact Hp|now apply emits_get|intros s1].
    apply emits_bind; [exact Hp|emits_auto; intros g; reflexivity|intros _].
    eapply emits_impl; [| |apply parseArgs_operands_keeps];
      [auto|intros g g' (A & _); exact A]. }
  destruct (O _ _ E3) as (_ & _ & _ & G & _). exact G.
Qed.

(** parseArgs, lines 401-430.  When the command line is accepted and the
    socket settings were the defaults before, the socket type that is left
    reads "stream" or "dgram" (in any case), and [SOCK_TYPE] is
    [SOCK_STREAM] exactly for "stream"; a socket domain other than the
    local one is left only together with the transport [socket]. *)
Theorem accepted_socket_settings opts operands (w : world) w' :
  parseArgs kernel opts operands w = Some (Ret tt w') ->
  SOCK_TYPE (glob w) = SOCK_DGRAM ->
  SOCK_DOMAIN (glob w) = PF_LOCAL ->
  (if strcasecmp_eq (SET_SOCKTYPE (glob w')) "stream"
   then SOCK_TYPE (glob w') = SOCK_STREAM
   else strcasecmp_eq (SET_SOCKTYPE (glob w')) "dgram" = true
        /\ SOCK_TYPE (glob w') = SOCK_DGRAM)
  /\ (SOCK_DOMAIN (glob w') <> PF_LOCAL -> IPC_TYPE (glob w') = IPC_SOCKET).
Proof.
  intros E Ht Hd.
  destruct (parseArgs_accepted _ _ _ _ E) as (st & w1 & w2 & E1 & E2 & E3).
  destruct (parseArgs_options_type _ _ _ _ _ _ E1) as (_ & _ & S1 & D1).
  destruct (parseArgs_type_Ret _ _ _ _ E2) as (_ & S2 & D2 & _).
  assert (Ht2 : SOCK_TYPE (glob w2) = SOCK_DGRAM) by congruence.
  assert (Hd2 : SOCK_DOMAIN (glob w2) = PF_LOCAL) by congruence.
  clear E E1 E2 S1 D1 S2 D2 Ht Hd.
  unfold parseArgs_socket in E3. rewrite get_bind in E3.
  destruct (fst st && negb (ipc_eqb (IPC_TYPE (glob w2)) IPC_SOCKET)
            && negb (ipc_eqb (IPC_TYPE (glob w2)) IPC_SOCKETPAIR)).
  { apply bind_Ret in E3. destruct E3 as (u & w3 & _ & E3).
    rewrite exit_spec in E3. discriminate. }
  rewrite get_bind in E3.
  destruct (has_prefix "inet" (SET_SOCKTYPE (glob w2))
            && negb (ipc_eqb (IPC_TYPE (glob w2)) IPC_SOCKET)) eqn:Hin.
  { apply bind_Ret in E3. destruct E3 as (u & w3 & _ & E3).
    rewrite exit_spec in E3. discriminate. }
  assert (Hsock : has_prefix "inet" (SET_SOCKTYPE (glob w2)) = true ->
                  IPC_TYPE (glob w2) = IPC_SOCKET).
  { intros P. rewrite P in Hin. simpl in Hin.
    apply negb_false_iff in Hin.
    destruct (IPC_TYPE (glob w2)); simpl in Hin; congruence. }
  apply bind_Ret in E3. destruct E3 as ([] & w3 & E3 & E4).
  assert (G3 : IPC_TYPE (glob w3) = IPC_TYPE (glob w2)
               /\ SOCK_TYPE (glob w3) = SOCK_DGRAM
               /\ (SOCK_DOMAIN (glob w3) <> PF_LOCAL ->
                   IPC_TYPE (glob w2) = IPC_SOCKET)).
  { destruct (has_prefix "inet-" (SET_SOCKTYPE (glob w2))) eqn:P4.
    - inversion E3; subst w3; simpl.
      split; [reflexivity|]. split; [exact Ht2|].
      intros _. apply Hsock. unfold has_prefix in *.
      now apply (prefix_app "inet" "-").
    - destruct (has_prefix "inet6-" (SET_SOCKTYPE (glob w2))) eqn:P6.
      + inversion E3; subst w3; simpl.
        split; [reflexivity|]. split; [exact Ht2|].
        intros _. apply Hsock. unfold has_prefix in *.
        now apply (prefix_app "inet" "6-").
      + inversion E3; subst w3; simpl.
        split; [reflexivity|]. split; [exact Ht2|].
        intros X. congruence. }
  destruct G3 as (I3 & T3 & D3). clear E3 Hin Hsock.
  rewrite get_bind in E4.
  apply bind_Ret in E4. destruct E4 as ([] & w4 & E4 & E5).
  destruct (parseArgs_operands_keeps _ _ _ E5)
    as (_ & _ & _ & (Gt & Gs & Gd & Gn) & _). simpl in Gt, Gs, Gd, Gn.
  unfold same_transport in Gt. rewrite Gn, Gs, Gd, Gt.
  destruct (strcasecmp_eq (SET_SOCKTYPE (glob w3)) "stream") eqn:Hst.
  - inversion E4; subst w4; simpl. rewrite Hst. split; [reflexivity|].
    intros X. rewrite I3. auto.
  - destruct (strcasecmp_eq (SET_SOCKTYPE (glob w3)) "dgram") eqn:Hdg;
      simpl in E4.
    + inversion E4; subst w4. rewrite Hst, Hdg. split; [auto|].
      intros X. rewrite I3. auto.
    + apply bind_Ret in E4. destruct E4 as (u & w5 & _ & E4).
      rewrite exit_spec in E4. discriminate.
Qed.

(** The socket type the checks of lines 401-430 see is the argument of the
    last [-s], or what was set before. *)
Lemma parseArgs_options_socktype opts :
  forall sflag type (w : world) st w',
    parseArgs_options kernel opts sflag type w = Some (Ret st w') ->
    SET_SOCKTYPE (glob w')
    = last_socket_option opts (SET_SOCKTYPE (glob w)).
Proof.
  unfold last_socket_option.
  induction opts as [|o opts IH]; intros sflag type w st w' E.
  - inversion E; subst. reflexivity.
  - cbn [parseArgs_options] in E. cbn [fold_left].
    destruct o;
      try (apply bind_Ret in E; destruct E as (n & w1 & E1 & E);
           apply inputNumber_Ret in E1; subst w1);
      try (rewrite modify_bind in E; apply IH in E; simpl in E; exact E).
    + apply bind_Ret in E. destruct E as (u & w1 & _ & E).
      rewrite exit_spec in E. discriminate.
    + apply IH in E. exact E.
    + apply bind_Ret in E. destruct E as (u & w1 & _ & E).
      rewrite exit_spec in E. discriminate.
Qed.

(** What the checks of lines 401-430 let through. *)
Lemma parseArgs_socket_checks sflag operands (w2 : world) w' :
  parseArgs_socket kernel sflag operands w2 = Some (Ret tt w') ->
  IPC_TYPE (glob w') = IPC_TYPE (glob w2)
  /\ (has_prefix "inet" (SET_SOCKTYPE (glob w2)) = true ->
      IPC_TYPE (glob w2) = IPC_SOCKET)
  /\ (strcasecmp_eq (bare_socket_type (SET_SOCKTYPE (glob w2))) "stream"
      = true
      \/ strcasecmp_eq (bare_socket_type (SET_SOCKTYPE (glob w2))) "dgram"
         = true).
Proof.
  intros E3. unfold parseArgs_socket in E3. rewrite get_bind in E3.
  destruct (sflag && negb (ipc_eqb (IPC_TYPE (glob w2)) IPC_SOCKET)
            && negb (ipc_eqb (IPC_TYPE (glob w2)) IPC_SOCKETPAIR)).
  { apply bind_Ret in E3. destruct E3 as (u & w3 & _ & E3).
    rewrite exit_spec in E3. discriminate. }
  rewrite get_bind in E3.
  destruct (has_prefix "inet" (SET_SOCKTYPE (glob w2))
            && negb (ipc_eqb (IPC_TYPE (glob w2)) IPC_SOCKET)) eqn:Hin.
  { apply bind_Ret in E3. destruct E3 as (u & w3 & _ & E3).
    rewrite exit_spec in E3. discriminate. }
  assert (Hsock : has_prefix "inet" (SET_SOCKTYPE (glob w2)) = true ->
                  IPC_TYPE (glob w2) = IPC_SOCKET).
  { intros P. rewrite P in Hin. simpl in Hin.
    apply negb_false_iff in Hin.
    destruct (IPC_TYPE (glob w2)); simpl in Hin; congruence. }
  apply bind_Ret in E3. destruct E3 as ([] & w3 & E3 & E4).
  assert (G3 : IPC_TYPE (glob w3) = IPC_TYPE (glob w2)
               /\ SET_SOCKTYPE (glob w3)
                  = bare_socket_type (SET_SOCKTYPE (glob w2))).
  { unfold bare_socket_type.
    destruct (has_prefix "inet-" (SET_SOCKTYPE (glob w2))).
    - inversion E3; subst w3; simpl. auto.
    - destruct (has_prefix "inet6-" (SET_SOCKTYPE (glob w2)));
        inversion E3; subst w3; simpl; auto. }
  destruct G3 as (I3 & T3). clear E3 Hin.
  rewrite get_bind in E4.
  apply bind_Ret in E4. destruct E4 as ([] & w4 & E4 & E5).
  destruct (parseArgs_operands_keeps _ _ _ E5)
    as (_ & _ & _ & (Gt & _) & _). simpl in Gt.
  unfold same_transport in Gt. rewrite <- T3.
  destruct (strcasecmp_eq (SET_SOCKTYPE (glob w3)) "stream") eqn:Hst.
  - inversion E4; subst w4; simpl in Gt.
    split; [congruence|]. split; [exact Hsock|now left].
  - destruct (strcasecmp_eq (SET_SOCKTYPE (glob w3)) "dgram") eqn:Hdg;
      simpl in E4.
    + inversion E4; subst w4.
      split; [congruence|]. split; [exact Hsock|now right].
    + apply bind_Ret in E4. destruct E4 as (u & w5 & _ & E4).
      rewrite exit_spec in E4. discriminate.
Qed.

(** C9 (amended) -- The configuration errors [parseArgs] detects end the
    program before any call to the kernel.  From the start of the program
    [parseArgs] always comes to an end, calls nothing and registers nothing;
    it prints only on its way out.  When it exits, the status is
    [EXIT_FAILURE], or [EXIT_SUCCESS] where [-h] was given, and [main] ends
    there.  It returns only when every [-P], [-R], [-S] argument reads as a
    number of at least 1 and every [-n] argument and operand as a number of
    at least 0, there are at most two operands, [-P] goes with a pipe and
    [-s] with a socket or socket pair, a socket type that starts with
    "inet" goes with a socket, and the socket type, its prefix "inet-" or
    "inet6-" taken off, reads "stream" or "dgram" in any case.  The number
    read is what [strtol] yields cut to 32 bits: text without digits reads
    as 0. *)
Theorem detected_configuration_errors_exit_before_any_call
  fuel opts operands (k : K) :
  exists r,
    parseArgs kernel opts operands (start k) = Some r
    /\ kst (world_of r) = k
    /\ hooks (world_of r) = false
    /\ Forall is_printf (trace (world_of r))
    /\ match r with
       | Ret _ w' =>
           trace w' = []
           /\ Forall option_accepted opts
           /\ (List.length operands <= 2)%nat
           /\ Forall (fun a => accepted_number a 0) operands
           /\ (IPC_TYPE (glob w') = IPC_PIPE
               \/ forall a, ~ In (opt_P a) opts)
           /\ (existsb is_opt_s opts = true ->
               IPC_TYPE (glob w') = IPC_SOCKET
               \/ IPC_TYPE (glob w') = IPC_SOCKETPAIR)
           /\ (has_prefix "inet"
                 (last_socket_option opts (SET_SOCKTYPE initial_globals))
               = true ->
               IPC_TYPE (glob w') = IPC_SOCKET)
           /\ (strcasecmp_eq
                 (bare_socket_type
                    (last_socket_option opts (SET_SOCKTYPE initial_globals)))
                 "stream" = true
               \/ strcasecmp_eq
                    (bare_socket_type
                       (last_socket_option opts
                          (SET_SOCKTYPE initial_globals)))
                    "dgram" = true)
       | Exit s w' =>
           exit_status_ok opts s
           /\ main kernel pf fuel opts operands (start k)
              = Some (Exit s w', None)
       end.
Proof.
  destruct (parseArgs_ends_before_any_call kernel pf fuel opts operands k)
    as (r & E & H1 & H2 & H3 & X).
  exists r. split; [exact E|]. split; [exact H1|]. split; [exact H2|].
  split; [exact H3|].
  destruct r as [[] w'|s w']; [|exact X].
  destruct X as (X1 & X2 & X3 & X4 & X5 & X6).
  split; [exact X1|]. split; [exact X2|]. split; [exact X3|].
  split; [exact X4|]. split; [exact X5|]. split; [exact X6|].
  destruct (parseArgs_accepted _ _ _ _ E) as (st & w1 & w2 & E1 & E2 & E3).
  pose proof (parseArgs_options_socktype _ _ _ _ _ _ E1) as S1.
  destruct (parseArgs_type_Ret _ _ _ _ E2) as (_ & _ & _ & S2).
  destruct (parseArgs_socket_checks _ _ _ _ E3) as (I3 & C1 & C2).
  assert (S : SET_SOCKTYPE (glob w2)
              = last_socket_option opts (SET_SOCKTYPE initial_globals)).
  { rewrite S2, S1. reflexivity. }
  rewrite S in C1, C2. split; [|exact C2].
  intros P. rewrite I3. now apply C1.
Qed.

End Options.

(** ** Sample runs of the rest of the program *)

(** The label of the one sysctl Linux reports. *)
Lemma label_of_max_dgram_qlen :
  no_dot "max_dgram_qlen" = true
  /\ sysctl_short_name "net.unix.max_dgram_qlen" = "max_dgram_qlen".
Proof.
  split; [reflexivity|].
  exact (proj1 (sysctl_label_is_last_component "net.unix" "max_dgram_qlen"
                  eq_refl)).
Defined.

(** The probe on descriptor 4 of a pipe with room for seven bytes. *)
Lemma probe_on_descriptor_4 :
  exists r a rest,
    writeData chan_kernel linux 10 4 (start (stream_chan 7)) = Some r
    /\ trace (world_of r)
       = trace (start (stream_chan 7)) ++ Sys (c_fcntl_nonblock 4) a :: rest
    /\ read_calls rest = [].
Proof.
  eexists.
  match goal with |- exists a rest, ?lhs = Some ?r /\ _ =>
    assert (E : lhs = Some r) by (vm_compute; reflexivity) end.
  destruct (probe_touches_only_its_descriptor chan_kernel linux 10 4
              (start (stream_chan 7)) _ E) as (a & rest & T & _ & R & _).
  exists a, rest. auto.
Defined.

(** The drain on descriptor 3 of an empty pipe. *)
Lemma drain_on_descriptor_3 :
  exists r d,
    readData chan_kernel linux 10 3 (start (stream_chan 7)) = Some r
    /\ trace (world_of r) = trace (start (stream_chan 7)) ++ d
    /\ write_calls d = []
    /\ Forall (fun y => fst (fst y) = 3) (read_calls d).
Proof.
  eexists.
  match goal with |- exists d, ?lhs = Some ?r /\ _ =>
    assert (E : lhs = Some r) by (vm_compute; reflexivity) end.
  destruct (drain_touches_only_its_descriptor chan_kernel linux 10 3
              (start (stream_chan 7)) _ E) as (d & T & _ & W & R & _).
  exists d. auto.
Defined.

(** [doPipe] on a pipe with room for seven bytes. *)
Lemma pipe_of_seven_bytes :
  exists r a d,
    doPipe chan_kernel linux 10 (start (stream_chan 7)) = Some r
    /\ trace (world_of r) = trace (start (stream_chan 7)) ++ Sys c_pipe a :: d
    /\ probe_before_drain (out0 a) (out1 a) d.
Proof.
  eexists.
  match goal with |- exists a d, ?lhs = Some ?r /\ _ =>
    assert (E : lhs = Some r) by (vm_compute; reflexivity) end.
  destruct (pipe_is_written_then_read chan_kernel linux 10
              (start (stream_chan 7)) _ E) as (a & d & T & _ & P & _).
  exists a, d. auto.
Defined.

(** [doFifo] on a FIFO with room for seven bytes. *)
Lemma fifo_of_seven_bytes :
  exists r pre a1 d1,
    doFifo chan_kernel linux 10 (start (stream_chan 7)) = Some r
    /\ trace (world_of r)
       = trace (start (stream_chan 7)) ++ pre
         ++ Sys (c_mkfifo "fifo") a1 :: d1
    /\ Forall no_call pre.
Proof.
  eexists.
  match goal with |- exists pre a1 d1, ?lhs = Some ?r /\ _ =>
    assert (E : lhs = Some r) by (vm_compute; reflexivity) end.
  destruct (fifo_is_opened_for_reading_first chan_kernel linux 10
              (start (stream_chan 7)) _ E) as (pre & a1 & d1 & T & F & _).
  exists pre, a1, d1. auto.
Defined.

(** [doSocketpair] on a pair that queues datagrams of at most four bytes. *)
Lemma socketpair_of_small_datagrams :
  exists r pre a d,
    doSocketpair chan_kernel linux 10 (start (dgram_chan 7 4)) = Some r
    /\ trace (world_of r)
       = trace (start (dgram_chan 7 4)) ++ pre
         ++ Sys (c_socketpair SOCK_DGRAM) a :: d
    /\ probe_before_drain (out0 a) (out1 a) d.
Proof.
  eexists.
  match goal with |- exists pre a d, ?lhs = Some ?r /\ _ =>
    assert (E : lhs = Some r) by (vm_compute; reflexivity) end.
  destruct (socketpair_is_written_then_read chan_kernel linux 10
              (start (dgram_chan 7 4)) _ E) as (pre & a & d & T & _ & _ & P & _).
  exists pre, a, d. auto.
Defined.

(** [ipcbuf -t socket] on a datagram channel: one process, one socket. *)
Lemma datagram_socket_run :
  SOCK_TYPE (glob (start (dgram_chan 7 4))) = SOCK_DGRAM
  /\ exists rn,
       doSocket chan_kernel linux 10 (exit_ chan_kernel EXIT_SUCCESS)
         (start (dgram_chan 7 4)) = Some rn
       /\ snd rn = None.
Proof.
  split; [reflexivity|]. eexists.
  match goal with |- ?lhs = Some ?r /\ _ =>
    assert (E : lhs = Some r) by (vm_compute; reflexivity) end.
  split; [exact E|].
  exact (proj1 (datagram_socket_is_its_own_peer chan_kernel linux 10
                  (start (dgram_chan 7 4)) _ eq_refl E)).
Defined.

(** The child of a stream socket, the listening socket being descriptor
    3. *)
Lemma stream_child_run :
  SOCK_TYPE (glob (mkWorld (stream_chan 7)
                     (set_SOCK_TYPE SOCK_STREAM initial_globals) false []))
  = SOCK_STREAM
  /\ exists r u a d,
       doSocket_child chan_kernel linux 10 3
         (mkWorld (stream_chan 7)
            (set_SOCK_TYPE SOCK_STREAM initial_globals) false [])
       = Some r
       /\ trace (world_of r)
          = Sys (c_usleep 500) u :: Sys (c_socket PF_LOCAL SOCK_STREAM) a :: d
       /\ Forall (writer_event 3 (retval a)) d.
Proof.
  split; [reflexivity|]. eexists.
  match goal with |- exists u a d, ?lhs = Some ?r /\ _ =>
    assert (E : lhs = Some r) by (vm_compute; reflexivity) end.
  destruct (stream_child_only_writes chan_kernel linux 10 3
              (mkWorld (stream_chan 7)
                 (set_SOCK_TYPE SOCK_STREAM initial_globals) false [])
              _ eq_refl E) as (u & a & d & T & F & _).
  exists u, a, d. auto.
Defined.

(** The parent of a stream socket, the child being process 4242. *)
Lemma stream_parent_run :
  exists r s w' a d,
    doSocket_serve chan_kernel linux 10 4242 3 (start (stream_chan 7))
    = Some r
    /\ r = Exit s w'
    /\ trace w' = trace (start (stream_chan 7)) ++ Sys (c_accept 3) a :: d
    /\ Forall (reader_event (retval a)) d.
Proof.
  eexists.
  match goal with |- exists s w' a d, ?lhs = Some ?r /\ _ =>
    assert (E : lhs = Some r) by (vm_compute; reflexivity) end.
  destruct (stream_parent_only_reads chan_kernel linux 10 4242 3
              (start (stream_chan 7)) _ E) as (s & w' & a & d & X & T & F & _).
  exists s, w', a, d. auto.
Defined.

(** [ipcbuf] without arguments on a pipe with room for seven bytes. *)
Lemma default_run_ends_with_the_handler :
  exists rn s w',
    main chan_kernel linux 50 [] [] (start (stream_chan 7)) = Some rn
    /\ fst rn = Exit s w'
    /\ (s = EXIT_SUCCESS \/ s = EXIT_FAILURE).
Proof.
  eexists.
  match goal with |- exists s w', ?lhs = Some ?r /\ _ =>
    assert (E : lhs = Some r) by (vm_compute; reflexivity) end.
  destruct (a_process_that_ends_ends_through_exit chan_kernel linux 50 [] []
              (stream_chan 7) _ E _ (or_introl eq_refl))
    as (s & w' & X & S & _).
  exists s, w'. auto.
Defined.

(** Three bytes below [INT_MAX], growing by one: the size is out of range
    after three steps. *)
Lemma loop_near_INT_MAX :
  (1 <= 1 <= INT_MAX /\ 0 <= INT_MAX - 2 <= INT_MAX
   /\ INT_MAX < INT_MAX - 2 + 1 * Z.of_nat 3)
  /\ (3 < 4)%nat
  /\ exists r d,
       writeLoop chan_kernel 4 4 (INT_MAX - 2) 1 (start (stream_chan 7))
       = Some r
       /\ trace (world_of r) = trace (start (stream_chan 7)) ++ d
       /\ (List.length (chunks_started d) <= 4)%nat.
Proof.
  assert (H : 1 <= 1 <= INT_MAX /\ 0 <= INT_MAX - 2 <= INT_MAX
              /\ INT_MAX < INT_MAX - 2 + 1 * Z.of_nat 3)
    by (unfold INT_MAX; simpl; lia).
  split; [exact H|]. split; [lia|].
  exact (growing_loop_ends chan_kernel 3 4 4 (INT_MAX - 2) 1
           (start (stream_chan 7)) (or_intror H) ltac:(lia)).
Defined.

(** [ipcbuf -q] on a pipe with room for seven bytes prints [7]. *)
Lemma quiet_pipe_of_seven_bytes :
  QUIET (glob (mkWorld (stream_chan 7) (set_QUIET true initial_globals)
                 false [])) = true
  /\ exists r d,
       doPipe chan_kernel linux 10
         (mkWorld (stream_chan 7) (set_QUIET true initial_globals) false [])
       = Some r
       /\ trace (world_of r) = d
       /\ at_most_the_total (TOTAL (glob (world_of r))) (stdout_of d).
Proof.
  split; [reflexivity|]. eexists.
  match goal with |- exists d, ?lhs = Some ?r /\ _ =>
    assert (E : lhs = Some r) by (vm_compute; reflexivity) end.
  destruct (quiet_run_prints_only_the_total chan_kernel linux 10
              (doPipe chan_kernel linux 10)
              (mkWorld (stream_chan 7) (set_QUIET true initial_globals)
                 false [])
              _ eq_refl (or_introl eq_refl) E) as (d & T & S & _).
  exists d. auto.
Defined.

(** The probe of a pipe ends with [close]. *)
Lemma probe_of_a_pipe_closes_it :
  exists w' pre a,
    writeData chan_kernel linux 10 4 (start (stream_chan 7))
    = Some (Ret tt w')
    /\ trace w'
       = pre ++ [Printf stdout "Observed total : %8d\n\n" [I (TOTAL (glob w'))];
                Sys (c_close 4) a].
Proof.
  eexists.
  match goal with |- exists pre a, ?lhs = Some (Ret tt ?w) /\ _ =>
    assert (E : lhs = Some (Ret tt w)) by (vm_compute; reflexivity) end.
  destruct (probe_closes_pipes_only chan_kernel linux 10 4
              (start (stream_chan 7)) _ E) as (pre & _ & a & T).
  exists pre, a. auto.
Defined.

(** [ipcbuf -q -l -c]: quiet, and in chunk mode. *)
Lemma quiet_chunk_mode :
  exists w',
    parseArgs chan_kernel [opt_q; opt_l; opt_c] [] (start (stream_chan 7))
    = Some (Ret tt w')
    /\ QUIET (glob w') = true /\ MODE (glob w') = CHUNK.
Proof.
  eexists.
  match goal with |- ?lhs = Some (Ret tt ?w) /\ _ =>
    assert (E : lhs = Some (Ret tt w)) by (vm_compute; reflexivity) end.
  split; [exact E|].
  exact (options_decide_quiet_and_mode chan_kernel [opt_q; opt_l; opt_c] []
           (start (stream_chan 7)) _ E).
Defined.

(** [ipcbuf -t FIFO -t bogus]: the last name counts and is unknown, so the
    transport is the pipe of the defaults. *)
Lemma last_type_is_unknown :
  exists w',
    parseArgs chan_kernel [opt_t "FIFO"; opt_t "bogus"] []
      (start (stream_chan 7))
    = Some (Ret tt w')
    /\ IPC_TYPE (glob w') = IPC_PIPE.
Proof.
  eexists.
  match goal with |- ?lhs = Some (Ret tt ?w) /\ _ =>
    assert (E : lhs = Some (Ret tt w)) by (vm_compute; reflexivity) end.
  split; [exact E|].
  exact (transport_is_the_last_named chan_kernel
           [opt_t "FIFO"; opt_t "bogus"] [] (start (stream_chan 7)) _ E).
Defined.

(** [ipcbuf -t socket -s inet-STREAM]. *)
Lemma inet_stream_socket :
  SOCK_TYPE (glob (start (stream_chan 7))) = SOCK_DGRAM
  /\ SOCK_DOMAIN (glob (start (stream_chan 7))) = PF_LOCAL
  /\ exists w',
       parseArgs chan_kernel [opt_t "socket"; opt_s "inet-STREAM"] []
         (start (stream_chan 7))
       = Some (Ret tt w')
       /\ SOCK_TYPE (glob w') = SOCK_STREAM
       /\ (SOCK_DOMAIN (glob w') <> PF_LOCAL ->
           IPC_TYPE (glob w') = IPC_SOCKET).
Proof.
  split; [reflexivity|]. split; [reflexivity|]. eexists.
  match goal with |- ?lhs = Some (Ret tt ?w) /\ _ =>
    assert (E : lhs = Some (Ret tt w)) by (vm_compute; reflexivity) end.
  split; [exact E|].
  exact (accepted_socket_settings chan_kernel
           [opt_t "socket"; opt_s "inet-STREAM"] [] (start (stream_chan 7))
           _ E eq_refl eq_refl).
Defined.
